(** * jip: a shallow embedding of the send pipeline

    The development follows the Go packages of the repository:
    - [jj]      internal/jj/bookmark.go (sync states, bookmark assignment,
                canonical bookmark names, change DAGs) and internal/jj/runner.go
                (the VCS driver interface);
    - [github]  internal/github/prbody.go (PR bodies and interdiff comments);
    - [cmd]     cmd/send.go (the send pipeline, skip classification and
                per-change stack membership).

    Go [int] values are modelled as [Z], Go strings as [string] (sequences of
    bytes), Go maps as [gmap], slices as [list]. *)

From Stdlib Require Import ZArith Lia String Ascii List Permutation DecimalString.
From stdpp Require Import base option list gmap strings fin_maps relations sorting.

Local Open Scope string_scope.
Local Open Scope Z_scope.
Local Open Scope list_scope.

(** ** Go runtime: strings, errors, outcomes and effects *)

Module go.

(** *** strings *)

(** [strings.HasPrefix]. *)
Definition HasPrefix (s pre : string) : bool := String.prefix pre s.

(** [strings.Split(s, sep)] for a separator of one byte. *)
Fixpoint SplitByte (sep : ascii) (s : string) : list string :=
  match s with
  | EmptyString => [EmptyString]
  | String c s' =>
      if Ascii.eqb c sep then EmptyString :: SplitByte sep s'
      else match SplitByte sep s' with
           | [] => [String c EmptyString]
           | x :: xs => String c x :: xs
           end
  end.

(** [strings.Join]. *)
Definition Join (l : list string) (sep : string) : string := String.concat sep l.

(** [strings.TrimLeft(s, cutset)] for a cutset of one byte. *)
Fixpoint TrimLeftByte (c : ascii) (s : string) : string :=
  match s with
  | EmptyString => EmptyString
  | String a s' => if Ascii.eqb a c then TrimLeftByte c s' else s
  end.

(** [strings.TrimRight(s, cutset)] for a cutset of one byte. *)
Fixpoint TrimRightByte (c : ascii) (s : string) : string :=
  match s with
  | EmptyString => EmptyString
  | String a s' =>
      let t := TrimRightByte c s' in
      if String.eqb t EmptyString && Ascii.eqb a c then EmptyString
      else String a t
  end.

(** [strings.Trim(s, cutset)] for a cutset of one byte. *)
Definition TrimByte (c : ascii) (s : string) : string :=
  TrimRightByte c (TrimLeftByte c s).

(** [strings.LastIndex(s, sep)] for a separator of one byte; [-1] when the
    byte does not occur. *)
Fixpoint LastIndexByte (c : ascii) (s : string) : Z :=
  match s with
  | EmptyString => -1
  | String a s' =>
      let r := LastIndexByte c s' in
      if 0 <=? r then r + 1
      else if Ascii.eqb a c then 0 else -1
  end.

(** The slice expression [s[:n]]; the callers establish [n <= len(s)]. *)
Definition slice_to (n : nat) (s : string) : string := substring 0 n s.

(** [strings.SplitN(s, sep, 2)]: the text before and after the first
    occurrence of [sep], or [None] when [sep] does not occur (Go returns the
    one-element slice [[s]] then). *)
Definition SplitN2 (s sep : string) : option (string * string) :=
  match String.index 0 sep s with
  | Some i =>
      Some (substring 0 i s,
            substring (i + String.length sep)
                      (String.length s - (i + String.length sep)) s)
  | None => None
  end.

(** Bytes of the ASCII range, as [unicode] classifies them. *)
Definition byte_between (lo hi c : ascii) : bool :=
  (nat_of_ascii lo <=? nat_of_ascii c)%nat && (nat_of_ascii c <=? nat_of_ascii hi)%nat.

Definition isLower (c : ascii) : bool := byte_between "a" "z" c.
Definition isUpper (c : ascii) : bool := byte_between "A" "Z" c.
Definition isDigit (c : ascii) : bool := byte_between "0" "9" c.
Definition isASCII (c : ascii) : bool := (nat_of_ascii c <? 128)%nat.

Definition lowerByte (c : ascii) : ascii :=
  if isUpper c then ascii_of_nat (nat_of_ascii c + 32) else c.

Fixpoint mapBytes (f : ascii -> ascii) (s : string) : string :=
  match s with
  | EmptyString => EmptyString
  | String c s' => String (f c) (mapBytes f s')
  end.

Fixpoint allBytes (p : ascii -> bool) (s : string) : bool :=
  match s with
  | EmptyString => true
  | String c s' => p c && allBytes p s'
  end.

(** The part of the Go library that depends on the Unicode tables:
    [strings.Map(unicode.ToLower, s)], the path [strings.ToLower] takes for a
    string that holds a byte outside ASCII. *)
Class Unicode : Type := { MapToLower : string -> string }.

(** [strings.ToLower]: byte-wise on an ASCII string, through the Unicode
    tables otherwise. *)
Definition ToLower `{Unicode} (s : string) : string :=
  if allBytes isASCII s then mapBytes lowerByte s else MapToLower s.

(** [strings.TrimSpace(s) == ""]: [s] is a sequence of white-space runes.
    [unicode.IsSpace] holds of U+0009..U+000D, U+0020, U+0085, U+00A0, U+1680,
    U+2000..U+200A, U+2028, U+2029, U+202F, U+205F and U+3000; the patterns
    below are their UTF-8 encodings. *)
Fixpoint isBlank (s : string) : bool :=
  match s with
  | EmptyString => true
  | String c r =>
      let b := nat_of_ascii c in
      if ((9 <=? b) && (b <=? 13) || (b =? 32))%nat then isBlank r
      else match r with
           | String c2 r2 =>
               let b2 := nat_of_ascii c2 in
               if ((b =? 194) && ((b2 =? 133) || (b2 =? 160)))%nat
               then isBlank r2
               else match r2 with
                    | String c3 r3 =>
                        let b3 := nat_of_ascii c3 in
                        if ((b =? 225) && (b2 =? 154) && (b3 =? 128)
                            || (b =? 226) && (b2 =? 128)
                               && ((128 <=? b3) && (b3 <=? 138)
                                   || (b3 =? 168) || (b3 =? 169) || (b3 =? 175))
                            || (b =? 226) && (b2 =? 129) && (b3 =? 159)
                            || (b =? 227) && (b2 =? 128) && (b3 =? 128))%nat
                        then isBlank r3
                        else false
                    | EmptyString => false
                    end
           | EmptyString => false
           end
  end.

(** The width in bytes of the first rune of [s], as [utf8.DecodeRuneInString]
    finds it: an invalid or truncated encoding is one byte wide. *)
Definition runeWidth (s : string) : nat :=
  match s with
  | EmptyString => O
  | String c r =>
      let b := nat_of_ascii c in
      let cont (x : ascii) := ((128 <=? nat_of_ascii x) && (nat_of_ascii x <=? 191))%nat in
      let within (lo hi : nat) (x : ascii) :=
        ((lo <=? nat_of_ascii x) && (nat_of_ascii x <=? hi))%nat in
      if (b <? 194)%nat then 1%nat
      else if (b <? 224)%nat then
        match r with
        | String c2 _ => if cont c2 then 2%nat else 1%nat
        | _ => 1%nat
        end
      else if (b <? 240)%nat then
        match r with
        | String c2 (String c3 _) =>
            if within (if (b =? 224)%nat then 160%nat else 128%nat)
                      (if (b =? 237)%nat then 159%nat else 191%nat) c2 && cont c3
            then 3%nat else 1%nat
        | _ => 1%nat
        end
      else if (b <? 245)%nat then
        match r with
        | String c2 (String c3 (String c4 _)) =>
            if within (if (b =? 240)%nat then 144%nat else 128%nat)
                      (if (b =? 244)%nat then 143%nat else 191%nat) c2 && cont c3 && cont c4
            then 4%nat else 1%nat
        | _ => 1%nat
        end
      else 1%nat
  end.

(** [fmt.Sprintf("%.Ns", s)]: the first [n] runes of [s].  [skip] counts the
    bytes still to copy of the rune being read. *)
Fixpoint takeRunes (n skip : nat) (s : string) : string :=
  match s with
  | EmptyString => EmptyString
  | String c r =>
      match skip with
      | S k => String c (takeRunes n k r)
      | O =>
          match n with
          | O => EmptyString
          | S n' => String c (takeRunes n' (runeWidth s - 1) r)
          end
      end
  end.

Definition precision (n : nat) (s : string) : string := takeRunes n O s.

(** [fmt.Sprintf("%d", n)]. *)
Definition itoa (n : Z) : string := NilZero.string_of_int (Z.to_int n).

(** Go's order on strings (byte-wise lexicographic), and [sort.Strings]. *)
Definition string_le (x y : string) : Prop := Is_true (String.leb x y).

#[global] Instance string_le_dec : RelDecision string_le.
Proof. intros x y. unfold string_le. apply _. Defined.

Definition SortStrings (l : list string) : list string := merge_sort string_le l.

(** [sort.Ints], on the natural numbers that index a slice. *)
Definition SortInts (l : list nat) : list nat := merge_sort Nat.le l.

(** *** errors and formatted output *)

(** An [error] value: built by [fmt.Errorf] from a format and its operands,
    or handed over by a collaborator (the VCS process, the hosting service, a
    decoder). *)
Inductive error : Type :=
| Errorf (format : string) (args : list fmtarg)
| External (msg : string)
with fmtarg : Type :=
| FStr (s : string)
| FInt (n : Z)
| FErr (e : error).

(** One write to the output stream: the format and its operands. *)
Inductive write : Type :=
| Fprintf (format : string) (args : list fmtarg)
| Fprintln (line : string).

(** *** outcomes *)

(** What a call comes to: a value, a returned [error], a run-time panic
    (index out of range, nil dereference), or the exhaustion of the fuel that
    bounds a loop of the model. *)
Inductive outcome (A : Type) : Type :=
| Ret (a : A)
| Raise (e : error)
| Panic
| OutOfFuel.

Arguments Ret {A} a.
Arguments Raise {A} e.
Arguments Panic {A}.
Arguments OutOfFuel {A}.

Definition obind {A B : Type} (m : outcome A) (k : A -> outcome B) : outcome B :=
  match m with
  | Ret a => k a
  | Raise e => Raise e
  | Panic => Panic
  | OutOfFuel => OutOfFuel
  end.

(** [l[i]], panicking out of range. *)
Definition index {A : Type} (l : list A) (i : nat) : outcome A :=
  match l !! i with
  | Some x => Ret x
  | None => Panic
  end.

(** [l[i] = x], panicking out of range. *)
Definition assign {A : Type} (l : list A) (i : nat) (x : A) : outcome (list A) :=
  if decide (i < length l)%nat then Ret (<[i := x]> l) else Panic.

(** *** effects *)

Section Effects.
Context {W E : Type}.

(** The state a run threads along: the outside world, the calls made on
    it so far (oldest first) and what was written to the output stream. *)
Record state : Type := mkState {
  world : W;
  trace : list E;
  output : list write
}.

Definition M (A : Type) : Type := state -> state * outcome A.

Definition ret {A : Type} (a : A) : M A := fun s => (s, Ret a).
Definition raise {A : Type} (e : error) : M A := fun s => (s, Raise e).
Definition of_outcome {A : Type} (o : outcome A) : M A := fun s => (s, o).

Definition bind {A B : Type} (m : M A) (k : A -> M B) : M B :=
  fun s =>
    match m s with
    | (s', Ret a) => k a s'
    | (s', Raise e) => (s', Raise e)
    | (s', Panic) => (s', Panic)
    | (s', OutOfFuel) => (s', OutOfFuel)
    end.

(** A call on a collaborator: it acts on the world and is recorded. *)
Definition perform {A : Type} (ev : E) (op : W -> W * A) : M A :=
  fun s =>
    let '(w', a) := op (world s) in
    (mkState w' (trace s ++ [ev]) (output s), Ret a).

(** [v, err := m] followed by a test of [err]: a returned error becomes
    a value. *)
Definition catch {A : Type} (m : M A) : M (error + A) :=
  fun s =>
    match m s with
    | (s', Ret a) => (s', Ret (inr a))
    | (s', Raise e) => (s', Ret (inl e))
    | (s', Panic) => (s', Panic)
    | (s', OutOfFuel) => (s', OutOfFuel)
    end.

(** A loop over a slice in the monad. *)
Fixpoint forM {A B : Type} (body : B -> A -> M B) (l : list A) (b : B) : M B :=
  match l with
  | [] => ret b
  | x :: l' => bind (body b x) (forM body l')
  end.

Definition print (wr : write) : M unit :=
  fun s => (mkState (world s) (trace s) (output s ++ [wr]), Ret tt).
End Effects.

Arguments state : clear implicits.
Arguments M : clear implicits.

(** Runs a computation whose calls are of type [E1] inside one whose calls
    are of type [E2]. *)
Definition lift {W E1 E2 A : Type} (inj : E1 -> E2) (m : M W E1 A) : M W E2 A :=
  fun s =>
    let '(s', r) := m (mkState (world s) [] (output s)) in
    (mkState (world s') (trace s ++ map inj (trace s')) (output s'), r).

End go.

Notation "'let*' x ':=' m 'in' k" := (go.bind m (fun x => k))
  (at level 10, x pattern, m at level 100, k at level 200).
Notation "'let?' x ':=' m 'in' k" := (go.obind m (fun x => k))
  (at level 10, x pattern, m at level 100, k at level 200).

(** ** The jj package *)

Module jj.

(** [SyncState]: how a local bookmark relates to a remote copy. *)
Inductive SyncState : Type :=
| SyncUnknown
| SyncInSync
| SyncAhead
| SyncBehind
| SyncDiverged
| SyncLocalOnly
| SyncRemoteOnly.

#[global] Instance SyncState_eq_dec : EqDecision SyncState.
Proof. solve_decision. Defined.

Definition SyncState_String (s : SyncState) : string :=
  match s with
  | SyncInSync => "in-sync"
  | SyncAhead => "ahead"
  | SyncBehind => "behind"
  | SyncDiverged => "diverged"
  | SyncLocalOnly => "local-only"
  | SyncRemoteOnly => "remote-only"
  | SyncUnknown => "unknown"
  end.

(** [RemoteBookmarkState]: a bookmark's state on one remote. *)
Record RemoteBookmarkState : Type := mkRemoteBookmarkState {
  rs_Target : string;
  rs_Tracked : bool;
  rs_Ahead : Z;
  rs_Behind : Z
}.

(** [BookmarkInfo]: the state of a named bookmark across local and remotes. *)
Record BookmarkInfo : Type := mkBookmarkInfo {
  bi_Name : string;
  bi_Target : string;
  bi_ChangeID : string;
  bi_Present : bool;
  bi_Conflict : bool;
  bi_Remotes : gmap string RemoteBookmarkState
}.

(** [SyncWith]: the sync state of a bookmark relative to a remote. *)
Definition SyncWith (b : BookmarkInfo) (remote : string) : SyncState :=
  if bi_Conflict b then SyncDiverged
  else match bi_Remotes b !! remote with
       | None => if bi_Present b then SyncLocalOnly else SyncUnknown
       | Some rs =>
           if negb (bi_Present b) then SyncRemoteOnly
           else if (0 <? rs_Ahead rs) && (0 <? rs_Behind rs) then SyncDiverged
           else if 0 <? rs_Behind rs then SyncAhead
           else if 0 <? rs_Ahead rs then SyncBehind
           else SyncInSync
       end.

(** [rawBookmarkEntry]: one decoded row of [jj bookmark list]. *)
Record rawBookmarkEntry : Type := mkRawBookmarkEntry {
  raw_Name : string;
  raw_Remote : option string;
  raw_Present : bool;
  raw_Conflict : bool;
  raw_Target : string;
  raw_ChangeID : string;
  raw_Tracked : bool;
  raw_Ahead : Z;
  raw_Behind : Z
}.

(** [Change]: a single jj change in a stack. *)
Record Change : Type := mkChange {
  ChangeID : string;
  CommitID : string;
  Description : string;
  ParentIDs : list string;
  Bookmarks : list string
}.

(** [ChangeDAG]: a connected DAG of changes, roots first. *)
Record ChangeDAG : Type := mkChangeDAG {
  Changes : list Change;
  ByID : gmap string Change
}.

(** [ChangeBookmark]: the bookmark assignment for a change. *)
Record ChangeBookmark : Type := mkChangeBookmark {
  cb_ChangeID : string;
  cb_Bookmark : string;
  cb_IsNew : bool;
  cb_SyncState : SyncState;
  cb_Conflict : bool;
  cb_Displaced : bool
}.

(** The zero value of [ChangeBookmark]. *)
Definition zeroChangeBookmark : ChangeBookmark :=
  mkChangeBookmark "" "" false SyncUnknown false false.

(** The [encoding/json] decoding of the two line-delimited record streams:
    the loop [for dec.More() { dec.Decode(&e) }] of [ParseChanges] and of
    [ParseBookmarkList], which yields the records or the decoder's error. *)
Class Decoders : Type := {
  decodeChanges : string -> go.error + list Change;
  decodeBookmarkEntries : string -> go.error + list rawBookmarkEntry
}.

(** The calls of the [Runner] interface. *)
Inductive call : Type :=
| CallLog (revset : string)
| CallBookmarkList
| CallBookmarkSet (name rev : string)
| CallGitRemoteList
| CallGitFetch (remote : string)
| CallGitPush (bookmarks : list string) (allowNew : bool) (remote : string)
| CallInterdiff (from to : string)
| CallRebase (revsets : list string) (destination : string).

(** [Runner]: the VCS driver, acting on the world [W].  A method that
    returns [(T, error)] yields [error + T]; one that returns [error] yields
    [option error] ([None] is [nil]). *)
Record Runner (W : Type) : Type := mkRunner {
  Log : string -> W -> W * (go.error + string);
  BookmarkList : W -> W * (go.error + string);
  BookmarkSet : string -> string -> W -> W * option go.error;
  GitRemoteList : W -> W * (go.error + string);
  GitFetch : string -> W -> W * option go.error;
  GitPush : list string -> bool -> string -> W -> W * option go.error;
  Interdiff : string -> string -> W -> W * (go.error + string);
  Rebase : list string -> string -> W -> W * option go.error
}.

Arguments Log {W} _ _ _.
Arguments BookmarkList {W} _ _.
Arguments BookmarkSet {W} _ _ _ _.
Arguments GitRemoteList {W} _ _.
Arguments GitFetch {W} _ _ _.
Arguments GitPush {W} _ _ _ _ _.
Arguments Interdiff {W} _ _ _ _.
Arguments Rebase {W} _ _ _ _.

(** *** Canonical bookmark names *)

Definition isLetter (c : ascii) : bool := go.isLower c || go.isUpper c.

(** [\s] of the regular-expression syntax: tab, newline, form feed,
    carriage return, space. *)
Definition isReSpace (c : ascii) : bool :=
  let b := nat_of_ascii c in
  ((b =? 9) || (b =? 10) || (b =? 12) || (b =? 13) || (b =? 32))%nat.

Fixpoint dropWhile (p : ascii -> bool) (s : string) : string :=
  match s with
  | EmptyString => EmptyString
  | String c s' => if p c then dropWhile p s' else s
  end.

(** The tail [!?:\s*] of [conventionalPrefixRe]: what is left of [s] after
    it, when it matches. *)
Definition matchBangColon (s : string) : option string :=
  let s1 := match s with
            | String c r => if Ascii.eqb c "!" then r else s
            | EmptyString => s
            end in
  match s1 with
  | String c r => if Ascii.eqb c ":" then Some (dropWhile isReSpace r) else None
  | EmptyString => None
  end.

(** [conventionalPrefixRe.ReplaceAllString(s, "")] for
    [^[a-zA-Z]+(\([^)]*\))?!?:\s*]: the expression is anchored, so it matches
    at most once, at the start; every repetition is followed by a byte it
    cannot consume, so the greedy match is the only one. *)
Definition stripConventionalPrefix (s : string) : string :=
  let s1 := dropWhile isLetter s in
  if (String.length s1 =? String.length s)%nat then s
  else
    let afterGroup :=
      match s1 with
      | String c r =>
          if Ascii.eqb c "(" then
            match dropWhile (fun x => negb (Ascii.eqb x ")")) r with
            | String _ r' => Some r'
            | EmptyString => None
            end
          else Some s1
      | EmptyString => Some s1
      end in
    match afterGroup with
    | Some s2 => match matchBangColon s2 with
                 | Some rest => rest
                 | None => s
                 end
    | None => s
    end.

Definition isAlnum (c : ascii) : bool := go.isLower c || go.isDigit c.

(** [nonAlnumRe.ReplaceAllString(s, "-")] for [[^a-z0-9]+]: every maximal
    run of bytes outside [a-z0-9] becomes one hyphen.  [inRun] tells that the
    preceding byte was part of such a run. *)
Fixpoint replaceNonAlnum (inRun : bool) (s : string) : string :=
  match s with
  | EmptyString => EmptyString
  | String c s' =>
      if isAlnum c then String c (replaceNonAlnum false s')
      else if inRun then replaceNonAlnum true s'
      else String "-" (replaceNonAlnum true s')
  end.

Definition maxSlugLen : nat := 30.

(** [slugify]: a commit description as a bookmark-safe slug. *)
Definition slugify `{go.Unicode} (s : string) : string :=
  let s := stripConventionalPrefix s in
  let s := go.ToLower s in
  let s := replaceNonAlnum false s in
  let s := go.TrimByte "-" s in
  if (maxSlugLen <? String.length s)%nat then
    let s := go.slice_to maxSlugLen s in
    let i := go.LastIndexByte "-" s in
    if Z.of_nat (maxSlugLen / 2) <? i then go.slice_to (Z.to_nat i) s else s
  else s.

(** [GenerateBookmarkName]: [jip/<slugified-description>/<short-change-id>]. *)
Definition GenerateBookmarkName `{go.Unicode} (description shortChangeID : string) : string :=
  let slug := slugify description in
  let slug := if String.eqb slug "" then "change" else slug in
  "jip/" +:+ slug +:+ "/" +:+ shortChangeID.

(** *** Bookmark records *)

(** The zero value of [BookmarkInfo], with the map [ParseBookmarkList]
    allocates for every group. *)
Definition newBookmarkInfo (name : string) : BookmarkInfo :=
  mkBookmarkInfo name "" "" false false ∅.

(** One step of the grouping loop of [ParseBookmarkList]. *)
Definition groupEntry (acc : gmap string (BookmarkInfo * nat) * nat) (e : rawBookmarkEntry)
  : gmap string (BookmarkInfo * nat) * nat :=
  let '(byName, orderCounter) := acc in
  match raw_Remote e with
  | Some "git" => acc
  | _ =>
      let '(info, order, orderCounter) :=
        match byName !! raw_Name e with
        | Some (info, order) => (info, order, orderCounter)
        | None => (newBookmarkInfo (raw_Name e), orderCounter, S orderCounter)
        end in
      let info :=
        match raw_Remote e with
        | None =>
            mkBookmarkInfo (bi_Name info) (raw_Target e) (raw_ChangeID e)
                           (raw_Present e) (raw_Conflict e) (bi_Remotes info)
        | Some r =>
            let remotes :=
              <[r := mkRemoteBookmarkState (raw_Target e) (raw_Tracked e)
                                           (raw_Ahead e) (raw_Behind e)]> (bi_Remotes info) in
            if negb (bi_Present info) && String.eqb (bi_Target info) "" then
              mkBookmarkInfo (bi_Name info) "" "" (bi_Present info) (bi_Conflict info) remotes
            else
              mkBookmarkInfo (bi_Name info) (bi_Target info) (bi_ChangeID info)
                             (bi_Present info) (bi_Conflict info) remotes
        end in
      (<[raw_Name e := (info, order)]> byName, orderCounter)
  end.

(** [ParseBookmarkList]: the rows grouped by bookmark name, in the order of
    first occurrence; the internal [git] remote is filtered out. *)
Definition ParseBookmarkList `{Decoders} (data : string) : go.outcome (list BookmarkInfo) :=
  match decodeBookmarkEntries data with
  | inl err => go.Raise (go.Errorf "parsing bookmark entry: %w" [go.FErr err])
  | inr entries =>
      let '(byName, _) := foldl groupEntry (∅, O) entries in
      go.Ret (foldr (fun '(_, (info, order)) result => <[order := info]> result)
                    (replicate (size byName) (newBookmarkInfo ""))
                    (map_to_list byName))
  end.

(** [MatchBookmarksToChanges]: change id to the bookmarks whose local target
    is that change's commit. *)
Definition MatchBookmarksToChanges (dag : ChangeDAG) (bookmarks : list BookmarkInfo)
  : gmap string (list BookmarkInfo) :=
  let commitToChange : gmap string string :=
    foldl (fun m c => <[CommitID c := ChangeID c]> m) ∅ (Changes dag) in
  foldl (fun result b =>
           if negb (bi_Present b) || String.eqb (bi_Target b) "" then result
           else match commitToChange !! bi_Target b with
                | Some changeID =>
                    <[changeID := (default [] (result !! changeID) ++ [b])%list]> result
                | None => result
                end)
        ∅ bookmarks.

Section Assign.
Context `{go.Unicode} {W : Type}.
Variable runner : Runner W.
Variable matched : gmap string (list BookmarkInfo).
Variable bookmarkByName : gmap string BookmarkInfo.
Variable pushRemote : string.
Variable shouldUseExisting : option (string -> string -> bool).
Variable createNew : bool.

(** The loop of [EnsureBookmarks] over the changes of the DAG, with the
    assignments made so far. *)
Fixpoint ensureLoop (changes : list Change) (result : list ChangeBookmark)
  : go.M W call (list ChangeBookmark) :=
  match changes with
  | [] => go.ret result
  | change :: rest =>
      let existing := default [] (matched !! ChangeID change) in
      let chosen :=
        List.find (fun b => match shouldUseExisting with
                            | None => true
                            | Some f => f (ChangeID change) (bi_Name b)
                            end) existing in
      match chosen with
      | Some b =>
          ensureLoop rest
            (result ++ [mkChangeBookmark (ChangeID change) (bi_Name b) false
                          (SyncWith b pushRemote) (bi_Conflict b) false])
      | None =>
          let shortID :=
            if (8 <? String.length (ChangeID change))%nat
            then go.slice_to 8 (ChangeID change) else ChangeID change in
          let name := GenerateBookmarkName (Description change) shortID in
          match bookmarkByName !! name with
          | Some bi =>
              ensureLoop rest
                (result ++ [mkChangeBookmark (ChangeID change) name false
                              (SyncWith bi pushRemote) (bi_Conflict bi) true])
          | None =>
              if negb createNew then ensureLoop rest result
              else
                let* err := go.perform (CallBookmarkSet name (ChangeID change))
                                       (BookmarkSet runner name (ChangeID change)) in
                match err with
                | Some e =>
                    go.raise (go.Errorf "creating bookmark for %s: %w"
                                        [go.FStr (ChangeID change); go.FErr e])
                | None =>
                    ensureLoop rest
                      (result ++ [mkChangeBookmark (ChangeID change) name true
                                    SyncLocalOnly false false])
                end
          end
      end
  end.
End Assign.

(** [EnsureBookmarks]: a bookmark for each change of the DAG, reusing a
    matching one ([shouldUseExisting = None] is the nil callback, which
    accepts every bookmark) or creating one under the jip naming convention. *)
Definition EnsureBookmarks `{go.Unicode} {W : Type} (runner : Runner W) (dag : ChangeDAG)
    (bookmarks : list BookmarkInfo) (pushRemote : string)
    (shouldUseExisting : option (string -> string -> bool)) (createNew : bool)
  : go.M W call (list ChangeBookmark) :=
  let matched := MatchBookmarksToChanges dag bookmarks in
  let bookmarkByName : gmap string BookmarkInfo :=
    foldl (fun m b => <[bi_Name b := b]> m) ∅ bookmarks in
  ensureLoop runner matched bookmarkByName pushRemote shouldUseExisting createNew
             (Changes dag) [].

(** *** Change graphs *)

(** [ParseChanges]: the decoded change records. *)
Definition ParseChanges `{Decoders} (data : string) : go.outcome (list Change) :=
  match decodeChanges data with
  | inl err => go.Raise (go.Errorf "parsing change: %w" [go.FErr err])
  | inr changes => go.Ret changes
  end.

(** A loop over a slice whose body may return early. *)
Fixpoint forEach {A B : Type} (body : B -> A -> go.outcome B) (l : list A) (b : B)
  : go.outcome B :=
  match l with
  | [] => go.Ret b
  | x :: l' => let? b' := body b x in forEach body l' b'
  end.

(** The index of all known change ids, from position [i] on; a repeated id
    is an error. *)
Fixpoint indexKnown (changes : list Change) (i : nat) (known : gmap string nat)
  : go.outcome (gmap string nat) :=
  match changes with
  | [] => go.Ret known
  | c :: rest =>
      match known !! ChangeID c with
      | Some _ => go.Raise (go.Errorf "duplicate change ID %q" [go.FStr (ChangeID c)])
      | None => indexKnown rest (S i) (<[ChangeID c := i]> known)
      end
  end.

(** The closure [find] of [BuildDAGs], with path compression; it returns
    the updated [parent] slice along with the root. *)
Fixpoint find (fuel : nat) (parent : list nat) (x : nat) : go.outcome (list nat * nat) :=
  match fuel with
  | O => go.OutOfFuel
  | S fuel' =>
      let? px := go.index parent x in
      if decide (px ≠ x) then
        let? (parent1, r) := find fuel' parent px in
        let? parent2 := go.assign parent1 x r in
        let? r' := go.index parent2 x in
        go.Ret (parent2, r')
      else go.Ret (parent, px)
  end.

(** The closure [union] of [BuildDAGs]. *)
Definition union (fuel : nat) (parent : list nat) (a b : nat) : go.outcome (list nat) :=
  let? (parent1, ra) := find fuel parent a in
  let? (parent2, rb) := find fuel parent1 b in
  if decide (ra ≠ rb) then go.assign parent2 ra rb else go.Ret parent2.

(** Union of change [i] with each of its parents within the known set. *)
Definition unionParents (fuel : nat) (known : gmap string nat) (i : nat)
    (parent : list nat) (pids : list string) : go.outcome (list nat) :=
  forEach (fun parent pid =>
             match known !! pid with
             | Some j => union fuel parent i j
             | None => go.Ret parent
             end) pids parent.

(** Grouping by connected component: root index to member indices. *)
Definition groupStep (fuel : nat) (acc : list nat * gmap nat (list nat)) (i : nat)
  : go.outcome (list nat * gmap nat (list nat)) :=
  let '(parent, components) := acc in
  let? (parent', r) := find fuel parent i in
  go.Ret (parent', <[r := (default [] (components !! r) ++ [i])%list]> components).

(** One step of the inner loop of Kahn's algorithm: a child of the change
    just emitted loses an incoming edge and is enqueued once it has none. *)
Definition releaseKid (acc : gmap string Z * list string) (kid : string)
  : gmap string Z * list string :=
  let '(inDegree, queue) := acc in
  let d := default 0 (inDegree !! kid) - 1 in
  (<[kid := d]> inDegree, if decide (d = 0) then (queue ++ [kid])%list else queue).

(** The main loop of Kahn's algorithm in [topoSort]. *)
Fixpoint kahn (fuel : nat) (all : list Change) (known : gmap string nat)
    (children : gmap string (list string)) (queue : list string)
    (inDegree : gmap string Z) (sorted : list Change) (byID : gmap string Change)
  : go.outcome (list Change * gmap string Change) :=
  match queue with
  | [] => go.Ret (sorted, byID)
  | id :: queue' =>
      match fuel with
      | O => go.OutOfFuel
      | S fuel' =>
          let idx := default O (known !! id) in
          let? ch := go.index all idx in
          let kids := go.SortStrings (default [] (children !! id)) in
          let '(inDegree', queue'') := foldl releaseKid (inDegree, queue') kids in
          kahn fuel' all known children queue'' inDegree'
               (sorted ++ [ch])%list (<[id := ch]> byID)
      end
  end.

(** The in-degree and children tables of [topoSort]: one step for a parent
    id of the member [cid]. *)
Definition countParent (inComponent : gset string) (cid : string)
    (acc : gmap string Z * gmap string (list string)) (pid : string)
  : gmap string Z * gmap string (list string) :=
  let '(inDegree, children) := acc in
  if bool_decide (pid ∈ inComponent) then
    (<[cid := default 0 (inDegree !! cid) + 1]> inDegree,
     <[pid := (default [] (children !! pid) ++ [cid])%list]> children)
  else acc.

Definition countMember (inComponent : gset string)
    (acc : gmap string Z * gmap string (list string)) (c : Change)
  : gmap string Z * gmap string (list string) :=
  let '(inDegree, children) := acc in
  foldl (countParent inComponent (ChangeID c))
        (<[ChangeID c := 0]> inDegree, children) (ParentIDs c).

(** [topoSort]: Kahn's algorithm on the members of one component. *)
Definition topoSort (all : list Change) (memberIndices : list nat)
    (known : gmap string nat) : go.outcome ChangeDAG :=
  let? members := forEach (fun acc i => let? c := go.index all i in go.Ret (acc ++ [c])%list)
                          memberIndices [] in
  let inComponent : gset string :=
    foldl (fun s c => s ∪ {[ChangeID c]}) ∅ members in
  let '(inDegree, children) := foldl (countMember inComponent) (∅, ∅) members in
  let queue :=
    go.SortStrings
      (map ChangeID
           (filter (fun c => default 0 (inDegree !! ChangeID c) = 0) members)) in
  let? (sorted, byID) :=
    kahn (S (length members + length members)) all known children queue inDegree [] ∅ in
  if decide (length sorted ≠ length memberIndices) then
    go.Raise (go.Errorf "cycle detected in change graph (%d of %d changes sorted)"
                        [go.FInt (Z.of_nat (length sorted));
                         go.FInt (Z.of_nat (length memberIndices))])
  else go.Ret (mkChangeDAG sorted byID).

(** [BuildDAGs]: the connected components of a flat list of changes, each
    as a topologically sorted [ChangeDAG]. *)
Definition BuildDAGs (changes : list Change) : go.outcome (list ChangeDAG) :=
  match changes with
  | [] => go.Ret []
  | _ =>
      let n := length changes in
      let fuel := S n in
      let? known := indexKnown changes O ∅ in
      let? parent :=
        forEach (fun parent '(i, c) => unionParents fuel known i parent (ParentIDs c))
                (imap (fun i c => (i, c)) changes) (seq O n) in
      let? (_, components) := forEach (groupStep fuel) (seq O n) (parent, ∅) in
      let roots := go.SortInts (map fst (map_to_list components)) in
      forEach (fun dags r =>
                 let members := default [] (components !! r) in
                 let? dag := topoSort changes members known in
                 go.Ret (dags ++ [dag])%list)
              roots []
  end.

(** [LeafChanges]: the changes with no child within the DAG. *)
Definition LeafChanges (dag : ChangeDAG) : list Change :=
  let hasChild : gset string :=
    foldl (fun h c =>
             foldl (fun h pid => if bool_decide (is_Some (ByID dag !! pid))
                                 then h ∪ {[pid]} else h)
                   h (ParentIDs c))
          ∅ (Changes dag) in
  filter (fun c => ChangeID c ∉ hasChild) (Changes dag).

(** [ResolveStacks]: the changes between the base and the given revsets,
    as connected DAGs. *)
Definition ResolveStacks `{Decoders} {W : Type} (runner : Runner W)
    (revsets : list string) (base : string) : go.M W call (list ChangeDAG) :=
  match revsets with
  | [] => go.raise (go.Errorf "no revsets provided" [])
  | _ =>
      if String.eqb base "" then go.raise (go.Errorf "no base revset provided" [])
      else
        let heads := go.Join revsets " | " in
        let revset := "(" +:+ base +:+ ")..(" +:+ heads +:+ ")" in
        let* out := go.perform (CallLog revset) (Log runner revset) in
        match out with
        | inl err => go.raise err
        | inr out =>
            let* changes := go.of_outcome (ParseChanges out) in
            go.of_outcome (BuildDAGs changes)
        end
  end.

End jj.

(** ** The github package *)

Module github.

(** [PRInfo]: the essential fields of a pull request. *)
Record PRInfo : Type := mkPRInfo {
  Number : Z;
  State : string;
  URL : string;
  Title : string;
  Body : string;
  HeadRefName : string;
  BaseRefName : string;
  IsDraft : bool
}.

(** [UpdatePROpts]: the optional fields of an update ([None] is a nil
    pointer). *)
Record UpdatePROpts : Type := mkUpdatePROpts {
  opt_Title : option string;
  opt_Body : option string;
  opt_Base : option string;
  opt_Draft : option bool
}.

(** The calls of the [Service] interface. *)
Inductive call : Type :=
| CallCreatePR (head base title body : string) (draft : bool)
| CallUpdatePR (number : Z) (opts : UpdatePROpts)
| CallCommentOnPR (number : Z) (body : string)
| CallGetAuthenticatedUser
| CallRequestReviewers (number : Z) (reviewers : list string)
| CallLookupPRsByBranch (branches : list string)
| CallOwner
| CallRepo.

(** [Service]: the hosting service, acting on the world [W].  A successful
    [CreatePR] yields a pull request, and [LookupPRsByBranch] maps a branch
    to the pull request found for it. *)
Record Service (W : Type) : Type := mkService {
  CreatePR : string -> string -> string -> string -> bool -> W -> W * (go.error + PRInfo);
  UpdatePR : Z -> UpdatePROpts -> W -> W * option go.error;
  CommentOnPR : Z -> string -> W -> W * option go.error;
  GetAuthenticatedUser : W -> W * (go.error + string);
  RequestReviewers : Z -> list string -> W -> W * option go.error;
  LookupPRsByBranch : list string -> W -> W * (go.error + gmap string PRInfo);
  Owner : W -> W * string;
  Repo : W -> W * string
}.

Arguments CreatePR {W} _ _ _ _ _ _ _.
Arguments UpdatePR {W} _ _ _ _.
Arguments CommentOnPR {W} _ _ _ _.
Arguments GetAuthenticatedUser {W} _ _.
Arguments RequestReviewers {W} _ _ _ _.
Arguments LookupPRsByBranch {W} _ _ _.
Arguments Owner {W} _ _.
Arguments Repo {W} _ _.

(** The newline byte. *)
Definition nl : string := String (ascii_of_nat 10) EmptyString.

(** [collapseThreshold]: the maximum total diff lines before collapsing
    file sections by default. *)
Definition collapseThreshold : Z := 20.

Definition minInt (a b : nat) : nat := if (a <? b)%nat then a else b.

(** [BuildStackBlock]: the stack navigation block, newest first. *)
Definition BuildStackBlock (prNumbers : list Z) (current : Z) : string :=
  if (length prNumbers <=? 1)%nat then ""
  else
    "PRs:" +:+ nl +:+
    String.concat ""
      (map (fun num =>
              if num =? current then "* ➡️ #" +:+ go.itoa num +:+ nl
              else "* #" +:+ go.itoa num +:+ nl)
           (rev prNumbers)).

(** [BuildStackedPRBody]: the full PR body of a stacked PR; for a single
    PR only the commit body. *)
Definition BuildStackedPRBody (commitHash repoFullName : string) (prNumber : Z)
    (allPRs : list Z) (commitBody : string) : string :=
  if (length allPRs <=? 1)%nat then commitBody
  else
    let shortHash := go.slice_to (minInt 7 (String.length commitHash)) commitHash in
    let commitLink :=
      "https://github.com/" +:+ repoFullName +:+ "/pull/" +:+ go.itoa prNumber
      +:+ "/commits/" +:+ commitHash in
    "This is a stacked PR[^1]. Only review commit [" +:+ shortHash +:+ "]("
    +:+ commitLink +:+ ")." +:+ nl +:+ nl
    +:+ BuildStackBlock allPRs prNumber
    +:+ (if String.eqb commitBody "" then ""
         else nl +:+ "---" +:+ nl +:+ nl +:+ commitBody +:+ nl)
    +:+ nl +:+ "[^1]: A stacked PR is a pull request that depends on other pull requests. "
    +:+ "The current PR depends on the ones listed below it and MUST NOT be merged before they are merged. "
    +:+ "The PRs listed above the current one in turn depend on it and won't be merged until the current one is. "
    +:+ "Learn more about [why](https://github.com/omarkohl/jip/blob/main/docs/why.md) and [how to review](https://github.com/omarkohl/jip/blob/main/docs/reviewing.md)."
    +:+ nl.

(** [fileDiff]: a single file's diff section. *)
Record fileDiff : Type := mkFileDiff {
  header : string;
  body : string
}.

(** [rangeDiffFooter]: a GitHub compare link and local range-diff hints. *)
Definition rangeDiffFooter (repoName baseBranch oldCommit newCommit : string) : string :=
  if String.eqb oldCommit "" || String.eqb newCommit "" || String.eqb repoName "" then ""
  else
    let oldShort := go.slice_to (minInt 7 (String.length oldCommit)) oldCommit in
    let newShort := go.slice_to (minInt 7 (String.length newCommit)) newCommit in
    let compareURL :=
      "https://github.com/" +:+ repoName +:+ "/compare/" +:+ oldCommit +:+ ".." +:+ newCommit in
    nl +:+ "---" +:+ nl +:+ "<sub>View the diff on [GitHub](" +:+ compareURL +:+ ") "
    +:+ "(may include unrelated changes due to rebases since GitHub does not currently implement `git range-diff`)." +:+ nl
    +:+ "View the diff locally (will only work if you fetched the older commit at some point):" +:+ nl
    +:+ "`git range-diff " +:+ baseBranch +:+ " " +:+ oldShort +:+ " " +:+ newShort +:+ "`" +:+ nl
    +:+ "`jj interdiff -f " +:+ oldShort +:+ " -t " +:+ newShort +:+ "`" +:+ nl
    +:+ "</sub>" +:+ nl.

(** Closing the section being read, if any: its body loses the trailing
    newlines and it joins the files. *)
Definition flushCurrent (files : list fileDiff) (current : option fileDiff) : list fileDiff :=
  match current with
  | Some cur => files ++ [mkFileDiff (header cur) (go.TrimRightByte (ascii_of_nat 10) (body cur))]
  | None => files
  end.

(** One line of the loop of [parseGitDiff]. *)
Definition parseLine (acc : list fileDiff * option fileDiff) (line : string)
  : list fileDiff * option fileDiff :=
  let '(files, current) := acc in
  if go.HasPrefix line "diff --git " then
    let hdr := match go.SplitN2 line " b/" with
               | Some (_, after) => after
               | None => line
               end in
    (flushCurrent files current, Some (mkFileDiff hdr ""))
  else
    match current with
    | Some cur => (files, Some (mkFileDiff (header cur) (body cur +:+ line +:+ nl)))
    | None => acc
    end.

(** [parseGitDiff]: a unified diff split into per-file sections. *)
Definition parseGitDiff (diff : string) : list fileDiff :=
  let '(files, current) :=
    foldl parseLine ([], None) (go.SplitByte (ascii_of_nat 10) diff) in
  flushCurrent files current.

(** One line of the loop of [diffStats]. *)
Definition countLine (acc : Z * Z) (line : string) : Z * Z :=
  let '(added, removed) := acc in
  if go.HasPrefix line "+" && negb (go.HasPrefix line "+++") then (added + 1, removed)
  else if go.HasPrefix line "-" && negb (go.HasPrefix line "---") then (added, removed + 1)
  else acc.

(** [diffStats]: the added and removed lines of a diff chunk. *)
Definition diffStats (chunk : string) : Z * Z :=
  foldl countLine (0, 0) (go.SplitByte (ascii_of_nat 10) chunk).

(** The [totalLines] of [BuildDiffComment]: the lines of all file bodies. *)
Definition totalLines (files : list fileDiff) : Z :=
  foldl (fun total f => total + Z.of_nat (length (go.SplitByte (ascii_of_nat 10) (body f))))
        0 files.

(** One collapsible file section of the interdiff comment, as
    [BuildDiffComment] formats it. *)
Definition renderSection (expand : bool) (f : fileDiff) : string :=
  let '(added, removed) := diffStats (body f) in
  let openAttr := if expand then " open" else "" in
  nl +:+ "<details" +:+ openAttr +:+ ">" +:+ nl
  +:+ "<summary><code>" +:+ header f +:+ "</code> (+" +:+ go.itoa added +:+ ", -"
  +:+ go.itoa removed +:+ ")</summary>" +:+ nl +:+ nl
  +:+ "```diff" +:+ nl +:+ body f +:+ nl +:+ "```" +:+ nl +:+ nl +:+ "</details>" +:+ nl.

(** [BuildDiffComment]: a PR comment with the interdiff, one collapsible
    section per file. *)
Definition BuildDiffComment (codeDiff repoName baseBranch oldCommit newCommit : string) : string :=
  let footer := rangeDiffFooter repoName baseBranch oldCommit newCommit in
  if go.isBlank codeDiff then
    "### Changes since last push" +:+ nl +:+ nl
    +:+ "**No code changes** (likely just a rebase)." +:+ nl +:+ footer
  else
    let files := parseGitDiff codeDiff in
    let expand := totalLines files <=? collapseThreshold in
    "### Changes since last push" +:+ nl
    +:+ String.concat "" (map (renderSection expand) files)
    +:+ footer.

End github.

(** ** The cmd package: the send pipeline *)

Module cmd.

(** [sendOpts]: the configuration of the send pipeline. *)
Record sendOpts : Type := mkSendOpts {
  base : string;
  remote : string;
  upstream : string;
  upstreamRemote : string;
  pushOwner : string;
  dryRun : bool;
  draft : bool;
  existing : bool;
  noStack : bool;
  reviewers : list string;
  revsets : list string
}.

(** [changeState]: the state of a change through the pipeline ([pr = None]
    is the nil pointer: no existing PR). *)
Record changeState : Type := mkChangeState {
  change : jj.Change;
  bookmark : jj.ChangeBookmark;
  pr : option github.PRInfo;
  isNew : bool;
  changed : bool
}.

(** [skipReason]: why a change was skipped; [ancestor] is non-empty when an
    ancestor was skipped. *)
Record skipReason : Type := mkSkipReason {
  reason : string;
  ancestor : string
}.

(** A call on one of the two collaborators of the pipeline. *)
Inductive event : Type :=
| JJ (c : jj.call)
| GH (c : github.call).

(** *** Skip classification *)

(** One iteration of the loop that detects diverged or behind bookmarks
    and skips them, plus descendants. *)
Definition skipStep (skippedIDs : gmap string skipReason) (s : changeState)
  : gmap string skipReason :=
  let id := jj.ChangeID (change s) in
  let skippedIDs :=
    match List.find (fun pid => bool_decide (is_Some (skippedIDs !! pid)))
                    (jj.ParentIDs (change s)) with
    | Some pid =>
        <[id := mkSkipReason "skipped because ancestor was skipped" pid]> skippedIDs
    | None => skippedIDs
    end in
  if bool_decide (is_Some (skippedIDs !! id)) then skippedIDs
  else if jj.cb_Displaced (bookmark s) then
    <[id := mkSkipReason "remote is ahead of local — pull changes or reset the bookmark" ""]>
      skippedIDs
  else if jj.cb_Conflict (bookmark s) then
    <[id := mkSkipReason
              "local and remote have diverged — resolve with `jj bookmark set` or force-push" ""]>
      skippedIDs
  else if bool_decide (jj.cb_SyncState (bookmark s) = jj.SyncBehind) then
    <[id := mkSkipReason "remote is ahead of local — pull changes first" ""]> skippedIDs
  else skippedIDs.

(** The [skippedIDs] of [executeSend] after the classification loop. *)
Definition classifySkips (allStates : list changeState) : gmap string skipReason :=
  foldl skipStep ∅ allStates.

Definition isSkipped (skippedIDs : gmap string skipReason) (s : changeState) : bool :=
  bool_decide (is_Some (skippedIDs !! jj.ChangeID (change s))).

(** The zero value of [skipReason]. *)
Definition zeroSkipReason : skipReason := mkSkipReason "" "".

(** [printSkippedChanges]: the report of the skipped changes. *)
Definition printSkippedChanges {W : Type} (skipped : list changeState)
    (reasons : gmap string skipReason) : go.M W event unit :=
  let* _ := go.print (go.Fprintf "\nSkipped %d change(s):\n\n"
                                 [go.FInt (Z.of_nat (length skipped))]) in
  go.forM (fun _ s =>
             let r := default zeroSkipReason (reasons !! jj.ChangeID (change s)) in
             let* _ := go.print (go.Fprintf "  %.12s  %s\n"
                                   [go.FStr (jj.ChangeID (change s));
                                    go.FStr (jj.Description (change s))]) in
             go.print (go.Fprintf "         %s\n" [go.FStr (reason r)]))
          skipped tt.

(** *** Per-change stack membership *)

Section Stack.
Variable states : list changeState.
Variable idxByChange : gmap string nat.
Variable children : gmap string (list string).

(** The closure [walkUp] of [computeStackPRs]: follows parent edges,
    marking in [relevant]. *)
Fixpoint walkUp (fuel : nat) (relevant : gset string) (id : string)
  : go.outcome (gset string) :=
  match fuel with
  | O => go.OutOfFuel
  | S fuel' =>
      let? st := go.index states (default O (idxByChange !! id)) in
      jj.forEach
        (fun relevant pid =>
           if bool_decide (is_Some (idxByChange !! pid)) && bool_decide (pid ∉ relevant)
           then walkUp fuel' ({[pid]} ∪ relevant) pid
           else go.Ret relevant)
        (jj.ParentIDs (change st)) relevant
  end.

(** The closure [walkDown] of [computeStackPRs]: follows child edges. *)
Fixpoint walkDown (fuel : nat) (relevant : gset string) (id : string)
  : go.outcome (gset string) :=
  match fuel with
  | O => go.OutOfFuel
  | S fuel' =>
      jj.forEach
        (fun relevant cid =>
           if bool_decide (cid ∉ relevant)
           then walkDown fuel' ({[cid]} ∪ relevant) cid
           else go.Ret relevant)
        (default [] (children !! id)) relevant
  end.

(** The PR numbers of the states marked in [relevant], in input order;
    [st.pr.Number] panics on a nil [pr]. *)
Definition collectPRs (relevant : gset string) : go.outcome (list Z) :=
  jj.forEach
    (fun prs st =>
       if bool_decide (jj.ChangeID (change st) ∈ relevant) then
         match pr st with
         | Some p => go.Ret (prs ++ [github.Number p])%list
         | None => go.Panic
         end
       else go.Ret prs)
    states [].
End Stack.

(** The index of the states by change id, as [computeStackPRs] builds it. *)
Definition indexStates (states : list changeState) : gmap string nat :=
  foldl (fun m '(i, s) => <[jj.ChangeID (change s) := i]> m) ∅
        (imap (fun i s => (i, s)) states).

(** The child edges (parent to children) within the known set, as
    [computeStackPRs] builds them. *)
Definition childEdges (idxByChange : gmap string nat) (states : list changeState)
  : gmap string (list string) :=
  foldl (fun ch s =>
           foldl (fun ch pid =>
                    if bool_decide (is_Some (idxByChange !! pid))
                    then <[pid := default [] (ch !! pid) ++ [jj.ChangeID (change s)]]> ch
                    else ch)
                 ch (jj.ParentIDs (change s)))
        ∅ states.

(** [computeStackPRs]: per change, the PR numbers of the change, its
    ancestors and its descendants, in the order of the input states. *)
Definition computeStackPRs (states : list changeState) : go.outcome (list (list Z)) :=
  let idxByChange := indexStates states in
  let children := childEdges idxByChange states in
  let fuel := S (length states) in
  jj.forEach
    (fun result s =>
       let id := jj.ChangeID (change s) in
       let? relevant := walkUp states idxByChange fuel {[id]} id in
       let? relevant := walkDown children fuel relevant id in
       let? prs := collectPRs states relevant in
       go.Ret (result ++ [prs]))
    states [].

(** *** executeSend *)

Section Send.
Context `{go.Unicode} `{jj.Decoders} {W : Type}.
Variable runner : jj.Runner W.
Variable client : github.Service W.
Variable opts : sendOpts.

(** Fetching one remote, with its progress line. *)
Definition fetchRemote (name : string) : go.M W event unit :=
  let* _ := go.print (go.Fprintf "Fetching %s...\n" [go.FStr name]) in
  let* err := go.perform (JJ (jj.CallGitFetch name)) (jj.GitFetch runner name) in
  match err with
  | Some e => go.raise (go.Errorf "fetching %s: %w" [go.FStr name; go.FErr e])
  | None => go.ret tt
  end.

(** With [--no-stack], each DAG is reduced to its tip. *)
Definition reduceToTips (dags : list jj.ChangeDAG) : go.M W event (list jj.ChangeDAG) :=
  go.forM (fun acc dag =>
             let leaves := jj.LeafChanges dag in
             match leaves with
             | [tip] =>
                 go.ret (acc ++ [jj.mkChangeDAG [tip] {[jj.ChangeID tip := tip]}])%list
             | _ =>
                 go.raise (go.Errorf
                             "--no-stack requires a linear stack (found %d tips in one DAG)"
                             [go.FInt (Z.of_nat (length leaves))])
             end)
          dags [].

(** The remote branches referenced by the changes, without repeats. *)
Definition collectRemoteBranches (bookmarkByName : gmap string jj.BookmarkInfo)
    (dags : list jj.ChangeDAG) : list string :=
  fst (foldl
         (fun acc dag =>
            foldl (fun acc change =>
                     foldl (fun (acc : list string * gset string) bName =>
                              let '(remoteBranches, remoteBranchSet) := acc in
                              match bookmarkByName !! bName with
                              | None => acc
                              | Some bi =>
                                  if bool_decide (is_Some (jj.bi_Remotes bi !! remote opts))
                                     && bool_decide (bName ∉ remoteBranchSet)
                                  then ((remoteBranches ++ [bName])%list,
                                        {[bName]} ∪ remoteBranchSet)
                                  else acc
                              end)
                           acc (jj.Bookmarks change))
                  acc (jj.Changes dag))
         ([], ∅) dags).

(** The body of the loop over the DAGs: bookmarks are ensured and one
    state per change is appended. *)
Definition processDAG (bookmarks : list jj.BookmarkInfo) (prMap : gmap string github.PRInfo)
    (allStates : list changeState) (dag : jj.ChangeDAG) : go.M W event (list changeState) :=
  let shouldUse := fun (_ bookmark : string) =>
    bool_decide (is_Some (prMap !! bookmark)) || go.HasPrefix bookmark "jip/" in
  let* r := go.catch (go.lift JJ (jj.EnsureBookmarks runner dag bookmarks (remote opts)
                                    (Some shouldUse) (negb (existing opts)))) in
  match r with
  | inl err => go.raise (go.Errorf "ensuring bookmarks: %w" [go.FErr err])
  | inr results =>
      let bmByChange : gmap string jj.ChangeBookmark :=
        foldl (fun m r => <[jj.cb_ChangeID r := r]> m) ∅ results in
      go.ret (allStates ++
              map (fun change =>
                     let bm := default jj.zeroChangeBookmark
                                       (bmByChange !! jj.ChangeID change) in
                     mkChangeState change bm (prMap !! jj.cb_Bookmark bm) false false)
                  (jj.Changes dag))%list
  end.

(** The dry-run report. *)
Definition reportDryRun (activeStates skippedStates : list changeState)
    (skippedIDs : gmap string skipReason) : go.M W event unit :=
  let* _ := go.print (go.Fprintf "\nDry run — %d change(s) would be sent:\n\n"
                                 [go.FInt (Z.of_nat (length activeStates))]) in
  let* _ :=
    go.forM (fun _ s =>
               let action := match pr s with
                             | Some p => "UPDATE #" +:+ go.itoa (github.Number p)
                             | None => "CREATE"
                             end in
               let bmStatus := if negb (jj.cb_IsNew (bookmark s)) then "existing" else "new" in
               let* _ := go.print (go.Fprintf "  %s  %.12s  %s\n"
                                     [go.FStr action; go.FStr (jj.ChangeID (change s));
                                      go.FStr (jj.Description (change s))]) in
               go.print (go.Fprintf "         bookmark: %s (%s)\n"
                           [go.FStr (jj.cb_Bookmark (bookmark s)); go.FStr bmStatus]))
            activeStates tt in
  let* _ := (if (0 <? length skippedStates)%nat
             then printSkippedChanges skippedStates skippedIDs else go.ret tt) in
  if (0 <? length skippedStates)%nat then
    go.raise (go.Errorf "%d change(s) skipped due to diverged or behind bookmarks"
                        [go.FInt (Z.of_nat (length skippedStates))])
  else go.ret tt.

(** An existing PR: the title is updated if it changed and an interdiff
    comment is posted if the remote commit differs from the local one. *)
Definition updateExisting (repoFullName : string)
    (bookmarkByName : gmap string jj.BookmarkInfo) (s : changeState) (p : github.PRInfo)
  : go.M W event changeState :=
  let* s :=
    (if negb (String.eqb (github.Title p) (jj.Description (change s))) then
       let title := jj.Description (change s) in
       let o := github.mkUpdatePROpts (Some title) None None None in
       let* err := go.perform (GH (github.CallUpdatePR (github.Number p) o))
                              (github.UpdatePR client (github.Number p) o) in
       match err with
       | Some e => go.raise (go.Errorf "updating PR #%d title: %w"
                                       [go.FInt (github.Number p); go.FErr e])
       | None => go.ret (mkChangeState (change s) (bookmark s) (pr s) (isNew s) true)
       end
     else go.ret s) in
  match bookmarkByName !! jj.cb_Bookmark (bookmark s) with
  | None => go.ret s
  | Some bi =>
      match jj.bi_Remotes bi !! remote opts with
      | None => go.ret s
      | Some rs =>
          if negb (String.eqb (jj.rs_Target rs) "")
             && negb (String.eqb (jj.rs_Target rs) (jj.CommitID (change s)))
          then
            let* diff := go.perform
                           (JJ (jj.CallInterdiff (jj.rs_Target rs) (jj.CommitID (change s))))
                           (jj.Interdiff runner (jj.rs_Target rs) (jj.CommitID (change s))) in
            match diff with
            | inl e =>
                let* _ := go.print (go.Fprintf "  warning: interdiff failed for #%d: %v\n"
                                      [go.FInt (github.Number p); go.FErr e]) in
                go.ret s
            | inr diff =>
                let comment := github.BuildDiffComment diff repoFullName (base opts)
                                 (jj.rs_Target rs) (jj.CommitID (change s)) in
                let* err := go.perform (GH (github.CallCommentOnPR (github.Number p) comment))
                                       (github.CommentOnPR client (github.Number p) comment) in
                match err with
                | Some e => go.raise (go.Errorf "commenting on PR #%d: %w"
                                                [go.FInt (github.Number p); go.FErr e])
                | None => go.ret (mkChangeState (change s) (bookmark s) (pr s) (isNew s) true)
                end
            end
          else go.ret s
      end
  end.

(** No existing PR: one is created and the reviewers are requested. *)
Definition createPR (s : changeState) : go.M W event changeState :=
  let title := if String.eqb (jj.Description (change s)) ""
               then "jip: " +:+ go.precision 12 (jj.ChangeID (change s))
               else jj.Description (change s) in
  let head := if negb (String.eqb (pushOwner opts) "")
              then pushOwner opts +:+ ":" +:+ jj.cb_Bookmark (bookmark s)
              else jj.cb_Bookmark (bookmark s) in
  let* r := go.perform (GH (github.CallCreatePR head (base opts) title "" (draft opts)))
                       (github.CreatePR client head (base opts) title "" (draft opts)) in
  match r with
  | inl e => go.raise (go.Errorf "creating PR for %s: %w"
                                 [go.FStr (jj.ChangeID (change s)); go.FErr e])
  | inr p =>
      let s := mkChangeState (change s) (bookmark s) (Some p) true (changed s) in
      let* _ :=
        (if (0 <? length (reviewers opts))%nat then
           let* err := go.perform
                         (GH (github.CallRequestReviewers (github.Number p) (reviewers opts)))
                         (github.RequestReviewers client (github.Number p) (reviewers opts)) in
           match err with
           | Some e => go.print (go.Fprintf "  warning: failed to add reviewers to #%d: %v\n"
                                   [go.FInt (github.Number p); go.FErr e])
           | None => go.ret tt
           end
         else go.ret tt) in
      go.ret s
  end.

(** The update of one PR body with its stack navigation. *)
Definition updateBody (repoFullName : string) (acc : list changeState)
    (sp : changeState * list Z) : go.M W event (list changeState) :=
  let '(s, stack) := sp in
  match pr s with
  | None => go.of_outcome go.Panic
  | Some p =>
      let body := github.BuildStackedPRBody (jj.CommitID (change s)) repoFullName
                    (github.Number p) stack "" in
      if negb (String.eqb body (github.Body p)) then
        let o := github.mkUpdatePROpts None (Some body) None None in
        let* err := go.perform (GH (github.CallUpdatePR (github.Number p) o))
                               (github.UpdatePR client (github.Number p) o) in
        match err with
        | Some e => go.raise (go.Errorf "updating PR #%d body: %w"
                                        [go.FInt (github.Number p); go.FErr e])
        | None => go.ret (acc ++ [mkChangeState (change s) (bookmark s) (pr s) (isNew s) true])%list
        end
      else go.ret (acc ++ [s])%list
  end.

(** The summary block. *)
Definition printSummary (activeStates : list changeState) : go.M W event unit :=
  let* _ := go.print (go.Fprintf "\n%d PR(s) sent:\n\n"
                                 [go.FInt (Z.of_nat (length activeStates))]) in
  go.forM (fun _ s =>
             let action := if isNew s then "created"
                           else if negb (changed s) then "up-to-date" else "updated" in
             match pr s with
             | None => go.of_outcome go.Panic
             | Some p =>
                 let* _ := go.print (go.Fprintf "  #%-4d %s  %s\n"
                                       [go.FInt (github.Number p); go.FStr action;
                                        go.FStr (github.URL p)]) in
                 go.print (go.Fprintf "         %.12s  %s\n"
                             [go.FStr (jj.ChangeID (change s));
                              go.FStr (jj.Description (change s))])
             end)
          activeStates tt.

(** Steps 5 to 8 of [executeSend], for a non-empty list of active
    states: push, create or update, stack navigation, summary. *)
Definition sendActive (repoFullName : string)
    (bookmarkByName : gmap string jj.BookmarkInfo) (activeStates : list changeState)
  : go.M W event unit :=
  let pushBookmarks := map (fun s => jj.cb_Bookmark (bookmark s)) activeStates in
  let* _ := go.print (go.Fprintf "\nPushing %d bookmark(s)...\n"
                                 [go.FInt (Z.of_nat (length pushBookmarks))]) in
  let* err := go.perform (JJ (jj.CallGitPush pushBookmarks true (remote opts)))
                         (jj.GitPush runner pushBookmarks true (remote opts)) in
  match err with
  | Some e => go.raise (go.Errorf "pushing: %w" [go.FErr e])
  | None =>
      let* activeStates :=
        go.forM (fun acc s =>
                   let* s' := match pr s with
                              | Some p => updateExisting repoFullName bookmarkByName s p
                              | None => createPR s
                              end in
                   go.ret (acc ++ [s'])%list)
                activeStates [] in
      let* activeStates :=
        (if negb (noStack opts) then
           let* perChangeStack := go.of_outcome (computeStackPRs activeStates) in
           go.forM (updateBody repoFullName)
                   (zip activeStates perChangeStack) []
         else go.ret activeStates) in
      printSummary activeStates
  end.

(** [executeSend]: the core send algorithm: resolve stacks, ensure
    bookmarks, push branches, and create or update PRs. *)
Definition executeSend : go.M W event unit :=
  let* _ := fetchRemote (remote opts) in
  let* _ := (if negb (String.eqb (upstreamRemote opts) "")
                && negb (String.eqb (upstreamRemote opts) (remote opts))
             then fetchRemote (upstreamRemote opts) else go.ret tt) in
  let* owner := go.perform (GH github.CallOwner) (github.Owner client) in
  let* repo := go.perform (GH github.CallRepo) (github.Repo client) in
  let repoFullName := owner +:+ "/" +:+ repo in
  let* r := go.catch (go.lift JJ (jj.ResolveStacks runner (revsets opts) (base opts))) in
  match r with
  | inl err => go.raise (go.Errorf "resolving stacks: %w" [go.FErr err])
  | inr [] => go.print (go.Fprintln "No changes to send.")
  | inr dags =>
      let* dags := (if noStack opts then reduceToTips dags else go.ret dags) in
      let* bookmarkData := go.perform (JJ jj.CallBookmarkList) (jj.BookmarkList runner) in
      match bookmarkData with
      | inl err => go.raise (go.Errorf "listing bookmarks: %w" [go.FErr err])
      | inr bookmarkData =>
          let* r := go.catch (go.of_outcome (jj.ParseBookmarkList bookmarkData)) in
          match r with
          | inl err => go.raise (go.Errorf "parsing bookmarks: %w" [go.FErr err])
          | inr bookmarks =>
              let bookmarkByName : gmap string jj.BookmarkInfo :=
                foldl (fun m b => <[jj.bi_Name b := b]> m) ∅ bookmarks in
              let remoteBranches := collectRemoteBranches bookmarkByName dags in
              let* prMap :=
                (if (0 <? length remoteBranches)%nat then
                   let* r := go.perform (GH (github.CallLookupPRsByBranch remoteBranches))
                                        (github.LookupPRsByBranch client remoteBranches) in
                   match r with
                   | inl err => go.raise (go.Errorf "looking up PRs: %w" [go.FErr err])
                   | inr prMap => go.ret prMap
                   end
                 else go.ret ∅) in
              let* allStates := go.forM (processDAG bookmarks prMap) dags [] in
              let filtered := filter (fun s => is_Some (pr s)) allStates in
              let* _ :=
                (if existing opts && (0 <? length allStates - length filtered)%nat then
                   go.print (go.Fprintf "\nSkipping %d change(s) without existing PRs.\n"
                               [go.FInt (Z.of_nat (length allStates - length filtered))])
                 else go.ret tt) in
              let allStates := if existing opts then filtered else allStates in
              if existing opts && (length allStates =? 0)%nat then
                go.print (go.Fprintln "No existing PRs to update.")
              else
                let skippedIDs := classifySkips allStates in
                let activeStates := filter (fun s => isSkipped skippedIDs s = false) allStates in
                let skippedStates := filter (fun s => isSkipped skippedIDs s = true) allStates in
                if dryRun opts then reportDryRun activeStates skippedStates skippedIDs
                else
                  let* _ := (if (0 <? length activeStates)%nat
                             then sendActive repoFullName bookmarkByName activeStates
                             else go.ret tt) in
                  if (0 <? length skippedStates)%nat then
                    let* _ := printSkippedChanges skippedStates skippedIDs in
                    go.raise (go.Errorf
                                "%d change(s) skipped due to diverged or behind bookmarks"
                                [go.FInt (Z.of_nat (length skippedStates))])
                  else go.ret tt
          end
      end
  end.
End Send.

End cmd.

(** * Vocabulary of the properties *)

(** The bytes a slug may hold: [a-z0-9-]. *)
Definition slugByte (c : ascii) : bool := jj.isAlnum c || Ascii.eqb c "-".

(** No hyphen is followed by a hyphen. *)
Fixpoint noDoubleDash (s : string) : bool :=
  match s with
  | String a (String b _ as s') =>
      negb (Ascii.eqb a "-" && Ascii.eqb b "-") && noDoubleDash s'
  | _ => true
  end.

(** A well-formed slug body: slug bytes only, no two hyphens in a row. *)
Definition slugBody (s : string) : Prop :=
  go.allBytes slugByte s = true /\ noDoubleDash s = true.

(** The last byte of a string. *)
Definition lastByte (s : string) : option ascii := String.get (String.length s - 1) s.

(** The changed lines of the sections: the sum of the [+] and [-] lines of
    all file bodies, the [+++] and [---] headers left out. *)
Definition changedLines (files : list github.fileDiff) : Z :=
  foldl (fun total f =>
           let '(added, removed) := github.diffStats (github.body f) in
           total + added + removed)
        0 files.

(** [sub] occurs in [s]. *)
Definition contains (s sub : string) : bool :=
  if String.index 0 sub s is Some _ then true else false.

(** An interdiff of one file: the two file headers, one hunk marker,
    eighteen lines of context and one added line. *)
Definition smallChange : string :=
  "diff --git a/f.go b/f.go" +:+ github.nl
  +:+ "--- a/f.go" +:+ github.nl
  +:+ "+++ b/f.go" +:+ github.nl
  +:+ "@@ -1,18 +1,19 @@" +:+ github.nl
  +:+ String.concat "" (replicate 18 (" unchanged" +:+ github.nl))
  +:+ "+added" +:+ github.nl.

(** The driver call that creates the bookmark of an assignment. *)
Definition setCall (cb : jj.ChangeBookmark) : jj.call :=
  jj.CallBookmarkSet (jj.cb_Bookmark cb) (jj.cb_ChangeID cb).

(** The world after a sequence of [BookmarkSet] calls. *)
Fixpoint replaySets {W : Type} (runner : jj.Runner W) (calls : list jj.call) (w : W) : W :=
  match calls with
  | [] => w
  | jj.CallBookmarkSet name rev :: calls' =>
      replaySets runner calls' (fst (jj.BookmarkSet runner name rev w))
  | _ :: calls' => replaySets runner calls' w
  end.

Definition isBookmarkSet (c : jj.call) : Prop :=
  match c with
  | jj.CallBookmarkSet _ _ => True
  | _ => False
  end.

(** A driver whose every operation fails, on a world without state. *)
Definition failingRunner : jj.Runner unit :=
  let fail := go.External "exit status 1" in
  jj.mkRunner unit
    (fun _ w => (w, inl fail)) (fun w => (w, inl fail))
    (fun _ _ w => (w, Some fail)) (fun w => (w, inl fail))
    (fun _ w => (w, Some fail)) (fun _ _ _ w => (w, Some fail))
    (fun _ _ w => (w, inl fail)) (fun _ _ w => (w, Some fail)).

(** The Unicode tables left out: a string with a byte outside ASCII is
    lower-cased to itself. *)
Definition asciiOnly : go.Unicode := {| go.MapToLower := fun s => s |}.

(** A DAG of one change without bookmark. *)
Definition changeA : jj.Change :=
  jj.mkChange "kkkkkkkkkkkk" "c0ffee" "feat: add feature A" [] [].
Definition dagA : jj.ChangeDAG := jj.mkChangeDAG [changeA] {[ "kkkkkkkkkkkk" := changeA ]}.

(** Every call a computation makes satisfies [P], whatever the state it
    starts from and however it ends. *)
Definition emits {W E A : Type} (P : E -> Prop) (m : go.M W E A) : Prop :=
  forall st, exists evs, go.trace (m st).1 = go.trace st ++ evs /\ Forall P evs.

Definition isRebase (ev : cmd.event) : Prop :=
  match ev with
  | cmd.JJ (jj.CallRebase _ _) => True
  | _ => False
  end.

(** The calls the send pipeline makes on its collaborators. *)
Definition pipelineCall (ev : cmd.event) : Prop :=
  match ev with
  | cmd.JJ (jj.CallGitFetch _) | cmd.JJ (jj.CallLog _) | cmd.JJ jj.CallBookmarkList
  | cmd.JJ (jj.CallBookmarkSet _ _) | cmd.JJ (jj.CallGitPush _ _ _)
  | cmd.JJ (jj.CallInterdiff _ _) => True
  | cmd.GH (github.CallCreatePR _ _ _ _ _) | cmd.GH (github.CallUpdatePR _ _)
  | cmd.GH (github.CallCommentOnPR _ _) | cmd.GH (github.CallRequestReviewers _ _)
  | cmd.GH (github.CallLookupPRsByBranch _) | cmd.GH github.CallOwner
  | cmd.GH github.CallRepo => True
  | _ => False
  end.

(** The calls of a dry run: reads of the two collaborators, the fetch, and
    the creation of local bookmarks. *)
Definition dryRunCall (ev : cmd.event) : Prop :=
  match ev with
  | cmd.JJ (jj.CallGitFetch _) | cmd.JJ (jj.CallLog _) | cmd.JJ jj.CallBookmarkList
  | cmd.JJ (jj.CallBookmarkSet _ _) => True
  | cmd.GH (github.CallLookupPRsByBranch _) | cmd.GH github.CallOwner
  | cmd.GH github.CallRepo => True
  | _ => False
  end.

(** A repository in which the log of the resolved revset is the one change
    [changeA], there is no bookmark yet, and every driver operation
    succeeds; its state is the list of bookmarks set so far. *)
Definition freshRunner : jj.Runner (list (string * string)) :=
  jj.mkRunner (list (string * string))
    (fun _ w => (w, inr "changeA")) (fun w => (w, inr ""))
    (fun name rev w => (w ++ [(name, rev)], None)) (fun w => (w, inr ""))
    (fun _ w => (w, None)) (fun _ _ _ w => (w, None))
    (fun _ _ w => (w, inr "")) (fun _ _ w => (w, None)).

(** The decoders on the two outputs of [freshRunner]. *)
Definition freshDecoders : jj.Decoders :=
  {| jj.decodeChanges := fun data =>
       inr (if String.eqb data "changeA" then [changeA] else []);
     jj.decodeBookmarkEntries := fun _ => inr [] |}.

(** A hosting service without pull requests; its mutations fail. *)
Definition emptyService : github.Service (list (string * string)) :=
  let fail := go.External "not reachable" in
  github.mkService (list (string * string))
    (fun _ _ _ _ _ w => (w, inl fail)) (fun _ _ w => (w, Some fail))
    (fun _ _ w => (w, Some fail)) (fun w => (w, inl fail))
    (fun _ _ w => (w, Some fail)) (fun _ w => (w, inr ∅))
    (fun w => (w, "owner")) (fun w => (w, "repo")).

(** [send --dry-run] with the defaults of the command line. *)
Definition dryRunOpts : cmd.sendOpts :=
  cmd.mkSendOpts "main" "origin" "" "" "" true false false false [] ["@-"].

(** The reasons the classification records. *)
Definition skipReasons : list string :=
  ["skipped because ancestor was skipped";
   "remote is ahead of local — pull changes or reset the bookmark";
   "local and remote have diverged — resolve with `jj bookmark set` or force-push";
   "remote is ahead of local — pull changes first"].

(** The states of two changes [A] and [B] and of their merge [C], whose
    commit jj reports as conflicted; each has a bookmark created by this run. *)
Definition mergeStates : list cmd.changeState :=
  let st id parents :=
    cmd.mkChangeState (jj.mkChange id ("commit-" +:+ id) ("feat: " +:+ id) parents [])
      (jj.mkChangeBookmark id ("jip/" +:+ id +:+ "/" +:+ id) true jj.SyncLocalOnly false false)
      None false false in
  [st "A" ["main"]; st "B" ["main"]; st "C" ["A"; "B"]].

(** A list of changes is in topological order: a parent that is in the list
    stands before each of its children. *)
Definition topoOrdered (l : list jj.Change) : Prop :=
  forall (i j : nat) (p c : jj.Change),
    l !! i = Some p -> l !! j = Some c ->
    jj.ChangeID p ∈ jj.ParentIDs c -> (i < j)%nat.

(** The parent edges restricted to the changes of a list: [edge l p c] when
    the change [p] of the list is a parent of the change [c] of the list. *)
Definition edge (l : list jj.Change) (p c : string) : Prop :=
  exists cp cc, cp ∈ l /\ cc ∈ l /\ jj.ChangeID cp = p /\ jj.ChangeID cc = c /\
                p ∈ jj.ParentIDs cc.

(** The id of the change of a state. *)
Definition stateID (s : cmd.changeState) : string := jj.ChangeID (cmd.change s).

(** The reason a change is skipped for by the state of its own bookmark. *)
Definition ownReason (s : cmd.changeState) : option cmd.skipReason :=
  if jj.cb_Displaced (cmd.bookmark s) then
    Some (cmd.mkSkipReason "remote is ahead of local — pull changes or reset the bookmark" "")
  else if jj.cb_Conflict (cmd.bookmark s) then
    Some (cmd.mkSkipReason
            "local and remote have diverged — resolve with `jj bookmark set` or force-push" "")
  else if bool_decide (jj.cb_SyncState (cmd.bookmark s) = jj.SyncBehind) then
    Some (cmd.mkSkipReason "remote is ahead of local — pull changes first" "")
  else None.

(** The entry of a change in a classification [m]: the cascade from its
    first skipped parent, or else its own reason. *)
Definition skipRule (m : gmap string cmd.skipReason) (s : cmd.changeState)
  : option cmd.skipReason :=
  match List.find (fun pid => bool_decide (is_Some (m !! pid)))
                  (jj.ParentIDs (cmd.change s)) with
  | Some pid => Some (cmd.mkSkipReason "skipped because ancestor was skipped" pid)
  | None => ownReason s
  end.

(** A linear stack [A], [B], [C] whose first bookmark is behind its remote. *)
Definition behindStack : list cmd.changeState :=
  let st id parents sync :=
    cmd.mkChangeState (jj.mkChange id ("commit-" +:+ id) ("feat: " +:+ id) parents [])
      (jj.mkChangeBookmark id ("jip/" +:+ id +:+ "/" +:+ id) false sync false false)
      None false false in
  [st "A" ["main"] jj.SyncBehind; st "B" ["A"] jj.SyncInSync; st "C" ["B"] jj.SyncInSync].

(** The PR number of a state ([0] without PR). *)
Definition prNumber (s : cmd.changeState) : Z :=
  match cmd.pr s with
  | Some p => github.Number p
  | None => 0
  end.

(** The diamond [a -> b], [a -> c], [b -> d], [c -> d] with the PRs 1 to 4. *)
Definition diamond : list cmd.changeState :=
  let st id parents n :=
    cmd.mkChangeState (jj.mkChange id ("commit-" +:+ id) ("feat: " +:+ id) parents [])
      (jj.mkChangeBookmark id ("jip/" +:+ id +:+ "/" +:+ id) false jj.SyncInSync false false)
      (Some (github.mkPRInfo n "OPEN" "" ("feat: " +:+ id) "" "" "main" false))
      false false in
  [st "a" ["main"] 1; st "b" ["a"] 2; st "c" ["a"] 3; st "d" ["b"; "c"] 4].
(** What a walk from [id] adds to the marked set [V]: [near] relates a
    marked change to [id] and [next] is the edge followed. *)
Definition walked (near next : relation string) (V : gset string) (id : string)
    (V' : gset string) : Prop :=
  V ⊆ V' /\
  (forall x, x ∈ V' -> x ∈ V \/ near x id) /\
  (forall y, next id y -> y ∈ V') /\
  (forall x, x ∈ V' -> x ∉ V -> forall y, next x y -> y ∈ V').

(** The stack of the state [s] among [states]: the PR numbers, in input
    order, of the states whose change is [s]'s, an ancestor of it or a
    descendant of it along the parent edges within [states]. *)
Definition stackOf (states : list cmd.changeState) (s : cmd.changeState) (stack : list Z)
  : Prop :=
  exists relevant : gset string,
    (forall x, x ∈ relevant <->
               x = stateID s \/ tc (edge (map cmd.change states)) x (stateID s)
               \/ tc (edge (map cmd.change states)) (stateID s) x) /\
    stack = map prNumber (filter (fun t => stateID t ∈ relevant) states).

(** The occurrences of [x] in [l]. *)
Definition occ (x : string) (l : list string) : nat :=
  length (filter (fun y => y = x) l).

(** The parent entries of [c] that name a change of the component [ids]
    not yet among the emitted [emitted]. *)
Definition pending (ids emitted : list string) (c : jj.Change) : nat :=
  length (filter (fun p => p ∈ ids /\ p ∉ emitted) (jj.ParentIDs c)).

(** The invariant of Kahn's loop over the members [mems] of a component:
    the emitted changes and the queue hold distinct ids of the component;
    the in-degree of a member counts its pending parent entries; a member is
    emitted or queued exactly when none is pending; and every emitted change
    stands after its parents within the component. *)
Definition kahnInv (mems : list jj.Change) (queue : list string)
    (inDegree : gmap string Z) (sorted : list jj.Change) : Prop :=
  let ids := map jj.ChangeID mems in
  let emitted := map jj.ChangeID sorted in
  NoDup (emitted ++ queue) /\
  (forall x, x ∈ emitted ++ queue -> x ∈ ids) /\
  (forall c, c ∈ mems -> inDegree !! jj.ChangeID c = Some (Z.of_nat (pending ids emitted c))) /\
  (forall c, c ∈ mems -> jj.ChangeID c ∈ emitted ++ queue <-> pending ids emitted c = 0%nat) /\
  (forall c, c ∈ sorted -> c ∈ mems) /\
  (forall j c, sorted !! j = Some c ->
     forall p, p ∈ jj.ParentIDs c -> p ∈ ids ->
       exists i cp, (i < j)%nat /\ sorted !! i = Some cp /\ jj.ChangeID cp = p).

(** The example of the test suite: the diamond [a -> b], [a -> c],
    [b -> d], [c -> d], listed newest first as [jj log] does. *)
Definition diamondChanges : list jj.Change :=
  [jj.mkChange "d" "c4" "feat: d" ["b"; "c"] [];
   jj.mkChange "c" "c3" "feat: c" ["a"] [];
   jj.mkChange "b" "c2" "feat: b" ["a"] [];
   jj.mkChange "a" "c1" "feat: a" ["main"] []].

(** The [parent] slice of the union-find is a forest when some rank grows
    along every link: each entry is an index of the slice, and the entry of
    a node that is not a root has a higher rank than the node. *)
Definition forest (h : nat -> nat) (parent : list nat) : Prop :=
  forall x px, parent !! x = Some px ->
    (px < length parent)%nat /\ (px <> x -> (h x < h px)%nat).

(** The nodes of rank above that of [x]: a bound on the links that [find]
    follows from [x]. *)
Definition above (h : nat -> nat) (n x : nat) : nat :=
  length (filter (fun y => (h x < h y)%nat) (seq 0 n)).

(** [rootOf parent x r]: following the links of the [parent] slice of the
    union-find from [x] ends at the root [r]. *)
Inductive rootOf (parent : list nat) : nat -> nat -> Prop :=
| rootOf_here (x : nat) : parent !! x = Some x -> rootOf parent x x
| rootOf_step (x y r : nat) :
    parent !! x = Some y -> y <> x -> rootOf parent y r -> rootOf parent x r.

(** Two nodes are joined when they have the same root. *)
Definition joined (parent : list nat) (x y : nat) : Prop :=
  exists r, rootOf parent x r /\ rootOf parent y r.

(** The parent relation of a list of changes has no cycle. *)
Definition acyclic (l : list jj.Change) : Prop :=
  forall x, ~ tc (edge l) x x.

(** [link changes i j]: the change at index [i] is a parent of the change
    at index [j]. *)
Definition link (changes : list jj.Change) (i j : nat) : Prop :=
  exists ci cj, changes !! i = Some ci /\ changes !! j = Some cj /\
                jj.ChangeID ci ∈ jj.ParentIDs cj.

(** The invariant of the union-find over [n] nodes: every node has a root,
    and it is connected to it by links. *)
Definition connInv (L : relation nat) (n : nat) (parent : list nat) : Prop :=
  forall x, (x < n)%nat -> exists r, rootOf parent x r /\ rtsc L x r.

(** [byID] indexes the changes of [l] by their id. *)
Definition indexes (byID : gmap string jj.Change) (l : list jj.Change) : Prop :=
  forall id c, byID !! id = Some c <-> c ∈ l /\ jj.ChangeID c = id.

(** A bookmark that [MatchBookmarksToChanges] takes into account: present
    locally, with a target. *)
Definition hasTarget (b : jj.BookmarkInfo) : Prop :=
  jj.bi_Present b = true /\ jj.bi_Target b <> "".

(** The name [EnsureBookmarks] generates for a change. *)
Definition generatedName `{go.Unicode} (change : jj.Change) : string :=
  jj.GenerateBookmarkName (jj.Description change)
    (if (8 <? String.length (jj.ChangeID change))%nat
     then go.slice_to 8 (jj.ChangeID change) else jj.ChangeID change).

(** The answer of the callback [shouldUseExisting] for a change and a
    bookmark; a nil callback accepts every bookmark. *)
Definition accepts (shouldUseExisting : option (string -> string -> bool))
    (change : jj.Change) (b : jj.BookmarkInfo) : bool :=
  match shouldUseExisting with
  | None => true
  | Some f => f (jj.ChangeID change) (jj.bi_Name b)
  end.

(** The bookmarks [EnsureBookmarks] may reuse for a change: those matched
    to the change that the callback accepts, in the order of the list. *)
Definition candidates (matched : gmap string (list jj.BookmarkInfo))
    (shouldUseExisting : option (string -> string -> bool)) (change : jj.Change)
  : list jj.BookmarkInfo :=
  List.filter (accepts shouldUseExisting change)
              (default [] (matched !! jj.ChangeID change)).

(** A change for which [EnsureBookmarks] finds a bookmark without creating
    one: it has a candidate, or a bookmark of the list has its generated
    name. *)
Definition reusable `{go.Unicode} (matched : gmap string (list jj.BookmarkInfo))
    (bookmarks : list jj.BookmarkInfo)
    (shouldUseExisting : option (string -> string -> bool)) (change : jj.Change) : bool :=
  match candidates matched shouldUseExisting change with
  | _ :: _ => true
  | [] => bool_decide (generatedName change ∈ map jj.bi_Name bookmarks)
  end.

(** What [EnsureBookmarks] assigns to a change.  An entry that is not new
    names a bookmark of the list and carries its sync state with the push
    remote and its conflict flag: the first candidate, or, when there is no
    candidate, a bookmark that has the generated name of the change, as
    displaced.  A new entry is made when there is neither: it has the
    generated name and is local-only, without conflict and not displaced. *)
Definition assigned `{go.Unicode} (matched : gmap string (list jj.BookmarkInfo))
    (bookmarks : list jj.BookmarkInfo) (pushRemote : string)
    (shouldUseExisting : option (string -> string -> bool))
    (change : jj.Change) (cb : jj.ChangeBookmark) : Prop :=
  jj.cb_ChangeID cb = jj.ChangeID change /\
  match jj.cb_IsNew cb with
  | true =>
      (candidates matched shouldUseExisting change = []) /\
      (jj.cb_Bookmark cb = generatedName change) /\
      (jj.cb_Bookmark cb ∉ map jj.bi_Name bookmarks) /\
      (jj.cb_SyncState cb = jj.SyncLocalOnly) /\
      (jj.cb_Conflict cb = false) /\ (jj.cb_Displaced cb = false)
  | false =>
      exists b,
        (b ∈ bookmarks) /\ (jj.cb_Bookmark cb = jj.bi_Name b) /\
        (jj.cb_SyncState cb = jj.SyncWith b pushRemote) /\
        (jj.cb_Conflict cb = jj.bi_Conflict b) /\
        match jj.cb_Displaced cb with
        | true => (candidates matched shouldUseExisting change = []) /\
                  (jj.bi_Name b = generatedName change)
        | false => head (candidates matched shouldUseExisting change) = Some b
        end
  end.

(** A list of one bookmark, [feature], on the commit of [changeA] and in
    sync with its copy on [origin]. *)
Definition featureBookmarks : list jj.BookmarkInfo :=
  [jj.mkBookmarkInfo "feature" "c0ffee" "kkkkkkkkkkkk" true false
     {[ "origin" := jj.mkRemoteBookmarkState "c0ffee" true 0 0 ]}].

(** The distinct elements of a list, each at its first occurrence. *)
Definition firstOccurrences (l : list string) : list string :=
  foldl (fun acc x => if decide (x ∈ acc) then acc else acc ++ [x]) [] l.

(** A row of the bookmark listing that is not of jj's internal [git]
    remote. *)
Definition listed (e : jj.rawBookmarkEntry) : Prop := jj.raw_Remote e <> Some "git".

(** The invariant of the grouping loop of [ParseBookmarkList]: [ns] lists
    the names of the groups by their order. *)
Definition groupInv (acc : gmap string (jj.BookmarkInfo * nat) * nat) (ns : list string)
  : Prop :=
  (forall name info k, acc.1 !! name = Some (info, k) ->
     ns !! k = Some name /\ jj.bi_Name info = name /\ jj.bi_Remotes info !! "git" = None) /\
  (forall k name, ns !! k = Some name -> is_Some (acc.1 !! name)) /\
  NoDup ns /\ acc.2 = length ns /\ size acc.1 = length ns.

(** A listing of two bookmarks: [main], local and on two remotes, one of
    them the internal [git] remote, and [feat], on [origin] only. *)
Definition listingRows : list jj.rawBookmarkEntry :=
  [jj.mkRawBookmarkEntry "main" None true false "c1" "k1" false 0 0;
   jj.mkRawBookmarkEntry "main" (Some "git") true false "c1" "k1" true 0 0;
   jj.mkRawBookmarkEntry "gitonly" (Some "git") true false "c9" "k9" true 0 0;
   jj.mkRawBookmarkEntry "feat" (Some "origin") true false "c2" "k2" true 0 0;
   jj.mkRawBookmarkEntry "main" (Some "origin") true false "c0" "k0" true 0 1].

(** Decoders that read [listingRows] from every bookmark listing. *)
Definition listingDecoders : jj.Decoders :=
  {| jj.decodeChanges := fun _ => inr [];
     jj.decodeBookmarkEntries := fun _ => inr listingRows |}.

(** What a call of the driver does to the world. *)
Definition jjEffect {W : Type} (runner : jj.Runner W) (c : jj.call) (w : W) : W :=
  match c with
  | jj.CallLog revset => (jj.Log runner revset w).1
  | jj.CallBookmarkList => (jj.BookmarkList runner w).1
  | jj.CallBookmarkSet name rev => (jj.BookmarkSet runner name rev w).1
  | jj.CallGitRemoteList => (jj.GitRemoteList runner w).1
  | jj.CallGitFetch remote => (jj.GitFetch runner remote w).1
  | jj.CallGitPush bookmarks allowNew remote =>
      (jj.GitPush runner bookmarks allowNew remote w).1
  | jj.CallInterdiff from to => (jj.Interdiff runner from to w).1
  | jj.CallRebase revsets destination => (jj.Rebase runner revsets destination w).1
  end.

(** What a call of the hosting service does to the world. *)
Definition ghEffect {W : Type} (client : github.Service W) (c : github.call) (w : W) : W :=
  match c with
  | github.CallCreatePR head base title body draft =>
      (github.CreatePR client head base title body draft w).1
  | github.CallUpdatePR number o => (github.UpdatePR client number o w).1
  | github.CallCommentOnPR number body => (github.CommentOnPR client number body w).1
  | github.CallGetAuthenticatedUser => (github.GetAuthenticatedUser client w).1
  | github.CallRequestReviewers number reviewers =>
      (github.RequestReviewers client number reviewers w).1
  | github.CallLookupPRsByBranch branches => (github.LookupPRsByBranch client branches w).1
  | github.CallOwner => (github.Owner client w).1
  | github.CallRepo => (github.Repo client w).1
  end.

Definition effect {W : Type} (runner : jj.Runner W) (client : github.Service W)
    (ev : cmd.event) (w : W) : W :=
  match ev with
  | cmd.JJ c => jjEffect runner c w
  | cmd.GH c => ghEffect client c w
  end.

(** The world after a sequence of calls. *)
Definition worldAfter {W : Type} (runner : jj.Runner W) (client : github.Service W)
    (evs : list cmd.event) (w : W) : W :=
  foldl (fun w ev => effect runner client ev w) w evs.

(** Every call of a computation satisfies [P], and its calls are what
    changes the world: [eff] gives the effect of each. *)
Definition reads {W E A : Type} (eff : E -> W -> W) (P : E -> Prop) (m : go.M W E A) : Prop :=
  forall st, exists evs,
    go.trace (m st).1 = go.trace st ++ evs /\ Forall P evs /\
    go.world (m st).1 = foldl (fun w ev => eff ev w) (go.world st) evs.

(** The calls that follow the push: the creation and update of pull
    requests, their comments and reviewers, and the interdiffs. *)
Definition afterPush (ev : cmd.event) : Prop :=
  match ev with
  | cmd.JJ (jj.CallInterdiff _ _) => True
  | cmd.GH (github.CallCreatePR _ _ _ _ _) | cmd.GH (github.CallUpdatePR _ _)
  | cmd.GH (github.CallCommentOnPR _ _) | cmd.GH (github.CallRequestReviewers _ _) => True
  | _ => False
  end.

(** The calls [evs] of a run that starts in the world [w] and ends with
    [result], in their order: reads, fetches and local bookmarks; then at
    most one push, to [remote] and allowing new branches; then the calls on
    pull requests.  When the push, made in the world the earlier calls have
    left, fails, no call follows it and the run ends with its error. *)
Definition pushPhases {W A : Type} (runner : jj.Runner W) (client : github.Service W)
    (remote : string) (w : W) (evs : list cmd.event) (result : go.outcome A) : Prop :=
  exists pre post,
    evs = pre ++ post /\ Forall dryRunCall pre /\
    (post = [] \/
     exists bookmarks rest,
       post = cmd.JJ (jj.CallGitPush bookmarks true remote) :: rest /\
       Forall afterPush rest /\
       forall e,
         (jj.GitPush runner bookmarks true remote (worldAfter runner client pre w)).2 = Some e ->
         rest = [] /\ result = go.Raise (go.Errorf "pushing: %w" [go.FErr e])).

Definition phased {W A : Type} (runner : jj.Runner W) (client : github.Service W)
    (remote : string) (m : go.M W cmd.event A) : Prop :=
  forall st, exists evs,
    go.trace (m st).1 = go.trace st ++ evs /\
    pushPhases runner client remote (go.world st) evs (m st).2.

(** No call at all. *)
Definition noCall {E : Type} (ev : E) : Prop := False.

(** The calls of a run that only updates: no bookmark is set, no pull
    request created, no reviewer requested. *)
Definition updateCall (ev : cmd.event) : Prop :=
  match ev with
  | cmd.JJ (jj.CallBookmarkSet _ _) | cmd.GH (github.CallCreatePR _ _ _ _ _)
  | cmd.GH (github.CallRequestReviewers _ _) => False
  | _ => True
  end.

(** A repository whose remotes cannot be reached: every fetch fails. *)
Definition offlineRunner : jj.Runner (list (string * string)) :=
  jj.mkRunner (list (string * string))
    (fun _ w => (w, inr "changeA")) (fun w => (w, inr ""))
    (fun name rev w => (w ++ [(name, rev)], None)) (fun w => (w, inr ""))
    (fun _ w => (w, Some (go.External "offline"))) (fun _ _ _ w => (w, None))
    (fun _ _ w => (w, inr "")) (fun _ _ w => (w, None)).

(** [send --existing] with the defaults of the command line. *)
Definition existingOpts : cmd.sendOpts :=
  cmd.mkSendOpts "main" "origin" "" "" "" false false true false [] ["@-"].

(** [returns m Q]: from every state, [m] ends with a value that satisfies
    [Q] or with an error; it neither panics nor runs out of fuel. *)
Definition returns {W E A : Type} (m : go.M W E A) (Q : A -> Prop) : Prop :=
  forall st, match (m st).2 with
             | go.Ret a => Q a
             | go.Raise _ => True
             | _ => False
             end.

(** A line that opens the section of a file in a unified diff. *)
Definition isFileHeader (line : string) : bool := go.HasPrefix line "diff --git ".

(** The path a header line names: the text after its first [" b/"], or the
    whole line when there is none. *)
Definition headerPath (line : string) : string :=
  match go.SplitN2 line " b/" with
  | Some (_, after) => after
  | None => line
  end.







(** The sections of a diff, read off its lines: every line that opens a
    section, with the lines that follow it up to the next such line.  The
    first component holds the lines before the first section. *)
Fixpoint groupSections (lines : list string) : list string * list (string * list string) :=
  match lines with
  | [] => ([], [])
  | line :: rest =>
      let '(before, sections) := groupSections rest in
      if isFileHeader line then ([], (line, before) :: sections)
      else (line :: before, sections)
  end.

Definition diffSections (diff : string) : list (string * list string) :=
  snd (groupSections (go.SplitByte (ascii_of_nat 10) diff)).

(** The lines without the empty lines at their end. *)
Fixpoint dropTrailingEmpty (lines : list string) : list string :=
  match lines with
  | [] => []
  | line :: rest =>
      match dropTrailingEmpty rest with
      | [] => if String.eqb line "" then [] else [line]
      | kept => line :: kept
      end
  end.

(** The lines a section counts: those that follow its [diff --git] line up
    to its last non-empty line, and one line when there is none. *)
Definition countedLines (section : string * list string) : Z :=
  Z.of_nat (Nat.max 1 (length (dropTrailingEmpty (snd section)))).

Definition countedTotal (sections : list (string * list string)) : Z :=
  foldr (fun section total => countedLines section + total) 0 sections.

(** A [+] or [-] line that is not a [+++] or [---] header. *)
Definition isChangedLine (line : string) : bool :=
  (go.HasPrefix line "+" && negb (go.HasPrefix line "+++"))
  || (go.HasPrefix line "-" && negb (go.HasPrefix line "---")).

(** The sum of the [+] and [-] lines of the sections. *)
Definition changedTotal (sections : list (string * list string)) : Z :=
  foldr (fun section total =>
           Z.of_nat (length (List.filter isChangedLine (snd section))) + total)
        0 sections.

(** A section as a file of the comment: the path its header line names and
    its counted lines. *)
Definition sectionFile (section : string * list string) : github.fileDiff :=
  github.mkFileDiff (headerPath (fst section))
                    (String.concat github.nl (dropTrailingEmpty (snd section))).

(** No newline byte. *)
Definition oneLine (s : string) : bool :=
  go.allBytes (fun c => negb (Ascii.eqb c (ascii_of_nat 10))) s.

(** The lines, each closed by a newline. *)
Definition closedLines (lines : list string) : string :=
  foldr (fun line text => line +:+ github.nl +:+ text) "" lines.

(** The section being read, with further lines read into its body. *)
Definition extendCurrent (current : option github.fileDiff) (lines : list string)
  : option github.fileDiff :=
  match current with
  | Some cur => Some (github.mkFileDiff (github.header cur)
                                        (github.body cur +:+ closedLines lines))
  | None => None
  end.

(** * Properties *)

(** ** BookmarkModel: sync states *)

(** C6. [SyncWith] decides in the order of the policy: a conflict is
    diverged; without an entry for the remote the bookmark is local-only if
    present and unknown otherwise; with an entry, a bookmark that is not
    present is remote-only, ahead > 0 and behind > 0 is diverged, behind > 0
    alone is ahead, ahead > 0 alone is behind, anything else is in-sync.  It
    never answers unknown when the remote has an entry. *)
Theorem SyncWith_policy (b : jj.BookmarkInfo) (remote : string) :
  (jj.bi_Conflict b = true -> jj.SyncWith b remote = jj.SyncDiverged) /\
  (jj.bi_Conflict b = false -> jj.bi_Remotes b !! remote = None ->
     jj.SyncWith b remote =
       if jj.bi_Present b then jj.SyncLocalOnly else jj.SyncUnknown) /\
  (forall rs, jj.bi_Conflict b = false -> jj.bi_Remotes b !! remote = Some rs ->
     (jj.bi_Present b = false -> jj.SyncWith b remote = jj.SyncRemoteOnly) /\
     (jj.bi_Present b = true -> 0 < jj.rs_Ahead rs -> 0 < jj.rs_Behind rs ->
        jj.SyncWith b remote = jj.SyncDiverged) /\
     (jj.bi_Present b = true -> jj.rs_Ahead rs <= 0 -> 0 < jj.rs_Behind rs ->
        jj.SyncWith b remote = jj.SyncAhead) /\
     (jj.bi_Present b = true -> 0 < jj.rs_Ahead rs -> jj.rs_Behind rs <= 0 ->
        jj.SyncWith b remote = jj.SyncBehind) /\
     (jj.bi_Present b = true -> jj.rs_Ahead rs <= 0 -> jj.rs_Behind rs <= 0 ->
        jj.SyncWith b remote = jj.SyncInSync)) /\
  (is_Some (jj.bi_Remotes b !! remote) -> jj.SyncWith b remote <> jj.SyncUnknown).
Proof.
  unfold jj.SyncWith.
  split; [intros ->; reflexivity|].
  split; [intros -> ->; reflexivity|].
  split.
  - intros rs -> ->.
    repeat split; intros Hp; rewrite Hp; simpl; trivial; intros Ha Hb.
    + apply Z.ltb_lt in Ha, Hb. rewrite Ha, Hb. reflexivity.
    + apply Z.ltb_lt in Hb. apply Z.ltb_ge in Ha. rewrite Ha, Hb. reflexivity.
    + apply Z.ltb_lt in Ha. apply Z.ltb_ge in Hb. rewrite Ha, Hb. reflexivity.
    + apply Z.ltb_ge in Ha, Hb. rewrite Ha, Hb. reflexivity.
  - intros [rs ->].
    destruct (jj.bi_Conflict b); [discriminate|].
    destruct (jj.bi_Present b); simpl; [|discriminate].
    destruct (0 <? jj.rs_Ahead rs), (0 <? jj.rs_Behind rs); discriminate.
Qed.

(** ** BookmarkAssigner: canonical bookmark names *)

Section Slug.

Lemma isAlnum_not_dash c : jj.isAlnum c = true -> Ascii.eqb c "-" = false.
Proof.
  destruct (Ascii.eqb_spec c "-") as [->|]; [|reflexivity].
  vm_compute. discriminate.
Qed.

Lemma replaceNonAlnum_body (s : string) : forall inRun,
  slugBody (jj.replaceNonAlnum inRun s) /\
  (inRun = true -> String.get 0 (jj.replaceNonAlnum inRun s) <> Some "-"%char).
Proof.
  induction s as [|c s IH]; intros inRun; simpl.
  - split; [split; reflexivity|discriminate].
  - destruct (jj.isAlnum c) eqn:Hc.
    + destruct (IH false) as [[Ha Hd] _]. split.
      * split; simpl.
        -- unfold slugByte. rewrite Hc. simpl. exact Ha.
        -- destruct (jj.replaceNonAlnum false s) eqn:E; [reflexivity|].
           rewrite (isAlnum_not_dash _ Hc). simpl. exact Hd.
      * intros _ [= ->]. vm_compute in Hc. discriminate.
    + destruct inRun.
      * apply IH.
      * destruct (IH true) as [[Ha Hd] Hf]. split; [|discriminate].
        split; simpl.
        -- exact Ha.
        -- destruct (jj.replaceNonAlnum true s) as [|b r] eqn:E; [reflexivity|].
           simpl in Hf.
           destruct (Ascii.eqb_spec b "-") as [->|]; [exfalso; apply Hf; reflexivity; fail|].
           simpl. exact Hd.
Qed.

Lemma slugBody_tail a s : slugBody (String a s) -> slugBody s.
Proof.
  intros [Ha Hd]. simpl in Ha. apply andb_true_iff in Ha as [_ Ha].
  split; [exact Ha|].
  destruct s; [reflexivity|]. simpl in Hd. apply andb_true_iff in Hd as [_ Hd]. exact Hd.
Qed.

Lemma TrimLeftByte_body s :
  slugBody s ->
  slugBody (go.TrimLeftByte "-" s) /\ String.get 0 (go.TrimLeftByte "-" s) <> Some "-"%char.
Proof.
  induction s as [|a s IH]; intros Hs; simpl.
  - split; [exact Hs|discriminate].
  - destruct (Ascii.eqb_spec a "-") as [->|Hne].
    + apply IH. eapply slugBody_tail, Hs.
    + split; [exact Hs|]. simpl. congruence.
Qed.

Lemma lastByte_cons a b s : lastByte (String a (String b s)) = lastByte (String b s).
Proof. unfold lastByte. simpl. rewrite Nat.sub_0_r. reflexivity. Qed.

Lemma TrimRightByte_body s :
  slugBody s ->
  slugBody (go.TrimRightByte "-" s) /\
  (forall b, String.get 0 (go.TrimRightByte "-" s) = Some b -> String.get 0 s = Some b) /\
  lastByte (go.TrimRightByte "-" s) <> Some "-"%char.
Proof.
  induction s as [|a s IH]; intros Hs; simpl.
  - repeat split; try reflexivity; [intros b; discriminate|discriminate].
  - destruct (IH (slugBody_tail _ _ Hs)) as ([Ha Hd] & Hf & Hl).
    destruct (go.TrimRightByte "-" s) as [|b t] eqn:E; simpl.
    + destruct (Ascii.eqb_spec a "-") as [->|Hne].
      * repeat split; try reflexivity; [intros b; discriminate|discriminate].
      * destruct Hs as [Hs _]. simpl in Hs. apply andb_true_iff in Hs as [Hs _].
        repeat split; simpl.
        -- rewrite Hs. reflexivity.
        -- intros b Hb. exact Hb.
        -- unfold lastByte. simpl. congruence.
    + replace (String.eqb (String b t) "") with false by reflexivity. simpl.
      assert (Hb : String.get 0 s = Some b) by (apply Hf; reflexivity).
      destruct s as [|b' s']; [discriminate|]. simpl in Hb. injection Hb as ->.
      destruct Hs as [Hs Hs'].
      repeat split.
      * simpl in Hs |- *. apply andb_true_iff in Hs as [-> _]. simpl. exact Ha.
      * change (negb (Ascii.eqb a "-" && Ascii.eqb b "-") && noDoubleDash (String b t) = true).
        change (negb (Ascii.eqb a "-" && Ascii.eqb b "-") && noDoubleDash (String b s') = true) in Hs'.
        apply andb_true_iff in Hs' as [-> _]. simpl. exact Hd.
      * intros x Hx. exact Hx.
      * rewrite lastByte_cons. exact Hl.
Qed.

Lemma length_substring0 n s :
  String.length (substring 0 n s) = Nat.min n (String.length s).
Proof.
  revert n. induction s as [|a s IH]; intros [|n]; simpl; try reflexivity.
  rewrite IH. reflexivity.
Qed.

Lemma substring0_body n s : slugBody s -> slugBody (substring 0 n s).
Proof.
  revert n. induction s as [|a s IH]; intros [|n] Hs; simpl; try (split; reflexivity).
  pose proof (IH n (slugBody_tail _ _ Hs)) as [Ha Hd].
  destruct Hs as [Hs Hs']. simpl in Hs. apply andb_true_iff in Hs as [Hs _].
  split; simpl.
  - rewrite Hs. exact Ha.
  - destruct s as [|b s']; [destruct n; reflexivity|].
    destruct n as [|n]; [reflexivity|].
    change (negb (Ascii.eqb a "-" && Ascii.eqb b "-") && noDoubleDash (substring 0 (S n) (String b s')) = true).
    change (negb (Ascii.eqb a "-" && Ascii.eqb b "-") && noDoubleDash (String b s') = true) in Hs'.
    apply andb_true_iff in Hs' as [-> _]. simpl. exact Hd.
Qed.

Lemma noDoubleDash_get s : forall i,
  noDoubleDash s = true -> String.get (S i) s = Some "-"%char -> String.get i s <> Some "-"%char.
Proof.
  induction s as [|a s IH]; intros i Hd Hg; [discriminate|].
  destruct s as [|b s']; [discriminate|].
  change (negb (Ascii.eqb a "-" && Ascii.eqb b "-") && noDoubleDash (String b s') = true) in Hd.
  apply andb_true_iff in Hd as [Hab Hd].
  destruct i as [|i].
  - simpl in Hg |- *. injection Hg as ->. intros [= ->]. discriminate.
  - change (String.get (S i) (String b s') = Some "-"%char) in Hg.
    change (String.get i (String b s') <> Some "-"%char).
    apply IH; assumption.
Qed.

Lemma LastIndexByte_spec c s :
  -1 <= go.LastIndexByte c s < Z.of_nat (String.length s) /\
  (0 <= go.LastIndexByte c s -> String.get (Z.to_nat (go.LastIndexByte c s)) s = Some c) /\
  (forall j, String.get j s = Some c -> Z.of_nat j <= go.LastIndexByte c s).
Proof.
  induction s as [|a s (Hr & Hg & Hm)]; simpl.
  - split; [lia|]. split; [lia|]. intros j; discriminate.
  - destruct (Z.leb_spec 0 (go.LastIndexByte c s)) as [Hpos|Hneg].
    + split; [lia|]. split.
      * intros _. replace (Z.to_nat (go.LastIndexByte c s + 1))
          with (S (Z.to_nat (go.LastIndexByte c s))) by lia.
        simpl. apply Hg, Hpos.
      * intros [|j] Hj; [lia|]. simpl in Hj. apply Hm in Hj. lia.
    + destruct (Ascii.eqb_spec a c) as [->|Hne].
      * split; [lia|]. split; [reflexivity|].
        intros [|j] Hj; [lia|]. simpl in Hj. apply Hm in Hj. lia.
      * split; [lia|]. split; [lia|].
        intros [|j] Hj; simpl in Hj; [congruence|]. apply Hm in Hj. lia.
Qed.

Context `{go.Unicode}.

(** The slug before the substitution of [change] for the empty string. *)
Lemma slugify_shape (d : string) :
  (String.length (jj.slugify d) <= 30)%nat /\
  slugBody (jj.slugify d) /\
  String.get 0 (jj.slugify d) <> Some "-"%char /\
  lastByte (jj.slugify d) <> Some "-"%char.
Proof.
  unfold jj.slugify.
  set (x := go.ToLower (jj.stripConventionalPrefix d)).
  destruct (replaceNonAlnum_body x false) as [Hb _].
  destruct (TrimLeftByte_body _ Hb) as [Hb1 Hf1].
  destruct (TrimRightByte_body _ Hb1) as (Hb2 & Hf2 & Hl2).
  fold (go.TrimByte "-" (jj.replaceNonAlnum false x)) in Hb2, Hf2, Hl2.
  set (t := go.TrimByte "-" (jj.replaceNonAlnum false x)) in *.
  assert (Hf : String.get 0 t <> Some "-"%char).
  { intros E. apply Hf1. apply Hf2. exact E. }
  unfold jj.maxSlugLen. change (30 / 2)%nat with 15%nat.
  destruct (Nat.ltb_spec 30 (String.length t)) as [Hlong|Hshort].
  2:{ repeat split; try assumption; apply Hb2. }
  unfold go.slice_to.
  set (u := substring 0 30 t).
  assert (Hlu : String.length u = 30%nat).
  { unfold u. rewrite length_substring0. lia. }
  assert (Hbu : slugBody u) by (apply substring0_body, Hb2).
  assert (Hfu : String.get 0 u <> Some "-"%char).
  { unfold u. rewrite substring_correct1 by lia. exact Hf. }
  destruct (LastIndexByte_spec "-" u) as (Hr & Hg & Hm).
  destruct (Z.ltb_spec (Z.of_nat 15) (go.LastIndexByte "-" u)) as [Hcut|Hkeep].
  - set (i := Z.to_nat (go.LastIndexByte "-" u)) in *.
    assert (Hi : (15 < i < 30)%nat) by lia.
    repeat split.
    + rewrite length_substring0. lia.
    + apply substring0_body, Hbu.
    + apply substring0_body, Hbu.
    + rewrite substring_correct1 by lia. exact Hfu.
    + unfold lastByte. rewrite length_substring0.
      replace (Nat.min i (String.length u)) with i by lia.
      rewrite substring_correct1 by lia. rewrite Nat.add_0_r.
      apply noDoubleDash_get; [apply Hbu|].
      replace (S (i - 1)) with i by lia. apply Hg. lia.
  - repeat split; try assumption; try apply Hbu; [lia|].
    unfold lastByte. rewrite Hlu. intros E. apply Hm in E. lia.
Qed.

(** C9. The generated bookmark name is [jip/<slug>/<short_change_id>]: a
    function of the description and the short change id, where the slug is
    the slugified description, or [change] when that is empty; the slug is at
    most 30 bytes long, holds only bytes of [a-z0-9-] and neither begins nor
    ends with a hyphen. *)
Theorem GenerateBookmarkName_shape (description shortChangeID : string) :
  let slug := if String.eqb (jj.slugify description) "" then "change"
              else jj.slugify description in
  jj.GenerateBookmarkName description shortChangeID
    = "jip/" +:+ slug +:+ "/" +:+ shortChangeID /\
  (String.length slug <= 30)%nat /\
  go.allBytes slugByte slug = true /\
  String.get 0 slug <> Some "-"%char /\
  lastByte slug <> Some "-"%char.
Proof.
  intros slug. split; [reflexivity|]. subst slug.
  destruct (String.eqb (jj.slugify description) "").
  - repeat split; [simpl; lia|discriminate|discriminate].
  - destruct (slugify_shape description) as (Hl & [Ha _] & Hf & Hz).
    repeat split; assumption.
Qed.

End Slug.

(** ** BodyComposer: interdiff comments *)

Section DiffComment.


Lemma foldl_countLine_bound (lines : list string) : forall a r,
  let '(a', r') := foldl github.countLine (a, r) lines in
  a <= a' /\ r <= r' /\ a' + r' <= a + r + Z.of_nat (length lines).
Proof.
  induction lines as [|l lines IH]; intros a r; simpl; [lia|].
  unfold github.countLine at 1.
  destruct (go.HasPrefix l "+" && negb (go.HasPrefix l "+++")).
  - specialize (IH (a + 1) r). destruct (foldl _ _ lines). lia.
  - destruct (go.HasPrefix l "-" && negb (go.HasPrefix l "---")).
    + specialize (IH a (r + 1)). destruct (foldl _ _ lines). lia.
    + specialize (IH a r). destruct (foldl _ _ lines). lia.
Qed.

Lemma changedLines_le_totalLines (files : list github.fileDiff) :
  0 <= changedLines files <= github.totalLines files.
Proof.
  unfold changedLines, github.totalLines.
  assert (G : forall t t', 0 <= t <= t' ->
    0 <= foldl (fun total f =>
             let '(added, removed) := github.diffStats (github.body f) in
             total + added + removed) t files
      <= foldl (fun total f => total + Z.of_nat (length (go.SplitByte (ascii_of_nat 10) (github.body f))))
               t' files).
  { induction files as [|f files IH]; intros t t' Ht; simpl; [lia|].
    apply IH. unfold github.diffStats.
    pose proof (foldl_countLine_bound (go.SplitByte (ascii_of_nat 10) (github.body f)) 0 0) as B.
    destruct (foldl github.countLine _ _). lia. }
  apply G. lia.
Qed.

Lemma renderSection_details (f : github.fileDiff) :
  go.HasPrefix (github.renderSection true f) (github.nl +:+ "<details open>" +:+ github.nl) = true /\
  go.HasPrefix (github.renderSection false f) (github.nl +:+ "<details>" +:+ github.nl) = true.
Proof.
  unfold github.renderSection. destruct (github.diffStats (github.body f)) as [a r].
  split; reflexivity.
Qed.

Lemma append_assoc (a b c : string) : (a +:+ b) +:+ c = a +:+ (b +:+ c).
Proof.
  induction a as [|x a IH]; [reflexivity|].
  change (String x ((a +:+ b) +:+ c) = String x (a +:+ (b +:+ c))). f_equal. exact IH.
Qed.

Lemma append_empty_r (a : string) : a +:+ "" = a.
Proof.
  induction a as [|x a IH]; [reflexivity|].
  change (String x (a +:+ "") = String x a). f_equal. exact IH.
Qed.

Lemma append_nonempty (a b : string) : b <> "" -> a +:+ b <> "".
Proof. intros Hb. destruct a; [exact Hb|discriminate]. Qed.

Lemma SplitByte_oneLine (s : string) :
  Forall (fun l => oneLine l = true) (go.SplitByte (ascii_of_nat 10) s).
Proof.
  induction s as [|c s IH]; simpl.
  - repeat constructor.
  - destruct (Ascii.eqb c (ascii_of_nat 10)) eqn:Hc.
    + constructor; [reflexivity|exact IH].
    + destruct (go.SplitByte (ascii_of_nat 10) s) as [|x xs].
      * constructor; [|constructor]. unfold oneLine. simpl. rewrite Hc. reflexivity.
      * inversion IH as [|? ? Hx Hxs]; subst.
        constructor; [|exact Hxs]. unfold oneLine in *. simpl. rewrite Hc. exact Hx.
Qed.

Lemma SplitByte_single (l : string) :
  oneLine l = true -> go.SplitByte (ascii_of_nat 10) l = [l].
Proof.
  induction l as [|c l IH]; intros Hl; simpl; [reflexivity|].
  unfold oneLine in Hl. simpl in Hl. apply andb_true_iff in Hl as [Hc Hl].
  apply negb_true_iff in Hc. rewrite Hc, (IH Hl). reflexivity.
Qed.

Lemma SplitByte_line (l rest : string) :
  oneLine l = true ->
  go.SplitByte (ascii_of_nat 10) (l +:+ github.nl +:+ rest)
  = l :: go.SplitByte (ascii_of_nat 10) rest.
Proof.
  induction l as [|c l IH]; intros Hl.
  - reflexivity.
  - unfold oneLine in Hl. simpl in Hl. apply andb_true_iff in Hl as [Hc Hl].
    apply negb_true_iff in Hc.
    change (go.SplitByte (ascii_of_nat 10) (String c (l +:+ github.nl +:+ rest))
            = String c l :: go.SplitByte (ascii_of_nat 10) rest).
    cbn [go.SplitByte]. rewrite Hc, (IH Hl). reflexivity.
Qed.

Lemma SplitByte_concat (lines : list string) :
  Forall (fun l => oneLine l = true) lines ->
  go.SplitByte (ascii_of_nat 10) (String.concat github.nl lines)
  = match lines with [] => [""] | _ => lines end.
Proof.
  induction lines as [|l lines IH]; intros Hl; [reflexivity|].
  inversion Hl as [|? ? Hl1 Hl2]; subst.
  destruct lines as [|l' lines'].
  - simpl. apply SplitByte_single, Hl1.
  - change (String.concat github.nl (l :: l' :: lines'))
      with (l +:+ github.nl +:+ String.concat github.nl (l' :: lines')).
    rewrite SplitByte_line by exact Hl1. rewrite (IH Hl2). reflexivity.
Qed.

Lemma TrimRightByte_app (c : ascii) (s1 s2 : string) :
  go.TrimRightByte c (s1 +:+ s2)
  = if String.eqb (go.TrimRightByte c s2) "" then go.TrimRightByte c s1
    else s1 +:+ go.TrimRightByte c s2.
Proof.
  induction s1 as [|a s1 IH].
  - change ("" +:+ s2) with s2. change ("" +:+ go.TrimRightByte c s2) with (go.TrimRightByte c s2).
    change (go.TrimRightByte c "") with "".
    destruct (String.eqb_spec (go.TrimRightByte c s2) ""); congruence.
  - change (go.TrimRightByte c (String a (s1 +:+ s2))
            = if String.eqb (go.TrimRightByte c s2) "" then go.TrimRightByte c (String a s1)
              else String a (s1 +:+ go.TrimRightByte c s2)).
    cbn [go.TrimRightByte]. cbv zeta. rewrite IH.
    destruct (String.eqb_spec (go.TrimRightByte c s2) "") as [E|E]; [reflexivity|].
    pose proof (append_nonempty s1 _ E) as Hne.
    apply String.eqb_neq in Hne. rewrite Hne. reflexivity.
Qed.

Lemma TrimRightByte_oneLine (l : string) :
  oneLine l = true -> go.TrimRightByte (ascii_of_nat 10) l = l.
Proof.
  induction l as [|a l IH]; intros Hl; [reflexivity|].
  unfold oneLine in Hl. simpl in Hl. apply andb_true_iff in Hl as [Hc Hl].
  apply negb_true_iff in Hc. cbn [go.TrimRightByte]. cbv zeta.
  rewrite (IH Hl), Hc, andb_false_r. reflexivity.
Qed.

Lemma dropTrailingEmpty_concat (lines : list string) :
  dropTrailingEmpty lines <> [] ->
  String.concat github.nl (dropTrailingEmpty lines) <> "".
Proof.
  induction lines as [|l lines IH]; simpl; [congruence|].
  destruct (dropTrailingEmpty lines) as [|k kept].
  - destruct (String.eqb_spec l ""); [congruence|]. intros _. simpl. assumption.
  - intros _.
    change (l +:+ github.nl +:+ String.concat github.nl (k :: kept) <> "").
    apply append_nonempty. discriminate.
Qed.

(** Trimming the newlines at the end of a body leaves its lines up to
    the last non-empty one, joined by newlines. *)
Lemma TrimRightByte_closedLines (lines : list string) :
  Forall (fun l => oneLine l = true) lines ->
  go.TrimRightByte (ascii_of_nat 10) (closedLines lines)
  = String.concat github.nl (dropTrailingEmpty lines).
Proof.
  induction lines as [|l lines IH]; intros Hl; [reflexivity|].
  inversion Hl as [|? ? Hl1 Hl2]; subst. specialize (IH Hl2).
  pose proof (dropTrailingEmpty_concat lines) as Hne.
  cbn [closedLines foldr dropTrailingEmpty]. fold (closedLines lines).
  rewrite TrimRightByte_app.
  change (github.nl +:+ closedLines lines) with (String (ascii_of_nat 10) (closedLines lines)).
  cbn [go.TrimRightByte]. cbv zeta. rewrite IH.
  destruct (dropTrailingEmpty lines) as [|k kept].
  - simpl. rewrite (TrimRightByte_oneLine l Hl1).
    destruct (String.eqb_spec l "") as [->|]; reflexivity.
  - specialize (Hne ltac:(discriminate)). apply String.eqb_neq in Hne. rewrite Hne.
    simpl andb. cbv iota.
    replace (String.eqb (String (ascii_of_nat 10) (String.concat github.nl (k :: kept))) "")
      with false by reflexivity.
    reflexivity.
Qed.

Lemma groupSections_oneLine (lines : list string) :
  Forall (fun l => oneLine l = true) lines ->
  Forall (fun l => oneLine l = true) (fst (groupSections lines)) /\
  Forall (fun section => Forall (fun l => oneLine l = true) (snd section))
         (snd (groupSections lines)).
Proof.
  induction lines as [|l lines IH]; intros Hl; simpl; [split; constructor|].
  inversion Hl as [|? ? Hl1 Hl2]; subst. destruct (IH Hl2) as [Hb Hs].
  destruct (groupSections lines) as [before sections]. simpl in Hb, Hs.
  destruct (isFileHeader l); simpl.
  - split; [constructor|]. constructor; [exact Hb|exact Hs].
  - split; [constructor; assumption|exact Hs].
Qed.

Lemma parseLine_groupSections (lines : list string) :
  forall (files : list github.fileDiff) (current : option github.fileDiff),
    (let '(files', current') := foldl github.parseLine (files, current) lines in
     github.flushCurrent files' current')
    = github.flushCurrent files (extendCurrent current (fst (groupSections lines)))
      ++ map (fun section =>
                github.mkFileDiff (headerPath (fst section))
                  (go.TrimRightByte (ascii_of_nat 10) (closedLines (snd section))))
             (snd (groupSections lines)).
Proof.
  induction lines as [|line lines IH]; intros files current.
  - simpl. rewrite app_nil_r. destruct current as [[h b]|]; simpl; [|reflexivity].
    rewrite append_empty_r. reflexivity.
  - cbn [foldl groupSections].
    assert (Hstep : github.parseLine (files, current) line
                    = if isFileHeader line
                      then (github.flushCurrent files current,
                            Some (github.mkFileDiff (headerPath line) ""))
                      else match current with
                           | Some cur => (files, Some (github.mkFileDiff (github.header cur)
                                                   (github.body cur +:+ line +:+ github.nl)))
                           | None => (files, current)
                           end).
    { unfold github.parseLine, isFileHeader, headerPath.
      destruct (go.HasPrefix line "diff --git "); [reflexivity|].
      destruct current; reflexivity. }
    rewrite Hstep. clear Hstep.
    destruct (groupSections lines) as [before sections] eqn:Hg.
    destruct (isFileHeader line).
    + rewrite IH. cbn [fst snd map extendCurrent github.flushCurrent github.header github.body].
      rewrite <- app_assoc. f_equal.
      * destruct current as [[h b]|]; simpl; [|reflexivity]. rewrite append_empty_r. reflexivity.
    + destruct current as [cur|].
      * rewrite IH. cbn [fst snd extendCurrent closedLines foldr github.header github.body].
        fold (closedLines before). rewrite !append_assoc. reflexivity.
      * rewrite IH. reflexivity.
Qed.

(** [parseGitDiff] yields the sections of the diff. *)
Lemma parseGitDiff_diffSections (diff : string) :
  github.parseGitDiff diff = map sectionFile (diffSections diff).
Proof.
  unfold github.parseGitDiff, diffSections.
  pose proof (parseLine_groupSections (go.SplitByte (ascii_of_nat 10) diff) [] None) as G.
  destruct (foldl github.parseLine ([], None) _) as [files current].
  rewrite G. simpl. clear G.
  destruct (groupSections_oneLine _ (SplitByte_oneLine diff)) as [_ Hs].
  induction Hs as [|section sections Hsec _ IH]; [reflexivity|].
  simpl. f_equal; [|exact IH].
  unfold sectionFile. rewrite (TrimRightByte_closedLines _ Hsec). reflexivity.
Qed.

Lemma totalLines_foldl (files : list github.fileDiff) : forall t,
  foldl (fun total f => total + Z.of_nat (length (go.SplitByte (ascii_of_nat 10) (github.body f))))
        t files
  = t + github.totalLines files.
Proof.
  unfold github.totalLines.
  induction files as [|f files IH]; intros t; simpl; [lia|].
  rewrite IH, (IH (0 + _)). lia.
Qed.

Lemma dropTrailingEmpty_oneLine (lines : list string) :
  Forall (fun l => oneLine l = true) lines ->
  Forall (fun l => oneLine l = true) (dropTrailingEmpty lines).
Proof.
  induction 1 as [|l lines Hl _ IH]; simpl; [constructor|].
  destruct (dropTrailingEmpty lines) as [|k kept].
  - destruct (String.eqb l ""); [constructor|]. constructor; [exact Hl|constructor].
  - constructor; assumption.
Qed.

(** The lines [BuildDiffComment] sums are the counted lines of the
    sections. *)
Lemma totalLines_countedTotal (diff : string) :
  github.totalLines (github.parseGitDiff diff) = countedTotal (diffSections diff).
Proof.
  rewrite parseGitDiff_diffSections. unfold diffSections.
  destruct (groupSections_oneLine _ (SplitByte_oneLine diff)) as [_ Hs].
  induction Hs as [|section sections Hsec _ IH]; [reflexivity|].
  cbn [map countedTotal foldr]. fold (countedTotal sections).
  unfold github.totalLines. cbn [foldl]. rewrite totalLines_foldl, IH.
  f_equal. unfold countedLines, sectionFile. cbn [github.body]. f_equal.
  rewrite SplitByte_concat by (apply dropTrailingEmpty_oneLine, Hsec).
  destruct (dropTrailingEmpty (snd section)) as [|k kept]; simpl; lia.
Qed.

Lemma dropTrailingEmpty_changed (lines : list string) :
  length (List.filter isChangedLine lines)
  = length (List.filter isChangedLine (dropTrailingEmpty lines)).
Proof.
  induction lines as [|l lines IH]; simpl; [reflexivity|].
  destruct (dropTrailingEmpty lines) as [|k kept].
  - destruct (String.eqb_spec l "") as [->|].
    + simpl in *. exact IH.
    + simpl in *. destruct (isChangedLine l); simpl; rewrite IH; reflexivity.
  - cbn [List.filter]. destruct (isChangedLine l); simpl; rewrite IH; reflexivity.
Qed.

Lemma changedTotal_le_countedTotal (sections : list (string * list string)) :
  0 <= changedTotal sections <= countedTotal sections.
Proof.
  induction sections as [|section sections IH]; simpl; [lia|].
  unfold countedLines. rewrite dropTrailingEmpty_changed.
  pose proof (List.filter_length_le isChangedLine (dropTrailingEmpty (snd section))).
  lia.
Qed.

(** C8, as the code has it.  For an interdiff that is not all white space,
    the comment is the title line, one block per section of the diff and the
    footer.  What decides the collapsing is the number of counted lines of
    all sections: a section counts the lines that follow its [diff --git]
    line up to its last non-empty line (file headers, hunk markers and
    context lines as well as [+] and [-] lines) and counts one line when
    there is none.  At most 20 and every block opens with [<details open>],
    more and every block opens with [<details>].  The [+] and [-] lines are
    among the counted ones, so a sum of them above 20 always collapses. *)
Theorem BuildDiffComment_collapse (codeDiff repoName baseBranch oldCommit newCommit : string) :
  go.isBlank codeDiff = false ->
  let sections := diffSections codeDiff in
  let expand := countedTotal sections <=? 20 in
  github.BuildDiffComment codeDiff repoName baseBranch oldCommit newCommit
    = "### Changes since last push" +:+ github.nl
      +:+ String.concat ""
            (map (fun section => github.renderSection expand (sectionFile section)) sections)
      +:+ github.rangeDiffFooter repoName baseBranch oldCommit newCommit /\
  (forall section, In section sections ->
     go.HasPrefix (github.renderSection expand (sectionFile section))
       (if expand then github.nl +:+ "<details open>" +:+ github.nl
        else github.nl +:+ "<details>" +:+ github.nl) = true) /\
  (20 < changedTotal sections -> expand = false).
Proof.
  intros Hb sections expand. split; [|split].
  - unfold github.BuildDiffComment. rewrite Hb. cbv zeta.
    rewrite totalLines_countedTotal, parseGitDiff_diffSections, map_map. reflexivity.
  - intros section _. destruct (renderSection_details (sectionFile section)) as [Ho Hc].
    destruct expand; assumption.
  - intros Hc. subst expand. apply Z.leb_gt.
    pose proof (changedTotal_le_countedTotal sections). lia.
Qed.

Lemma BuildDiffComment_collapse_witness :
  go.isBlank smallChange = false /\
  countedTotal (diffSections smallChange) = 22 /\
  contains (github.BuildDiffComment smallChange "o/r" "main" "aaa" "bbb") "<details>" = true.
Proof.
  split; [reflexivity|]. split; [vm_compute; reflexivity|].
  destruct (BuildDiffComment_collapse smallChange "o/r" "main" "aaa" "bbb" eq_refl)
    as (-> & _ & _).
  vm_compute. reflexivity.
Defined.

(** C8 as stated fails: with one added line the sum of [+] and [-] lines is
    1, well below 20, yet the section is rendered collapsed, because the body
    has 22 lines. *)
Lemma BuildDiffComment_collapse_counterexample :
  go.isBlank smallChange = false /\
  changedLines (github.parseGitDiff smallChange) = 1 /\
  contains (github.BuildDiffComment smallChange "o/r" "main" "aaa" "bbb") "<details open>" = false /\
  contains (github.BuildDiffComment smallChange "o/r" "main" "aaa" "bbb") "<details>" = true.
Proof. vm_compute. repeat split; reflexivity. Qed.

End DiffComment.

(** ** BookmarkAssigner: the effects of EnsureBookmarks *)

Section EnsureFrame.
Context `{go.Unicode} {W : Type}.
Variable runner : jj.Runner W.
Variable matched : gmap string (list jj.BookmarkInfo).
Variable bookmarkByName : gmap string jj.BookmarkInfo.
Variable pushRemote : string.
Variable shouldUseExisting : option (string -> string -> bool).

Lemma filter_isNew_app (l : list jj.ChangeBookmark) (cb : jj.ChangeBookmark) :
  filter (fun cb => jj.cb_IsNew cb = true) (l ++ [cb])
  = filter (fun cb => jj.cb_IsNew cb = true) l
    ++ (if jj.cb_IsNew cb then [cb] else []).
Proof.
  rewrite filter_app. f_equal. rewrite filter_cons, filter_nil.
  destruct (decide (jj.cb_IsNew cb = true)) as [E|E]; destruct (jj.cb_IsNew cb); congruence.
Qed.

Lemma ensureLoop_frame (createNew : bool) (changes : list jj.Change) :
  forall (result : list jj.ChangeBookmark) (st : go.state W jj.call),
  exists calls,
    go.trace (jj.ensureLoop runner matched bookmarkByName pushRemote shouldUseExisting
                createNew changes result st).1 = go.trace st ++ calls /\
    Forall isBookmarkSet calls /\
    go.output (jj.ensureLoop runner matched bookmarkByName pushRemote shouldUseExisting
                createNew changes result st).1 = go.output st /\
    go.world (jj.ensureLoop runner matched bookmarkByName pushRemote shouldUseExisting
                createNew changes result st).1 = replaySets runner calls (go.world st) /\
    (createNew = false -> calls = []) /\
    (forall entries,
       (jj.ensureLoop runner matched bookmarkByName pushRemote shouldUseExisting
                createNew changes result st).2 = go.Ret entries ->
       exists fresh, entries = result ++ fresh /\
         calls = map setCall (filter (fun cb => jj.cb_IsNew cb = true) fresh)).
Proof.
  induction changes as [|change rest IH]; intros result st.
  - exists []. simpl. rewrite app_nil_r. repeat split; auto.
    intros entries [= <-]. exists []. rewrite app_nil_r. split; reflexivity.
  - simpl.
    destruct (List.find _ _) as [b|].
    { destruct (IH (result ++ [jj.mkChangeBookmark (jj.ChangeID change) (jj.bi_Name b) false
                                 (jj.SyncWith b pushRemote) (jj.bi_Conflict b) false]) st)
        as (calls & Ht & Hf & Ho & Hw & Hc & Hr).
      exists calls. repeat split; auto.
      intros entries He. destruct (Hr entries He) as (fresh & -> & ->).
      eexists (_ :: fresh). rewrite <- app_assoc. split; [reflexivity|].
      rewrite filter_cons. reflexivity. }
    destruct (bookmarkByName !! _) as [bi|].
    { match goal with |- context [jj.ensureLoop _ _ _ _ _ _ rest ?r st] =>
        destruct (IH r st) as (calls & Ht & Hf & Ho & Hw & Hc & Hr) end.
      exists calls. repeat split; auto.
      intros entries He. destruct (Hr entries He) as (fresh & -> & ->).
      eexists (_ :: fresh). rewrite <- app_assoc. split; [reflexivity|].
      rewrite filter_cons. reflexivity. }
    destruct createNew eqn:Hcn; simpl.
    2:{ apply IH. }
    unfold go.bind, go.perform.
    destruct (jj.BookmarkSet runner _ _ (go.world st)) as [w' [e|]] eqn:Hset.
    + eexists [_]. simpl. repeat split; auto.
      * repeat constructor.
      * rewrite Hset. reflexivity.
      * discriminate.
      * discriminate.
    + match goal with |- context [jj.ensureLoop _ _ _ _ _ _ rest ?r ?s] =>
        destruct (IH r s) as (calls & Ht & Hf & Ho & Hw & Hc & Hr) end.
      simpl in Ht, Ho, Hw.
      eexists (_ :: calls). repeat split.
      * rewrite Ht, <- app_assoc. reflexivity.
      * constructor; [exact I|exact Hf].
      * exact Ho.
      * rewrite Hw. simpl. rewrite Hset. reflexivity.
      * discriminate.
      * intros entries He. destruct (Hr entries He) as (fresh & -> & ->).
        eexists (_ :: fresh). rewrite <- app_assoc. split; [reflexivity|].
        rewrite filter_cons. reflexivity.
Qed.

End EnsureFrame.

(** C10, as the code has it.  The only driver operation [EnsureBookmarks]
    invokes is [BookmarkSet]; it writes nothing, and the world changes only
    through those calls.  When it returns its assignments, the calls are,
    in order, one for each entry with [is_new] true, and for no other.  With
    [create_new] false there is no call at all and the state is unchanged. *)
Theorem EnsureBookmarks_frame `{go.Unicode} {W : Type} (runner : jj.Runner W)
    (dag : jj.ChangeDAG) (bookmarks : list jj.BookmarkInfo) (pushRemote : string)
    (shouldUseExisting : option (string -> string -> bool)) (createNew : bool)
    (st : go.state W jj.call) :
  let run := jj.EnsureBookmarks runner dag bookmarks pushRemote shouldUseExisting
                                createNew st in
  exists calls,
    go.trace run.1 = go.trace st ++ calls /\
    Forall isBookmarkSet calls /\
    go.output run.1 = go.output st /\
    go.world run.1 = replaySets runner calls (go.world st) /\
    (forall entries, run.2 = go.Ret entries ->
       calls = map setCall (filter (fun cb => jj.cb_IsNew cb = true) entries)) /\
    (createNew = false -> run.1 = st).
Proof.
  intros run. subst run. unfold jj.EnsureBookmarks.
  match goal with |- context [jj.ensureLoop _ ?m ?bn _ _ _ _ _ _] =>
    destruct (ensureLoop_frame runner m bn pushRemote shouldUseExisting createNew
                (jj.Changes dag) [] st) as (calls & Ht & Hf & Ho & Hw & Hc & Hr) end.
  exists calls. repeat split; auto.
  - intros entries He. destruct (Hr entries He) as (fresh & -> & ->). reflexivity.
  - intros Hn. specialize (Hc Hn). subst calls. simpl in Hw. rewrite app_nil_r in Ht.
    destruct (jj.ensureLoop _ _ _ _ _ _ _ _ _).1 as [w t o]. destruct st as [w0 t0 o0].
    simpl in *. congruence.
Qed.

(** C10 as stated fails when [BookmarkSet] returns an error: the call was
    made, and no entry is returned. *)
Lemma EnsureBookmarks_frame_counterexample :
  let run := jj.EnsureBookmarks (H := asciiOnly) failingRunner dagA [] "origin" None true
               (go.mkState tt [] []) in
  go.trace run.1 = [jj.CallBookmarkSet "jip/add-feature-a/kkkkkkkk" "kkkkkkkkkkkk"] /\
  run.2 = go.Raise (go.Errorf "creating bookmark for %s: %w"
                      [go.FStr "kkkkkkkkkkkk"; go.FErr (go.External "exit status 1")]) /\
  ~ (exists entries, run.2 = go.Ret entries /\
       length (go.trace run.1) = length (filter (fun cb => jj.cb_IsNew cb = true) entries)).
Proof.
  vm_compute. split; [reflexivity|]. split; [reflexivity|].
  intros (entries & E & _). discriminate.
Qed.

(** ** SendPipeline: the calls of executeSend *)

Section Emits.
Context {W E : Type}.
Variable P : E -> Prop.

Lemma emits_silent {A} (m : go.M W E A) :
  (forall st, go.trace (m st).1 = go.trace st) -> emits P m.
Proof. intros Hm st. exists []. rewrite Hm, app_nil_r. split; [reflexivity|constructor]. Qed.

Lemma emits_ret {A} (a : A) : emits P (go.ret a : go.M W E A).
Proof. apply emits_silent. reflexivity. Qed.

Lemma emits_raise {A} (e : go.error) : emits P (go.raise e : go.M W E A).
Proof. apply emits_silent. reflexivity. Qed.

Lemma emits_of_outcome {A} (o : go.outcome A) : emits P (go.of_outcome o : go.M W E A).
Proof. apply emits_silent. reflexivity. Qed.

Lemma emits_print (wr : go.write) : emits P (go.print wr : go.M W E unit).
Proof. apply emits_silent. reflexivity. Qed.

Lemma emits_perform {A} (ev : E) (op : W -> W * A) : P ev -> emits P (go.perform ev op).
Proof.
  intros Hev st. exists [ev]. unfold go.perform. destruct (op (go.world st)).
  split; [reflexivity|]. repeat constructor. exact Hev.
Qed.

Lemma emits_bind {A B} (m : go.M W E A) (k : A -> go.M W E B) :
  emits P m -> (forall a, emits P (k a)) -> emits P (go.bind m k).
Proof.
  intros Hm Hk st. unfold go.bind. destruct (Hm st) as (evs & Ht & Hf).
  destruct (m st) as [st' [a|e| |]]; simpl in Ht; try (exists evs; split; assumption).
  destruct (Hk a st') as (evs' & Ht' & Hf').
  exists (evs ++ evs'). rewrite Ht', Ht, app_assoc. split; [reflexivity|].
  apply Forall_app. split; assumption.
Qed.

Lemma emits_catch {A} (m : go.M W E A) : emits P m -> emits P (go.catch m).
Proof.
  intros Hm st. unfold go.catch. destruct (Hm st) as (evs & Ht & Hf).
  exists evs. destruct (m st) as [st' [a|e| |]]; split; assumption.
Qed.

Lemma emits_forM {A B} (body : B -> A -> go.M W E B) (l : list A) :
  (forall b a, emits P (body b a)) -> forall b, emits P (go.forM body l b).
Proof.
  intros Hb. induction l as [|x l IH]; intros b; simpl.
  - apply emits_ret.
  - apply emits_bind; [apply Hb|exact IH].
Qed.

Lemma emits_lift {E1 A} (Q : E1 -> Prop) (inj : E1 -> E) (m : go.M W E1 A) :
  emits Q m -> (forall c, Q c -> P (inj c)) -> emits P (go.lift inj m).
Proof.
  intros Hm Hq st. unfold go.lift.
  destruct (Hm (go.mkState (go.world st) [] (go.output st))) as (evs & Ht & Hf).
  destruct (m _) as [st' r]. simpl in *. exists (map inj evs). rewrite Ht. simpl.
  split; [reflexivity|]. apply Forall_map. eapply Forall_impl; [exact Hf|exact Hq].
Qed.
End Emits.

(** Goals [emits P m] by the structure of [m]; what is left are the side
    conditions [P ev] of the calls and the computations of other packages. *)
Ltac emits_step :=
  lazymatch goal with
  | |- emits _ (go.ret _) => apply emits_ret
  | |- emits _ (go.raise _) => apply emits_raise
  | |- emits _ (go.of_outcome _) => apply emits_of_outcome
  | |- emits _ (go.print _) => apply emits_print
  | |- emits _ (go.perform _ _) => apply emits_perform
  | |- emits _ (go.bind _ _) => apply emits_bind; [|intros]
  | |- emits _ (go.catch _) => apply emits_catch
  | |- emits _ (go.forM _ _ _) => apply emits_forM; intros
  | |- emits _ (match ?x with _ => _ end) => destruct x
  | |- emits _ (let (_, _) := ?x in _) => destruct x
  end.

Section SendCalls.
Context `{go.Unicode} `{jj.Decoders} {W : Type}.
Variable runner : jj.Runner W.
Variable client : github.Service W.
Variable opts : cmd.sendOpts.

Lemma EnsureBookmarks_emits dag bookmarks pushRemote sue createNew :
  emits isBookmarkSet
    (jj.EnsureBookmarks runner dag bookmarks pushRemote sue createNew).
Proof.
  intros st. unfold jj.EnsureBookmarks.
  match goal with |- context [jj.ensureLoop _ ?m ?bn _ _ _ _ _ _] =>
    destruct (ensureLoop_frame runner m bn pushRemote sue createNew
                (jj.Changes dag) [] st) as (calls & Ht & Hf & _) end.
  exists calls. split; assumption.
Qed.

Lemma ResolveStacks_emits (revsets : list string) (base : string) :
  emits (fun c => exists revset, c = jj.CallLog revset)
    (jj.ResolveStacks runner revsets base).
Proof.
  unfold jj.ResolveStacks. repeat emits_step. eexists; reflexivity.
Qed.

Create HintDb send.
#[local] Hint Unfold cmd.executeSend cmd.fetchRemote cmd.reduceToTips cmd.processDAG
  cmd.reportDryRun cmd.printSkippedChanges cmd.updateExisting cmd.createPR
  cmd.updateBody cmd.printSummary cmd.sendActive : send.

Ltac emits_send :=
  repeat first
    [ emits_step
    | eapply emits_lift;
      [ first [apply EnsureBookmarks_emits | apply ResolveStacks_emits]
      | let c := fresh "c" in let Hc := fresh "Hc" in
        intros c Hc; destruct c; simpl in *;
        first [exact I | tauto | destruct Hc; discriminate] ]
    | progress autounfold with send ].

Lemma executeSend_calls : emits pipelineCall (cmd.executeSend runner client opts).
Proof. emits_send; exact I. Qed.

(** In dry-run mode the pipeline makes no remote mutation: it neither
    pushes nor creates, updates or comments on a pull request, nor requests
    reviewers. *)
Lemma executeSend_dry_run_calls :
  cmd.dryRun opts = true ->
  emits dryRunCall (cmd.executeSend runner client opts).
Proof.
  intros Hdry. unfold cmd.executeSend. rewrite Hdry.
  emits_send; exact I.
Qed.

End SendCalls.

(** C3, on the code.  [sendOpts] has no rebase flag, and the pipeline never
    invokes the driver's [Rebase]: whatever the options, the driver, the
    hosting service and the state it starts from, no call it makes is a
    [Rebase]. *)
Theorem executeSend_never_rebases `{go.Unicode} `{jj.Decoders} {W : Type}
    (runner : jj.Runner W) (client : github.Service W) (opts : cmd.sendOpts)
    (st : go.state W cmd.event) :
  exists evs,
    go.trace (cmd.executeSend runner client opts st).1 = go.trace st ++ evs /\
    Forall (fun ev => ~ isRebase ev) evs.
Proof.
  destruct (executeSend_calls runner client opts st) as (evs & Ht & Hf).
  exists evs. split; [exact Ht|].
  eapply Forall_impl; [exact Hf|].
  intros [[]|[]]; simpl; tauto.
Qed.

(** ** SendPipeline: dry run *)

(** C1, on the code.  A dry run on a repository with one change and no
    bookmark: the run ends without error, prints the change as [CREATE] and
    makes no call that mutates the hosting service, but it has set the
    bookmark of the change in the repository ([EnsureBookmarks] runs, with
    creation enabled, before the dry-run test). *)
Theorem executeSend_dry_run_sets_bookmark :
  let run := cmd.executeSend (H := asciiOnly) (H0 := freshDecoders)
               freshRunner emptyService dryRunOpts (go.mkState [] [] []) in
  run.2 = go.Ret tt /\
  go.trace run.1 =
    [cmd.JJ (jj.CallGitFetch "origin"); cmd.GH github.CallOwner; cmd.GH github.CallRepo;
     cmd.JJ (jj.CallLog "(main)..(@-)"); cmd.JJ jj.CallBookmarkList;
     cmd.JJ (jj.CallBookmarkSet "jip/add-feature-a/kkkkkkkk" "kkkkkkkkkkkk")] /\
  go.world run.1 = [("jip/add-feature-a/kkkkkkkk", "kkkkkkkkkkkk")] /\
  go.output run.1 =
    [go.Fprintf "Fetching %s...\n" [go.FStr "origin"];
     go.Fprintf "\nDry run — %d change(s) would be sent:\n\n" [go.FInt 1];
     go.Fprintf "  %s  %.12s  %s\n"
       [go.FStr "CREATE"; go.FStr "kkkkkkkkkkkk"; go.FStr "feat: add feature A"];
     go.Fprintf "         bookmark: %s (%s)\n"
       [go.FStr "jip/add-feature-a/kkkkkkkk"; go.FStr "new"]].
Proof. vm_compute. repeat split; reflexivity. Qed.

(** ** SendPipeline: skip reasons *)

Lemma skipStep_reasons (m : gmap string cmd.skipReason) (s : cmd.changeState) :
  map_Forall (fun _ r => In (cmd.reason r) skipReasons) m ->
  map_Forall (fun _ r => In (cmd.reason r) skipReasons) (cmd.skipStep m s).
Proof.
  intros Hm. unfold cmd.skipStep.
  set (m' := match List.find _ _ with Some _ => _ | None => _ end).
  assert (Hm' : map_Forall (fun _ r => In (cmd.reason r) skipReasons) m').
  { subst m'. destruct (List.find _ _); [|exact Hm].
    apply map_Forall_insert_2; [simpl; tauto|exact Hm]. }
  clearbody m'.
  repeat case_match; try exact Hm';
    (apply map_Forall_insert_2; [simpl; tauto|exact Hm']).
Qed.

(** C2, on the code.  A [Change] carries no flag for a conflicted commit
    and the classification knows four reasons only: whatever the states, no
    recorded reason is [has conflicts].  So the conflicted merge [C] of [A]
    and [B], all three with a fresh local bookmark, is not skipped. *)
Theorem classifySkips_reasons (allStates : list cmd.changeState) :
  map_Forall (fun _ r => In (cmd.reason r) skipReasons /\ cmd.reason r <> "has conflicts")
             (cmd.classifySkips allStates) /\
  cmd.classifySkips mergeStates = ∅.
Proof.
  split; [|vm_compute; reflexivity].
  assert (G : map_Forall (fun _ r => In (cmd.reason r) skipReasons)
                         (cmd.classifySkips allStates)).
  { unfold cmd.classifySkips.
    assert (forall m, map_Forall (fun _ r => In (cmd.reason r) skipReasons) m ->
              map_Forall (fun _ r => In (cmd.reason r) skipReasons) (foldl cmd.skipStep m allStates)) as G.
    { induction allStates as [|s l IH]; intros m Hm; simpl; [exact Hm|].
      apply IH, skipStep_reasons, Hm. }
    apply G, map_Forall_empty. }
  intros id r Hr. split; [exact (G id r Hr)|].
  intros E. pose proof (G id r Hr) as Hin. simpl in Hin. rewrite E in Hin.
  repeat (destruct Hin as [Hin|Hin]; [discriminate|]). exact Hin.
Qed.

(** ** SendPipeline: the cascade of skips *)

Section Cascade.

Lemma find_ext {A} (f g : A -> bool) (l : list A) :
  (forall x, x ∈ l -> f x = g x) -> List.find f l = List.find g l.
Proof.
  induction l as [|x l IH]; intros Hfg; [reflexivity|]. simpl.
  rewrite <- (Hfg x) by left.
  destruct (f x); [reflexivity|]. apply IH. intros y Hy. apply Hfg. right. exact Hy.
Qed.

Lemma skipRule_ext (m m' : gmap string cmd.skipReason) (s : cmd.changeState) :
  (forall pid, pid ∈ jj.ParentIDs (cmd.change s) -> m !! pid = m' !! pid) ->
  skipRule m s = skipRule m' s.
Proof.
  intros Hm. unfold skipRule.
  rewrite (find_ext _ (fun pid => bool_decide (is_Some (m' !! pid)))); [reflexivity|].
  intros pid Hpid. rewrite (Hm pid Hpid). reflexivity.
Qed.

Lemma skipStep_lookup (m : gmap string cmd.skipReason) (s : cmd.changeState) (k : string) :
  m !! stateID s = None ->
  cmd.skipStep m s !! k = if decide (k = stateID s) then skipRule m s else m !! k.
Proof.
  intros Hnone. unfold cmd.skipStep, skipRule, ownReason. fold (stateID s).
  destruct (List.find _ _) as [pid|].
  - rewrite bool_decide_eq_true_2 by (rewrite lookup_insert_eq; eauto).
    destruct (decide (k = stateID s)) as [->|Hne].
    + apply lookup_insert_eq.
    + apply lookup_insert_ne. congruence.
  - rewrite bool_decide_eq_false_2 by (rewrite Hnone; intros [? ?]; discriminate).
    destruct (jj.cb_Displaced _); [|destruct (jj.cb_Conflict _); [|destruct (bool_decide _)]];
      destruct (decide (k = stateID s)) as [->|Hne];
      rewrite ?lookup_insert_eq, ?lookup_insert_ne by congruence; auto.
Qed.

Lemma topoOrdered_app_l (l l' : list jj.Change) : topoOrdered (l ++ l') -> topoOrdered l.
Proof.
  intros Ht i j p c Hi Hj. apply Ht; apply lookup_app_l_Some; assumption.
Qed.

(** The classification of a topologically ordered list solves the
    equations of [skipRule], and marks changes of the list only. *)
Lemma classifySkips_rule (states : list cmd.changeState) :
  NoDup (map stateID states) -> topoOrdered (map cmd.change states) ->
  (forall k, is_Some (cmd.classifySkips states !! k) -> k ∈ map stateID states) /\
  (forall s, s ∈ states -> cmd.classifySkips states !! stateID s
                           = skipRule (cmd.classifySkips states) s).
Proof.
  unfold cmd.classifySkips.
  induction states as [|s l IH] using rev_ind; intros Hnd Hto.
  - split; [intros k [x Hx]; simpl in Hx; rewrite lookup_empty in Hx; discriminate|].
    intros s Hs. apply elem_of_nil in Hs. contradiction.
  - rewrite foldl_app. simpl.
    rewrite map_app in Hnd, Hto.
    apply NoDup_app in Hnd as (Hnd & Hfresh & _).
    pose proof (topoOrdered_app_l _ _ Hto) as Hto'.
    destruct (IH Hnd Hto') as [Hdom Hrule]. clear IH.
    set (m := foldl cmd.skipStep ∅ l) in *.
    assert (Hnone : m !! stateID s = None).
    { destruct (m !! stateID s) eqn:E; [|reflexivity].
      exfalso. eapply Hfresh; [apply Hdom; eauto|]. simpl. left. }
    assert (Hlast : forall s0, s0 ∈ l ++ [s] ->
              stateID s ∉ jj.ParentIDs (cmd.change s0)).
    { intros s0 Hs0 Hin. apply list_elem_of_lookup in Hs0 as [j Hj].
      assert (Hj' : (map cmd.change l ++ map cmd.change [s]) !! j = Some (cmd.change s0)).
      { rewrite <- map_app, list_lookup_fmap, Hj. reflexivity. }
      assert (Hs : (map cmd.change l ++ map cmd.change [s]) !! length l = Some (cmd.change s)).
      { rewrite lookup_app_r by (rewrite length_map; lia).
        rewrite length_map, Nat.sub_diag. reflexivity. }
      pose proof (Hto _ _ _ _ Hs Hj' Hin) as Hlt.
      apply lookup_lt_Some in Hj. rewrite length_app in Hj. simpl in Hj. lia. }
    assert (Hsame : forall s0, s0 ∈ l ++ [s] ->
              skipRule (cmd.skipStep m s) s0 = skipRule m s0).
    { intros s0 Hs0. apply skipRule_ext. intros pid Hpid.
      rewrite skipStep_lookup by exact Hnone.
      destruct (decide (pid = stateID s)) as [->|]; [|reflexivity].
      exfalso. eapply Hlast; eassumption. }
    split.
    + intros k Hk. rewrite skipStep_lookup in Hk by exact Hnone.
      rewrite map_app. apply elem_of_app.
      destruct (decide (k = stateID s)) as [->|]; [right; simpl; left|left; auto].
    + intros s0 Hs0. rewrite Hsame by exact Hs0.
      rewrite skipStep_lookup by exact Hnone.
      apply elem_of_app in Hs0 as [Hs0|Hs0].
      * destruct (decide (stateID s0 = stateID s)) as [E|]; [|apply Hrule, Hs0].
        exfalso. eapply Hfresh; [apply list_elem_of_fmap; eauto|].
        rewrite E. simpl. left.
      * apply list_elem_of_singleton in Hs0 as ->.
        destruct (decide (stateID s = stateID s)); [reflexivity|contradiction].
Qed.

Lemma edge_skipped (states : list cmd.changeState) (c d : string) :
  NoDup (map stateID states) -> topoOrdered (map cmd.change states) ->
  is_Some (cmd.classifySkips states !! c) ->
  edge (map cmd.change states) c d ->
  exists a, edge (map cmd.change states) a d /\
            is_Some (cmd.classifySkips states !! a) /\
            cmd.classifySkips states !! d
            = Some (cmd.mkSkipReason "skipped because ancestor was skipped" a).
Proof.
  intros Hnd Hto Hc (cp & cc & Hcp & Hcc & <- & <- & Hin).
  destruct (classifySkips_rule states Hnd Hto) as [Hdom Hrule].
  apply list_elem_of_fmap in Hcc as (s & -> & Hs).
  specialize (Hrule s Hs). unfold skipRule in Hrule. fold (stateID s).
  destruct (List.find _ _) as [a|] eqn:Hfind.
  - apply find_some in Hfind as [Ha Hsome].
    apply bool_decide_eq_true in Hsome.
    exists a. split; [|split; assumption].
    pose proof (Hdom a Hsome) as Hida.
    apply list_elem_of_fmap in Hida as (sa & -> & Hsa).
    exists (cmd.change sa), (cmd.change s).
    repeat split; try reflexivity; try (apply list_elem_of_fmap; eauto).
    apply list_elem_of_In, Ha.
  - exfalso. eapply find_none in Hfind; [|apply list_elem_of_In, Hin].
    apply bool_decide_eq_false in Hfind. contradiction.
Qed.


End Cascade.


Ltac lookup_cases H :=
  repeat match type of H with
         | (_ :: _) !! ?i = Some _ => destruct i as [|i]; simpl in H
         | [] !! _ = Some _ => discriminate H
         | Some _ = Some _ => injection H as <-
         end.

Lemma behindStack_ordered : topoOrdered (map cmd.change behindStack).
Proof.
  intros i j p c Hi Hj Hin. simpl in Hi, Hj.
  lookup_cases Hi; lookup_cases Hj; simpl in Hin; try lia;
    repeat (apply elem_of_cons in Hin as [Hin|Hin]; [discriminate Hin|]);
    apply elem_of_nil in Hin; contradiction.
Defined.



(** ** SendPipeline: per-change stack membership *)

Section StackMembership.
Variable states : list cmd.changeState.
Hypothesis Hnd : NoDup (map stateID states).
Hypothesis Hto : topoOrdered (map cmd.change states).

Local Abbreviation E := (edge (map cmd.change states)).

Lemma indexStates_spec (sts : list cmd.changeState) :
  NoDup (map stateID sts) ->
  forall k i, cmd.indexStates sts !! k = Some i <->
              exists s, sts !! i = Some s /\ stateID s = k.
Proof.
  unfold cmd.indexStates.
  induction sts as [|s l IH] using rev_ind; intros Hn k i.
  - simpl. rewrite lookup_empty. split; [discriminate|intros (s & Hs & _); discriminate].
  - rewrite imap_app, foldl_app. simpl.
    rewrite map_app in Hn. apply NoDup_app in Hn as (Hn & Hfresh & _).
    specialize (IH Hn). fold (stateID s).
    destruct (decide (k = stateID s)) as [->|Hne].
    + rewrite lookup_insert_eq. split.
      * intros [= <-]. exists s. rewrite Nat.add_0_r.
        rewrite lookup_app_r, Nat.sub_diag by lia. split; reflexivity.
      * intros (s' & Hs' & Hid). f_equal.
        destruct (decide (i < length l)%nat) as [Hlt|Hge].
        -- rewrite lookup_app_l in Hs' by exact Hlt.
           exfalso. eapply Hfresh; [apply list_elem_of_fmap; exists s';
             split; [symmetry; exact Hid|eapply list_elem_of_lookup_2, Hs']|].
           simpl. left.
        -- apply lookup_lt_Some in Hs'. rewrite length_app in Hs'. simpl in Hs'. lia.
    + rewrite lookup_insert_ne by congruence. rewrite IH. split.
      * intros (s' & Hs' & Hid). exists s'. split; [|exact Hid].
        apply lookup_app_l_Some, Hs'.
      * intros (s' & Hs' & Hid). exists s'. split; [|exact Hid].
        apply lookup_app_Some in Hs' as [Hs'|[_ Hs']]; [exact Hs'|].
        destruct (i - length l)%nat; simpl in Hs'; [|discriminate].
        injection Hs' as ->. congruence.
Qed.

Lemma indexStates_member (k : string) :
  is_Some (cmd.indexStates states !! k) <-> k ∈ map stateID states.
Proof.
  split.
  - intros [i Hi]. apply indexStates_spec in Hi as (s & Hs & <-); [|exact Hnd].
    apply list_elem_of_fmap. exists s. split; [reflexivity|eapply list_elem_of_lookup_2, Hs].
  - intros Hk. apply list_elem_of_fmap in Hk as (s & -> & Hs).
    apply list_elem_of_lookup in Hs as [i Hi]. exists i.
    apply indexStates_spec; [exact Hnd|eauto].
Qed.

Lemma childEdges_spec (idx : gmap string nat) (p c : string) :
  c ∈ default [] (cmd.childEdges idx states !! p) <->
  is_Some (idx !! p) /\
  exists s, s ∈ states /\ stateID s = c /\ p ∈ jj.ParentIDs (cmd.change s).
Proof.
  unfold cmd.childEdges.
  set (inner := fun (s : cmd.changeState) (ch : gmap string (list string)) pid =>
                  if bool_decide (is_Some (idx !! pid))
                  then <[pid := default [] (ch !! pid) ++ [jj.ChangeID (cmd.change s)]]> ch
                  else ch).
  assert (Hinner : forall s pids ch,
    c ∈ default [] (foldl (inner s) ch pids !! p) <->
    c ∈ default [] (ch !! p) \/ (c = stateID s /\ p ∈ pids /\ is_Some (idx !! p))).
  { intros s pids. induction pids as [|pid pids IH]; intros ch; simpl.
    - split; [auto|]. intros [?|(_ & Hp & _)]; [assumption|]. apply elem_of_nil in Hp. contradiction.
    - rewrite IH. unfold inner.
      destruct (bool_decide (is_Some (idx !! pid))) eqn:Hb.
      + apply bool_decide_eq_true in Hb.
        destruct (decide (pid = p)) as [->|Hne].
        * rewrite lookup_insert_eq. simpl. rewrite elem_of_app, list_elem_of_singleton.
          rewrite elem_of_cons. unfold stateID. tauto.
        * rewrite lookup_insert_ne by exact Hne. rewrite elem_of_cons.
          split; [tauto|]. intros [?|(? & [?|?] & ?)]; [tauto|congruence|tauto].
      + apply bool_decide_eq_false in Hb. rewrite elem_of_cons.
        split; [tauto|]. intros [?|(? & [->|?] & ?)]; tauto. }
  assert (Houter : forall sts ch,
    c ∈ default [] (foldl (fun ch s => foldl (inner s) ch (jj.ParentIDs (cmd.change s))) ch sts !! p) <->
    c ∈ default [] (ch !! p) \/
    (is_Some (idx !! p) /\ exists s, s ∈ sts /\ stateID s = c /\ p ∈ jj.ParentIDs (cmd.change s))).
  { induction sts as [|s sts IH]; intros ch; simpl.
    - split; [auto|]. intros [?|(_ & s & Hs & _)]; [assumption|].
      apply elem_of_nil in Hs. contradiction.
    - rewrite IH, Hinner. split.
      + intros [[?|(-> & ? & ?)]|(? & s' & ? & ? & ?)]; [tauto| |].
        * right. split; [assumption|]. exists s. split; [left|]. auto.
        * right. split; [assumption|]. exists s'. split; [right; assumption|]. auto.
      + intros [?|(? & s' & Hs' & ? & ?)]; [tauto|].
        apply elem_of_cons in Hs' as [->|Hs'].
        * left. right. auto.
        * right. split; [assumption|]. eauto. }
  pose proof (Houter states ∅) as G. unfold inner in G. rewrite G.
  rewrite lookup_empty. simpl. rewrite elem_of_nil. tauto.
Qed.

Lemma edge_iff (p c : string) :
  E p c <-> p ∈ map stateID states /\
            exists s, s ∈ states /\ stateID s = c /\ p ∈ jj.ParentIDs (cmd.change s).
Proof.
  unfold edge. split.
  - intros (cp & cc & Hcp & Hcc & <- & <- & Hin).
    apply list_elem_of_fmap in Hcp as (sp & -> & Hsp).
    apply list_elem_of_fmap in Hcc as (sc & -> & Hsc).
    split; [apply list_elem_of_fmap; eauto|eauto].
  - intros (Hp & s & Hs & <- & Hin).
    apply list_elem_of_fmap in Hp as (sp & -> & Hsp).
    exists (cmd.change sp), (cmd.change s).
    repeat split; try (apply list_elem_of_fmap; eauto); assumption.
Qed.

Lemma lookup_unique (i j : nat) (s s' : cmd.changeState) :
  states !! i = Some s -> states !! j = Some s' -> stateID s = stateID s' ->
  i = j /\ s = s'.
Proof.
  intros Hi Hj Hid.
  assert (i = j) as ->.
  { eapply (NoDup_lookup _ i j (stateID s) Hnd); rewrite list_lookup_fmap.
    - rewrite Hi. reflexivity.
    - rewrite Hj, Hid. reflexivity. }
  split; [reflexivity|congruence].
Qed.

Lemma edge_index (p c : string) (j : nat) (sc : cmd.changeState) :
  E p c -> states !! j = Some sc -> stateID sc = c ->
  exists i sp, states !! i = Some sp /\ stateID sp = p /\ (i < j)%nat /\
               p ∈ jj.ParentIDs (cmd.change sc).
Proof.
  intros Hpc Hj Hid. apply edge_iff in Hpc as (Hp & s & Hs & Hsid & Hin).
  apply list_elem_of_lookup in Hs as [j' Hj'].
  destruct (lookup_unique j' j s sc Hj' Hj) as [-> ->]; [congruence|].
  apply list_elem_of_fmap in Hp as (sp & -> & Hsp).
  apply list_elem_of_lookup in Hsp as [i Hi].
  exists i, sp. repeat split; try assumption.
  apply (Hto i j (cmd.change sp) (cmd.change sc)); [| |exact Hin];
    rewrite list_lookup_fmap; [rewrite Hi|rewrite Hj]; reflexivity.
Qed.

Lemma tc_edge_index (a b : string) :
  tc E a b ->
  exists i j sa sb, states !! i = Some sa /\ stateID sa = a /\
                    states !! j = Some sb /\ stateID sb = b /\ (i < j)%nat.
Proof.
  induction 1 as [a b Hab|a y b Hay _ (i & j & sy & sb & Hi & Hy & Hj & Hb & Hlt)].
  - pose proof Hab as Hab'. apply edge_iff in Hab' as (_ & s & Hs & Hsid & _).
    apply list_elem_of_lookup in Hs as [j Hj].
    destruct (edge_index a b j s Hab Hj Hsid) as (i & sa & Hi & Ha & Hlt & _).
    exists i, j, sa, s. auto.
  - destruct (edge_index a y i sy Hay Hi Hy) as (k & sa & Hk & Ha & Hlt' & _).
    exists k, j, sa, sb. repeat split; try assumption. lia.
Qed.

Lemma tc_edge_irrefl (a : string) : ~ tc E a a.
Proof.
  intros Hc. destruct (tc_edge_index a a Hc) as (i & j & sa & sb & Hi & Ha & Hj & Hb & Hlt).
  destruct (lookup_unique i j sa sb Hi Hj) as [-> _]; [congruence|lia].
Qed.

Lemma walkUp_spec (fuel : nat) :
  forall (V : gset string) (id : string) (i : nat) (s : cmd.changeState),
    states !! i = Some s -> stateID s = id -> (i < fuel)%nat ->
    exists V', cmd.walkUp states (cmd.indexStates states) fuel V id = go.Ret V' /\
               walked (tc E) (flip E) V id V'.
Proof.
  induction fuel as [|fuel IHf]; intros V id i s Hi Hid Hlt; [lia|].
  simpl.
  assert (Hidx : cmd.indexStates states !! id = Some i)
    by (apply indexStates_spec; [exact Hnd|eauto]).
  rewrite Hidx. simpl. unfold go.index. rewrite Hi. simpl.
  set (body := fun (relevant : gset string) (pid : string) =>
                 if bool_decide (is_Some (cmd.indexStates states !! pid))
                    && bool_decide (pid ∉ relevant)
                 then cmd.walkUp states (cmd.indexStates states) fuel ({[pid]} ∪ relevant) pid
                 else go.Ret relevant).
  assert (Hloop : forall pids V0,
    (forall pid, pid ∈ pids -> pid ∈ jj.ParentIDs (cmd.change s)) ->
    exists V', jj.forEach body pids V0 = go.Ret V' /\
      V0 ⊆ V' /\
      (forall x, x ∈ V' -> x ∈ V0 \/ tc E x id) /\
      (forall pid, pid ∈ pids -> pid ∈ map stateID states -> pid ∈ V') /\
      (forall x, x ∈ V' -> x ∉ V0 -> forall p, E p x -> p ∈ V')).
  { induction pids as [|pid pids IH]; intros V0 Hsub.
    - exists V0. simpl. repeat split; auto.
      + intros pid Hpid. apply elem_of_nil in Hpid. contradiction.
      + intros x Hx Hnx. contradiction.
    - simpl. unfold body at 1.
      assert (Hrest : forall pid', pid' ∈ pids -> pid' ∈ jj.ParentIDs (cmd.change s))
        by (intros; apply Hsub; right; assumption).
      destruct (bool_decide (is_Some (cmd.indexStates states !! pid))) eqn:Hb1; simpl.
      2:{ destruct (IH V0 Hrest) as (V' & -> & H1 & H2 & H3 & H4).
          exists V'. repeat split; auto.
          intros pid' Hpid' Hmem. apply elem_of_cons in Hpid' as [->|Hpid']; [|auto].
          apply bool_decide_eq_false in Hb1. exfalso. apply Hb1.
          apply indexStates_member, Hmem. }
      destruct (bool_decide (pid ∉ V0)) eqn:Hb2; simpl.
      2:{ destruct (IH V0 Hrest) as (V' & -> & H1 & H2 & H3 & H4).
          exists V'. repeat split; auto.
          intros pid' Hpid' Hmem. apply elem_of_cons in Hpid' as [->|Hpid']; [|auto].
          apply bool_decide_eq_false in Hb2. apply H1.
          destruct (decide (pid ∈ V0)); [assumption|contradiction]. }
      apply bool_decide_eq_true in Hb1, Hb2.
      assert (Hedge : E pid id).
      { apply edge_iff. split; [apply indexStates_member, Hb1|].
        exists s. repeat split; [eapply list_elem_of_lookup_2, Hi|exact Hid|].
        apply Hsub. left. }
      destruct Hb1 as [j Hj]. apply indexStates_spec in Hj as (sp & Hj & Hsp); [|exact Hnd].
      destruct (edge_index pid id i s Hedge Hi Hid) as (j' & sp' & Hj' & Hsp' & Hji & _).
      destruct (lookup_unique j j' sp sp' Hj Hj') as [<- <-]; [congruence|].
      destruct (IHf ({[pid]} ∪ V0) pid j sp Hj Hsp ltac:(lia)) as (V1 & -> & U1 & U2 & U3 & U4).
      simpl. destruct (IH V1 Hrest) as (V' & -> & H1 & H2 & H3 & H4).
      exists V'. split; [reflexivity|]. split; [set_solver|]. split; [|split].
      + intros x Hx. destruct (H2 x Hx) as [Hx1|Hx1]; [|auto].
        destruct (U2 x Hx1) as [Hx0|Hx0].
        * apply elem_of_union in Hx0 as [Hx0|Hx0]; [|auto].
          apply elem_of_singleton in Hx0 as ->. right. apply tc_once, Hedge.
        * right. eapply tc_r; eassumption.
      + intros pid' Hpid' Hmem. apply elem_of_cons in Hpid' as [->|Hpid']; [|auto].
        apply H1, U1. set_solver.
      + intros x Hx Hnx p Hp.
        destruct (decide (x ∈ V1)) as [Hx1|Hx1]; [|eapply H4; eassumption].
        apply H1. destruct (decide (x = pid)) as [->|Hne].
        * apply U3, Hp.
        * eapply U4; [exact Hx1| |exact Hp]. set_solver. }
  destruct (Hloop (jj.ParentIDs (cmd.change s)) V ltac:(auto)) as (V' & -> & H1 & H2 & H3 & H4).
  exists V'. split; [reflexivity|]. split; [exact H1|]. split; [exact H2|]. split; [|exact H4].
  intros p Hp. unfold flip in Hp.
  destruct (edge_index p id i s Hp Hi Hid) as (_ & _ & _ & _ & _ & Hin).
  apply H3; [exact Hin|]. apply edge_iff in Hp. tauto.
Qed.

Lemma childEdges_edge (p c : string) :
  c ∈ default [] (cmd.childEdges (cmd.indexStates states) states !! p) <-> E p c.
Proof. rewrite childEdges_spec, indexStates_member, edge_iff. reflexivity. Qed.

Lemma walkDown_spec (fuel : nat) :
  forall (V : gset string) (id : string) (i : nat) (s : cmd.changeState),
    states !! i = Some s -> stateID s = id -> (length states - i <= fuel)%nat ->
    exists V', cmd.walkDown (cmd.childEdges (cmd.indexStates states) states) fuel V id
               = go.Ret V' /\
               walked (flip (tc E)) E V id V'.
Proof.
  induction fuel as [|fuel IHf]; intros V id i s Hi Hid Hlt.
  { apply lookup_lt_Some in Hi. lia. }
  simpl.
  set (children := cmd.childEdges (cmd.indexStates states) states) in *.
  set (body := fun (relevant : gset string) (cid : string) =>
                 if bool_decide (cid ∉ relevant)
                 then cmd.walkDown children fuel ({[cid]} ∪ relevant) cid
                 else go.Ret relevant).
  assert (Hloop : forall kids V0,
    (forall c, c ∈ kids -> E id c) ->
    exists V', jj.forEach body kids V0 = go.Ret V' /\
      V0 ⊆ V' /\
      (forall x, x ∈ V' -> x ∈ V0 \/ tc E id x) /\
      (forall c, c ∈ kids -> c ∈ V') /\
      (forall x, x ∈ V' -> x ∉ V0 -> forall c, E x c -> c ∈ V')).
  { induction kids as [|cid kids IH]; intros V0 Hsub.
    - exists V0. simpl. repeat split; auto.
      + intros c Hc. apply elem_of_nil in Hc. contradiction.
      + intros x Hx Hnx. contradiction.
    - simpl. unfold body at 1.
      assert (Hrest : forall c, c ∈ kids -> E id c)
        by (intros; apply Hsub; right; assumption).
      destruct (bool_decide (cid ∉ V0)) eqn:Hb; simpl.
      2:{ destruct (IH V0 Hrest) as (V' & -> & H1 & H2 & H3 & H4).
          exists V'. repeat split; auto.
          intros c Hc. apply elem_of_cons in Hc as [Heq|Hc]; [subst c|auto].
          apply bool_decide_eq_false in Hb. apply H1.
          destruct (decide (cid ∈ V0)); [assumption|contradiction]. }
      apply bool_decide_eq_true in Hb.
      assert (Hedge : E id cid) by (apply Hsub; left).
      pose proof Hedge as Hedge'.
      apply edge_iff in Hedge' as (_ & sc & Hsc & Hscid & _).
      apply list_elem_of_lookup in Hsc as [j Hj].
      destruct (edge_index id cid j sc Hedge Hj Hscid) as (i' & s' & Hi' & Hs' & Hij & _).
      destruct (lookup_unique i i' s s' Hi Hi') as [<- <-]; [congruence|].
      pose proof (lookup_lt_Some _ _ _ Hj) as Hjn.
      destruct (IHf ({[cid]} ∪ V0) cid j sc Hj Hscid ltac:(lia)) as (V1 & -> & U1 & U2 & U3 & U4).
      simpl. destruct (IH V1 Hrest) as (V' & -> & H1 & H2 & H3 & H4).
      exists V'. split; [reflexivity|]. split; [set_solver|]. split; [|split].
      + intros x Hx. destruct (H2 x Hx) as [Hx1|Hx1]; [|auto].
        destruct (U2 x Hx1) as [Hx0|Hx0].
        * apply elem_of_union in Hx0 as [Hx0|Hx0]; [|auto].
          apply elem_of_singleton in Hx0 as ->. right. apply tc_once, Hedge.
        * right. unfold flip in Hx0. eapply tc_l; eassumption.
      + intros c Hc. apply elem_of_cons in Hc as [Heq|Hc]; [subst c|auto].
        apply H1, U1. set_solver.
      + intros x Hx Hnx c Hc.
        destruct (decide (x ∈ V1)) as [Hx1|Hx1]; [|eapply H4; eassumption].
        apply H1. destruct (decide (x = cid)) as [->|Hne].
        * apply U3, Hc.
        * eapply U4; [exact Hx1| |exact Hc]. set_solver. }
  destruct (Hloop (default [] (children !! id)) V) as (V' & -> & H1 & H2 & H3 & H4).
  { intros c Hc. apply childEdges_edge, Hc. }
  exists V'. split; [reflexivity|]. split; [exact H1|]. split; [exact H2|]. split; [|exact H4].
  intros c Hc. apply H3, childEdges_edge, Hc.
Qed.

Lemma collectPRs_spec (V : gset string) :
  Forall (fun s => is_Some (cmd.pr s)) states ->
  cmd.collectPRs states V
  = go.Ret (map prNumber (filter (fun t => stateID t ∈ V) states)).
Proof.
  unfold cmd.collectPRs.
  assert (G : forall sts acc, Forall (fun s => is_Some (cmd.pr s)) sts ->
    jj.forEach (fun prs st =>
         if bool_decide (jj.ChangeID (cmd.change st) ∈ V) then
           match cmd.pr st with
           | Some p => go.Ret (prs ++ [github.Number p])
           | None => go.Panic
           end
         else go.Ret prs) sts acc
    = go.Ret (acc ++ map prNumber (filter (fun t => stateID t ∈ V) sts))).
  { induction sts as [|st sts IH]; intros acc Hall; simpl.
    - rewrite app_nil_r. reflexivity.
    - apply Forall_cons in Hall as [[p Hp] Hall].
      rewrite filter_cons. unfold stateID at 1.
      destruct (decide (jj.ChangeID (cmd.change st) ∈ V)) as [Hin|Hout].
      + rewrite bool_decide_eq_true_2 by exact Hin. rewrite Hp. simpl.
        rewrite IH by exact Hall. simpl. unfold prNumber at 2. rewrite Hp.
        rewrite <- app_assoc. reflexivity.
      + rewrite bool_decide_eq_false_2 by exact Hout. simpl. apply IH, Hall. }
  intros Hall. apply (G states [] Hall).
Qed.

(** The set marked for the state [s]: itself, its ancestors and its
    descendants. *)
Lemma relevant_spec (i : nat) (s : cmd.changeState) :
  states !! i = Some s ->
  exists V1 V2,
    cmd.walkUp states (cmd.indexStates states) (S (length states)) {[stateID s]} (stateID s)
      = go.Ret V1 /\
    cmd.walkDown (cmd.childEdges (cmd.indexStates states) states) (S (length states)) V1
      (stateID s) = go.Ret V2 /\
    forall x, x ∈ V2 <-> x = stateID s \/ tc E x (stateID s) \/ tc E (stateID s) x.
Proof.
  intros Hi. pose proof (lookup_lt_Some _ _ _ Hi) as Hlt.
  destruct (walkUp_spec (S (length states)) {[stateID s]} (stateID s) i s Hi eq_refl
              ltac:(lia)) as (V1 & HV1 & U1 & U2 & U3 & U4).
  destruct (walkDown_spec (S (length states)) V1 (stateID s) i s Hi eq_refl
              ltac:(lia)) as (V2 & HV2 & D1 & D2 & D3 & D4).
  exists V1, V2. split; [exact HV1|]. split; [exact HV2|].
  assert (Hclosed : forall x, x ∈ V1 -> forall p, E p x -> p ∈ V1).
  { intros x Hx p Hp. destruct (decide (x = stateID s)) as [->|Hne].
    - apply U3, Hp.
    - eapply U4; [exact Hx| |exact Hp]. set_solver. }
  assert (Hup : forall a b, tc E a b -> b ∈ V1 -> a ∈ V1).
  { clear -Hclosed. induction 1 as [a b Hab|a y b Hay _ IH]; intros Hb.
    - eapply Hclosed; eassumption.
    - eapply Hclosed; [apply IH, Hb|exact Hay]. }
  assert (Hdown : forall d, tc E (stateID s) d -> d ∈ V2).
  { apply tc_ind_r.
    - intros d Hd. apply D3, Hd.
    - intros y d Hy Hyd IH. eapply D4; [exact IH| |exact Hyd].
      intros Hy1. destruct (U2 y Hy1) as [Hy0|Hy0].
      + apply elem_of_singleton in Hy0 as ->. eapply tc_edge_irrefl, Hy.
      + eapply tc_edge_irrefl, tc_trans; eassumption. }
  intros x. split.
  - intros Hx. destruct (D2 x Hx) as [Hx1|Hx1]; [|auto].
    destruct (U2 x Hx1) as [Hx0|Hx0]; [|auto].
    apply elem_of_singleton in Hx0. auto.
  - intros [->|[Hx|Hx]]; [apply D1, U1; set_solver| |apply Hdown, Hx].
    apply D1. eapply Hup; [exact Hx|]. apply U1. set_solver.
Qed.

End StackMembership.

Lemma computeStackPRs_stacks (states : list cmd.changeState) :
  NoDup (map stateID states) ->
  topoOrdered (map cmd.change states) ->
  Forall (fun s => is_Some (cmd.pr s)) states ->
  exists stacks, cmd.computeStackPRs states = go.Ret stacks /\
                 Forall2 (stackOf states) states stacks.
Proof.
  intros Hnd Hto Hpr. unfold cmd.computeStackPRs. cbv zeta.
  assert (G : forall sts acc, (forall s, s ∈ sts -> s ∈ states) ->
    exists stacks,
      jj.forEach
        (fun result s =>
           let? relevant := cmd.walkUp states (cmd.indexStates states)
                              (S (length states)) {[jj.ChangeID (cmd.change s)]}
                              (jj.ChangeID (cmd.change s)) in
           let? relevant := cmd.walkDown (cmd.childEdges (cmd.indexStates states) states)
                              (S (length states)) relevant (jj.ChangeID (cmd.change s)) in
           let? prs := cmd.collectPRs states relevant in
           go.Ret (result ++ [prs]))
        sts acc = go.Ret (acc ++ stacks) /\
      Forall2 (stackOf states) sts stacks).
  { induction sts as [|s sts IH]; intros acc Hsub.
    - exists []. simpl. rewrite app_nil_r. split; [reflexivity|constructor].
    - assert (Hs : s ∈ states) by (apply Hsub; left).
      apply list_elem_of_lookup in Hs as [i Hi].
      destruct (relevant_spec states Hnd Hto i s Hi) as (V1 & V2 & HV1 & HV2 & Hrel).
      change (jj.forEach ?f (s :: sts) acc) with (let? b' := f acc s in jj.forEach f sts b').
      cbv beta. unfold stateID in HV1, HV2. rewrite HV1. cbn [go.obind].
      rewrite HV2. cbn [go.obind].
      rewrite (collectPRs_spec states V2 Hpr). cbn [go.obind].
      destruct (IH (acc ++ [map prNumber (filter (fun t => stateID t ∈ V2) states)]))
        as (stacks & -> & Hall).
      { intros s' Hs'. apply Hsub. right. exact Hs'. }
      eexists (_ :: stacks). rewrite <- app_assoc. split; [reflexivity|].
      constructor; [|exact Hall]. exists V2. split; [exact Hrel|reflexivity]. }
  destruct (G states [] ltac:(auto)) as (stacks & Hrun & Hall).
  exists stacks. split; [exact Hrun|exact Hall].
Qed.

(** C5.  For a list of active states that holds each change once, in
    topological order, and a PR for each, [computeStackPRs] returns one stack
    per state, and the stack of the change [C] is the PR numbers of
    [{C} ∪ ancestors(C) ∪ descendants(C)] (along the parent edges restricted
    to the list) in input order.  For the diamond [a -> b], [a -> c],
    [b -> d], [c -> d] with the PRs 1, 2, 3, 4 the stack of [b] is [1; 2; 4]
    (the sibling [c] left out) and the stack of [d] is [1; 2; 3; 4]. *)
Theorem computeStackPRs_relevant :
  (forall states : list cmd.changeState,
     NoDup (map stateID states) ->
     topoOrdered (map cmd.change states) ->
     Forall (fun s => is_Some (cmd.pr s)) states ->
     exists stacks, cmd.computeStackPRs states = go.Ret stacks /\
                    Forall2 (stackOf states) states stacks) /\
  cmd.computeStackPRs diamond
  = go.Ret [[1; 2; 3; 4]; [1; 2; 4]; [1; 3; 4]; [1; 2; 3; 4]].
Proof.
  split; [exact computeStackPRs_stacks|vm_compute; reflexivity].
Qed.

Lemma diamond_ordered : topoOrdered (map cmd.change diamond).
Proof.
  intros i j p c Hi Hj Hin. simpl in Hi, Hj.
  lookup_cases Hi; lookup_cases Hj; simpl in Hin; try lia;
    repeat (apply elem_of_cons in Hin as [Hin|Hin]; [discriminate Hin|]);
    apply elem_of_nil in Hin; contradiction.
Defined.

Lemma computeStackPRs_relevant_witness :
  exists stacks, cmd.computeStackPRs diamond = go.Ret stacks /\
                 Forall2 (stackOf diamond) diamond stacks.
Proof.
  apply (proj1 computeStackPRs_relevant diamond).
  - simpl. repeat (constructor; [intros Hin;
      repeat (apply elem_of_cons in Hin as [Hin|Hin]; [discriminate Hin|]);
      apply elem_of_nil in Hin; contradiction|]). constructor.
  - exact diamond_ordered.
  - repeat constructor; simpl; eauto.
Defined.

(** ** ChangeGraph: the order of a DAG *)

Section Release.

Lemma occ_cons (x y : string) (l : list string) :
  occ x (y :: l) = ((if decide (y = x) then 1 else 0) + occ x l)%nat.
Proof. unfold occ. rewrite filter_cons. destruct (decide (y = x)); reflexivity. Qed.

Lemma occ_app (x : string) (l l' : list string) : occ x (l ++ l') = (occ x l + occ x l')%nat.
Proof. unfold occ. rewrite filter_app, length_app. reflexivity. Qed.

Lemma occ_pos (x : string) (l : list string) : x ∈ l <-> (0 < occ x l)%nat.
Proof.
  induction l as [|y l IH].
  { rewrite elem_of_nil. unfold occ. simpl. lia. }
  rewrite occ_cons, elem_of_cons. destruct (decide (y = x)) as [->|Hne].
  - split; [lia|auto].
  - rewrite IH. split; [intros [?|?]; [congruence|lia]|intros; right; lia].
Qed.

Lemma occ_perm (x : string) (l l' : list string) : l ≡ₚ l' -> occ x l = occ x l'.
Proof. intros Hp. unfold occ. rewrite Hp. reflexivity. Qed.

(** The inner loop of Kahn's algorithm, for counters that cover the
    occurrences of each kid: a kid is enqueued, once, exactly when its
    counter is used up. *)
Lemma releaseKid_spec (kids : list string) :
  forall (deg : gmap string Z) (q : list string),
    (forall k, k ∈ kids -> Z.of_nat (occ k kids) <= default 0 (deg !! k)) ->
    exists fresh,
      (foldl jj.releaseKid (deg, q) kids).2 = q ++ fresh /\
      NoDup fresh /\
      (forall k, k ∈ fresh <-> k ∈ kids /\ default 0 (deg !! k) = Z.of_nat (occ k kids)) /\
      (forall k, (foldl jj.releaseKid (deg, q) kids).1 !! k
                 = if decide (k ∈ kids)
                   then Some (default 0 (deg !! k) - Z.of_nat (occ k kids))
                   else deg !! k).
Proof.
  induction kids as [|kid kids IH]; intros deg q Hcover.
  - exists []. simpl. rewrite app_nil_r.
    split; [reflexivity|]. split; [constructor|]. split.
    + intros k. rewrite elem_of_nil. tauto.
    + intros k. destruct (decide (k ∈ [])) as [Hk|]; [apply elem_of_nil in Hk; contradiction|reflexivity].
  - simpl. set (d := default 0 (deg !! kid) - 1).
    pose proof (Hcover kid ltac:(left)) as Hkid. rewrite occ_cons in Hkid.
    destruct (decide (kid = kid)) as [_|]; [|contradiction].
    destruct (IH (<[kid := d]> deg) (if decide (d = 0) then q ++ [kid] else q))
      as (fresh & Hq & Hnd & Hfresh & Hdeg).
    { intros k Hk. destruct (decide (k = kid)) as [->|Hne].
      - rewrite lookup_insert_eq. simpl. subst d. lia.
      - rewrite lookup_insert_ne by congruence.
        pose proof (Hcover k ltac:(right; exact Hk)) as Hc. rewrite occ_cons in Hc.
        destruct (decide (kid = k)); [congruence|]. simpl in Hc. lia. }
    exists ((if decide (d = 0) then [kid] else []) ++ fresh).
    split; [|split; [|split]].
    + rewrite Hq. destruct (decide (d = 0)); simpl; rewrite <- ?app_assoc; reflexivity.
    + destruct (decide (d = 0)) as [Hd|Hd]; simpl; [|exact Hnd].
      constructor; [|exact Hnd]. intros Hin. apply Hfresh in Hin as [Hin _].
      apply occ_pos in Hin. subst d. lia.
    + intros k. rewrite elem_of_app, Hfresh, elem_of_cons, occ_cons.
      destruct (decide (k = kid)) as [->|Hne].
      * rewrite lookup_insert_eq. simpl.
        destruct (decide (kid = kid)) as [_|]; [|contradiction].
        destruct (decide (d = 0)) as [Hd|Hd]; subst d.
        -- split; [intros _; split; [auto|]|intros _; left; left].
           assert (occ kid kids = 0%nat) by lia. lia.
        -- split.
           ++ intros [H|[H1 H2]]; [apply elem_of_nil in H; contradiction|]. split; [auto|lia].
           ++ intros [_ H]. right. split; [|lia].
              apply occ_pos. lia.
      * rewrite lookup_insert_ne by congruence.
        destruct (decide (kid = k)); [congruence|]. simpl.
        split.
        -- intros [H|[H1 H2]]; [|split; [auto|lia]].
           destruct (decide (d = 0)); [apply list_elem_of_singleton in H; congruence|
                                        apply elem_of_nil in H; contradiction].
        -- intros [[?|H1] H2]; [congruence|]. right. split; [exact H1|lia].
    + intros k. rewrite Hdeg. rewrite occ_cons.
      destruct (decide (k = kid)) as [->|Hne].
      * rewrite lookup_insert_eq. simpl.
        destruct (decide (kid = kid)) as [_|]; [|contradiction].
        destruct (decide (kid ∈ kid :: kids)) as [_|Hn]; [|exfalso; apply Hn; left].
        destruct (decide (kid ∈ kids)) as [Hin|Hout].
        -- f_equal. subst d. lia.
        -- f_equal. assert (occ kid kids = 0%nat).
           { destruct (occ kid kids) eqn:E; [reflexivity|]. exfalso. apply Hout, occ_pos. lia. }
           subst d. lia.
      * rewrite lookup_insert_ne by congruence.
        destruct (decide (kid = k)); [congruence|]. simpl.
        destruct (decide (k ∈ kids)) as [Hin|Hout];
          destruct (decide (k ∈ kid :: kids)) as [Hin'|Hout']; try reflexivity.
        -- exfalso. apply Hout'. right. exact Hin.
        -- exfalso. apply elem_of_cons in Hin' as [?|?]; [congruence|contradiction].
Qed.

End Release.

Section Tables.
Variable comp : gset string.

Lemma countParent_spec (cid : string) (pids : list string) :
  forall (deg : gmap string Z) (ch : gmap string (list string)) (v : Z),
    deg !! cid = Some v ->
    (foldl (jj.countParent comp cid) (deg, ch) pids).1
      = <[cid := v + Z.of_nat (length (filter (fun p => p ∈ comp) pids))]> deg /\
    (forall p kid,
       occ kid (default [] ((foldl (jj.countParent comp cid) (deg, ch) pids).2 !! p))
       = (occ kid (default [] (ch !! p))
          + if decide (kid = cid /\ p ∈ comp) then occ p pids else 0)%nat).
Proof.
  induction pids as [|pid pids IH]; intros deg ch v Hv.
  - simpl. split.
    + rewrite Z.add_0_r. symmetry. apply insert_id, Hv.
    + intros p kid. destruct (decide _); unfold occ; simpl; lia.
  - cbn [foldl]. unfold jj.countParent at 2 4.
    destruct (decide (pid ∈ comp)) as [Hin|Hout].
    + rewrite bool_decide_eq_true_2 by exact Hin.
      rewrite Hv. simpl.
      destruct (IH (<[cid := v + 1]> deg)
                   (<[pid := default [] (ch !! pid) ++ [cid]]> ch) (v + 1))
        as [H1 H2]; [apply lookup_insert_eq|].
      split.
      * rewrite H1, insert_insert_eq. f_equal.
        rewrite filter_cons. destruct (decide (pid ∈ comp)); [|contradiction].
        simpl. lia.
      * intros p kid. rewrite H2, (occ_cons p pid).
        destruct (decide (pid = p)) as [->|Hne].
        -- rewrite lookup_insert_eq. simpl. rewrite occ_app.
           unfold occ at 2. rewrite filter_cons, filter_nil.
           destruct (decide (cid = kid)) as [->|Hk];
             destruct (decide (kid = _ /\ p ∈ comp)) as [[? ?]|Hn]; simpl; try lia;
             try congruence.
           exfalso. apply Hn. auto.
        -- rewrite lookup_insert_ne by exact Hne.
           destruct (decide (kid = cid /\ p ∈ comp)); simpl; lia.
    + rewrite bool_decide_eq_false_2 by exact Hout.
      destruct (IH deg ch v Hv) as [H1 H2]. split.
      * rewrite H1. rewrite filter_cons. destruct (decide (pid ∈ comp)); [contradiction|].
        reflexivity.
      * intros p kid. rewrite H2, (occ_cons p pid).
        destruct (decide (pid = p)) as [->|Hne]; [|reflexivity].
        destruct (decide (kid = cid /\ p ∈ comp)) as [[_ ?]|]; [contradiction|reflexivity].
Qed.

Lemma countMember_spec (c : jj.Change) (deg : gmap string Z) (ch : gmap string (list string)) :
  (jj.countMember comp (deg, ch) c).1
    = <[jj.ChangeID c := Z.of_nat (length (filter (fun p => p ∈ comp) (jj.ParentIDs c)))]> deg /\
  (forall p kid,
     occ kid (default [] ((jj.countMember comp (deg, ch) c).2 !! p))
     = (occ kid (default [] (ch !! p))
        + if decide (kid = jj.ChangeID c /\ p ∈ comp) then occ p (jj.ParentIDs c) else 0)%nat).
Proof.
  unfold jj.countMember.
  destruct (countParent_spec (jj.ChangeID c) (jj.ParentIDs c)
              (<[jj.ChangeID c := 0]> deg) ch 0 ltac:(apply lookup_insert_eq)) as [H1 H2].
  split; [|exact H2]. rewrite H1, insert_insert_eq. reflexivity.
Qed.

Lemma tables_spec (mems : list jj.Change) :
  NoDup (map jj.ChangeID mems) ->
  forall (deg : gmap string Z) (ch : gmap string (list string)),
    (forall c, c ∈ mems ->
       (foldl (jj.countMember comp) (deg, ch) mems).1 !! jj.ChangeID c
       = Some (Z.of_nat (length (filter (fun p => p ∈ comp) (jj.ParentIDs c))))) /\
    (forall c p, c ∈ mems ->
       occ (jj.ChangeID c) (default [] ((foldl (jj.countMember comp) (deg, ch) mems).2 !! p))
       = (occ (jj.ChangeID c) (default [] (ch !! p))
          + if decide (p ∈ comp) then occ p (jj.ParentIDs c) else 0)%nat) /\
    (forall kid p, kid ∉ map jj.ChangeID mems ->
       occ kid (default [] ((foldl (jj.countMember comp) (deg, ch) mems).2 !! p))
       = occ kid (default [] (ch !! p))) /\
    (forall k, k ∉ map jj.ChangeID mems ->
       (foldl (jj.countMember comp) (deg, ch) mems).1 !! k = deg !! k).
Proof.
  induction mems as [|m mems IH]; intros Hnd deg ch.
  - simpl. repeat split; try reflexivity.
    + intros c Hc. apply elem_of_nil in Hc. contradiction.
    + intros c p Hc. apply elem_of_nil in Hc. contradiction.
  - simpl in Hnd. apply NoDup_cons in Hnd as [Hfresh Hnd].
    cbn [foldl]. destruct (countMember_spec m deg ch) as [M1 M2].
    destruct (jj.countMember comp (deg, ch) m) as [deg1 ch1]. simpl in M1, M2.
    destruct (IH Hnd deg1 ch1) as (I1 & I2 & I3 & I4).
    split; [|split; [|split]].
    + intros c Hc. apply elem_of_cons in Hc as [->|Hc]; [|apply I1, Hc].
      rewrite I4 by exact Hfresh. rewrite M1. apply lookup_insert_eq.
    + intros c p Hc. apply elem_of_cons in Hc as [->|Hc].
      * rewrite I3 by exact Hfresh. rewrite M2.
        destruct (decide (p ∈ comp)); destruct (decide (_ /\ _)) as [[? ?]|Hn]; try lia;
          try contradiction. exfalso. apply Hn. auto.
      * rewrite I2 by exact Hc. rewrite M2.
        destruct (decide (jj.ChangeID c = jj.ChangeID m /\ p ∈ comp)) as [[E _]|]; [|lia].
        exfalso. apply Hfresh. rewrite <- E. apply list_elem_of_fmap. eauto.
    + intros kid p Hkid. apply not_elem_of_cons in Hkid as [Hne Hkid].
      rewrite I3 by exact Hkid. rewrite M2.
      destruct (decide (kid = jj.ChangeID m /\ p ∈ comp)) as [[? _]|]; [contradiction|lia].
    + intros k Hk. apply not_elem_of_cons in Hk as [Hne Hk].
      rewrite I4 by exact Hk. rewrite M1. apply lookup_insert_ne. congruence.
Qed.

End Tables.

Section Kahn.
Variable all : list jj.Change.
Variable known : gmap string nat.
Variable mems : list jj.Change.
Variable children : gmap string (list string).

Local Abbreviation ids := (map jj.ChangeID mems).

Hypothesis Hknown : forall c, c ∈ mems ->
  exists i, known !! jj.ChangeID c = Some i /\ all !! i = Some c.
Hypothesis Hnd : NoDup ids.
Hypothesis Hkids : forall c p, c ∈ mems ->
  occ (jj.ChangeID c) (default [] (children !! p))
  = if decide (p ∈ ids) then occ p (jj.ParentIDs c) else 0%nat.
Hypothesis Hkids_in : forall kid p, kid ∈ default [] (children !! p) -> kid ∈ ids.

Lemma member_by_id (x : string) : x ∈ ids -> exists c, c ∈ mems /\ jj.ChangeID c = x.
Proof. intros Hx. apply list_elem_of_fmap in Hx as (c & -> & Hc). eauto. Qed.

Lemma member_unique (c c' : jj.Change) :
  c ∈ mems -> c' ∈ mems -> jj.ChangeID c = jj.ChangeID c' -> c = c'.
Proof.
  intros Hc Hc' Hid.
  apply list_elem_of_lookup in Hc as [i Hi]. apply list_elem_of_lookup in Hc' as [j Hj].
  assert (i = j) as ->.
  { eapply (NoDup_lookup _ i j (jj.ChangeID c) Hnd); rewrite list_lookup_fmap.
    - rewrite Hi. reflexivity.
    - rewrite Hj, Hid. reflexivity. }
  congruence.
Qed.

Lemma pending_split (emitted : list string) (id : string) (c : jj.Change) :
  id ∈ ids -> id ∉ emitted ->
  pending ids emitted c
  = (pending ids (emitted ++ [id]) c + occ id (jj.ParentIDs c))%nat.
Proof.
  intros Hid Hout. unfold pending, occ.
  induction (jj.ParentIDs c) as [|p l IH]; [reflexivity|].
  rewrite !filter_cons.
  destruct (decide (p = id)) as [->|Hne].
  - destruct (decide (id ∈ ids /\ id ∉ emitted)) as [_|Hn]; [|exfalso; apply Hn; auto].
    destruct (decide (id ∈ ids /\ id ∉ emitted ++ [id])) as [[_ Hn]|_].
    + exfalso. apply Hn, elem_of_app. right. left.
    + simpl. lia.
  - destruct (decide (p ∈ ids /\ p ∉ emitted)) as [[H1 H2]|Hn];
      destruct (decide (p ∈ ids /\ p ∉ emitted ++ [id])) as [[H3 H4]|Hn']; simpl; try lia.
    + exfalso. apply Hn'. split; [exact H1|]. intros Hin.
      apply elem_of_app in Hin as [Hin|Hin]; [contradiction|].
      apply list_elem_of_singleton in Hin. contradiction.
    + exfalso. apply Hn. split; [exact H3|]. intros Hin. apply H4, elem_of_app. auto.
Qed.

Lemma pending_zero (emitted : list string) (c : jj.Change) (p : string) :
  pending ids emitted c = 0%nat -> p ∈ jj.ParentIDs c -> p ∈ ids -> p ∈ emitted.
Proof.
  unfold pending. intros Hz Hp Hin.
  destruct (decide (p ∈ emitted)) as [|Hout]; [assumption|].
  assert (Hf : p ∈ filter (fun p => p ∈ ids /\ p ∉ emitted) (jj.ParentIDs c))
    by (apply list_elem_of_filter; auto).
  destruct (filter _ _); [apply elem_of_nil in Hf; contradiction|discriminate].
Qed.

(** One round of the main loop keeps the invariant. *)
Lemma kahn_step (id : string) (queue : list string) (inDegree : gmap string Z)
    (sorted : list jj.Change) (c : jj.Change) :
  kahnInv mems (id :: queue) inDegree sorted ->
  c ∈ mems -> jj.ChangeID c = id ->
  kahnInv mems
    (foldl jj.releaseKid (inDegree, queue) (go.SortStrings (default [] (children !! id)))).2
    (foldl jj.releaseKid (inDegree, queue) (go.SortStrings (default [] (children !! id)))).1
    (sorted ++ [c]).
Proof.
  intros (I1 & Iin & I2 & I3 & I4 & I5) Hc Hcid.
  set (emitted := map jj.ChangeID sorted) in *.
  set (kids := go.SortStrings (default [] (children !! id))).
  assert (Hperm : kids ≡ₚ default [] (children !! id))
    by apply merge_sort_Permutation.
  assert (Hid : id ∈ ids) by (apply Iin, elem_of_app; right; left).
  assert (Hfresh_id : id ∉ emitted).
  { apply NoDup_app in I1 as (_ & Hd & _). intros Hin. apply (Hd id Hin). left. }
  assert (Hocc : forall ck, ck ∈ mems -> occ (jj.ChangeID ck) kids = occ id (jj.ParentIDs ck)).
  { intros ck Hck. rewrite (occ_perm _ _ _ Hperm), Hkids by exact Hck.
    destruct (decide (id ∈ ids)); [reflexivity|contradiction]. }
  assert (Hkid_mem : forall k, k ∈ kids -> exists ck, ck ∈ mems /\ jj.ChangeID ck = k).
  { intros k Hk. apply member_by_id. eapply Hkids_in. rewrite <- Hperm. exact Hk. }
  destruct (releaseKid_spec kids inDegree queue) as (fresh & Hq & Hndf & Hfr & Hdeg).
  { intros k Hk. destruct (Hkid_mem k Hk) as (ck & Hck & <-).
    rewrite I2 by exact Hck. simpl. rewrite Hocc by exact Hck.
    rewrite (pending_split emitted id ck Hid Hfresh_id). lia. }
  rewrite Hq.
  set (deg' := (foldl jj.releaseKid (inDegree, queue) kids).1) in *.
  assert (Emit : map jj.ChangeID (sorted ++ [c]) = emitted ++ [id]).
  { rewrite map_app. simpl. rewrite Hcid. reflexivity. }
  assert (Hfresh_iff : forall ck, ck ∈ mems ->
            jj.ChangeID ck ∈ fresh <->
            pending ids (emitted ++ [id]) ck = 0%nat /\ pending ids emitted ck <> 0%nat).
  { intros ck Hck. rewrite Hfr, I2 by exact Hck. simpl. rewrite Hocc by exact Hck.
    rewrite occ_pos, Hocc by exact Hck.
    rewrite (pending_split emitted id ck Hid Hfresh_id). lia. }
  unfold kahnInv. cbv zeta. rewrite Emit.
  split; [|split; [|split; [|split; [|split]]]].
  - rewrite <- app_assoc. simpl.
    assert (Hold : NoDup ((emitted ++ id :: queue) ++ fresh)).
    { apply NoDup_app. split; [exact I1|]. split; [|exact Hndf].
      intros x Hx Hxf. pose proof Hxf as Hxf'. apply Hfr in Hxf' as [Hxk _].
      destruct (Hkid_mem x Hxk) as (ck & Hck & <-).
      apply Hfresh_iff in Hxf as [_ Hne]; [|exact Hck].
      apply Hne, I3; assumption. }
    rewrite <- app_assoc in Hold. exact Hold.
  - intros x Hx. rewrite <- app_assoc in Hx. simpl in Hx.
    apply elem_of_app in Hx as [Hx|Hx]; [apply Iin, elem_of_app; auto|].
    apply elem_of_cons in Hx as [->|Hx]; [exact Hid|].
    apply elem_of_app in Hx as [Hx|Hx]; [apply Iin, elem_of_app; right; right; exact Hx|].
    apply Hfr in Hx as [Hx _]. destruct (Hkid_mem x Hx) as (ck & Hck & <-).
    apply list_elem_of_fmap. eauto.
  - intros ck Hck. rewrite Hdeg, I2 by exact Hck. simpl.
    pose proof (pending_split emitted id ck Hid Hfresh_id) as Hsplit.
    destruct (decide (jj.ChangeID ck ∈ kids)) as [Hin|Hout].
    + rewrite Hocc by exact Hck. f_equal. lia.
    + f_equal. f_equal. rewrite Hsplit.
      assert (occ (jj.ChangeID ck) kids = 0%nat).
      { destruct (occ (jj.ChangeID ck) kids) eqn:E; [reflexivity|].
        exfalso. apply Hout, occ_pos. lia. }
      rewrite Hocc in H by exact Hck. lia.
  - intros ck Hck.
    pose proof (pending_split emitted id ck Hid Hfresh_id) as Hsplit.
    pose proof (I3 ck Hck) as Hold. pose proof (Hfresh_iff ck Hck) as Hnew.
    rewrite <- app_assoc. simpl. rewrite elem_of_app, elem_of_cons, elem_of_app.
    rewrite elem_of_app, elem_of_cons in Hold.
    split.
    + intros [H|[H|[H|H]]]; [| | |apply Hnew in H; tauto];
        (assert (pending ids emitted ck = 0%nat) by (apply Hold; tauto); lia).
    + intros Hz. destruct (decide (pending ids emitted ck = 0%nat)) as [Hz'|Hnz].
      * apply Hold in Hz'. tauto.
      * right. right. right. apply Hnew. auto.
  - intros x Hx. apply elem_of_app in Hx as [Hx|Hx]; [auto|].
    apply list_elem_of_singleton in Hx as ->. exact Hc.
  - intros j x Hj p Hp Hpin.
    apply lookup_app_Some in Hj as [Hj|[Hge Hj]].
    + destruct (I5 j x Hj p Hp Hpin) as (i & cp & Hlt & Hi & Hcp).
      exists i, cp. repeat split; try assumption. apply lookup_app_l_Some, Hi.
    + destruct (j - length sorted)%nat eqn:Ej; simpl in Hj; [|discriminate].
      injection Hj as <-.
      assert (Hz : pending ids emitted c = 0%nat).
      { apply I3; [exact Hc|]. rewrite Hcid. apply elem_of_app. right. left. }
      pose proof (pending_zero emitted c p Hz Hp Hpin) as Hem.
      apply list_elem_of_lookup in Hem as [i Hi]. unfold emitted in Hi.
      rewrite list_lookup_fmap in Hi.
      destruct (sorted !! i) as [cp|] eqn:Hcp; [|discriminate]. injection Hi as Hi.
      exists i, cp. pose proof (lookup_lt_Some _ _ _ Hcp).
      repeat split; [lia|apply lookup_app_l_Some, Hcp|exact Hi].
Qed.

Lemma kahnInv_length (queue : list string) (inDegree : gmap string Z)
    (sorted : list jj.Change) :
  kahnInv mems queue inDegree sorted ->
  (length sorted + length queue <= length mems)%nat.
Proof.
  intros (I1 & Iin & _).
  pose proof (submseteq_length _ _ (NoDup_submseteq _ ids I1 Iin)) as Hle.
  rewrite length_app, !length_map in Hle. exact Hle.
Qed.

(** With fuel for the members still to emit, the main loop ends, and the
    invariant holds of what it returns. *)
Lemma kahn_run (fuel : nat) :
  forall queue inDegree sorted byID,
    kahnInv mems queue inDegree sorted ->
    (length mems - length sorted < fuel)%nat ->
    exists sorted' byID' inDegree',
      jj.kahn fuel all known children queue inDegree sorted byID = go.Ret (sorted', byID') /\
      kahnInv mems [] inDegree' sorted'.
Proof.
  induction fuel as [|fuel IH]; intros queue inDegree sorted byID Hinv Hfuel; [lia|].
  destruct queue as [|id queue]; [simpl; eauto|].
  cbn [jj.kahn].
  assert (Hid : id ∈ ids).
  { destruct Hinv as (_ & Iin & _). apply Iin, elem_of_app. right. left. }
  destruct (member_by_id id Hid) as (c & Hc & Hcid).
  destruct (Hknown c Hc) as (i & Hk & Hi). rewrite Hcid in Hk.
  rewrite Hk. simpl. unfold go.index. rewrite Hi. simpl.
  pose proof (kahn_step id queue inDegree sorted c Hinv Hc Hcid) as Hstep.
  pose proof (kahnInv_length _ _ _ Hinv) as Hlen. simpl in Hlen.
  destruct (foldl jj.releaseKid _ _) as [deg' queue'].
  apply IH; [exact Hstep|]. rewrite length_app. simpl. lia.
Qed.

Lemma kahnInv_ordered (inDegree : gmap string Z) (sorted : list jj.Change) :
  kahnInv mems [] inDegree sorted -> topoOrdered sorted.
Proof.
  intros (I1 & Iin & _ & _ & I4 & I5) i j p c Hi Hj Hin.
  rewrite app_nil_r in I1, Iin.
  assert (Hp : jj.ChangeID p ∈ ids).
  { apply Iin, list_elem_of_fmap. exists p. split; [reflexivity|eapply list_elem_of_lookup_2, Hi]. }
  destruct (I5 j c Hj (jj.ChangeID p) Hin Hp) as (i' & cp & Hlt & Hi' & Hcp).
  assert (i = i') as ->; [|exact Hlt].
  eapply (NoDup_lookup _ i i' (jj.ChangeID p) I1); rewrite list_lookup_fmap.
  - rewrite Hi. reflexivity.
  - rewrite Hi'. simpl. rewrite Hcp. reflexivity.
Qed.

End Kahn.

Section TopoSort.
Variable all : list jj.Change.
Variable known : gmap string nat.
Hypothesis Hall : NoDup (map jj.ChangeID all).
Hypothesis Hknown : forall id i,
  known !! id = Some i <-> exists c, all !! i = Some c /\ jj.ChangeID c = id.

Lemma collect_members (idxs : list nat) :
  Forall (fun i => (i < length all)%nat) idxs ->
  forall acc,
    exists mems,
      jj.forEach (fun acc i => let? c := go.index all i in go.Ret (acc ++ [c])) idxs acc
      = go.Ret (acc ++ mems) /\
      Forall2 (fun i c => all !! i = Some c) idxs mems.
Proof.
  induction idxs as [|i idxs IH]; intros Hin acc.
  - exists []. simpl. rewrite app_nil_r. split; [reflexivity|constructor].
  - apply Forall_cons in Hin as [Hi Hin].
    destruct (lookup_lt_is_Some_2 all i Hi) as [c Hc].
    destruct (IH Hin (acc ++ [c])) as (mems & Hrun & Hf).
    exists (c :: mems).
    change (jj.forEach ?f (i :: idxs) acc) with (let? b := f acc i in jj.forEach f idxs b).
    cbv beta. unfold go.index at 1. rewrite Hc. cbn [go.obind].
    rewrite Hrun, <- app_assoc. split; [reflexivity|]. constructor; assumption.
Qed.

Lemma members_NoDup (idxs : list nat) (mems : list jj.Change) :
  NoDup idxs -> Forall2 (fun i c => all !! i = Some c) idxs mems ->
  NoDup (map jj.ChangeID mems).
Proof.
  intros Hnd Hf. apply NoDup_alt. intros a b x Ha Hb.
  rewrite list_lookup_fmap in Ha, Hb.
  destruct (mems !! a) as [ca|] eqn:Hca; [|discriminate].
  destruct (mems !! b) as [cb|] eqn:Hcb; [|discriminate].
  injection Ha as Ha. injection Hb as Hb.
  destruct (Forall2_lookup_r _ _ _ _ _ Hf Hca) as (ia & Hia & Haa).
  destruct (Forall2_lookup_r _ _ _ _ _ Hf Hcb) as (ib & Hib & Hab).
  assert (ia = ib) as ->.
  { eapply (NoDup_lookup _ ia ib x Hall); rewrite list_lookup_fmap.
    - rewrite Haa. simpl. congruence.
    - rewrite Hab. simpl. congruence. }
  eapply NoDup_lookup; eassumption.
Qed.

Lemma inComponent_spec (mems : list jj.Change) (acc : gset string) (x : string) :
  x ∈ foldl (fun s c => s ∪ {[jj.ChangeID c]}) acc mems
  <-> x ∈ acc \/ x ∈ map jj.ChangeID mems.
Proof.
  revert acc. induction mems as [|c mems IH]; intros acc; simpl.
  - rewrite elem_of_nil. tauto.
  - rewrite IH, elem_of_union, elem_of_singleton, elem_of_cons. tauto.
Qed.

Lemma filter_length_ext {A} (P Q : A -> Prop) `{!forall x, Decision (P x)}
    `{!forall x, Decision (Q x)} (l : list A) :
  (forall x, P x <-> Q x) -> length (filter P l) = length (filter Q l).
Proof.
  intros Hpq. induction l as [|x l IH]; [reflexivity|].
  rewrite !filter_cons.
  destruct (decide (P x)) as [Hp|Hp]; destruct (decide (Q x)) as [Hq|Hq]; simpl;
    try (rewrite IH; reflexivity); exfalso; apply Hpq in Hp || apply Hpq in Hq; contradiction.
Qed.

(** [topoSort] on distinct indices of the slice: Kahn's loop ends within
    the fuel of the model, with the invariant, and the result is the sorted
    list, or the cycle error when a member was never emitted. *)
Lemma topoSort_run (memberIndices : list nat) :
  NoDup memberIndices ->
  Forall (fun i => (i < length all)%nat) memberIndices ->
  exists mems sorted byID inDegree,
    Forall2 (fun i c => all !! i = Some c) memberIndices mems /\
    kahnInv mems [] inDegree sorted /\
    jj.topoSort all memberIndices known
    = if decide (length sorted ≠ length memberIndices)
      then go.Raise (go.Errorf "cycle detected in change graph (%d of %d changes sorted)"
                       [go.FInt (Z.of_nat (length sorted));
                        go.FInt (Z.of_nat (length memberIndices))])
      else go.Ret (jj.mkChangeDAG sorted byID).
Proof.
  intros Hndi Hrange. unfold jj.topoSort.
  destruct (collect_members memberIndices Hrange []) as (mems & Hmems & Hf).
  rewrite Hmems. simpl app. cbn [go.obind].
  set (comp := foldl (fun s c => s ∪ {[jj.ChangeID c]}) ∅ mems).
  assert (Hcomp : forall x, x ∈ comp <-> x ∈ map jj.ChangeID mems).
  { intros x. unfold comp. rewrite inComponent_spec, elem_of_empty. tauto. }
  pose proof (members_NoDup _ _ Hndi Hf) as Hnd.
  destruct (tables_spec comp mems Hnd ∅ ∅) as (T1 & T2 & T3 & _).
  destruct (foldl (jj.countMember comp) (∅, ∅) mems) as [inDegree children].
  simpl in T1, T2, T3.
  assert (Hpend : forall c, c ∈ mems ->
            inDegree !! jj.ChangeID c = Some (Z.of_nat (pending (map jj.ChangeID mems) [] c))).
  { intros c Hc. rewrite T1 by exact Hc. do 2 f_equal. unfold pending.
    apply filter_length_ext. intros p. rewrite Hcomp, elem_of_nil. tauto. }
  assert (Hocc0 : forall kid p, occ kid (default [] ((∅ : gmap string (list string)) !! p)) = 0%nat).
  { intros kid p. rewrite lookup_empty. reflexivity. }
  set (queue := go.SortStrings _).
  assert (Hq : forall x, x ∈ queue <->
            exists c, c ∈ mems /\ jj.ChangeID c = x /\ default 0 (inDegree !! x) = 0).
  { intros x. unfold queue, go.SortStrings. rewrite merge_sort_Permutation.
    rewrite list_elem_of_fmap. split.
    - intros (c & -> & Hc). apply list_elem_of_filter in Hc as [Hz Hc]. eauto.
    - intros (c & Hc & <- & Hz). exists c. split; [reflexivity|].
      apply list_elem_of_filter. auto. }
  assert (Hinit : kahnInv mems queue inDegree []).
  { unfold kahnInv. cbv zeta. simpl.
    split; [|split; [|split; [|split; [|split]]]].
    + unfold queue, go.SortStrings. rewrite merge_sort_Permutation.
      eapply sublist_NoDup; [exact Hnd|]. apply fmap_sublist, sublist_filter.
    + intros x Hx. apply Hq in Hx as (c & Hc & <- & _). apply list_elem_of_fmap. eauto.
    + exact Hpend.
    + intros c Hc. rewrite Hq. split.
      * intros (c' & Hc' & Hid & Hz). rewrite Hpend in Hz by exact Hc. simpl in Hz. lia.
      * intros Hz. exists c. repeat split; [exact Hc|].
        rewrite Hpend by exact Hc. simpl. lia.
    + intros c Hc. apply elem_of_nil in Hc. contradiction.
    + intros j c Hj. discriminate. }
  destruct (kahn_run all known mems children) with
    (fuel := S (length mems + length mems)) (queue := queue) (inDegree := inDegree)
    (sorted := @nil jj.Change) (byID := (∅ : gmap string jj.Change))
    as (sorted & byID & deg' & Hrun & Hinv).
  - intros c Hc. apply list_elem_of_lookup in Hc as [a Ha].
    destruct (Forall2_lookup_r _ _ _ _ _ Hf Ha) as (i & Hi & Hai).
    exists i. split; [|exact Hai]. apply Hknown. eauto.
  - intros c p Hc. rewrite T2, Hocc0 by exact Hc. simpl.
    destruct (decide (p ∈ comp)) as [Hin|Hout];
      destruct (decide (p ∈ map jj.ChangeID mems)) as [Hin'|Hout']; try reflexivity.
    + exfalso. apply Hout', Hcomp, Hin.
    + exfalso. apply Hout, Hcomp, Hin'.
  - intros kid p Hkid.
    destruct (decide (kid ∈ map jj.ChangeID mems)) as [|Hout]; [assumption|].
    exfalso. apply occ_pos in Hkid. rewrite T3, Hocc0 in Hkid by exact Hout. lia.
  - exact Hinit.
  - simpl. lia.
  - exists mems, sorted, byID, deg'. split; [exact Hf|]. split; [exact Hinv|].
    rewrite Hrun. cbn [go.obind]. reflexivity.
Qed.

End TopoSort.

Section UnionFind.

Lemma filter_length_lt {A} (P Q : A -> Prop) `{!forall x, Decision (P x)}
    `{!forall x, Decision (Q x)} (l : list A) (z : A) :
  (forall x, P x -> Q x) -> z ∈ l -> Q z -> ~ P z ->
  (length (filter P l) < length (filter Q l))%nat.
Proof.
  intros Hpq Hz Hqz Hpz.
  assert (Hle : forall l', (length (filter P l') <= length (filter Q l'))%nat).
  { induction l' as [|x l' IH]; [reflexivity|]. rewrite !filter_cons.
    destruct (decide (P x)) as [Hp|Hp]; destruct (decide (Q x)) as [Hq|Hq]; simpl; try lia.
    exfalso. apply Hq, Hpq, Hp. }
  induction l as [|x l IH]; [apply elem_of_nil in Hz; contradiction|].
  rewrite !filter_cons. apply elem_of_cons in Hz as [<-|Hz].
  - destruct (decide (P z)); [contradiction|]. destruct (decide (Q z)); [|contradiction].
    simpl. specialize (Hle l). lia.
  - specialize (IH Hz).
    destruct (decide (P x)) as [Hp|Hp]; destruct (decide (Q x)) as [Hq|Hq]; simpl; try lia.
    exfalso. apply Hq, Hpq, Hp.
Qed.

Lemma above_lt (h : nat -> nat) (n x y : nat) :
  (y < n)%nat -> (h x < h y)%nat -> (above h n y < above h n x)%nat.
Proof.
  intros Hy Hxy. unfold above. apply (filter_length_lt _ _ _ y).
  - intros z Hz. lia.
  - apply elem_of_seq. lia.
  - exact Hxy.
  - lia.
Qed.

(** [find] returns, within the fuel of the model, a root of rank at least
    that of its argument; it keeps the forest, its length and its roots. *)
Lemma find_total (h : nat -> nat) (fuel : nat) :
  forall (parent : list nat) (x : nat),
    forest h parent -> (x < length parent)%nat ->
    (above h (length parent) x < fuel)%nat ->
    exists parent' r,
      jj.find fuel parent x = go.Ret (parent', r) /\
      forest h parent' /\ length parent' = length parent /\
      parent' !! r = Some r /\ (h x <= h r)%nat /\
      (forall y, parent !! y = Some y -> parent' !! y = Some y).
Proof.
  induction fuel as [|fuel IH]; intros parent x Hf Hx Hfuel; [lia|].
  simpl. unfold go.index.
  destruct (lookup_lt_is_Some_2 parent x Hx) as [px Hpx]. rewrite Hpx. simpl.
  destruct (Hf x px Hpx) as [Hpxn Hrank].
  destruct (decide (px ≠ x)) as [Hne|Heq].
  - specialize (Hrank Hne).
    destruct (IH parent px Hf Hpxn) as (p1 & r & Hrun & Hf1 & Hlen & Hroot & Hhr & Hkeep).
    { pose proof (above_lt h (length parent) x px Hpxn Hrank). lia. }
    rewrite Hrun. simpl. unfold go.assign.
    destruct (decide (x < length p1)%nat) as [_|Hn]; [|lia]. simpl.
    unfold go.index. rewrite list_lookup_insert_eq by lia. simpl.
    assert (Hrx : r <> x) by (intros ->; lia).
    exists (<[x := r]> p1), r. split; [reflexivity|]. split; [|split; [|split; [|split]]].
    + intros y py Hy. rewrite length_insert.
      destruct (decide (y = x)) as [->|Hyx].
      * rewrite list_lookup_insert_eq in Hy by lia. injection Hy as <-.
        split; [|intros _; lia]. apply (Hf1 r r Hroot).
      * rewrite list_lookup_insert_ne in Hy by congruence. apply (Hf1 y py Hy).
    + rewrite length_insert. exact Hlen.
    + rewrite list_lookup_insert_ne by congruence. exact Hroot.
    + lia.
    + intros y Hy. destruct (decide (y = x)) as [->|Hyx]; [congruence|].
      rewrite list_lookup_insert_ne by congruence. apply Hkeep, Hy.
  - assert (px = x) as -> by (destruct (decide (px = x)); [assumption|contradiction]).
    exists parent, x. split; [reflexivity|]. split; [exact Hf|]. split; [reflexivity|].
    split; [exact Hpx|]. split; [lia|auto].
Qed.


Lemma above_le (h : nat -> nat) (n x : nat) : (above h n x <= n)%nat.
Proof.
  unfold above. etransitivity; [apply length_filter|]. rewrite length_seq. reflexivity.
Qed.

(** [union] keeps the slice a forest of the same length. *)
Lemma union_total (parent : list nat) (a b : nat) :
  (exists h, forest h parent) -> (a < length parent)%nat -> (b < length parent)%nat ->
  exists parent',
    jj.union (S (length parent)) parent a b = go.Ret parent' /\
    length parent' = length parent /\ exists h', forest h' parent'.
Proof.
  intros [h Hf] Ha Hb. unfold jj.union.
  destruct (find_total h (S (length parent)) parent a Hf Ha)
    as (p1 & ra & Hrun1 & Hf1 & Hlen1 & Hroot1 & _ & _).
  { pose proof (above_le h (length parent) a). lia. }
  rewrite Hrun1. cbn [go.obind].
  destruct (find_total h (S (length parent)) p1 b Hf1)
    as (p2 & rb & Hrun2 & Hf2 & Hlen2 & Hroot2 & _ & Hkeep); [lia| |].
  { rewrite Hlen1. pose proof (above_le h (length parent) b). lia. }
  rewrite Hrun2. cbn [go.obind].
  destruct (decide (ra ≠ rb)) as [Hne|_]; [|exists p2; split; [reflexivity|]; split; [lia|eauto]].
  pose proof (Hkeep ra Hroot1) as Hra.
  pose proof (proj1 (Hf2 ra ra Hra)) as Hran. pose proof (proj1 (Hf2 rb rb Hroot2)) as Hrbn.
  unfold go.assign. destruct (decide (ra < length p2)%nat) as [_|Hn]; [|lia].
  exists (<[ra := rb]> p2). split; [reflexivity|]. rewrite length_insert. split; [lia|].
  exists (fun y => if decide (y = rb) then Nat.max (h rb) (S (h ra)) else h y).
  intros y py Hy. rewrite length_insert.
  destruct (decide (y = ra)) as [->|Hyra].
  - rewrite list_lookup_insert_eq in Hy by lia. injection Hy as <-.
    split; [exact Hrbn|]. intros _.
    destruct (decide (ra = rb)); [contradiction|].
    destruct (decide (rb = rb)); [lia|contradiction].
  - rewrite list_lookup_insert_ne in Hy by congruence.
    destruct (Hf2 y py Hy) as [Hpy Hrank]. split; [exact Hpy|]. intros Hpne.
    specialize (Hrank Hpne).
    destruct (decide (y = rb)) as [->|_]; [congruence|].
    destruct (decide (py = rb)) as [->|_]; lia.
Qed.

Lemma unionParents_total (known : gmap string nat) (i : nat) (pids : list string) :
  forall parent,
    (forall id j, known !! id = Some j -> (j < length parent)%nat) ->
    (exists h, forest h parent) -> (i < length parent)%nat ->
    exists parent',
      jj.unionParents (S (length parent)) known i parent pids = go.Ret parent' /\
      length parent' = length parent /\ exists h', forest h' parent'.
Proof.
  unfold jj.unionParents.
  induction pids as [|pid pids IH]; intros parent Hk Hf Hi.
  - exists parent. simpl. split; [reflexivity|]. split; [reflexivity|exact Hf].
  - cbn [jj.forEach]. destruct (known !! pid) as [j|] eqn:Hj.
    + destruct (union_total parent i j Hf Hi (Hk pid j Hj)) as (p1 & Hrun & Hlen & Hf1).
      rewrite Hrun. cbn [go.obind]. rewrite <- Hlen.
      destruct (IH p1) as (p2 & Hrun2 & Hlen2 & Hf2); [rewrite Hlen; exact Hk|exact Hf1|lia|].
      exists p2. split; [exact Hrun2|]. split; [lia|exact Hf2].
    + cbn [go.obind]. apply IH; assumption.
Qed.

Lemma unionAll_total (known : gmap string nat) (n : nat) (pairs : list (nat * jj.Change)) :
  forall parent,
    length parent = n ->
    (forall id j, known !! id = Some j -> (j < n)%nat) ->
    Forall (fun ic => (ic.1 < n)%nat) pairs ->
    (exists h, forest h parent) ->
    exists parent',
      jj.forEach (fun parent '(i, c) =>
                    jj.unionParents (S n) known i parent (jj.ParentIDs c)) pairs parent
      = go.Ret parent' /\
      length parent' = n /\ exists h', forest h' parent'.
Proof.
  induction pairs as [|[i c] pairs IH]; intros parent Hlen Hk Hin Hf.
  - exists parent. simpl. split; [reflexivity|]. split; [exact Hlen|exact Hf].
  - apply Forall_cons in Hin as [Hi Hin]. simpl in Hi. cbn [jj.forEach].
    subst n.
    destruct (unionParents_total known i (jj.ParentIDs c) parent Hk Hf Hi)
      as (p1 & Hrun & Hlen1 & Hf1).
    rewrite Hrun. cbn [go.obind].
    destruct (IH p1 Hlen1 Hk Hin Hf1) as (p2 & Hrun2 & Hlen2 & Hf2).
    exists p2. split; [exact Hrun2|]. split; [exact Hlen2|exact Hf2].
Qed.

(** The grouping loop ends, and the members of every component are
    distinct indices of the slice. *)
Lemma group_run (n m : nat) :
  forall (k : nat) (parent : list nat) (comps : gmap nat (list nat)),
    length parent = n -> (k + m <= n)%nat ->
    (exists h, forest h parent) ->
    (forall r ms, comps !! r = Some ms -> NoDup ms /\ forall i, i ∈ ms -> (i < k)%nat) ->
    exists parent' comps',
      jj.forEach (jj.groupStep (S n)) (seq k m) (parent, comps) = go.Ret (parent', comps') /\
      forall r ms, comps' !! r = Some ms ->
        NoDup ms /\ forall i, i ∈ ms -> (i < k + m)%nat.
Proof.
  induction m as [|m IH]; intros k parent comps Hlen Hkm Hf Hinv.
  - exists parent, comps. simpl. split; [reflexivity|].
    intros r ms Hr. destruct (Hinv r ms Hr) as [Hnd Hlt]. split; [exact Hnd|].
    intros i Hi. specialize (Hlt i Hi). lia.
  - cbn [seq jj.forEach]. unfold jj.groupStep at 1. destruct Hf as [h Hf].
    destruct (find_total h (S n) parent k Hf) as (p1 & root & Hrun & Hf1 & Hlen1 & _);
      [lia| |].
    { rewrite Hlen. pose proof (above_le h n k). lia. }
    rewrite Hrun. cbn [go.obind].
    destruct (IH (S k) p1 (<[root := default [] (comps !! root) ++ [k]]> comps))
      as (p2 & comps' & Hrun2 & Hfin); [lia|lia|eauto| |].
    + intros r' ms' Hr'. destruct (decide (r' = root)) as [->|Hne].
      * rewrite lookup_insert_eq in Hr'. injection Hr' as <-.
        assert (Hold : NoDup (default [] (comps !! root)) /\
                       forall i, i ∈ default [] (comps !! root) -> (i < k)%nat).
        { destruct (comps !! root) as [old|] eqn:E; simpl; [apply (Hinv root old E)|].
          split; [constructor|]. intros i Hi. apply elem_of_nil in Hi. contradiction. }
        destruct Hold as [Hnd Hlt]. split.
        -- apply NoDup_app. split; [exact Hnd|]. split; [|apply NoDup_singleton].
           intros i Hi Hi'. apply list_elem_of_singleton in Hi' as ->.
           specialize (Hlt k Hi). lia.
        -- intros i Hi. apply elem_of_app in Hi as [Hi|Hi]; [specialize (Hlt i Hi); lia|].
           apply list_elem_of_singleton in Hi. lia.
      * rewrite lookup_insert_ne in Hr' by congruence.
        destruct (Hinv r' ms' Hr') as [Hnd Hlt]. split; [exact Hnd|].
        intros i Hi. specialize (Hlt i Hi). lia.
    + exists p2, comps'. split; [exact Hrun2|].
      intros r ms Hr. destruct (Hfin r ms Hr) as [Hnd Hlt]. split; [exact Hnd|].
      intros i Hi. specialize (Hlt i Hi). lia.
Qed.

End UnionFind.

(** The union-find: roots and joined nodes. *)
Section Components.

Lemma rootOf_root (parent : list nat) (x r : nat) :
  rootOf parent x r -> parent !! r = Some r.
Proof. induction 1; assumption. Qed.

Lemma rootOf_fun (parent : list nat) (x r r' : nat) :
  rootOf parent x r -> rootOf parent x r' -> r = r'.
Proof.
  intros H. revert r'. induction H as [x Hx|x y r Hx Hne _ IH]; intros r' H'.
  - inversion H' as [? Hx'|? y' ? Hx' Hne' _]; subst; [reflexivity|congruence].
  - inversion H' as [? Hx'|? y' ? Hx' Hne' Hy']; subst; [congruence|].
    apply IH. congruence.
Qed.

(** Path compression keeps the root of every node. *)
Lemma compress_rootOf (parent : list nat) (x r : nat) :
  (x < length parent)%nat -> rootOf parent x r -> r <> x ->
  forall y r', rootOf parent y r' <-> rootOf (<[x := r]> parent) y r'.
Proof.
  intros Hx Hxr Hne y r'. pose proof (rootOf_root _ _ _ Hxr) as Hroot. split.
  - induction 1 as [y Hy|y z r' Hy Hzy Hz IH].
    + apply rootOf_here. rewrite list_lookup_insert_ne; [exact Hy|].
      intros ->. apply Hne. eapply rootOf_fun; [exact Hxr|]. apply rootOf_here, Hy.
    + destruct (decide (y = x)) as [->|Hyx].
      * assert (r' = r) as ->.
        { eapply rootOf_fun; [|exact Hxr]. eapply rootOf_step; eassumption. }
        eapply rootOf_step; [apply list_lookup_insert_eq, Hx|exact Hne|].
        apply rootOf_here. rewrite list_lookup_insert_ne by congruence. exact Hroot.
      * eapply rootOf_step; [|exact Hzy|exact IH].
        rewrite list_lookup_insert_ne by congruence. exact Hy.
  - induction 1 as [y Hy|y z r' Hy Hzy Hz IH].
    + destruct (decide (y = x)) as [->|Hyx].
      * rewrite list_lookup_insert_eq in Hy by exact Hx. congruence.
      * rewrite list_lookup_insert_ne in Hy by congruence. apply rootOf_here, Hy.
    + destruct (decide (y = x)) as [->|Hyx].
      * rewrite list_lookup_insert_eq in Hy by exact Hx. injection Hy as <-.
        assert (r' = r) as ->.
        { eapply rootOf_fun; [exact IH|apply rootOf_here, Hroot]. }
        exact Hxr.
      * rewrite list_lookup_insert_ne in Hy by congruence.
        eapply rootOf_step; eassumption.
Qed.

(** Linking the root [ra] below the root [rb] moves the nodes of the tree
    of [ra] to [rb] and keeps the root of every other node. *)
Lemma link_rootOf (parent : list nat) (ra rb : nat) :
  parent !! ra = Some ra -> parent !! rb = Some rb -> ra <> rb ->
  forall y r, rootOf parent y r ->
              rootOf (<[ra := rb]> parent) y (if decide (r = ra) then rb else r).
Proof.
  intros Hra Hrb Hne y r. pose proof (lookup_lt_Some _ _ _ Hra) as Hlt.
  induction 1 as [y Hy|y z r Hy Hzy Hz IH].
  - destruct (decide (y = ra)) as [->|Hyra].
    + eapply rootOf_step; [apply list_lookup_insert_eq, Hlt|congruence|].
      apply rootOf_here. rewrite list_lookup_insert_ne by congruence. exact Hrb.
    + apply rootOf_here. rewrite list_lookup_insert_ne by congruence. exact Hy.
  - eapply rootOf_step; [|exact Hzy|exact IH].
    rewrite list_lookup_insert_ne; [exact Hy|]. intros ->. congruence.
Qed.

(** What [find] returns is the root of its argument, and the compressed
    slice has the roots of the old one. *)
Lemma find_rootOf (fuel : nat) :
  forall (parent : list nat) (x : nat) (parent' : list nat) (r : nat),
    jj.find fuel parent x = go.Ret (parent', r) ->
    rootOf parent x r /\
    forall y r', rootOf parent y r' <-> rootOf parent' y r'.
Proof.
  induction fuel as [|fuel IH]; intros parent x parent' r Hrun; [discriminate|].
  simpl in Hrun. unfold go.index in Hrun.
  destruct (parent !! x) as [px|] eqn:Hpx; [|discriminate]. simpl in Hrun.
  destruct (decide (px ≠ x)) as [Hne|Heq].
  - destruct (jj.find fuel parent px) as [[p1 r1]| | |] eqn:Hrec; try discriminate.
    simpl in Hrun. unfold go.assign in Hrun.
    destruct (decide (x < length p1)%nat) as [Hlt|]; [|discriminate]. simpl in Hrun.
    unfold go.index in Hrun. rewrite list_lookup_insert_eq in Hrun by exact Hlt.
    simpl in Hrun. injection Hrun as <- <-.
    destruct (IH parent px p1 r1 Hrec) as [Hroot Hsame].
    assert (Hx : rootOf parent x r1) by (eapply rootOf_step; eassumption).
    split; [exact Hx|]. intros y r'. rewrite Hsame.
    apply compress_rootOf; [exact Hlt|apply Hsame, Hx|].
    intros ->. pose proof (rootOf_root _ _ _ Hroot). congruence.
  - assert (px = x) as -> by (destruct (decide (px = x)); [assumption|contradiction]).
    injection Hrun as <- <-. split; [apply rootOf_here, Hpx|tauto].
Qed.

(** [union] joins its arguments and separates no two nodes. *)
Lemma union_joined (fuel : nat) (parent : list nat) (a b : nat) (parent' : list nat) :
  jj.union fuel parent a b = go.Ret parent' ->
  joined parent' a b /\ forall x y, joined parent x y -> joined parent' x y.
Proof.
  unfold jj.union. intros Hrun.
  destruct (jj.find fuel parent a) as [[p1 ra]| | |] eqn:Ha; try discriminate.
  simpl in Hrun.
  destruct (jj.find fuel p1 b) as [[p2 rb]| | |] eqn:Hb; try discriminate.
  simpl in Hrun.
  destruct (find_rootOf _ _ _ _ _ Ha) as [Hra Hs1].
  destruct (find_rootOf _ _ _ _ _ Hb) as [Hrb Hs2].
  assert (Ha2 : rootOf p2 a ra) by (apply Hs2, Hs1, Hra).
  assert (Hb2 : rootOf p2 b rb) by (apply Hs2, Hrb).
  destruct (decide (ra ≠ rb)) as [Hne|Heq].
  - unfold go.assign in Hrun. destruct (decide _) as [Hlt|]; [|discriminate].
    injection Hrun as <-.
    pose proof (link_rootOf p2 ra rb (rootOf_root _ _ _ Ha2) (rootOf_root _ _ _ Hb2) Hne)
      as Hlink.
    split.
    + exists rb. split.
      * specialize (Hlink a ra Ha2). destruct (decide (ra = ra)); [exact Hlink|contradiction].
      * specialize (Hlink b rb Hb2). destruct (decide (rb = ra)); [congruence|exact Hlink].
    + intros x y (r & Hx & Hy). eexists. split; apply Hlink, Hs2, Hs1; eassumption.
  - assert (ra = rb) as -> by (destruct (decide (ra = rb)); [assumption|contradiction]).
    injection Hrun as <-. split; [exists rb; auto|].
    intros x y (r & Hx & Hy). exists r. split; apply Hs2, Hs1; assumption.
Qed.

Lemma unionParents_joined (fuel : nat) (known : gmap string nat) (i : nat)
    (pids : list string) :
  forall parent parent',
    jj.unionParents fuel known i parent pids = go.Ret parent' ->
    (forall x y, joined parent x y -> joined parent' x y) /\
    (forall pid j, pid ∈ pids -> known !! pid = Some j -> joined parent' i j).
Proof.
  unfold jj.unionParents.
  induction pids as [|pid pids IH]; intros parent parent' Hrun.
  - injection Hrun as <-. split; [auto|]. intros pid j Hin. apply elem_of_nil in Hin.
    contradiction.
  - cbn [jj.forEach] in Hrun.
    destruct (known !! pid) as [j|] eqn:Hj.
    + destruct (jj.union fuel parent i j) as [p1| | |] eqn:Hu; try discriminate.
      cbn [go.obind] in Hrun.
      destruct (union_joined _ _ _ _ _ Hu) as [Hij Hkeep].
      destruct (IH p1 parent' Hrun) as [Hkeep' Hall].
      split; [auto|]. intros pid' j' Hin Hj'.
      apply elem_of_cons in Hin as [->|Hin]; [|eauto].
      apply Hkeep'. congruence.
    + cbn [go.obind] in Hrun. destruct (IH parent parent' Hrun) as [Hkeep' Hall].
      split; [auto|]. intros pid' j' Hin Hj'.
      apply elem_of_cons in Hin as [->|Hin]; [congruence|eauto].
Qed.

(** After the loop of unions, every change is joined with each of its
    parents within the list. *)
Lemma unionAll_joined (fuel : nat) (known : gmap string nat)
    (pairs : list (nat * jj.Change)) :
  forall parent parent',
    jj.forEach (fun parent '(i, c) =>
                  jj.unionParents fuel known i parent (jj.ParentIDs c)) pairs parent
    = go.Ret parent' ->
    (forall x y, joined parent x y -> joined parent' x y) /\
    (forall i c pid j, (i, c) ∈ pairs -> pid ∈ jj.ParentIDs c -> known !! pid = Some j ->
                       joined parent' i j).
Proof.
  induction pairs as [|[i c] pairs IH]; intros parent parent' Hrun.
  - injection Hrun as <-. split; [auto|]. intros i c pid j Hin. apply elem_of_nil in Hin.
    contradiction.
  - cbn [jj.forEach] in Hrun.
    destruct (jj.unionParents fuel known i parent (jj.ParentIDs c)) as [p1| | |] eqn:Hu;
      try discriminate.
    cbn [go.obind] in Hrun.
    destruct (unionParents_joined _ _ _ _ _ _ Hu) as [Hkeep Hall].
    destruct (IH p1 parent' Hrun) as [Hkeep' Hall'].
    split; [auto|]. intros i' c' pid j Hin Hpid Hj.
    apply elem_of_cons in Hin as [[= -> ->]|Hin]; [|eauto].
    apply Hkeep'. eauto.
Qed.

(** The grouping loop files each index under its root. *)
Lemma group_rootOf (fuel m : nat) :
  forall (k : nat) (parent : list nat) (comps : gmap nat (list nat)) parent' comps',
    jj.forEach (jj.groupStep fuel) (seq k m) (parent, comps) = go.Ret (parent', comps') ->
    forall r i, i ∈ default [] (comps' !! r) <->
                i ∈ default [] (comps !! r) \/ ((k <= i < k + m)%nat /\ rootOf parent i r).
Proof.
  induction m as [|m IH]; intros k parent comps parent' comps' Hrun r i.
  - injection Hrun as <- <-. split; [auto|]. intros [H|[H _]]; [exact H|lia].
  - cbn [seq jj.forEach] in Hrun. unfold jj.groupStep at 1 in Hrun.
    destruct (jj.find fuel parent k) as [[p1 root]| | |] eqn:Hf; try discriminate.
    cbn [go.obind] in Hrun.
    destruct (find_rootOf _ _ _ _ _ Hf) as [Hroot Hsame].
    rewrite (IH _ _ _ _ _ Hrun r i). rewrite <- Hsame.
    destruct (decide (r = root)) as [->|Hne].
    + rewrite lookup_insert_eq. simpl. rewrite elem_of_app, list_elem_of_singleton.
      split.
      * intros [[H| ->]|[H1 H2]]; [auto| |]; right; (split; [lia|assumption]).
      * intros [H|[H1 H2]]; [auto|].
        destruct (decide (i = k)) as [->|Hik]; [auto|]. right. split; [lia|exact H2].
    + rewrite lookup_insert_ne by congruence. split.
      * intros [H|[H1 H2]]; [auto|]. right. split; [lia|exact H2].
      * intros [H|[H1 H2]]; [auto|].
        destruct (decide (i = k)) as [->|Hik].
        -- exfalso. apply Hne. eapply rootOf_fun; eassumption.
        -- right. split; [lia|exact H2].
Qed.

End Components.

Section Build.

Lemma indexKnown_spec (rest : list jj.Change) :
  forall (pre : list jj.Change) (known0 known : gmap string nat),
    jj.indexKnown rest (length pre) known0 = go.Ret known ->
    NoDup (map jj.ChangeID pre) ->
    (forall id j, known0 !! id = Some j <-> exists c, pre !! j = Some c /\ jj.ChangeID c = id) ->
    NoDup (map jj.ChangeID (pre ++ rest)) /\
    (forall id j, known !! id = Some j <->
                  exists c, (pre ++ rest) !! j = Some c /\ jj.ChangeID c = id).
Proof.
  induction rest as [|c rest IH]; intros pre known0 known Hrun Hnd Hspec.
  - simpl in Hrun. injection Hrun as <-. rewrite app_nil_r. auto.
  - simpl in Hrun. destruct (known0 !! jj.ChangeID c) as [j|] eqn:Hc; [discriminate|].
    assert (Hfresh : jj.ChangeID c ∉ map jj.ChangeID pre).
    { intros Hin. apply list_elem_of_fmap in Hin as (c' & Hid & Hc').
      apply list_elem_of_lookup in Hc' as [j Hj].
      assert (known0 !! jj.ChangeID c = Some j) by (apply Hspec; eauto). congruence. }
    replace (S (length pre)) with (length (pre ++ [c])) in Hrun
      by (rewrite length_app; simpl; lia).
    replace (pre ++ c :: rest) with ((pre ++ [c]) ++ rest) by (rewrite <- app_assoc; reflexivity).
    apply (IH (pre ++ [c]) _ _ Hrun).
    + rewrite map_app. apply NoDup_app. split; [exact Hnd|]. split.
      * intros x Hx Hx'. simpl in Hx'. apply list_elem_of_singleton in Hx' as ->. contradiction.
      * simpl. apply NoDup_singleton.
    + intros id j. destruct (decide (id = jj.ChangeID c)) as [->|Hne].
      * rewrite lookup_insert_eq. split.
        -- intros [= <-]. exists c. split; [|reflexivity].
           rewrite lookup_app_r, Nat.sub_diag by lia. reflexivity.
        -- intros (c' & Hj & Hid). f_equal.
           apply lookup_app_Some in Hj as [Hj|[Hge Hj]].
           ++ exfalso. apply Hfresh. rewrite <- Hid. apply list_elem_of_fmap.
              exists c'. split; [reflexivity|eapply list_elem_of_lookup_2, Hj].
           ++ destruct (j - length pre)%nat eqn:E; simpl in Hj; [lia|discriminate].
      * rewrite lookup_insert_ne by congruence. rewrite Hspec. split.
        -- intros (c' & Hj & Hid). exists c'. split; [apply lookup_app_l_Some, Hj|exact Hid].
        -- intros (c' & Hj & Hid). exists c'. split; [|exact Hid].
           apply lookup_app_Some in Hj as [Hj|[Hge Hj]]; [exact Hj|].
           destruct (j - length pre)%nat; simpl in Hj; [|discriminate].
           injection Hj as ->. congruence.
Qed.

Lemma indexKnown_total (rest : list jj.Change) :
  forall i known0,
    (exists known, jj.indexKnown rest i known0 = go.Ret known) \/
    (exists e, jj.indexKnown rest i known0 = go.Raise e).
Proof.
  induction rest as [|c rest IH]; intros i known0; simpl; [eauto|].
  destruct (known0 !! jj.ChangeID c); [eauto|apply IH].
Qed.

(** The loop over the roots: every DAG in the result is the topological
    sort of a component, and the loop ends when each sort does. *)
Lemma sortEach_run (changes : list jj.Change) (known : gmap string nat)
    (comps : gmap nat (list nat)) (roots : list nat) :
  (forall r, (exists dag, jj.topoSort changes (default [] (comps !! r)) known = go.Ret dag) \/
             (exists e, jj.topoSort changes (default [] (comps !! r)) known = go.Raise e)) ->
  forall acc,
    (exists e, jj.forEach (fun dags r =>
                  let? dag := jj.topoSort changes (default [] (comps !! r)) known in
                  go.Ret (dags ++ [dag])) roots acc = go.Raise e) \/
    (exists dags, jj.forEach (fun dags r =>
                  let? dag := jj.topoSort changes (default [] (comps !! r)) known in
                  go.Ret (dags ++ [dag])) roots acc = go.Ret (acc ++ dags) /\
       Forall2 (fun r dag => jj.topoSort changes (default [] (comps !! r)) known = go.Ret dag)
               roots dags).
Proof.
  intros Hsort. induction roots as [|r roots IH]; intros acc.
  - right. exists []. simpl. rewrite app_nil_r. split; [reflexivity|constructor].
  - cbn [jj.forEach]. destruct (Hsort r) as [[dag Hd]|[e He]].
    + rewrite Hd. cbn [go.obind].
      destruct (IH (acc ++ [dag])) as [[e He]|(dags & Hrun & Hall)]; [left; eauto|].
      right. exists (dag :: dags). rewrite Hrun, <- app_assoc. split; [reflexivity|].
      constructor; assumption.
    + rewrite He. cbn [go.obind]. left. eauto.
Qed.

(** [BuildDAGs] on a non-empty list of changes: the duplicate error, the
    cycle error, or one topologically sorted DAG per root of the union-find,
    whose members are indices with that root; a change is joined with each
    of its parents within the list. *)
Lemma BuildDAGs_run (changes : list jj.Change) :
  changes <> [] ->
  (exists e, jj.BuildDAGs changes = go.Raise e) \/
  (exists (known : gmap string nat) (parent roots : list nat) (dags : list jj.ChangeDAG),
     NoDup (map jj.ChangeID changes) /\
     (forall id j, known !! id = Some j <->
                   exists c, changes !! j = Some c /\ jj.ChangeID c = id) /\
     jj.BuildDAGs changes = go.Ret dags /\
     NoDup roots /\
     (forall i c pid j, changes !! i = Some c -> pid ∈ jj.ParentIDs c ->
                        known !! pid = Some j -> joined parent i j) /\
     Forall2 (fun r dag =>
                exists ms,
                  NoDup ms /\ Forall (fun i => (i < length changes)%nat) ms /\
                  (forall i, i ∈ ms -> rootOf parent i r) /\
                  jj.topoSort changes ms known = go.Ret dag)
             roots dags).
Proof.
  intros Hne. unfold jj.BuildDAGs.
  destruct changes as [|c0 changes']; [contradiction|].
  set (changes := c0 :: changes') in *. cbv zeta.
  destruct (indexKnown_total changes 0 ∅) as [[known Hknown]|[e He]];
    [|rewrite He; left; eauto].
  rewrite Hknown. cbn [go.obind].
  destruct (indexKnown_spec changes [] ∅ known Hknown) as [Hnd Hspec].
  { constructor. }
  { intros id j. rewrite lookup_empty. split; [discriminate|].
    intros (c & Hc & _). discriminate. }
  simpl app in Hnd, Hspec.
  assert (Hk : forall id j, known !! id = Some j -> (j < length changes)%nat).
  { intros id j Hj. apply Hspec in Hj as (c & Hc & _). eapply lookup_lt_Some, Hc. }
  destruct (unionAll_total known (length changes) (imap (fun i c => (i, c)) changes)
              (seq 0 (length changes)))
    as (parent & Hrun & Hlen & Hf).
  { apply length_seq. }
  { exact Hk. }
  { apply Forall_forall. intros [i c] Hic. apply list_elem_of_lookup in Hic as [j Hj].
    rewrite list_lookup_imap in Hj. destruct (changes !! j) eqn:E; [|discriminate].
    injection Hj as <- <-. exact (lookup_lt_Some _ _ _ E). }
  { exists (fun _ => 0%nat). intros x px Hx. rewrite length_seq.
    apply lookup_seq in Hx as [-> Hlt]. simpl. split; [exact Hlt|congruence]. }
  rewrite Hrun. cbn [go.obind].
  destruct (unionAll_joined _ _ _ _ _ Hrun) as [_ Hjoin].
  destruct (group_run (length changes) (length changes) 0 parent ∅ Hlen ltac:(lia) Hf)
    as (parent' & comps & Hgroup & Hcomps).
  { intros r ms Hr. rewrite lookup_empty in Hr. discriminate. }
  rewrite Hgroup. cbn [go.obind].
  pose proof (group_rootOf _ _ _ _ _ _ _ Hgroup) as Hroots.
  assert (Hms : forall r, NoDup (default [] (comps !! r)) /\
                          Forall (fun i => (i < length changes)%nat) (default [] (comps !! r)) /\
                          forall i, i ∈ default [] (comps !! r) -> rootOf parent i r).
  { intros r. split; [|split].
    - destruct (comps !! r) as [ms|] eqn:Hr; cbn [default]; [|constructor].
      apply (Hcomps r ms Hr).
    - destruct (comps !! r) as [ms|] eqn:Hr; cbn [default]; [|constructor].
      destruct (Hcomps r ms Hr) as [Hn Hlt].
      apply Forall_forall. intros i Hi. specialize (Hlt i Hi). lia.
    - intros i Hi. apply Hroots in Hi as [Hi|[_ Hi]]; [|exact Hi].
      rewrite lookup_empty in Hi. apply elem_of_nil in Hi. contradiction. }
  destruct (sortEach_run changes known comps
              (go.SortInts (map fst (map_to_list comps)))) with (acc := @nil jj.ChangeDAG)
    as [[e He]|(dags & Hsort & Hall)].
  { intros r. destruct (Hms r) as (Hn & Hr & _).
    destruct (topoSort_run changes known Hnd Hspec _ Hn Hr)
      as (mems & sorted & byID & deg & _ & _ & ->).
    destruct (decide _); eauto. }
  { left. eauto. }
  right. exists known, parent, (go.SortInts (map fst (map_to_list comps))), dags.
  split; [exact Hnd|]. split; [exact Hspec|]. split; [exact Hsort|].
  split; [|split].
  - unfold go.SortInts. rewrite merge_sort_Permutation. apply NoDup_fst_map_to_list.
  - intros i c pid j Hi. apply Hjoin. apply list_elem_of_lookup. exists i.
    rewrite list_lookup_imap, Hi. reflexivity.
  - eapply Forall2_impl; [exact Hall|].
    intros r dag Hd. exists (default [] (comps !! r)).
    destruct (Hms r) as (Hn & Hr & Hroot). auto.
Qed.

End Build.

(** [BuildDAGs] is total: it returns its DAGs or one of its two errors; the
    model neither panics nor runs out of fuel. *)
Lemma BuildDAGs_total (changes : list jj.Change) :
  (exists dags, jj.BuildDAGs changes = go.Ret dags) \/
  (exists e, jj.BuildDAGs changes = go.Raise e).
Proof.
  destruct changes as [|c changes]; [left; exists []; reflexivity|].
  destruct (BuildDAGs_run (c :: changes)) as [He|(known & parent & roots & dags & _ & _ & Hrun & _)];
    [discriminate|right; exact He|left; eauto].
Qed.

(** C7.  For every list of changes that [BuildDAGs] accepts and every DAG
    it returns, a parent that is a member of the DAG stands before each of
    its children in the DAG's list of changes: for every edge parent ->
    child with both ends in the DAG, index(parent) < index(child). *)
Theorem BuildDAGs_topological (changes : list jj.Change) (dags : list jj.ChangeDAG) :
  jj.BuildDAGs changes = go.Ret dags ->
  forall dag, dag ∈ dags -> topoOrdered (jj.Changes dag).
Proof.
  intros Hrun dag Hdag.
  destruct changes as [|c0 changes'].
  { injection Hrun as <-. apply elem_of_nil in Hdag. contradiction. }
  destruct (BuildDAGs_run (c0 :: changes'))
    as [[e He]|(known & parent & roots & dags' & Hnd & Hspec & Hrun' & _ & _ & Hall)];
    [discriminate|congruence|].
  rewrite Hrun in Hrun'. injection Hrun' as <-.
  apply list_elem_of_lookup in Hdag as [k Hk].
  destruct (Forall2_lookup_r _ _ _ _ _ Hall Hk) as (r & _ & ms & Hn & Hr & _ & Hsort).
  destruct (topoSort_run (c0 :: changes') known Hnd Hspec ms Hn Hr)
    as (mems & sorted & byID & deg & _ & Hinv & Heq).
  rewrite Heq in Hsort. destruct (decide _); [discriminate|].
  injection Hsort as <-. simpl. eapply kahnInv_ordered, Hinv.
Qed.

Lemma BuildDAGs_topological_witness :
  exists dag, jj.BuildDAGs diamondChanges = go.Ret [dag] /\
              map jj.ChangeID (jj.Changes dag) = ["a"; "b"; "c"; "d"] /\
              topoOrdered (jj.Changes dag).
Proof.
  assert (Hrun : exists dag, jj.BuildDAGs diamondChanges = go.Ret [dag] /\
                   map jj.ChangeID (jj.Changes dag) = ["a"; "b"; "c"; "d"]).
  { vm_compute. eexists. split; reflexivity. }
  destruct Hrun as (dag & Hrun & Hids). exists dag.
  split; [exact Hrun|]. split; [exact Hids|].
  apply (BuildDAGs_topological diamondChanges [dag] Hrun dag). left.
Defined.

(** ** ChangeGraph: the DAGs side by side *)

Section Partition.

Lemma topoOrdered_app (l1 l2 : list jj.Change) :
  topoOrdered l1 -> topoOrdered l2 ->
  (forall p c, p ∈ l2 -> c ∈ l1 -> jj.ChangeID p ∉ jj.ParentIDs c) ->
  topoOrdered (l1 ++ l2).
Proof.
  intros H1 H2 Hback i j p c Hi Hj Hin.
  apply lookup_app_Some in Hi as [Hi|[Hgi Hi]];
    apply lookup_app_Some in Hj as [Hj|[Hgj Hj]].
  - eapply H1; eassumption.
  - pose proof (lookup_lt_Some _ _ _ Hi). lia.
  - exfalso. eapply Hback; [eapply list_elem_of_lookup_2, Hi|eapply list_elem_of_lookup_2, Hj|].
    exact Hin.
  - pose proof (H2 _ _ _ _ Hi Hj Hin). lia.
Qed.

(** Lists in topological order, of distinct changes, that lie in distinct
    classes with no parent across classes, make one such list. *)
Lemma concat_ordered {R : Type} (tag : R -> jj.Change -> Prop)
    (roots : list R) (lists : list (list jj.Change)) :
  (forall r r' c c', tag r c -> tag r' c' ->
     jj.ChangeID c = jj.ChangeID c' \/ jj.ChangeID c ∈ jj.ParentIDs c' -> r = r') ->
  Forall2 (fun r l => NoDup (map jj.ChangeID l) /\ topoOrdered l /\
                      forall c, c ∈ l -> tag r c) roots lists ->
  NoDup roots ->
  NoDup (map jj.ChangeID (concat lists)) /\ topoOrdered (concat lists) /\
  forall c, c ∈ concat lists -> exists r, r ∈ roots /\ tag r c.
Proof.
  intros Hsep. induction 1 as [|r l roots lists (Hnd & Hto & Htag) _ IH]; intros Hroots.
  - simpl. split; [constructor|]. split.
    + intros i j p c Hi. discriminate.
    + intros c Hc. apply elem_of_nil in Hc. contradiction.
  - apply NoDup_cons in Hroots as [Hr Hroots].
    destruct (IH Hroots) as (Hnd' & Hto' & Htag'). simpl.
    split; [|split].
    + rewrite map_app. apply NoDup_app. split; [exact Hnd|]. split; [|exact Hnd'].
      intros x Hx Hx'. apply list_elem_of_fmap in Hx as (c & -> & Hc).
      apply list_elem_of_fmap in Hx' as (c' & Hid & Hc').
      destruct (Htag' c' Hc') as (r' & Hr' & Ht').
      apply Hr. rewrite (Hsep r r' c c' (Htag c Hc) Ht'); auto.
    + apply topoOrdered_app; [exact Hto|exact Hto'|].
      intros p c Hp Hc Hin. destruct (Htag' p Hp) as (r' & Hr' & Ht').
      apply Hr. rewrite <- (Hsep r' r p c Ht' (Htag c Hc)); auto.
    + intros c Hc. apply elem_of_app in Hc as [Hc|Hc].
      * exists r. split; [left|auto].
      * destruct (Htag' c Hc) as (r' & Hr' & Ht'). exists r'. split; [right; exact Hr'|exact Ht'].
Qed.

(** The DAGs of [BuildDAGs], one after the other, list distinct changes of
    the input in topological order: no parent edge runs between two DAGs. *)
Lemma BuildDAGs_concat (changes : list jj.Change) (dags : list jj.ChangeDAG) :
  jj.BuildDAGs changes = go.Ret dags ->
  NoDup (map jj.ChangeID (concat (map jj.Changes dags))) /\
  topoOrdered (concat (map jj.Changes dags)) /\
  forall c, c ∈ concat (map jj.Changes dags) -> c ∈ changes.
Proof.
  intros Hrun. destruct changes as [|c0 changes'].
  { injection Hrun as <-. simpl. split; [constructor|]. split.
    - intros i j p c Hi. discriminate.
    - intros c Hc. apply elem_of_nil in Hc. contradiction. }
  destruct (BuildDAGs_run (c0 :: changes'))
    as [[e He]|(known & parent & roots & dags' & Hnd & Hspec & Hrun' & Hroots & Hjoin & Hall)];
    [discriminate|congruence|].
  rewrite Hrun in Hrun'. injection Hrun' as <-.
  set (changes := c0 :: changes') in *.
  set (tag := fun (r : nat) (c : jj.Change) =>
                exists i, changes !! i = Some c /\ rootOf parent i r).
  destruct (concat_ordered tag roots (map jj.Changes dags)) as (H1 & H2 & H3).
  - intros r r' c c' (i & Hi & Hr) (i' & Hi' & Hr') [Hid|Hpar].
    + assert (i = i') as ->; [|eapply rootOf_fun; eassumption].
      eapply (NoDup_lookup _ i i' (jj.ChangeID c) Hnd); rewrite list_lookup_fmap.
      * rewrite Hi. reflexivity.
      * rewrite Hi', Hid. reflexivity.
    + assert (Hk : known !! jj.ChangeID c = Some i) by (apply Hspec; eauto).
      destruct (Hjoin i' c' (jj.ChangeID c) i Hi' Hpar Hk) as (r0 & Hr0' & Hr0).
      rewrite (rootOf_fun _ _ _ _ Hr Hr0), (rootOf_fun _ _ _ _ Hr' Hr0'). reflexivity.
  - apply Forall2_fmap_r. eapply Forall2_impl; [exact Hall|].
    intros r dag (ms & Hn & Hrange & Hroot & Hsort).
    destruct (topoSort_run changes known Hnd Hspec ms Hn Hrange)
      as (mems & sorted & byID & deg & Hmems & Hinv & Heq).
    rewrite Heq in Hsort. destruct (decide _); [discriminate|].
    injection Hsort as <-. simpl.
    split; [|split].
    + destruct Hinv as (I1 & _). rewrite app_nil_r in I1. exact I1.
    + eapply kahnInv_ordered, Hinv.
    + intros c Hc. destruct Hinv as (_ & _ & _ & _ & I4 & _).
      apply I4, list_elem_of_lookup in Hc as [a Ha].
      destruct (Forall2_lookup_r _ _ _ _ _ Hmems Ha) as (i & Hi & Hai).
      exists i. split; [exact Hai|]. apply Hroot. eapply list_elem_of_lookup_2, Hi.
  - exact Hroots.
  - split; [exact H1|]. split; [exact H2|].
    intros c Hc. destruct (H3 c Hc) as (r & _ & i & Hi & _).
    eapply list_elem_of_lookup_2, Hi.
Qed.

End Partition.

(** ** SendPipeline: the lists of states *)

Section States.
Context `{go.Unicode} {W : Type}.
Variable runner : jj.Runner W.
Variable client : github.Service W.
Variable opts : cmd.sendOpts.

Lemma topoOrdered_cons (x : jj.Change) (l : list jj.Change) :
  topoOrdered (x :: l) <->
  (forall p, p ∈ x :: l -> jj.ChangeID p ∉ jj.ParentIDs x) /\ topoOrdered l.
Proof.
  split.
  - intros Hto. split.
    + intros p Hp Hin. apply list_elem_of_lookup in Hp as [i Hi].
      pose proof (Hto i 0%nat p x Hi eq_refl Hin). lia.
    + intros i j p c Hi Hj Hin.
      pose proof (Hto (S i) (S j) p c Hi Hj Hin). lia.
  - intros [Hx Hto] i j p c Hi Hj Hin.
    destruct j as [|j].
    + injection Hj as <-. exfalso. eapply Hx; [eapply list_elem_of_lookup_2, Hi|exact Hin].
    + destruct i as [|i]; [lia|]. pose proof (Hto i j p c Hi Hj Hin). lia.
Qed.

(** Leaving changes out keeps a list in topological order. *)
Lemma topoOrdered_sublist (l1 l2 : list jj.Change) :
  l1 `sublist_of` l2 -> topoOrdered l2 -> topoOrdered l1.
Proof.
  induction 1 as [|x l1 l2 Hsub IH|x l1 l2 Hsub IH]; intros Hto.
  - exact Hto.
  - apply topoOrdered_cons in Hto as [Hx Hto]. apply topoOrdered_cons.
    split; [|exact (IH Hto)].
    intros p Hp. apply Hx. apply elem_of_cons in Hp as [->|Hp]; [left|right].
    eapply elem_of_sublist; eassumption.
  - apply topoOrdered_cons in Hto as [_ Hto]. exact (IH Hto).
Qed.

(** With [--no-stack] the changes left are changes of the DAGs, in their
    order. *)
Lemma reduceToTips_sublist (dags : list jj.ChangeDAG) (st st' : go.state W cmd.event)
    (dags' : list jj.ChangeDAG) :
  cmd.reduceToTips dags st = (st', go.Ret dags') ->
  concat (map jj.Changes dags') `sublist_of` concat (map jj.Changes dags).
Proof.
  unfold cmd.reduceToTips.
  match goal with |- go.forM ?body dags [] st = _ -> _ =>
    assert (G : forall acc st,
              go.forM body dags acc st = (st', go.Ret dags') ->
              exists tips, concat (map jj.Changes dags') = concat (map jj.Changes acc) ++ tips /\
                           tips `sublist_of` concat (map jj.Changes dags)) end.
  { clear st. induction dags as [|dag dags IH]; intros acc st Hrun.
    - injection Hrun as _ <-. exists []. rewrite app_nil_r. split; [reflexivity|constructor].
    - cbn [go.forM] in Hrun. unfold go.bind in Hrun at 1.
      pose proof (sublist_filter (fun c => jj.ChangeID c ∉
                    foldl (fun h c =>
                             foldl (fun h pid => if bool_decide (is_Some (jj.ByID dag !! pid))
                                                 then h ∪ {[pid]} else h)
                                   h (jj.ParentIDs c))
                          (∅ : gset string) (jj.Changes dag)) (jj.Changes dag)) as Hleaf.
      fold (jj.LeafChanges dag) in Hleaf.
      destruct (jj.LeafChanges dag) as [|tip [|]]; try discriminate.
      cbn in Hrun. destruct (IH _ _ Hrun) as (tips & Heq & Hsub).
      exists (tip :: tips). split.
      + rewrite Heq, map_app, concat_app. simpl. rewrite <- app_assoc. reflexivity.
      + simpl. apply (sublist_app [tip]); assumption. }
  intros Hrun. destruct (G [] st Hrun) as (tips & -> & Hsub). exact Hsub.
Qed.

(** The loop over the DAGs appends one state per change, in order. *)
Lemma processDAG_states (bookmarks : list jj.BookmarkInfo)
    (prMap : gmap string github.PRInfo) (dags : list jj.ChangeDAG) :
  forall (acc : list cmd.changeState) (st st' : go.state W cmd.event)
         (allStates : list cmd.changeState),
    go.forM (cmd.processDAG runner opts bookmarks prMap) dags acc st
    = (st', go.Ret allStates) ->
    map cmd.change allStates = map cmd.change acc ++ concat (map jj.Changes dags).
Proof.
  induction dags as [|dag dags IH]; intros acc st st' allStates Hrun.
  - injection Hrun as _ <-. simpl. rewrite app_nil_r. reflexivity.
  - cbn [go.forM] in Hrun. unfold go.bind in Hrun at 1.
    destruct (cmd.processDAG runner opts bookmarks prMap acc dag st) as [st1 r] eqn:Hp.
    unfold cmd.processDAG, go.bind, go.catch, go.lift in Hp.
    destruct (jj.EnsureBookmarks _ _ _ _ _ _ _) as [s1 [results|e| |]];
      cbn in Hp; injection Hp as <- <-; try discriminate.
    rewrite (IH _ _ _ _ Hrun), map_app, map_map. simpl.
    rewrite map_id, <- app_assoc. reflexivity.
Qed.

(** The states that the pipeline classifies, and those it sends, hold
    distinct changes in topological order. *)
Lemma states_ordered (changes : list jj.Change) (dags dags' : list jj.ChangeDAG)
    (bookmarks : list jj.BookmarkInfo) (prMap : gmap string github.PRInfo)
    (st st' : go.state W cmd.event) (allStates states : list cmd.changeState) :
  jj.BuildDAGs changes = go.Ret dags ->
  concat (map jj.Changes dags') `sublist_of` concat (map jj.Changes dags) ->
  go.forM (cmd.processDAG runner opts bookmarks prMap) dags' [] st
  = (st', go.Ret allStates) ->
  states `sublist_of` allStates ->
  NoDup (map stateID states) /\ topoOrdered (map cmd.change states).
Proof.
  intros Hbuild Hdags Hrun Hsub.
  destruct (BuildDAGs_concat changes dags Hbuild) as (Hnd & Hto & _).
  apply processDAG_states in Hrun. simpl in Hrun.
  assert (Hs : map cmd.change states `sublist_of` concat (map jj.Changes dags)).
  { etransitivity; [|exact Hdags]. rewrite <- Hrun. apply fmap_sublist, Hsub. }
  split.
  - change (map stateID states) with (map (fun s => jj.ChangeID (cmd.change s)) states).
    rewrite <- (map_map cmd.change jj.ChangeID).
    eapply sublist_NoDup; [exact Hnd|]. apply fmap_sublist, Hs.
  - eapply topoOrdered_sublist; eassumption.
Qed.

(** Case analysis on a run [H : m st = (st', go.Ret a)], innermost
    scrutinee first. *)
Ltac run_cases H :=
  unfold go.bind, go.perform, go.ret, go.raise, go.print in H;
  repeat match type of H with
         | context [match ?x with _ => _ end] =>
             lazymatch x with
             | context [match _ with _ => _ end] => fail
             | _ => destruct x eqn:?; cbn in H
             end
         end;
  try discriminate H.

(** In the pipeline, the cascade of skips reaches every descendant of a
    skipped change. *)
Lemma classified_cascade (changes : list jj.Change) (dags dags' : list jj.ChangeDAG)
    (bookmarks : list jj.BookmarkInfo) (prMap : gmap string github.PRInfo)
    (st st' : go.state W cmd.event) (allStates states : list cmd.changeState)
    (c d : string) :
  jj.BuildDAGs changes = go.Ret dags ->
  concat (map jj.Changes dags') `sublist_of` concat (map jj.Changes dags) ->
  go.forM (cmd.processDAG runner opts bookmarks prMap) dags' [] st
  = (st', go.Ret allStates) ->
  states `sublist_of` allStates ->
  is_Some (cmd.classifySkips states !! c) ->
  tc (edge (map cmd.change states)) c d ->
  is_Some (cmd.classifySkips states !! d).
Proof.
  intros Hbuild Hdags Hrun Hsub Hc Htc.
  destruct (states_ordered changes dags dags' bookmarks prMap st st' allStates states
              Hbuild Hdags Hrun Hsub) as [Hnd Hto].
  induction Htc as [c d Hcd|c y d Hcy _ IH].
  - destruct (edge_skipped states c d Hnd Hto Hc Hcd) as (a & _ & _ & ->). eauto.
  - apply IH. destruct (edge_skipped states c y Hnd Hto Hc Hcy) as (a & _ & _ & ->). eauto.
Qed.

Lemma updateExisting_state (repoFullName : string)
    (bookmarkByName : gmap string jj.BookmarkInfo) (s : cmd.changeState)
    (p : github.PRInfo) (st st' : go.state W cmd.event) (s' : cmd.changeState) :
  cmd.updateExisting runner client opts repoFullName bookmarkByName s p st
  = (st', go.Ret s') ->
  cmd.change s' = cmd.change s /\ cmd.pr s' = cmd.pr s.
Proof.
  unfold cmd.updateExisting. intros Hrun.
  run_cases Hrun; injection Hrun as <- <-; split; reflexivity.
Qed.

Lemma createPR_state (s : cmd.changeState) (st st' : go.state W cmd.event)
    (s' : cmd.changeState) :
  cmd.createPR client opts s st = (st', go.Ret s') ->
  cmd.change s' = cmd.change s /\ is_Some (cmd.pr s').
Proof.
  unfold cmd.createPR. intros Hrun.
  run_cases Hrun; injection Hrun as <- <-; split; simpl; eauto.
Qed.

(** The loop that updates or creates the PRs keeps the changes and leaves
    every state with a PR. *)
Lemma sendEach_states (repoFullName : string)
    (bookmarkByName : gmap string jj.BookmarkInfo) (activeStates : list cmd.changeState) :
  forall (acc : list cmd.changeState) (st st' : go.state W cmd.event)
         (out : list cmd.changeState),
    go.forM (fun acc s =>
               let* s' := match cmd.pr s with
                          | Some p => cmd.updateExisting runner client opts repoFullName
                                        bookmarkByName s p
                          | None => cmd.createPR client opts s
                          end in
               go.ret (acc ++ [s']))
            activeStates acc st
    = (st', go.Ret out) ->
    exists sent, out = acc ++ sent /\
                 map cmd.change sent = map cmd.change activeStates /\
                 Forall (fun s => is_Some (cmd.pr s)) sent.
Proof.
  induction activeStates as [|s l IH]; intros acc st st' out Hrun.
  - injection Hrun as _ <-. exists []. rewrite app_nil_r. repeat split. constructor.
  - cbn [go.forM] in Hrun. unfold go.bind at 1 in Hrun.
    match type of Hrun with
    | (let (_, _) := ?m st in _) = _ =>
        assert (Hs : forall st1 acc', m st = (st1, go.Ret acc') ->
                  exists s', acc' = acc ++ [s'] /\ cmd.change s' = cmd.change s /\
                             is_Some (cmd.pr s'));
        [|destruct (m st) as [st1 [acc'| | |]]; try discriminate]
    end.
    { intros st1 acc' Hs. unfold go.bind in Hs.
      destruct (cmd.pr s) as [p|] eqn:Hp.
      - destruct (cmd.updateExisting _ _ _ _ _ _ _ _) as [st2 [s'| | |]] eqn:Hu;
          try discriminate.
        injection Hs as <- <-. apply updateExisting_state in Hu as [Hc Hpr].
        exists s'. split; [reflexivity|]. split; [exact Hc|]. rewrite Hpr, Hp. eauto.
      - destruct (cmd.createPR _ _ _ _) as [st2 [s'| | |]] eqn:Hu; try discriminate.
        injection Hs as <- <-. apply createPR_state in Hu. eauto. }
    destruct (Hs st1 acc' eq_refl) as (s' & -> & Hc & Hpr).
    destruct (IH _ _ _ _ Hrun) as (sent & -> & Hmap & Hall).
    exists (s' :: sent). rewrite <- app_assoc. split; [reflexivity|].
    split; [simpl; congruence|constructor; assumption].
Qed.

(** In the pipeline, [computeStackPRs] is applied to the states just sent;
    it returns the stack of each of them. *)
Lemma sent_stacks (changes : list jj.Change) (dags dags' : list jj.ChangeDAG)
    (bookmarks : list jj.BookmarkInfo) (prMap : gmap string github.PRInfo)
    (st st' st1 st1' : go.state W cmd.event)
    (allStates activeStates sent : list cmd.changeState) (repoFullName : string)
    (bookmarkByName : gmap string jj.BookmarkInfo) :
  jj.BuildDAGs changes = go.Ret dags ->
  concat (map jj.Changes dags') `sublist_of` concat (map jj.Changes dags) ->
  go.forM (cmd.processDAG runner opts bookmarks prMap) dags' [] st
  = (st', go.Ret allStates) ->
  activeStates `sublist_of` allStates ->
  go.forM (fun acc s =>
             let* s' := match cmd.pr s with
                        | Some p => cmd.updateExisting runner client opts repoFullName
                                      bookmarkByName s p
                        | None => cmd.createPR client opts s
                        end in
             go.ret (acc ++ [s']))
          activeStates [] st1
  = (st1', go.Ret sent) ->
  exists stacks, cmd.computeStackPRs sent = go.Ret stacks /\
                 Forall2 (stackOf sent) sent stacks.
Proof.
  intros Hbuild Hdags Hrun Hsub Hsend.
  destruct (states_ordered changes dags dags' bookmarks prMap st st' allStates activeStates
              Hbuild Hdags Hrun Hsub) as [Hnd Hto].
  apply sendEach_states in Hsend as (sent' & -> & Hmap & Hall). simpl.
  apply computeStackPRs_stacks.
  - change (map stateID sent') with (map (fun s => jj.ChangeID (cmd.change s)) sent').
    rewrite <- (map_map cmd.change jj.ChangeID), Hmap, map_map. exact Hnd.
  - rewrite Hmap. exact Hto.
  - exact Hall.
Qed.

End States.

(** * Further properties of the code *)

(** ** ChangeGraph: what BuildDAGs accepts and returns *)

Section Accepts.

Lemma indexKnown_duplicate (rest1 : list jj.Change) (c : jj.Change) (rest2 : list jj.Change) :
  forall (pre : list jj.Change) (known0 : gmap string nat),
    (forall id, is_Some (known0 !! id) <-> id ∈ map jj.ChangeID pre) ->
    NoDup (map jj.ChangeID (pre ++ rest1)) ->
    jj.ChangeID c ∈ map jj.ChangeID (pre ++ rest1) ->
    jj.indexKnown (rest1 ++ c :: rest2) (length pre) known0
    = go.Raise (go.Errorf "duplicate change ID %q" [go.FStr (jj.ChangeID c)]).
Proof.
  induction rest1 as [|d rest1 IH]; intros pre known0 Hk Hnd Hin.
  - rewrite app_nil_r in Hin. simpl. apply Hk in Hin as [j ->]. reflexivity.
  - simpl.
    assert (Hd : known0 !! jj.ChangeID d = None).
    { destruct (known0 !! jj.ChangeID d) eqn:E; [|reflexivity].
      exfalso. assert (His : jj.ChangeID d ∈ map jj.ChangeID pre) by (apply Hk; eauto).
      rewrite map_app in Hnd. apply NoDup_app in Hnd as (_ & Hdis & _).
      apply (Hdis _ His). simpl. left. }
    rewrite Hd.
    replace (S (length pre)) with (length (pre ++ [d])) by (rewrite length_app; simpl; lia).
    apply IH.
    + intros id. rewrite map_app, elem_of_app. simpl. rewrite list_elem_of_singleton.
      destruct (decide (id = jj.ChangeID d)) as [->|Hne].
      * rewrite lookup_insert_eq. split; [auto|eauto].
      * rewrite lookup_insert_ne by congruence. rewrite Hk. tauto.
    + rewrite <- app_assoc. exact Hnd.
    + rewrite <- app_assoc. exact Hin.
Qed.

Lemma indexKnown_accepts (rest : list jj.Change) :
  forall (pre : list jj.Change) (known0 : gmap string nat),
    (forall id, is_Some (known0 !! id) <-> id ∈ map jj.ChangeID pre) ->
    NoDup (map jj.ChangeID (pre ++ rest)) ->
    exists known, jj.indexKnown rest (length pre) known0 = go.Ret known.
Proof.
  induction rest as [|d rest IH]; intros pre known0 Hk Hnd; [simpl; eauto|].
  simpl.
  assert (Hd : known0 !! jj.ChangeID d = None).
  { destruct (known0 !! jj.ChangeID d) eqn:E; [|reflexivity].
    exfalso. assert (His : jj.ChangeID d ∈ map jj.ChangeID pre) by (apply Hk; eauto).
    rewrite map_app in Hnd. apply NoDup_app in Hnd as (_ & Hdis & _).
    apply (Hdis _ His). simpl. left. }
  rewrite Hd.
  replace (S (length pre)) with (length (pre ++ [d])) by (rewrite length_app; simpl; lia).
  apply IH.
  - intros id. rewrite map_app, elem_of_app. simpl. rewrite list_elem_of_singleton.
    destruct (decide (id = jj.ChangeID d)) as [->|Hne].
    + rewrite lookup_insert_eq. split; [auto|eauto].
    + rewrite lookup_insert_ne by congruence. rewrite Hk. tauto.
  - rewrite <- app_assoc. exact Hnd.
Qed.

End Accepts.

(** X1.  [BuildDAGs] rejects a list in which a change repeats the id of an
    earlier one: the error names the id of the first change that does. *)
Theorem BuildDAGs_duplicate (pre : list jj.Change) (c : jj.Change) (rest : list jj.Change) :
  NoDup (map jj.ChangeID pre) ->
  jj.ChangeID c ∈ map jj.ChangeID pre ->
  jj.BuildDAGs (pre ++ c :: rest)
  = go.Raise (go.Errorf "duplicate change ID %q" [go.FStr (jj.ChangeID c)]).
Proof.
  intros Hnd Hin. unfold jj.BuildDAGs.
  destruct (pre ++ c :: rest) as [|c0 l] eqn:E.
  { destruct pre; discriminate. }
  rewrite <- E. cbv zeta.
  rewrite (indexKnown_duplicate pre c rest [] ∅).
  - reflexivity.
  - intros id. rewrite lookup_empty. simpl. rewrite elem_of_nil. split; [intros [? ?]; discriminate|tauto].
  - exact Hnd.
  - exact Hin.
Qed.

Lemma BuildDAGs_duplicate_witness :
  jj.BuildDAGs [jj.mkChange "a" "c1" "one" [] []; jj.mkChange "b" "c2" "two" ["a"] [];
                jj.mkChange "a" "c3" "three" ["b"] []]
  = go.Raise (go.Errorf "duplicate change ID %q" [go.FStr "a"]).
Proof.
  apply (BuildDAGs_duplicate
           [jj.mkChange "a" "c1" "one" [] []; jj.mkChange "b" "c2" "two" ["a"] []]
           (jj.mkChange "a" "c3" "three" ["b"] []) []).
  - simpl. apply NoDup_cons. split; [|apply NoDup_singleton].
    intros Hin. apply list_elem_of_singleton in Hin. discriminate.
  - simpl. left.
Defined.

Section Connected.
Variable L : relation nat.
Variable n : nat.

Lemma find_connInv (fuel : nat) (parent : list nat) (x : nat) (parent' : list nat) (r : nat) :
  jj.find fuel parent x = go.Ret (parent', r) ->
  connInv L n parent -> connInv L n parent'.
Proof.
  intros Hrun Hinv y Hy. destruct (find_rootOf _ _ _ _ _ Hrun) as [_ Hsame].
  destruct (Hinv y Hy) as (ry & Hry & Hc). exists ry. split; [apply Hsame, Hry|exact Hc].
Qed.

(** [union] of two linked nodes keeps every node connected to its root. *)
Lemma union_connInv (fuel : nat) (parent : list nat) (a b : nat) (parent' : list nat) :
  jj.union fuel parent a b = go.Ret parent' ->
  (a < n)%nat -> (b < n)%nat -> rtsc L a b ->
  connInv L n parent -> connInv L n parent'.
Proof.
  unfold jj.union. intros Hrun Ha Hb Hab Hinv.
  destruct (jj.find fuel parent a) as [[p1 ra]| | |] eqn:Hfa; try discriminate.
  simpl in Hrun.
  destruct (jj.find fuel p1 b) as [[p2 rb]| | |] eqn:Hfb; try discriminate.
  simpl in Hrun.
  pose proof (find_connInv _ _ _ _ _ Hfb (find_connInv _ _ _ _ _ Hfa Hinv)) as Hinv2.
  destruct (find_rootOf _ _ _ _ _ Hfa) as [Hra Hs1].
  destruct (find_rootOf _ _ _ _ _ Hfb) as [Hrb Hs2].
  assert (Ha2 : rootOf p2 a ra) by (apply Hs2, Hs1, Hra).
  assert (Hb2 : rootOf p2 b rb) by (apply Hs2, Hrb).
  destruct (decide (ra ≠ rb)) as [Hne|_]; [|injection Hrun as <-; exact Hinv2].
  unfold go.assign in Hrun. destruct (decide _); [|discriminate]. injection Hrun as <-.
  pose proof (link_rootOf p2 ra rb (rootOf_root _ _ _ Ha2) (rootOf_root _ _ _ Hb2) Hne)
    as Hlink.
  assert (Hca : rtsc L a ra).
  { destruct (Hinv2 a Ha) as (r & Hr & Hc). rewrite (rootOf_fun _ _ _ _ Ha2 Hr). exact Hc. }
  assert (Hcb : rtsc L b rb).
  { destruct (Hinv2 b Hb) as (r & Hr & Hc). rewrite (rootOf_fun _ _ _ _ Hb2 Hr). exact Hc. }
  intros x Hx. destruct (Hinv2 x Hx) as (r & Hr & Hc).
  exists (if decide (r = ra) then rb else r). split; [apply Hlink, Hr|].
  destruct (decide (r = ra)) as [->|_]; [|exact Hc].
  etransitivity; [exact Hc|]. etransitivity; [symmetry; exact Hca|].
  etransitivity; [exact Hab|exact Hcb].
Qed.

End Connected.

Section Stages.
Variable changes : list jj.Change.
Variable known : gmap string nat.
Hypothesis Hspec : forall id j,
  known !! id = Some j <-> exists c, changes !! j = Some c /\ jj.ChangeID c = id.

Local Abbreviation n := (length changes).

Lemma known_lt (id : string) (j : nat) : known !! id = Some j -> (j < n)%nat.
Proof. intros Hj. apply Hspec in Hj as (c & Hc & _). eapply lookup_lt_Some, Hc. Qed.

Lemma unionParents_connInv (fuel : nat) (i : nat) (c : jj.Change) (pids : list string) :
  changes !! i = Some c ->
  (forall pid, pid ∈ pids -> pid ∈ jj.ParentIDs c) ->
  forall parent parent',
    jj.unionParents fuel known i parent pids = go.Ret parent' ->
    connInv (link changes) n parent -> connInv (link changes) n parent'.
Proof.
  intros Hi. unfold jj.unionParents.
  induction pids as [|pid pids IH]; intros Hsub parent parent' Hrun Hinv.
  - injection Hrun as <-. exact Hinv.
  - cbn [jj.forEach] in Hrun.
    assert (Hsub' : forall pid, pid ∈ pids -> pid ∈ jj.ParentIDs c)
      by (intros p Hp; apply Hsub; right; exact Hp).
    destruct (known !! pid) as [j|] eqn:Hj.
    + destruct (jj.union fuel parent i j) as [p1| | |] eqn:Hu; try discriminate.
      cbn [go.obind] in Hrun. apply (IH Hsub' p1 parent' Hrun).
      eapply union_connInv; [exact Hu| | | |exact Hinv].
      * eapply lookup_lt_Some, Hi.
      * eapply known_lt, Hj.
      * apply rtsc_rl. apply Hspec in Hj as (cj & Hcj & Hid).
        exists cj, c. split; [exact Hcj|]. split; [exact Hi|].
        rewrite Hid. apply Hsub. left.
    + cbn [go.obind] in Hrun. apply (IH Hsub' parent parent' Hrun Hinv).
Qed.

Lemma unionAll_connInv (fuel : nat) (pairs : list (nat * jj.Change)) :
  (forall i c, (i, c) ∈ pairs -> changes !! i = Some c) ->
  forall parent parent',
    jj.forEach (fun parent '(i, c) =>
                  jj.unionParents fuel known i parent (jj.ParentIDs c)) pairs parent
    = go.Ret parent' ->
    connInv (link changes) n parent -> connInv (link changes) n parent'.
Proof.
  induction pairs as [|[i c] pairs IH]; intros Hpairs parent parent' Hrun Hinv.
  - injection Hrun as <-. exact Hinv.
  - cbn [jj.forEach] in Hrun.
    destruct (jj.unionParents fuel known i parent (jj.ParentIDs c)) as [p1| | |] eqn:Hu;
      try discriminate.
    cbn [go.obind] in Hrun.
    apply (IH (fun i c H => Hpairs i c (list_elem_of_further _ _ _ H)) p1 parent' Hrun).
    eapply unionParents_connInv; [apply Hpairs; left| |exact Hu|exact Hinv]. auto.
Qed.

(** With the invariant, two nodes have the same root exactly when they are
    connected by links, once every link joins its ends. *)
Lemma joined_connected (parent : list nat) (i j : nat) :
  connInv (link changes) n parent ->
  (forall a b, link changes a b -> joined parent a b) ->
  (i < n)%nat -> (j < n)%nat ->
  joined parent i j <-> rtsc (link changes) i j.
Proof.
  intros Hinv Hjoin Hi Hj. split.
  - intros (r & Hri & Hrj).
    destruct (Hinv i Hi) as (ri & Hri' & Hci). destruct (Hinv j Hj) as (rj & Hrj' & Hcj).
    rewrite <- (rootOf_fun _ _ _ _ Hri Hri') in Hci.
    rewrite <- (rootOf_fun _ _ _ _ Hrj Hrj') in Hcj.
    etransitivity; [exact Hci|symmetry; exact Hcj].
  - intros Hc. destruct (Hinv i Hi) as (ri & Hri & _).
    assert (G : forall a b, rtsc (link changes) a b ->
                forall r, rootOf parent a r -> rootOf parent b r).
    { clear -Hjoin. intros a b Hab.
      induction Hab as [a|a y b Hay _ IH]; intros r Hr; [exact Hr|].
      apply IH. destruct Hay as [Hl|Hl].
      - destruct (Hjoin a y Hl) as (r' & Ha & Hy).
        rewrite (rootOf_fun _ _ _ _ Hr Ha). exact Hy.
      - destruct (Hjoin y a Hl) as (r' & Hy & Ha).
        rewrite (rootOf_fun _ _ _ _ Hr Ha). exact Hy. }
    exists ri. split; [exact Hri|]. eapply G; eassumption.
Qed.

End Stages.

Section Grouping.

(** Every list of the grouping is non-empty. *)
Lemma group_nonempty (fuel m : nat) :
  forall (k : nat) (parent : list nat) (comps : gmap nat (list nat)) parent' comps',
    jj.forEach (jj.groupStep fuel) (seq k m) (parent, comps) = go.Ret (parent', comps') ->
    (forall r ms, comps !! r = Some ms -> ms <> []) ->
    forall r ms, comps' !! r = Some ms -> ms <> [].
Proof.
  induction m as [|m IH]; intros k parent comps parent' comps' Hrun Hne.
  - injection Hrun as <- <-. exact Hne.
  - cbn [seq jj.forEach] in Hrun. unfold jj.groupStep at 1 in Hrun.
    destruct (jj.find fuel parent k) as [[p1 root]| | |] eqn:Hf; try discriminate.
    cbn [go.obind] in Hrun. apply (IH _ _ _ _ _ Hrun).
    intros r ms Hr. destruct (decide (r = root)) as [->|Hneq].
    + rewrite lookup_insert_eq in Hr. injection Hr as <-.
      intros E. apply app_eq_nil in E as [_ E]. discriminate.
    + rewrite lookup_insert_ne in Hr by congruence. eapply Hne, Hr.
Qed.

End Grouping.

(** The stages of [BuildDAGs] on a non-empty list of distinct changes, up to
    the loop that sorts each component. *)
Lemma BuildDAGs_stages (changes : list jj.Change) :
  changes <> [] -> NoDup (map jj.ChangeID changes) ->
  exists (known : gmap string nat) (parent : list nat) (comps : gmap nat (list nat)),
    (forall id j, known !! id = Some j <->
                  exists c, changes !! j = Some c /\ jj.ChangeID c = id) /\
    (forall i j, (i < length changes)%nat -> (j < length changes)%nat ->
                 joined parent i j <-> rtsc (link changes) i j) /\
    (forall i, (i < length changes)%nat -> exists r, rootOf parent i r) /\
    (forall r i, i ∈ default [] (comps !! r) <->
                 (i < length changes)%nat /\ rootOf parent i r) /\
    (forall r ms, comps !! r = Some ms -> ms <> [] /\ NoDup ms) /\
    jj.BuildDAGs changes
    = jj.forEach (fun dags r =>
                    let? dag := jj.topoSort changes (default [] (comps !! r)) known in
                    go.Ret (dags ++ [dag]))
                 (go.SortInts (map fst (map_to_list comps))) [].
Proof.
  intros Hne Hnd. unfold jj.BuildDAGs.
  destruct changes as [|c0 changes']; [contradiction|].
  set (changes := c0 :: changes') in *. cbv zeta.
  destruct (indexKnown_accepts changes [] ∅) as [known Hknown].
  { intros id. rewrite lookup_empty. simpl. rewrite elem_of_nil.
    split; [intros [? ?]; discriminate|tauto]. }
  { exact Hnd. }
  simpl length in Hknown. rewrite Hknown. cbn [go.obind].
  destruct (indexKnown_spec changes [] ∅ known Hknown) as [_ Hspec].
  { constructor. }
  { intros id j. rewrite lookup_empty. split; [discriminate|].
    intros (c & Hc & _). discriminate. }
  simpl app in Hspec.
  assert (Hpairs : forall i c, (i, c) ∈ imap (fun i c => (i, c)) changes <->
                               changes !! i = Some c).
  { intros i c. rewrite list_elem_of_lookup. split.
    - intros [j Hj]. rewrite list_lookup_imap in Hj.
      destruct (changes !! j) eqn:E; [|discriminate]. injection Hj as <- <-. exact E.
    - intros Hi. exists i. rewrite list_lookup_imap, Hi. reflexivity. }
  destruct (unionAll_total known (length changes) (imap (fun i c => (i, c)) changes)
              (seq 0 (length changes)))
    as (parent & Hrun & Hlen & Hf).
  { apply length_seq. }
  { intros id j Hj. eapply known_lt; eassumption. }
  { apply Forall_forall. intros [i c] Hic. apply Hpairs in Hic.
    exact (lookup_lt_Some _ _ _ Hic). }
  { exists (fun _ => 0%nat). intros x px Hx. rewrite length_seq.
    apply lookup_seq in Hx as [-> Hlt]. simpl. split; [exact Hlt|congruence]. }
  rewrite Hrun. cbn [go.obind].
  destruct (unionAll_joined _ _ _ _ _ Hrun) as [_ Hjoin].
  assert (Hinv : connInv (link changes) (length changes) parent).
  { eapply (unionAll_connInv changes known Hspec); [|exact Hrun|].
    - intros i c Hic. apply Hpairs, Hic.
    - intros x Hx. exists x. split; [|reflexivity].
      apply rootOf_here. apply lookup_seq. split; [reflexivity|exact Hx]. }
  destruct (group_run (length changes) (length changes) 0 parent ∅ Hlen ltac:(lia) Hf)
    as (parent' & comps & Hgroup & Hcomps).
  { intros r ms Hr. rewrite lookup_empty in Hr. discriminate. }
  rewrite Hgroup. cbn [go.obind].
  pose proof (group_rootOf _ _ _ _ _ _ _ Hgroup) as Hroots.
  pose proof (group_nonempty _ _ _ _ _ _ _ Hgroup) as Hnonempty.
  exists known, parent, comps.
  split; [exact Hspec|]. split; [|split; [|split; [|split]]].
  - intros i j Hi Hj. apply (joined_connected changes parent i j Hinv); [|exact Hi|exact Hj].
    intros a b (ca & cb & Ha & Hb & Hin).
    assert (Hba : joined parent b a); [|destruct Hba as (r & H1 & H2); exists r; auto].
    apply (Hjoin b cb (jj.ChangeID ca) a); [apply Hpairs, Hb|exact Hin|].
    apply Hspec. eauto.
  - intros i Hi. destruct (Hinv i Hi) as (r & Hr & _). eauto.
  - intros r i. rewrite Hroots, lookup_empty. simpl. rewrite elem_of_nil.
    split; [intros [[]|[H1 H2]]; split; [lia|exact H2]|].
    intros [H1 H2]. right. split; [lia|exact H2].
  - intros r ms Hr. split; [|apply (Hcomps r ms Hr)].
    eapply Hnonempty; [|exact Hr]. intros r' ms' Hr'. rewrite lookup_empty in Hr'. discriminate.
  - reflexivity.
Qed.

Section Cycles.

Lemma tc_subrel {A} (R R' : relation A) (a b : A) :
  (forall x y, R' x y -> tc R x y) -> tc R' a b -> tc R a b.
Proof.
  intros Hsub. induction 1 as [a b Hab|a y b Hay _ IH]; [apply Hsub, Hab|].
  eapply tc_transitive; [apply Hsub, Hay|exact IH].
Qed.

(** In a finite non-empty set in which every element has a predecessor,
    the relation has a cycle. *)
Lemma cycle_of_preds {A} `{EqDecision A} (n : nat) :
  forall (R : relation A) (U : list A),
    (length U <= n)%nat -> U <> [] ->
    (forall x, x ∈ U -> exists y, y ∈ U /\ R y x) ->
    exists x, tc R x x.
Proof.
  induction n as [|n IH]; intros R U Hlen Hne Hpred.
  - destruct U; [contradiction|simpl in Hlen; lia].
  - destruct U as [|x U0]; [contradiction|].
    destruct (Hpred x ltac:(left)) as (w & Hw & Hwx).
    destruct (decide (w = x)) as [->|Hwne]; [exists x; apply tc_once, Hwx|].
    destruct (IH (fun a b => R a b \/ (R a x /\ R x b))
                 (filter (fun y => y <> x) (x :: U0))) as [z Hz].
    + rewrite filter_cons. destruct (decide (x <> x)) as [Hxx|_]; [contradiction|].
      pose proof (length_filter (fun y => y <> x) U0). simpl in Hlen. lia.
    + intros E. assert (Hin : w ∈ filter (fun y => y <> x) (x :: U0))
        by (apply list_elem_of_filter; auto).
      rewrite E in Hin. apply elem_of_nil in Hin. contradiction.
    + intros z Hz. apply list_elem_of_filter in Hz as [Hzx Hz].
      destruct (Hpred z Hz) as (y & Hy & Hyz).
      destruct (decide (y = x)) as [->|Hyx].
      * exists w. split; [apply list_elem_of_filter; auto|right; auto].
      * exists y. split; [apply list_elem_of_filter; auto|left; exact Hyz].
    + exists z. eapply tc_subrel; [|exact Hz].
      intros a b [Hab|[Hax Hxb]]; [apply tc_once, Hab|].
      eapply tc_l; [exact Hax|apply tc_once, Hxb].
Qed.

End Cycles.

Section KahnComplete.
Variable mems : list jj.Change.
Hypothesis Hnd : NoDup (map jj.ChangeID mems).

(** When Kahn's loop ends with every member emitted, the sorted list holds
    exactly the members. *)
Lemma kahnInv_all (inDegree : gmap string Z) (sorted : list jj.Change) :
  kahnInv mems [] inDegree sorted -> length sorted = length mems ->
  forall c, c ∈ mems <-> c ∈ sorted.
Proof.
  intros (I1 & Iin & _ & _ & I4 & _) Hlen c. rewrite app_nil_r in I1, Iin.
  split; [|apply I4]. intros Hc.
  assert (Hperm : map jj.ChangeID sorted ≡ₚ map jj.ChangeID mems).
  { apply submseteq_length_Permutation; [apply NoDup_submseteq; assumption|].
    rewrite !length_map. lia. }
  assert (Hid : jj.ChangeID c ∈ map jj.ChangeID sorted).
  { rewrite Hperm. apply list_elem_of_fmap. eauto. }
  apply list_elem_of_fmap in Hid as (c' & Hid & Hc').
  rewrite (member_unique mems Hnd c c' Hc (I4 c' Hc') Hid). exact Hc'.
Qed.

(** When Kahn's loop ends with a member never emitted, the parent relation
    among the members has a cycle. *)
Lemma kahnInv_cycle (inDegree : gmap string Z) (sorted : list jj.Change) :
  kahnInv mems [] inDegree sorted -> length sorted <> length mems ->
  exists x, tc (edge mems) x x.
Proof.
  intros (I1 & Iin & _ & I3 & I4 & _) Hlen. rewrite app_nil_r in I1, Iin.
  set (emitted := map jj.ChangeID sorted) in *.
  set (U := filter (fun x => x ∉ emitted) (map jj.ChangeID mems)).
  assert (Hpred : forall x, x ∈ U -> exists y, y ∈ U /\ edge mems y x).
  { intros x Hx. apply list_elem_of_filter in Hx as [Hout Hx].
    apply list_elem_of_fmap in Hx as (c & -> & Hc).
    assert (Hp : pending (map jj.ChangeID mems) emitted c <> 0%nat).
    { intros Hz. apply Hout. specialize (I3 c Hc). rewrite app_nil_r in I3.
      apply I3, Hz. }
    unfold pending in Hp.
    destruct (filter _ (jj.ParentIDs c)) as [|p ps] eqn:E; [contradiction|].
    assert (Hin : p ∈ filter (fun p => p ∈ map jj.ChangeID mems /\ p ∉ emitted) (jj.ParentIDs c))
      by (rewrite E; left).
    apply list_elem_of_filter in Hin as [[Hpm Hpe] Hpp].
    exists p. split; [apply list_elem_of_filter; auto|].
    apply list_elem_of_fmap in Hpm as (cp & -> & Hcp).
    exists cp, c. auto. }
  apply (cycle_of_preds (length U) (edge mems) U); [lia| |exact Hpred].
  intros HU. apply Hlen.
  assert (Hall : forall x, x ∈ map jj.ChangeID mems -> x ∈ emitted).
  { intros x Hx.
    destruct (decide (x ∈ emitted)) as [|Hout]; [assumption|].
    assert (Hin : x ∈ U) by (apply list_elem_of_filter; auto).
    rewrite HU in Hin. apply elem_of_nil in Hin. contradiction. }
  pose proof (submseteq_length _ _ (NoDup_submseteq _ _ I1 Iin)) as H1.
  pose proof (submseteq_length _ _ (NoDup_submseteq _ _ Hnd Hall)) as H2.
  unfold emitted in H1, H2. rewrite !length_map in H1, H2. lia.
Qed.

End KahnComplete.

Section Acyclic.

Lemma edge_mono (l l' : list jj.Change) (p c : string) :
  (forall x, x ∈ l -> x ∈ l') -> edge l p c -> edge l' p c.
Proof.
  intros Hsub (cp & cc & Hp & Hc & H). exists cp, cc. auto.
Qed.

(** A list of distinct changes in topological order has no cycle. *)
Lemma topoOrdered_acyclic (l : list jj.Change) :
  NoDup (map jj.ChangeID l) -> topoOrdered l -> acyclic l.
Proof.
  intros Hnd Hto x Hx.
  assert (G : forall a b, tc (edge l) a b ->
              exists i j, (i < j)%nat /\ map jj.ChangeID l !! i = Some a /\
                          map jj.ChangeID l !! j = Some b).
  { clear x Hx. intros a b Hab.
    induction Hab as [a b (cp & cc & Hp & Hc & <- & <- & Hin)
                     |a y b (cp & cc & Hp & Hc & <- & <- & Hin) _ IH].
    - apply list_elem_of_lookup in Hp as [i Hi]. apply list_elem_of_lookup in Hc as [j Hj].
      exists i, j. rewrite !list_lookup_fmap, Hi, Hj.
      split; [eapply Hto; eassumption|auto].
    - destruct IH as (j' & k & Hlt & Hj' & Hk).
      apply list_elem_of_lookup in Hp as [i Hi]. apply list_elem_of_lookup in Hc as [j Hj].
      assert (j = j') as <-.
      { eapply (NoDup_lookup _ j j' (jj.ChangeID cc) Hnd); [|exact Hj'].
        rewrite list_lookup_fmap, Hj. reflexivity. }
      exists i, k. rewrite list_lookup_fmap, Hi.
      pose proof (Hto _ _ _ _ Hi Hj Hin). split; [lia|auto]. }
  destruct (G x x Hx) as (i & j & Hlt & Hi & Hj).
  pose proof (NoDup_lookup _ i j x Hnd Hi Hj). lia.
Qed.

End Acyclic.

Section Results.

Lemma elem_of_concat {A} (x : A) (ls : list (list A)) :
  x ∈ concat ls <-> exists l, l ∈ ls /\ x ∈ l.
Proof.
  induction ls as [|l ls IH]; simpl.
  - split; [intros H; apply elem_of_nil in H; contradiction|].
    intros (l & Hl & _). apply elem_of_nil in Hl. contradiction.
  - rewrite elem_of_app, IH. split.
    + intros [H|(l' & Hl' & H)]; [exists l; split; [left|exact H]|].
      exists l'. split; [right; exact Hl'|exact H].
    + intros (l' & Hl' & H). apply elem_of_cons in Hl' as [->|Hl']; [auto|eauto].
Qed.

Lemma Forall2_impl_elem {A B} (P Q : A -> B -> Prop) (l : list A) (k : list B) :
  Forall2 P l k -> (forall x y, x ∈ l -> y ∈ k -> P x y -> Q x y) -> Forall2 Q l k.
Proof.
  induction 1 as [|x y l k Hxy _ IH]; intros Himp; constructor.
  - apply Himp; [left|left|exact Hxy].
  - apply IH. intros x' y' Hx' Hy'. apply Himp; right; assumption.
Qed.

(** The loop over the roots returns its DAGs when every sort does. *)
Lemma sortEach_ok (changes : list jj.Change) (known : gmap string nat)
    (comps : gmap nat (list nat)) (roots : list nat) :
  (forall r, r ∈ roots ->
     exists dag, jj.topoSort changes (default [] (comps !! r)) known = go.Ret dag) ->
  forall acc,
    exists dags, jj.forEach (fun dags r =>
                  let? dag := jj.topoSort changes (default [] (comps !! r)) known in
                  go.Ret (dags ++ [dag])) roots acc = go.Ret (acc ++ dags).
Proof.
  induction roots as [|r roots IH]; intros Hsort acc.
  - exists []. simpl. rewrite app_nil_r. reflexivity.
  - cbn [jj.forEach]. destruct (Hsort r ltac:(left)) as [dag Hd].
    rewrite Hd. cbn [go.obind].
    destruct (IH (fun r' Hr' => Hsort r' (list_elem_of_further _ _ _ Hr')) (acc ++ [dag]))
      as [dags Hrun].
    exists (dag :: dags). rewrite Hrun, <- app_assoc. reflexivity.
Qed.

(** What [BuildDAGs] returns for a non-empty list: one DAG per root, which
    lists exactly the changes whose index has that root, once each, in
    topological order. *)
Lemma BuildDAGs_result (changes : list jj.Change) (dags : list jj.ChangeDAG) :
  changes <> [] -> jj.BuildDAGs changes = go.Ret dags ->
  NoDup (map jj.ChangeID changes) /\
  exists (parent roots : list nat),
    (forall i j, (i < length changes)%nat -> (j < length changes)%nat ->
                 joined parent i j <-> rtsc (link changes) i j) /\
    (forall i, (i < length changes)%nat ->
               exists r, r ∈ roots /\ rootOf parent i r) /\
    NoDup roots /\
    Forall2 (fun r dag =>
               jj.Changes dag <> [] /\
               forall c, c ∈ jj.Changes dag <->
                         exists i, changes !! i = Some c /\ rootOf parent i r)
            roots dags.
Proof.
  intros Hne Hrun.
  assert (Hnd : NoDup (map jj.ChangeID changes)).
  { destruct (BuildDAGs_run changes Hne) as [[e He]|(k & p & r & d & Hnd & _)];
      [congruence|exact Hnd]. }
  split; [exact Hnd|].
  destruct (BuildDAGs_stages changes Hne Hnd)
    as (known & parent & comps & Hspec & Hconn & Hroot & Hcomps & Hlists & Heq).
  rewrite Heq in Hrun.
  set (roots := go.SortInts (map fst (map_to_list comps))) in *.
  assert (Hkeys : forall r, r ∈ roots <-> is_Some (comps !! r)).
  { intros r. unfold roots, go.SortInts. rewrite merge_sort_Permutation.
    rewrite list_elem_of_fmap. split.
    - intros ([r' ms] & -> & Hin). apply elem_of_map_to_list in Hin. eauto.
    - intros [ms Hms]. exists (r, ms). split; [reflexivity|].
      apply elem_of_map_to_list, Hms. }
  assert (Hms : forall r, NoDup (default [] (comps !! r)) /\
                          Forall (fun i => (i < length changes)%nat) (default [] (comps !! r))).
  { intros r. split.
    - destruct (comps !! r) as [ms|] eqn:Hr; cbn [default]; [|constructor].
      apply (Hlists r ms Hr).
    - apply Forall_forall. intros i Hi. apply Hcomps in Hi. tauto. }
  destruct (sortEach_run changes known comps roots) with (acc := @nil jj.ChangeDAG)
    as [[e He]|(dags' & Hsort & Hall)].
  { intros r. destruct (Hms r) as [Hn Hr].
    destruct (topoSort_run changes known Hnd Hspec _ Hn Hr)
      as (mems & sorted & byID & deg & _ & _ & ->).
    destruct (decide _); eauto. }
  { congruence. }
  rewrite Hsort in Hrun. injection Hrun as <-.
  exists parent, roots. split; [exact Hconn|]. split; [|split].
  - intros i Hi. destruct (Hroot i Hi) as [r Hr]. exists r. split; [|exact Hr].
    apply Hkeys. assert (Hin : i ∈ default [] (comps !! r)) by (apply Hcomps; auto).
    destruct (comps !! r); [eauto|]. apply elem_of_nil in Hin. contradiction.
  - unfold roots, go.SortInts. rewrite merge_sort_Permutation. apply NoDup_fst_map_to_list.
  - eapply Forall2_impl_elem; [exact Hall|]. intros r dag Hrs _ Hd. cbv beta in Hd.
    destruct (Hms r) as [Hn Hr].
    destruct (topoSort_run changes known Hnd Hspec _ Hn Hr)
      as (mems & sorted & byID & deg & Hmems & Hinv & Heq').
    rewrite Heq' in Hd. destruct (decide _) as [|Hlen]; [discriminate|].
    injection Hd as <-. simpl.
    assert (Hlen' : length sorted = length mems).
    { rewrite <- (Forall2_length _ _ _ Hmems).
      destruct (decide (length sorted = length (default [] (comps !! r)))); [assumption|].
      contradiction. }
    pose proof (members_NoDup changes Hnd _ _ Hn Hmems) as Hndm.
    pose proof (kahnInv_all mems Hndm deg sorted Hinv Hlen') as Hsame.
    assert (Hr' : is_Some (comps !! r)) by (apply Hkeys, Hrs).
    destruct Hr' as [ms Hms'].
    split.
    + destruct (Hlists r ms Hms') as [Hne' _]. rewrite Hms' in Hmems. simpl in Hmems.
      intros ->. simpl in Hlen'. destruct mems; [|discriminate].
      apply Forall2_length in Hmems. destruct ms; [contradiction|discriminate].
    + intros c. rewrite <- Hsame. split.
      * intros Hc. apply list_elem_of_lookup in Hc as [a Ha].
        destruct (Forall2_lookup_r _ _ _ _ _ Hmems Ha) as (i & Hi & Hai).
        exists i. split; [exact Hai|]. apply Hcomps. eapply list_elem_of_lookup_2, Hi.
      * intros (i & Hi & Hri).
        assert (Hin : i ∈ default [] (comps !! r)).
        { apply Hcomps. split; [eapply lookup_lt_Some, Hi|exact Hri]. }
        apply list_elem_of_lookup in Hin as [a Ha].
        destruct (Forall2_lookup_l _ _ _ _ _ Hmems Ha) as (c' & Hc' & Hic').
        assert (c' = c) as -> by congruence.
        eapply list_elem_of_lookup_2, Hc'.
Qed.

End Results.

Section Links.
Variable changes : list jj.Change.
Hypothesis Hnd : NoDup (map jj.ChangeID changes).

Lemma index_by_id (i j : nat) (ci cj : jj.Change) :
  changes !! i = Some ci -> changes !! j = Some cj ->
  jj.ChangeID ci = jj.ChangeID cj -> i = j.
Proof.
  intros Hi Hj Hid.
  eapply (NoDup_lookup _ i j (jj.ChangeID ci) Hnd); rewrite list_lookup_fmap.
  - rewrite Hi. reflexivity.
  - rewrite Hj, Hid. reflexivity.
Qed.

Lemma rtsc_link_edge (i j : nat) :
  rtsc (link changes) i j ->
  forall ci cj, changes !! i = Some ci -> changes !! j = Some cj ->
                rtsc (edge changes) (jj.ChangeID ci) (jj.ChangeID cj).
Proof.
  induction 1 as [i|i k j Hik _ IH]; intros ci cj Hi Hj.
  - assert (ci = cj) as -> by congruence. reflexivity.
  - assert (exists ck, changes !! k = Some ck) as [ck Hk].
    { destruct Hik as [(a & b & _ & Hb & _)|(a & b & Ha & _ & _)]; eauto. }
    etransitivity; [|apply (IH ck cj Hk Hj)].
    destruct Hik as [(a & b & Ha & Hb & Hin)|(a & b & Ha & Hb & Hin)].
    + assert (a = ci) as -> by congruence. assert (b = ck) as -> by congruence.
      apply rtsc_lr. exists ci, ck.
      repeat split; eauto using list_elem_of_lookup_2.
    + assert (a = ck) as -> by congruence. assert (b = ci) as -> by congruence.
      apply rtsc_rl. exists ck, ci.
      repeat split; eauto using list_elem_of_lookup_2.
Qed.

Lemma rtsc_edge_link (x y : string) :
  rtsc (edge changes) x y ->
  forall i ci j cj, changes !! i = Some ci -> jj.ChangeID ci = x ->
                    changes !! j = Some cj -> jj.ChangeID cj = y ->
                    rtsc (link changes) i j.
Proof.
  induction 1 as [x|x z y Hxz _ IH]; intros i ci j cj Hi Hx Hj Hy.
  - rewrite (index_by_id i j ci cj Hi Hj) by congruence. reflexivity.
  - assert (exists k ck, changes !! k = Some ck /\ jj.ChangeID ck = z /\
                         sc (link changes) i k) as (k & ck & Hk & Hz & Hik).
    { destruct Hxz as [(cp & cc & Hp & Hc & Hidp & Hidc & Hin)
                      |(cp & cc & Hp & Hc & Hidp & Hidc & Hin)].
      - apply list_elem_of_lookup in Hp as [a Ha]. apply list_elem_of_lookup in Hc as [b Hb].
        assert (a = i) as -> by (eapply index_by_id; eauto; congruence).
        exists b, cc. split; [exact Hb|]. split; [exact Hidc|]. left.
        exists cp, cc. rewrite Hidp. auto.
      - apply list_elem_of_lookup in Hp as [a Ha]. apply list_elem_of_lookup in Hc as [b Hb].
        assert (b = i) as -> by (eapply index_by_id; eauto; congruence).
        exists a, cp. split; [exact Ha|]. split; [exact Hidp|]. right.
        exists cp, cc. rewrite Hidp. auto. }
    eapply rtc_l; [exact Hik|]. eapply IH; eassumption.
Qed.

End Links.

(** Every change of the input is in one of the DAGs. *)
Lemma BuildDAGs_covers (changes : list jj.Change) (dags : list jj.ChangeDAG) :
  jj.BuildDAGs changes = go.Ret dags ->
  forall c, c ∈ changes -> c ∈ concat (map jj.Changes dags).
Proof.
  intros Hrun c Hc. destruct changes as [|c0 changes'].
  { apply elem_of_nil in Hc. contradiction. }
  set (changes := c0 :: changes') in *.
  destruct (BuildDAGs_result changes dags ltac:(discriminate) Hrun)
    as (Hnd & parent & roots & _ & Hroot & _ & Hall).
  apply list_elem_of_lookup in Hc as [i Hi].
  destruct (Hroot i (lookup_lt_Some _ _ _ Hi)) as (r & Hr & Hri).
  apply list_elem_of_lookup in Hr as [k Hk].
  destruct (Forall2_lookup_l _ _ _ _ _ Hall Hk) as (dag & Hdag & _ & Hmem).
  apply elem_of_concat. exists (jj.Changes dag). split.
  - apply list_elem_of_fmap. exists dag. split; [reflexivity|].
    eapply list_elem_of_lookup_2, Hdag.
  - apply Hmem. eauto.
Qed.

(** X2.  [BuildDAGs] partitions its input: the DAGs it returns, taken
    together, list every change of the input exactly once, and no DAG is
    empty. *)
Theorem BuildDAGs_partition (changes : list jj.Change) (dags : list jj.ChangeDAG) :
  jj.BuildDAGs changes = go.Ret dags ->
  concat (map jj.Changes dags) ≡ₚ changes /\
  Forall (fun dag => jj.Changes dag <> []) dags.
Proof.
  intros Hrun. destruct changes as [|c0 changes'].
  { injection Hrun as <-. split; [reflexivity|constructor]. }
  set (changes := c0 :: changes') in *.
  destruct (BuildDAGs_concat changes dags Hrun) as (Hndc & _ & Hsub).
  destruct (BuildDAGs_result changes dags ltac:(discriminate) Hrun)
    as (Hnd & parent & roots & _ & Hroot & _ & Hall).
  split.
  - apply NoDup_Permutation.
    + eapply NoDup_fmap_1, Hndc.
    + eapply NoDup_fmap_1, Hnd.
    + intros c. split; [apply Hsub|apply (BuildDAGs_covers changes dags Hrun)].
  - apply Forall_forall. intros dag Hdag. apply list_elem_of_lookup in Hdag as [k Hk].
    destruct (Forall2_lookup_r _ _ _ _ _ Hall Hk) as (r & _ & Hne & _). exact Hne.
Qed.

Lemma BuildDAGs_partition_witness :
  exists dag, jj.BuildDAGs diamondChanges = go.Ret [dag] /\
              concat (map jj.Changes [dag]) ≡ₚ diamondChanges.
Proof.
  assert (Hrun : exists dag, jj.BuildDAGs diamondChanges = go.Ret [dag]).
  { vm_compute. eexists. reflexivity. }
  destruct Hrun as (dag & Hrun). exists dag. split; [exact Hrun|].
  apply (BuildDAGs_partition diamondChanges [dag] Hrun).
Defined.

(** X3.  The DAGs of [BuildDAGs] are the connected components of its input:
    two changes of the input are in one DAG exactly when a chain of parent
    links, followed in either direction, leads from one to the other. *)
Theorem BuildDAGs_components (changes : list jj.Change) (dags : list jj.ChangeDAG) :
  jj.BuildDAGs changes = go.Ret dags ->
  forall c c', c ∈ changes -> c' ∈ changes ->
    (exists dag, dag ∈ dags /\ c ∈ jj.Changes dag /\ c' ∈ jj.Changes dag) <->
    rtsc (edge changes) (jj.ChangeID c) (jj.ChangeID c').
Proof.
  intros Hrun c c' Hc Hc'.
  destruct changes as [|c0 changes']; [apply elem_of_nil in Hc; contradiction|].
  set (changes := c0 :: changes') in *.
  destruct (BuildDAGs_result changes dags ltac:(discriminate) Hrun)
    as (Hnd & parent & roots & Hconn & Hroot & _ & Hall).
  apply list_elem_of_lookup in Hc as [i Hi]. apply list_elem_of_lookup in Hc' as [i' Hi'].
  pose proof (lookup_lt_Some _ _ _ Hi) as Hlt. pose proof (lookup_lt_Some _ _ _ Hi') as Hlt'.
  split.
  - intros (dag & Hdag & Hcd & Hcd'). apply list_elem_of_lookup in Hdag as [k Hk].
    destruct (Forall2_lookup_r _ _ _ _ _ Hall Hk) as (r & _ & _ & Hmem).
    apply Hmem in Hcd as (a & Ha & Hra). apply Hmem in Hcd' as (a' & Ha' & Hra').
    assert (a = i) as -> by (eapply index_by_id; eauto).
    assert (a' = i') as -> by (eapply index_by_id; eauto).
    apply (rtsc_link_edge changes i i'); [|exact Hi|exact Hi'].
    apply Hconn; [exact Hlt|exact Hlt'|]. exists r. auto.
  - intros Hcc.
    pose proof (rtsc_edge_link changes Hnd _ _ Hcc i c i' c' Hi eq_refl Hi' eq_refl) as Hl.
    apply Hconn in Hl as (r & Hr & Hr'); [|exact Hlt|exact Hlt'].
    destruct (Hroot i Hlt) as (r0 & Hr0 & Hri).
    assert (r0 = r) as -> by (eapply rootOf_fun; eassumption).
    apply list_elem_of_lookup in Hr0 as [k Hk].
    destruct (Forall2_lookup_l _ _ _ _ _ Hall Hk) as (dag & Hdag & _ & Hmem).
    exists dag. split; [eapply list_elem_of_lookup_2, Hdag|].
    split; apply Hmem; eauto.
Qed.

Lemma BuildDAGs_components_witness :
  exists dag, jj.BuildDAGs diamondChanges = go.Ret [dag] /\
    ((exists dag', dag' ∈ [dag] /\
        jj.mkChange "d" "c4" "feat: d" ["b"; "c"] [] ∈ jj.Changes dag' /\
        jj.mkChange "a" "c1" "feat: a" ["main"] [] ∈ jj.Changes dag') <->
     rtsc (edge diamondChanges) "d" "a").
Proof.
  assert (Hrun : exists dag, jj.BuildDAGs diamondChanges = go.Ret [dag]).
  { vm_compute. eexists. reflexivity. }
  destruct Hrun as (dag & Hrun). exists dag. split; [exact Hrun|].
  apply (BuildDAGs_components diamondChanges [dag] Hrun
           (jj.mkChange "d" "c4" "feat: d" ["b"; "c"] [])
           (jj.mkChange "a" "c1" "feat: a" ["main"] [])).
  - left.
  - right. right. right. left.
Defined.

Section Errors.

Lemma sortEach_error (changes : list jj.Change) (known : gmap string nat)
    (comps : gmap nat (list nat)) (roots : list nat) (e : go.error) :
  forall acc,
    jj.forEach (fun dags r =>
                  let? dag := jj.topoSort changes (default [] (comps !! r)) known in
                  go.Ret (dags ++ [dag])) roots acc = go.Raise e ->
    exists r, r ∈ roots /\
              jj.topoSort changes (default [] (comps !! r)) known = go.Raise e.
Proof.
  induction roots as [|r roots IH]; intros acc Hrun; [discriminate|].
  cbn [jj.forEach] in Hrun.
  destruct (jj.topoSort changes (default [] (comps !! r)) known) as [dag|e'| |] eqn:Hd;
    try discriminate.
  - cbn [go.obind] in Hrun. destruct (IH _ Hrun) as (r' & Hr' & He).
    exists r'. split; [right; exact Hr'|exact He].
  - injection Hrun as ->. exists r. split; [left|exact Hd].
Qed.

End Errors.

(** X4.  [BuildDAGs] accepts exactly the lists whose change ids are
    distinct and whose parent relation has no cycle: it returns its DAGs for
    these and an error for every other list; it never panics. *)
Theorem BuildDAGs_accepts (changes : list jj.Change) :
  ((exists dags, jj.BuildDAGs changes = go.Ret dags) <->
   NoDup (map jj.ChangeID changes) /\ acyclic changes) /\
  ((exists dags, jj.BuildDAGs changes = go.Ret dags) \/
   (exists e, jj.BuildDAGs changes = go.Raise e)).
Proof.
  split; [|apply BuildDAGs_total].
  split.
  - intros [dags Hrun].
    destruct (BuildDAGs_concat changes dags Hrun) as (Hndc & Hto & _).
    split.
    + destruct changes as [|c0 changes']; [constructor|].
      apply (BuildDAGs_result (c0 :: changes') dags ltac:(discriminate) Hrun).
    + intros x Hx. apply (topoOrdered_acyclic _ Hndc Hto x).
      eapply tc_subrel; [|exact Hx]. intros a b Hab. apply tc_once.
      eapply edge_mono; [|exact Hab]. apply (BuildDAGs_covers changes dags Hrun).
  - intros [Hnd Hac]. destruct changes as [|c0 changes']; [exists []; reflexivity|].
    set (changes := c0 :: changes') in *.
    destruct (BuildDAGs_stages changes ltac:(discriminate) Hnd)
      as (known & parent & comps & Hspec & _ & _ & Hcomps & Hlists & Heq).
    rewrite Heq.
    destruct (sortEach_ok changes known comps (go.SortInts (map fst (map_to_list comps))))
      with (acc := @nil jj.ChangeDAG) as [dags Hdags]; [|eauto].
    intros r _.
    assert (Hn : NoDup (default [] (comps !! r))).
    { destruct (comps !! r) as [ms|] eqn:Hr; cbn [default]; [|constructor].
      apply (Hlists r ms Hr). }
    assert (Hr : Forall (fun i => (i < length changes)%nat) (default [] (comps !! r))).
    { apply Forall_forall. intros i Hi. apply Hcomps in Hi. tauto. }
    destruct (topoSort_run changes known Hnd Hspec _ Hn Hr)
      as (mems & sorted & byID & deg & Hmems & Hinv & ->).
    destruct (decide _) as [Hlen|_]; [exfalso|eauto].
    rewrite (Forall2_length _ _ _ Hmems) in Hlen.
    destruct (kahnInv_cycle mems (members_NoDup changes Hnd _ _ Hn Hmems) deg sorted Hinv Hlen)
      as [x Hx].
    apply (Hac x). eapply tc_subrel; [|exact Hx]. intros a b Hab. apply tc_once.
    eapply edge_mono; [|exact Hab]. intros c Hc.
    apply list_elem_of_lookup in Hc as [k Hk].
    destruct (Forall2_lookup_r _ _ _ _ _ Hmems Hk) as (i & _ & Hi).
    eapply list_elem_of_lookup_2, Hi.
Qed.

(** X5.  On a list of distinct changes whose parent relation has a cycle,
    [BuildDAGs] returns the cycle error, which reports fewer changes sorted
    than the component has. *)
Theorem BuildDAGs_cycle (changes : list jj.Change) (x : string) :
  NoDup (map jj.ChangeID changes) -> tc (edge changes) x x ->
  exists sorted total : nat,
    (sorted < total)%nat /\
    jj.BuildDAGs changes
    = go.Raise (go.Errorf "cycle detected in change graph (%d of %d changes sorted)"
                  [go.FInt (Z.of_nat sorted); go.FInt (Z.of_nat total)]).
Proof.
  intros Hnd Hx.
  destruct (BuildDAGs_total changes) as [[dags Hrun]|[e He]].
  { exfalso. destruct (BuildDAGs_concat changes dags Hrun) as (Hndc & Hto & _).
    apply (topoOrdered_acyclic _ Hndc Hto x).
    eapply tc_subrel; [|exact Hx]. intros a b Hab. apply tc_once.
    eapply edge_mono; [|exact Hab]. apply (BuildDAGs_covers changes dags Hrun). }
  destruct changes as [|c0 changes']; [discriminate|].
  set (changes := c0 :: changes') in *.
  destruct (BuildDAGs_stages changes ltac:(discriminate) Hnd)
    as (known & parent & comps & Hspec & _ & _ & Hcomps & Hlists & Heq).
  rewrite Heq in He. rewrite Heq.
  destruct (sortEach_error _ _ _ _ _ _ He) as (r & _ & Hr).
  assert (Hn : NoDup (default [] (comps !! r))).
  { destruct (comps !! r) as [ms|] eqn:Hms; cbn [default]; [|constructor].
    apply (Hlists r ms Hms). }
  assert (Hrange : Forall (fun i => (i < length changes)%nat) (default [] (comps !! r))).
  { apply Forall_forall. intros i Hi. apply Hcomps in Hi. tauto. }
  destruct (topoSort_run changes known Hnd Hspec _ Hn Hrange)
    as (mems & sorted & byID & deg & Hmems & Hinv & Hsort).
  rewrite Hsort in Hr. destruct (decide _) as [Hlen|_]; [|discriminate].
  injection Hr as <-. rewrite He.
  exists (length sorted), (length (default [] (comps !! r))). split; [|reflexivity].
  pose proof (kahnInv_length mems _ _ _ Hinv) as Hle. simpl in Hle.
  rewrite <- (Forall2_length _ _ _ Hmems) in Hle. lia.
Qed.

Lemma BuildDAGs_cycle_witness :
  exists sorted total : nat,
    (sorted < total)%nat /\
    jj.BuildDAGs [jj.mkChange "a" "c1" "one" ["b"] []; jj.mkChange "b" "c2" "two" ["a"] []]
    = go.Raise (go.Errorf "cycle detected in change graph (%d of %d changes sorted)"
                  [go.FInt (Z.of_nat sorted); go.FInt (Z.of_nat total)]).
Proof.
  apply (BuildDAGs_cycle
           [jj.mkChange "a" "c1" "one" ["b"] []; jj.mkChange "b" "c2" "two" ["a"] []] "a").
  - simpl. apply NoDup_cons. split; [|apply NoDup_singleton].
    intros Hin. apply list_elem_of_singleton in Hin. discriminate.
  - eapply tc_l; [|apply tc_once].
    + exists (jj.mkChange "a" "c1" "one" ["b"] []), (jj.mkChange "b" "c2" "two" ["a"] []).
      split; [left|]. split; [right; left|]. repeat split. simpl. left.
    + exists (jj.mkChange "b" "c2" "two" ["a"] []), (jj.mkChange "a" "c1" "one" ["b"] []).
      split; [right; left|]. split; [left|]. repeat split. simpl. left.
Defined.

(** ** ChangeGraph: the index and the leaves of a DAG *)

Section Index.
Variable all : list jj.Change.
Variable known : gmap string nat.
Variable mems : list jj.Change.
Variable children : gmap string (list string).

Hypothesis Hknown : forall c, c ∈ mems ->
  exists i, known !! jj.ChangeID c = Some i /\ all !! i = Some c.
Hypothesis Hnd : NoDup (map jj.ChangeID mems).
Hypothesis Hkids : forall c p, c ∈ mems ->
  occ (jj.ChangeID c) (default [] (children !! p))
  = if decide (p ∈ map jj.ChangeID mems) then occ p (jj.ParentIDs c) else 0%nat.
Hypothesis Hkids_in : forall kid p, kid ∈ default [] (children !! p) -> kid ∈ map jj.ChangeID mems.

(** Kahn's loop keeps [byID] the index of the emitted changes. *)
Lemma kahn_indexes (fuel : nat) :
  forall queue inDegree sorted byID sorted' byID',
    kahnInv mems queue inDegree sorted -> indexes byID sorted ->
    jj.kahn fuel all known children queue inDegree sorted byID = go.Ret (sorted', byID') ->
    indexes byID' sorted'.
Proof.
  induction fuel as [|fuel IH]; intros queue inDegree sorted byID sorted' byID' Hinv Hidx Hrun.
  - destruct queue; [injection Hrun as <- <-; exact Hidx|discriminate].
  - destruct queue as [|id queue]; [injection Hrun as <- <-; exact Hidx|].
    cbn [jj.kahn] in Hrun.
    assert (Hid : id ∈ map jj.ChangeID mems).
    { destruct Hinv as (_ & Iin & _). apply Iin, elem_of_app. right. left. }
    destruct (member_by_id mems id Hid) as (c & Hc & Hcid).
    destruct (Hknown c Hc) as (i & Hk & Hi). rewrite Hcid in Hk.
    rewrite Hk in Hrun. simpl in Hrun. unfold go.index in Hrun. rewrite Hi in Hrun.
    simpl in Hrun.
    pose proof (kahn_step mems children Hkids Hkids_in id queue inDegree sorted c
                  Hinv Hc Hcid) as Hstep.
    destruct (foldl jj.releaseKid _ _) as [deg' queue'].
    apply (IH _ _ _ _ _ _ Hstep) in Hrun; [exact Hrun|].
    assert (Hfresh : id ∉ map jj.ChangeID sorted).
    { destruct Hinv as (I1 & _). apply NoDup_app in I1 as (_ & Hd & _).
      intros Hin. apply (Hd id Hin). left. }
    intros id' c'. destruct (decide (id' = id)) as [->|Hne].
    + rewrite lookup_insert_eq. split.
      * intros [= <-]. split; [apply elem_of_app; right; left|exact Hcid].
      * intros [Hin Hid']. f_equal. apply elem_of_app in Hin as [Hin|Hin].
        -- exfalso. apply Hfresh. rewrite <- Hid'. apply list_elem_of_fmap. eauto.
        -- apply list_elem_of_singleton in Hin. congruence.
    + rewrite lookup_insert_ne by congruence. rewrite (Hidx id' c'). split.
      * intros [Hin Hid']. split; [apply elem_of_app; auto|exact Hid'].
      * intros [Hin Hid']. split; [|exact Hid'].
        apply elem_of_app in Hin as [Hin|Hin]; [exact Hin|].
        apply list_elem_of_singleton in Hin. congruence.
Qed.

End Index.

Section TopoSortIndex.
Variable all : list jj.Change.
Variable known : gmap string nat.
Hypothesis Hall : NoDup (map jj.ChangeID all).
Hypothesis Hknown : forall id i,
  known !! id = Some i <-> exists c, all !! i = Some c /\ jj.ChangeID c = id.

(** The [ByID] of the DAG that [topoSort] returns indexes its changes. *)
Lemma topoSort_indexes (memberIndices : list nat) (dag : jj.ChangeDAG) :
  NoDup memberIndices ->
  Forall (fun i => (i < length all)%nat) memberIndices ->
  jj.topoSort all memberIndices known = go.Ret dag ->
  indexes (jj.ByID dag) (jj.Changes dag).
Proof.
  intros Hndi Hrange. unfold jj.topoSort.
  destruct (collect_members all memberIndices Hrange []) as (mems & Hmems & Hf).
  rewrite Hmems. simpl app. cbn [go.obind].
  set (comp := foldl (fun s c => s ∪ {[jj.ChangeID c]}) ∅ mems).
  assert (Hcomp : forall x, x ∈ comp <-> x ∈ map jj.ChangeID mems).
  { intros x. unfold comp. rewrite inComponent_spec, elem_of_empty. tauto. }
  pose proof (members_NoDup all Hall _ _ Hndi Hf) as Hnd.
  destruct (tables_spec comp mems Hnd ∅ ∅) as (T1 & T2 & T3 & _).
  destruct (foldl (jj.countMember comp) (∅, ∅) mems) as [inDegree children].
  simpl in T1, T2, T3.
  assert (Hpend : forall c, c ∈ mems ->
            inDegree !! jj.ChangeID c = Some (Z.of_nat (pending (map jj.ChangeID mems) [] c))).
  { intros c Hc. rewrite T1 by exact Hc. do 2 f_equal. unfold pending.
    apply filter_length_ext. intros p. rewrite Hcomp, elem_of_nil. tauto. }
  assert (Hocc0 : forall kid p, occ kid (default [] ((∅ : gmap string (list string)) !! p)) = 0%nat).
  { intros kid p. rewrite lookup_empty. reflexivity. }
  set (queue := go.SortStrings _).
  assert (Hq : forall x, x ∈ queue <->
            exists c, c ∈ mems /\ jj.ChangeID c = x /\ default 0 (inDegree !! x) = 0).
  { intros x. unfold queue, go.SortStrings. rewrite merge_sort_Permutation.
    rewrite list_elem_of_fmap. split.
    - intros (c & -> & Hc). apply list_elem_of_filter in Hc as [Hz Hc]. eauto.
    - intros (c & Hc & <- & Hz). exists c. split; [reflexivity|].
      apply list_elem_of_filter. auto. }
  assert (Hinit : kahnInv mems queue inDegree []).
  { unfold kahnInv. cbv zeta. simpl.
    split; [|split; [|split; [|split; [|split]]]].
    + unfold queue, go.SortStrings. rewrite merge_sort_Permutation.
      eapply sublist_NoDup; [exact Hnd|]. apply fmap_sublist, sublist_filter.
    + intros x Hx. apply Hq in Hx as (c & Hc & <- & _). apply list_elem_of_fmap. eauto.
    + exact Hpend.
    + intros c Hc. rewrite Hq. split.
      * intros (c' & Hc' & Hid & Hz). rewrite Hpend in Hz by exact Hc. simpl in Hz. lia.
      * intros Hz. exists c. repeat split; [exact Hc|].
        rewrite Hpend by exact Hc. simpl. lia.
    + intros c Hc. apply elem_of_nil in Hc. contradiction.
    + intros j c Hj. discriminate. }
  destruct (jj.kahn _ _ _ _ _ _ _ _) as [[sorted byID]| | |] eqn:Hrun; try discriminate.
  cbn [go.obind]. destruct (decide _); [discriminate|]. intros [= <-]. simpl.
  eapply (kahn_indexes all known mems children); [| | |exact Hinit| |exact Hrun].
  - intros c Hc. apply list_elem_of_lookup in Hc as [a Ha].
    destruct (Forall2_lookup_r _ _ _ _ _ Hf Ha) as (i & Hi & Hai).
    exists i. split; [|exact Hai]. apply Hknown. eauto.
  - intros c p Hc. rewrite T2, Hocc0 by exact Hc. simpl.
    destruct (decide (p ∈ comp)) as [Hin|Hout];
      destruct (decide (p ∈ map jj.ChangeID mems)) as [Hin'|Hout']; try reflexivity.
    + exfalso. apply Hout', Hcomp, Hin.
    + exfalso. apply Hout, Hcomp, Hin'.
  - intros kid p Hkid.
    destruct (decide (kid ∈ map jj.ChangeID mems)) as [|Hout]; [assumption|].
    exfalso. apply occ_pos in Hkid. rewrite T3, Hocc0 in Hkid by exact Hout. lia.
  - intros id c. rewrite lookup_empty. split; [discriminate|].
    intros [Hc _]. apply elem_of_nil in Hc. contradiction.
Qed.

End TopoSortIndex.

(** The leaves of a DAG whose [ByID] indexes its changes: the changes that
    no change of the DAG names as a parent. *)
Lemma LeafChanges_leaves (dag : jj.ChangeDAG) (c : jj.Change) :
  indexes (jj.ByID dag) (jj.Changes dag) ->
  c ∈ jj.LeafChanges dag <->
  c ∈ jj.Changes dag /\
  forall child, child ∈ jj.Changes dag -> jj.ChangeID c ∉ jj.ParentIDs child.
Proof.
  intros Hidx. unfold jj.LeafChanges.
  set (inner := fun (h : gset string) (pid : string) =>
                  if bool_decide (is_Some (jj.ByID dag !! pid)) then h ∪ {[pid]} else h).
  assert (Hinner : forall pids h x,
            x ∈ foldl inner h pids <->
            x ∈ h \/ (x ∈ pids /\ is_Some (jj.ByID dag !! x))).
  { induction pids as [|p pids IH]; intros h x; simpl.
    - rewrite elem_of_nil. tauto.
    - rewrite IH, elem_of_cons. unfold inner.
      destruct (bool_decide (is_Some (jj.ByID dag !! p))) eqn:E.
      + apply bool_decide_eq_true in E. rewrite elem_of_union, elem_of_singleton.
        split; [intros [[H| ->]|[H1 H2]]; auto|].
        intros [H|[[->|H1] H2]]; auto.
      + apply bool_decide_eq_false in E.
        split; [intros [H|[H1 H2]]; auto|].
        intros [H|[[->|H1] H2]]; auto. contradiction. }
  assert (Houter : forall l h x,
            x ∈ foldl (fun h c => foldl inner h (jj.ParentIDs c)) h l <->
            x ∈ h \/ (exists child, child ∈ l /\ x ∈ jj.ParentIDs child /\
                                    is_Some (jj.ByID dag !! x))).
  { induction l as [|d l IH]; intros h x; simpl.
    - split; [auto|]. intros [H|(child & Hc & _)]; [exact H|].
      apply elem_of_nil in Hc. contradiction.
    - rewrite IH, Hinner. split.
      + intros [[H|[H1 H2]]|(child & Hc & H1 & H2)]; auto.
        * right. exists d. split; [left|auto].
        * right. exists child. split; [right; exact Hc|auto].
      + intros [H|(child & Hc & H1 & H2)]; [auto|].
        apply elem_of_cons in Hc as [->|Hc]; [auto|]. right. eauto. }
  rewrite list_elem_of_filter.
  change (foldl _ ∅ (jj.Changes dag))
    with (foldl (fun h c => foldl inner h (jj.ParentIDs c)) (∅ : gset string) (jj.Changes dag)).
  rewrite Houter. split.
  - intros [Hno Hc]. split; [exact Hc|]. intros child Hchild Hin. apply Hno. right.
    exists child. split; [exact Hchild|]. split; [exact Hin|].
    exists c. apply Hidx. auto.
  - intros [Hc Hno]. split; [|exact Hc].
    intros [H|(child & Hchild & Hin & _)]; [apply elem_of_empty in H; exact H|].
    eapply Hno; eassumption.
Qed.

(** A non-empty DAG in topological order has a leaf: its last change. *)
Lemma LeafChanges_nonempty (dag : jj.ChangeDAG) :
  indexes (jj.ByID dag) (jj.Changes dag) ->
  topoOrdered (jj.Changes dag) -> jj.Changes dag <> [] ->
  jj.LeafChanges dag <> [].
Proof.
  intros Hidx Hto Hne.
  destruct (exists_last Hne) as (l & c0 & E).
  assert (Hlast : c0 ∈ jj.LeafChanges dag).
  { apply LeafChanges_leaves; [exact Hidx|]. rewrite E. split.
    - apply elem_of_app. right. left.
    - intros child Hchild Hp. apply list_elem_of_lookup in Hchild as [j Hj].
      assert (Hc0 : (l ++ [c0]) !! length l = Some c0).
      { rewrite lookup_app_r, Nat.sub_diag by lia. reflexivity. }
      rewrite E in Hto. pose proof (Hto _ _ _ _ Hc0 Hj Hp) as Hlt.
      apply lookup_lt_Some in Hj. rewrite length_app in Hj. simpl in Hj. lia. }
  intros E'. rewrite E' in Hlast. apply elem_of_nil in Hlast. exact Hlast.
Qed.

(** The DAGs of [BuildDAGs]: each is indexed by its [ByID], in topological
    order and not empty. *)
Lemma BuildDAGs_wellformed (changes : list jj.Change) (dags : list jj.ChangeDAG) :
  jj.BuildDAGs changes = go.Ret dags ->
  forall dag, dag ∈ dags ->
    indexes (jj.ByID dag) (jj.Changes dag) /\ topoOrdered (jj.Changes dag) /\
    jj.Changes dag <> [].
Proof.
  intros Hrun dag Hdag.
  destruct changes as [|c0 changes'].
  { injection Hrun as <-. apply elem_of_nil in Hdag. contradiction. }
  set (changes := c0 :: changes') in *.
  destruct (BuildDAGs_result changes dags ltac:(discriminate) Hrun)
    as (_ & parent' & roots' & _ & _ & _ & Hres).
  destruct (BuildDAGs_run changes ltac:(discriminate))
    as [[e He]|(known & parent & roots & dags' & Hnd & Hspec & Hrun' & _ & _ & Hall)];
    [congruence|].
  rewrite Hrun in Hrun'. injection Hrun' as <-.
  apply list_elem_of_lookup in Hdag as [k Hk].
  destruct (Forall2_lookup_r _ _ _ _ _ Hall Hk) as (r & _ & ms & Hn & Hr & _ & Hsort).
  destruct (Forall2_lookup_r _ _ _ _ _ Hres Hk) as (r' & _ & Hne & _).
  split; [eapply topoSort_indexes; eassumption|]. split; [|exact Hne].
  destruct (topoSort_run changes known Hnd Hspec ms Hn Hr)
    as (mems & sorted & byID & deg & _ & Hinv & Heq).
  rewrite Heq in Hsort. destruct (decide _); [discriminate|].
  injection Hsort as <-. simpl. eapply kahnInv_ordered, Hinv.
Qed.

(** X6.  In every DAG that [BuildDAGs] returns, [ByID] indexes the changes
    of the DAG: an id is a key exactly when a change of the DAG has it, and
    the entry is that change. *)
Theorem BuildDAGs_ByID (changes : list jj.Change) (dags : list jj.ChangeDAG) :
  jj.BuildDAGs changes = go.Ret dags ->
  forall dag, dag ∈ dags ->
  forall id c, jj.ByID dag !! id = Some c <-> c ∈ jj.Changes dag /\ jj.ChangeID c = id.
Proof.
  intros Hrun dag Hdag. apply (BuildDAGs_wellformed changes dags Hrun dag Hdag).
Qed.

Lemma BuildDAGs_ByID_witness :
  exists dag, jj.BuildDAGs diamondChanges = go.Ret [dag] /\
    forall id c, jj.ByID dag !! id = Some c <-> c ∈ jj.Changes dag /\ jj.ChangeID c = id.
Proof.
  assert (Hrun : exists dag, jj.BuildDAGs diamondChanges = go.Ret [dag]).
  { vm_compute. eexists. reflexivity. }
  destruct Hrun as (dag & Hrun). exists dag. split; [exact Hrun|].
  apply (BuildDAGs_ByID diamondChanges [dag] Hrun dag). left.
Defined.

(** X7.  The leaves of a DAG that [BuildDAGs] returns are the changes of
    the DAG that no change of the DAG names as a parent, in the order of the
    DAG, and there is at least one. *)
Theorem LeafChanges_tips (changes : list jj.Change) (dags : list jj.ChangeDAG) :
  jj.BuildDAGs changes = go.Ret dags ->
  forall dag, dag ∈ dags ->
    jj.LeafChanges dag <> [] /\
    jj.LeafChanges dag `sublist_of` jj.Changes dag /\
    forall c, c ∈ jj.LeafChanges dag <->
              c ∈ jj.Changes dag /\
              forall child, child ∈ jj.Changes dag -> jj.ChangeID c ∉ jj.ParentIDs child.
Proof.
  intros Hrun dag Hdag.
  destruct (BuildDAGs_wellformed changes dags Hrun dag Hdag) as (Hidx & Hto & Hne).
  split; [apply LeafChanges_nonempty; assumption|].
  split; [apply sublist_filter|].
  intros c. apply LeafChanges_leaves, Hidx.
Qed.

Lemma LeafChanges_tips_witness :
  exists dag, jj.BuildDAGs diamondChanges = go.Ret [dag] /\
    jj.LeafChanges dag <> [] /\
    jj.LeafChanges dag `sublist_of` jj.Changes dag /\
    forall c, c ∈ jj.LeafChanges dag <->
              c ∈ jj.Changes dag /\
              forall child, child ∈ jj.Changes dag -> jj.ChangeID c ∉ jj.ParentIDs child.
Proof.
  assert (Hrun : exists dag, jj.BuildDAGs diamondChanges = go.Ret [dag]).
  { vm_compute. eexists. reflexivity. }
  destruct Hrun as (dag & Hrun). exists dag. split; [exact Hrun|].
  apply (LeafChanges_tips diamondChanges [dag] Hrun dag). left.
Defined.

(** ** BookmarkAssigner: matching and assignment *)

Section Matching.

Lemma commitToChange_spec (changes : list jj.Change) :
  NoDup (map jj.CommitID changes) ->
  forall (commit id : string),
    foldl (fun m c => <[jj.CommitID c := jj.ChangeID c]> m) (∅ : gmap string string) changes
      !! commit = Some id <->
    exists c, c ∈ changes /\ jj.CommitID c = commit /\ jj.ChangeID c = id.
Proof.
  induction changes as [|c l IH] using rev_ind; intros Hnd commit id.
  - simpl. rewrite lookup_empty. split; [discriminate|].
    intros (c & Hc & _). apply elem_of_nil in Hc. contradiction.
  - rewrite map_app in Hnd. apply NoDup_app in Hnd as (Hnd & Hfresh & _).
    rewrite foldl_app. simpl.
    destruct (decide (commit = jj.CommitID c)) as [->|Hne].
    + rewrite lookup_insert_eq. split.
      * intros [= <-]. exists c. split; [apply elem_of_app; right; left|auto].
      * intros (c' & Hc' & Hcommit & <-). f_equal.
        apply elem_of_app in Hc' as [Hc'|Hc'].
        -- exfalso. apply (Hfresh (jj.CommitID c)); [|simpl; left].
           rewrite <- Hcommit. apply list_elem_of_fmap. eauto.
        -- apply list_elem_of_singleton in Hc' as ->. reflexivity.
    + rewrite lookup_insert_ne by congruence. rewrite (IH Hnd). split.
      * intros (c' & Hc' & H1 & H2). exists c'. split; [apply elem_of_app; auto|auto].
      * intros (c' & Hc' & H1 & H2). exists c'. split; [|auto].
        apply elem_of_app in Hc' as [Hc'|Hc']; [exact Hc'|].
        apply list_elem_of_singleton in Hc' as ->. congruence.
Qed.

(** The list under a change id is what the loop over the bookmarks has
    filed there. *)
Lemma matched_spec (commitToChange : gmap string string) (bookmarks : list jj.BookmarkInfo)
    (id : string) :
  default [] (foldl (fun result b =>
                       if negb (jj.bi_Present b) || String.eqb (jj.bi_Target b) "" then result
                       else match commitToChange !! jj.bi_Target b with
                            | Some changeID =>
                                <[changeID := default [] (result !! changeID) ++ [b]]> result
                            | None => result
                            end)
                    (∅ : gmap string (list jj.BookmarkInfo)) bookmarks !! id)
  = filter (fun b => hasTarget b /\ commitToChange !! jj.bi_Target b = Some id) bookmarks.
Proof.
  induction bookmarks as [|b l IH] using rev_ind; [reflexivity|].
  rewrite foldl_app, filter_app. simpl. rewrite filter_cons, filter_nil.
  assert (Hcond : negb (jj.bi_Present b) || String.eqb (jj.bi_Target b) "" = false
                  <-> hasTarget b).
  { unfold hasTarget. destruct (jj.bi_Present b); simpl;
      destruct (String.eqb_spec (jj.bi_Target b) ""); intuition congruence. }
  destruct (negb (jj.bi_Present b) || String.eqb (jj.bi_Target b) "") eqn:Ec.
  { rewrite IH. destruct (decide _) as [[Hh _]|_].
    - apply Hcond in Hh. discriminate.
    - rewrite app_nil_r. reflexivity. }
  assert (Hh : hasTarget b) by (apply Hcond; reflexivity).
  destruct (commitToChange !! jj.bi_Target b) as [cid|] eqn:Hc.
  - destruct (decide (id = cid)) as [->|Hne].
    + rewrite lookup_insert_eq. simpl. rewrite IH.
      destruct (decide _) as [_|Hn]; [reflexivity|]. exfalso. apply Hn. auto.
    + rewrite lookup_insert_ne by congruence. rewrite IH.
      destruct (decide _) as [[_ ?]|_]; [congruence|]. rewrite app_nil_r. reflexivity.
  - rewrite IH. destruct (decide _) as [[_ ?]|_]; [discriminate|].
    rewrite app_nil_r. reflexivity.
Qed.

End Matching.

(** X8.  [MatchBookmarksToChanges] files a bookmark under a change exactly
    when the bookmark is present locally with a non-empty target that is the
    commit of the change; the bookmarks of a change keep the order of the
    list.  (For a DAG whose changes have distinct commits.) *)
Theorem MatchBookmarksToChanges_spec (dag : jj.ChangeDAG) (bookmarks : list jj.BookmarkInfo) :
  NoDup (map jj.CommitID (jj.Changes dag)) ->
  forall id,
    default [] (jj.MatchBookmarksToChanges dag bookmarks !! id)
    = filter (fun b => hasTarget b /\
                       (jj.bi_Target b, id)
                       ∈ map (fun c => (jj.CommitID c, jj.ChangeID c)) (jj.Changes dag))
             bookmarks.
Proof.
  intros Hnd id. unfold jj.MatchBookmarksToChanges. cbv zeta. rewrite matched_spec.
  induction bookmarks as [|b l IH]; [reflexivity|].
  rewrite !filter_cons. rewrite IH.
  pose proof (commitToChange_spec (jj.Changes dag) Hnd (jj.bi_Target b) id) as Hc.
  assert (Hiff : (foldl (fun m c => <[jj.CommitID c := jj.ChangeID c]> m)
                        (∅ : gmap string string) (jj.Changes dag)) !! jj.bi_Target b = Some id
                 <-> (jj.bi_Target b, id)
                     ∈ map (fun c => (jj.CommitID c, jj.ChangeID c)) (jj.Changes dag)).
  { rewrite Hc, list_elem_of_fmap. split.
    - intros (c & Hin & <- & <-). eauto.
    - intros (c & [= -> ->] & Hin). eauto. }
  destruct (decide (hasTarget b /\ _ !! jj.bi_Target b = Some id)) as [[H1 H2]|Hn];
    destruct (decide (hasTarget b /\ _ ∈ _)) as [[H3 H4]|Hn']; try reflexivity.
  - exfalso. apply Hn'. split; [exact H1|]. apply Hiff, H2.
  - exfalso. apply Hn. split; [exact H3|]. apply Hiff, H4.
Qed.

Lemma MatchBookmarksToChanges_spec_witness :
  default [] (jj.MatchBookmarksToChanges dagA
                [jj.mkBookmarkInfo "feature" "c-other" "x" true false ∅;
                 jj.mkBookmarkInfo "mine" (jj.CommitID changeA) "kkkkkkkkkkkk" true false ∅;
                 jj.mkBookmarkInfo "gone" (jj.CommitID changeA) "kkkkkkkkkkkk" false false ∅]
              !! "kkkkkkkkkkkk")
  = [jj.mkBookmarkInfo "mine" (jj.CommitID changeA) "kkkkkkkkkkkk" true false ∅].
Proof.
  rewrite (MatchBookmarksToChanges_spec dagA).
  - vm_compute. reflexivity.
  - simpl. apply NoDup_singleton.
Defined.

Section Assigning.
Context `{go.Unicode} {W : Type}.
Variable runner : jj.Runner W.
Variable bookmarks : list jj.BookmarkInfo.
Variable matched : gmap string (list jj.BookmarkInfo).
Variable bookmarkByName : gmap string jj.BookmarkInfo.
Variable pushRemote : string.
Variable shouldUseExisting : option (string -> string -> bool).
Variable createNew : bool.

Hypothesis Hmatched : forall id b, b ∈ default [] (matched !! id) -> b ∈ bookmarks.
Hypothesis HbyName : forall name,
  is_Some (bookmarkByName !! name) <-> name ∈ map jj.bi_Name bookmarks.
Hypothesis HbyName_elem : forall name b,
  bookmarkByName !! name = Some b -> b ∈ bookmarks /\ jj.bi_Name b = name.

Lemma find_candidates (change : jj.Change) :
  match List.find (fun b => match shouldUseExisting with
                            | None => true
                            | Some f => f (jj.ChangeID change) (jj.bi_Name b)
                            end) (default [] (matched !! jj.ChangeID change)) with
  | Some b => head (candidates matched shouldUseExisting change) = Some b /\ b ∈ bookmarks
  | None => candidates matched shouldUseExisting change = []
  end.
Proof.
  unfold candidates. pose proof (Hmatched (jj.ChangeID change)) as Hin.
  induction (default [] (matched !! jj.ChangeID change)) as [|b l IH]; simpl; [reflexivity|].
  fold (accepts shouldUseExisting change b).
  destruct (accepts shouldUseExisting change b).
  - split; [reflexivity|]. apply Hin. left.
  - apply IH. intros b' Hb'. apply Hin. right. exact Hb'.
Qed.

Lemma ensureLoop_assigned (changes : list jj.Change) :
  forall (result : list jj.ChangeBookmark) (st : go.state W jj.call) entries,
    (jj.ensureLoop runner matched bookmarkByName pushRemote shouldUseExisting createNew
                   changes result st).2 = go.Ret entries ->
    exists fresh,
      entries = result ++ fresh /\
      Forall2 (assigned matched bookmarks pushRemote shouldUseExisting)
              (if createNew then changes
               else List.filter (reusable matched bookmarks shouldUseExisting) changes)
              fresh /\
      (createNew = false -> Forall (fun cb => jj.cb_IsNew cb = false) fresh).
Proof.
  induction changes as [|change rest IH]; intros result st entries Hrun.
  - injection Hrun as <-. exists []. rewrite app_nil_r.
    split; [reflexivity|]. split; [destruct createNew; constructor|constructor].
  - simpl in Hrun. pose proof (find_candidates change) as Hfind.
    cbn [List.filter]. unfold reusable at 1.
    destruct (List.find _ _) as [b|].
    { destruct Hfind as [Hhead Hb].
      destruct (IH _ _ _ Hrun) as (fresh & -> & Hf & Hold).
      eexists (_ :: fresh). rewrite <- app_assoc. split; [reflexivity|].
      assert (Ha : assigned matched bookmarks pushRemote shouldUseExisting change
                     (jj.mkChangeBookmark (jj.ChangeID change) (jj.bi_Name b) false
                        (jj.SyncWith b pushRemote) (jj.bi_Conflict b) false)).
      { split; [reflexivity|]. simpl. exists b. auto. }
      split.
      - destruct (candidates matched shouldUseExisting change); [discriminate|].
        destruct createNew; constructor; assumption.
      - intros Hc. constructor; [reflexivity|exact (Hold Hc)]. }
    rewrite Hfind.
    fold (generatedName change) in Hrun.
    destruct (bookmarkByName !! generatedName change) as [bi|] eqn:Hname.
    { destruct (HbyName_elem _ _ Hname) as [Hbi Hbn].
      destruct (IH _ _ _ Hrun) as (fresh & -> & Hf & Hold).
      eexists (_ :: fresh). rewrite <- app_assoc. split; [reflexivity|].
      assert (Ha : assigned matched bookmarks pushRemote shouldUseExisting change
                     (jj.mkChangeBookmark (jj.ChangeID change) (generatedName change) false
                        (jj.SyncWith bi pushRemote) (jj.bi_Conflict bi) true)).
      { split; [reflexivity|]. simpl. exists bi. repeat split; first [assumption|reflexivity|symmetry; assumption]. }
      split.
      - rewrite bool_decide_eq_true_2 by (apply HbyName; eauto).
        destruct createNew; constructor; assumption.
      - intros Hc. constructor; [reflexivity|exact (Hold Hc)]. }
    assert (Hfresh : generatedName change ∉ map jj.bi_Name bookmarks).
    { intros Hin. apply HbyName in Hin as [? ?]. congruence. }
    rewrite bool_decide_eq_false_2 by exact Hfresh.
    destruct createNew eqn:Hcn; simpl in Hrun.
    2:{ destruct (IH _ _ _ Hrun) as (fresh & -> & Hf & Hold).
        exists fresh. auto. }
    unfold go.bind, go.perform in Hrun.
    destruct (jj.BookmarkSet runner _ _ (go.world st)) as [w' [e|]]; [discriminate|].
    destruct (IH _ _ _ Hrun) as (fresh & -> & Hf & Hold).
    eexists (_ :: fresh). rewrite <- app_assoc. split; [reflexivity|].
    split; [|discriminate].
    constructor; [|exact Hf]. split; [reflexivity|]. simpl. auto 10.
Qed.

(** Every call of the loop sets the generated name of a change, and no
    bookmark of the list has that name. *)
Lemma ensureLoop_sets_fresh (changes : list jj.Change) :
  forall (result : list jj.ChangeBookmark) (st : go.state W jj.call),
    exists calls,
      go.trace (jj.ensureLoop runner matched bookmarkByName pushRemote shouldUseExisting
                  createNew changes result st).1 = go.trace st ++ calls /\
      Forall (fun call => exists change,
                change ∈ changes /\
                call = jj.CallBookmarkSet (generatedName change) (jj.ChangeID change) /\
                generatedName change ∉ map jj.bi_Name bookmarks) calls.
Proof.
  induction changes as [|change rest IH]; intros result st.
  - exists []. simpl. rewrite app_nil_r. split; [reflexivity|constructor].
  - assert (Hweaken : forall calls,
              Forall (fun call => exists change,
                change ∈ rest /\
                call = jj.CallBookmarkSet (generatedName change) (jj.ChangeID change) /\
                generatedName change ∉ map jj.bi_Name bookmarks) calls ->
              Forall (fun call => exists change0,
                change0 ∈ change :: rest /\
                call = jj.CallBookmarkSet (generatedName change0) (jj.ChangeID change0) /\
                generatedName change0 ∉ map jj.bi_Name bookmarks) calls).
    { intros calls Hf. eapply Forall_impl; [exact Hf|].
      intros call (c & Hc & Hcall & Hfresh). exists c. split; [right; exact Hc|auto]. }
    simpl. destruct (List.find _ _) as [b|].
    { destruct (IH (result ++ [jj.mkChangeBookmark (jj.ChangeID change) (jj.bi_Name b) false
                                 (jj.SyncWith b pushRemote) (jj.bi_Conflict b) false]) st)
        as (calls & Ht & Hf). exists calls. split; [exact Ht|apply Hweaken, Hf]. }
    fold (generatedName change).
    destruct (bookmarkByName !! generatedName change) as [bi|] eqn:Hname.
    { match goal with |- context [jj.ensureLoop _ _ _ _ _ _ rest ?r st] =>
        destruct (IH r st) as (calls & Ht & Hf) end.
      exists calls. split; [exact Ht|apply Hweaken, Hf]. }
    destruct createNew; simpl.
    2:{ destruct (IH result st) as (calls & Ht & Hf).
        exists calls. split; [exact Ht|apply Hweaken, Hf]. }
    assert (Hfresh : generatedName change ∉ map jj.bi_Name bookmarks).
    { intros Hin. apply HbyName in Hin as [? ?]. congruence. }
    unfold go.bind, go.perform.
    destruct (jj.BookmarkSet runner _ _ (go.world st)) as [w' [e|]].
    + eexists [_]. simpl. split; [reflexivity|]. constructor; [|constructor].
      exists change. split; [left|auto].
    + match goal with |- context [jj.ensureLoop _ _ _ _ _ _ rest ?r ?s] =>
        destruct (IH r s) as (calls & Ht & Hf) end.
      simpl in Ht. eexists (_ :: calls). split.
      * rewrite Ht, <- app_assoc. reflexivity.
      * constructor; [|apply Hweaken, Hf]. exists change. split; [left|auto].
Qed.

End Assigning.

Lemma bookmarkByName_spec (bookmarks : list jj.BookmarkInfo) (name : string) :
  is_Some (foldl (fun m b => <[jj.bi_Name b := b]> m) (∅ : gmap string jj.BookmarkInfo)
                 bookmarks !! name)
  <-> name ∈ map jj.bi_Name bookmarks.
Proof.
  induction bookmarks as [|b l IH] using rev_ind.
  - simpl. rewrite lookup_empty, elem_of_nil. split; [intros [? ?]; discriminate|tauto].
  - rewrite foldl_app, map_app, elem_of_app. simpl. rewrite list_elem_of_singleton.
    destruct (decide (name = jj.bi_Name b)) as [->|Hne].
    + rewrite lookup_insert_eq. split; [auto|eauto].
    + rewrite lookup_insert_ne by congruence. rewrite IH. tauto.
Qed.

Lemma bookmarkByName_elem (bookmarks : list jj.BookmarkInfo) (name : string)
    (b : jj.BookmarkInfo) :
  foldl (fun m b => <[jj.bi_Name b := b]> m) (∅ : gmap string jj.BookmarkInfo) bookmarks
    !! name = Some b ->
  b ∈ bookmarks /\ jj.bi_Name b = name.
Proof.
  induction bookmarks as [|b' l IH] using rev_ind.
  - simpl. rewrite lookup_empty. discriminate.
  - rewrite foldl_app. simpl.
    destruct (decide (name = jj.bi_Name b')) as [->|Hne].
    + rewrite lookup_insert_eq. intros [= <-]. split; [apply elem_of_app; right; left|reflexivity].
    + rewrite lookup_insert_ne by congruence. intros Hl. destruct (IH Hl) as [Hin Hn].
      split; [apply elem_of_app; left; exact Hin|exact Hn].
Qed.

Lemma matched_elem (dag : jj.ChangeDAG) (bookmarks : list jj.BookmarkInfo)
    (id : string) (b : jj.BookmarkInfo) :
  b ∈ default [] (jj.MatchBookmarksToChanges dag bookmarks !! id) -> b ∈ bookmarks.
Proof.
  unfold jj.MatchBookmarksToChanges. cbv zeta. rewrite matched_spec.
  intros Hb. apply list_elem_of_filter in Hb. tauto.
Qed.

(** X9.  When [EnsureBookmarks] returns its assignments, they follow the
    changes of the DAG in order: one for every change when [createNew] is
    set; otherwise one for every change that has a candidate or whose
    generated name a bookmark of the list has, and none of them new.  An
    assignment that is not new names a bookmark of the list and carries its
    sync state with the push remote and its conflict flag: the first matched
    bookmark the callback accepts, or, when there is none, a bookmark with
    the generated name, marked displaced.  A new assignment is made only
    when there is neither: it has the generated name of its change, which no
    bookmark of the list has, and is local-only, without conflict and not
    displaced. *)
Theorem EnsureBookmarks_entries `{go.Unicode} {W : Type} (runner : jj.Runner W)
    (dag : jj.ChangeDAG) (bookmarks : list jj.BookmarkInfo) (pushRemote : string)
    (shouldUseExisting : option (string -> string -> bool)) (createNew : bool)
    (st : go.state W jj.call) (entries : list jj.ChangeBookmark) :
  (jj.EnsureBookmarks runner dag bookmarks pushRemote shouldUseExisting createNew st).2
  = go.Ret entries ->
  let matched := jj.MatchBookmarksToChanges dag bookmarks in
  Forall2 (assigned matched bookmarks pushRemote shouldUseExisting)
          (if createNew then jj.Changes dag
           else List.filter (reusable matched bookmarks shouldUseExisting) (jj.Changes dag))
          entries /\
  (createNew = false -> Forall (fun cb => jj.cb_IsNew cb = false) entries).
Proof.
  intros Hrun matched. unfold jj.EnsureBookmarks in Hrun.
  destruct (ensureLoop_assigned runner bookmarks _ _ pushRemote shouldUseExisting createNew
              (matched_elem dag bookmarks) (bookmarkByName_spec bookmarks)
              (bookmarkByName_elem bookmarks)
              (jj.Changes dag) [] st entries Hrun)
    as (fresh & -> & Hf & Hold).
  split; assumption.
Qed.

Lemma EnsureBookmarks_entries_witness :
  Forall2 (assigned (H := asciiOnly) (jj.MatchBookmarksToChanges dagA featureBookmarks)
             featureBookmarks "origin" None)
          (List.filter (reusable (H := asciiOnly)
                          (jj.MatchBookmarksToChanges dagA featureBookmarks)
                          featureBookmarks None)
                       (jj.Changes dagA))
          [jj.mkChangeBookmark "kkkkkkkkkkkk" "feature" false jj.SyncInSync false false] /\
  (false = false ->
   Forall (fun cb => jj.cb_IsNew cb = false)
          [jj.mkChangeBookmark "kkkkkkkkkkkk" "feature" false jj.SyncInSync false false]).
Proof.
  apply (EnsureBookmarks_entries (H := asciiOnly) freshRunner dagA featureBookmarks "origin"
           None false (go.mkState [] [] [])).
  vm_compute. reflexivity.
Defined.

(** X10.  Whatever its outcome, [EnsureBookmarks] makes no call but
    [BookmarkSet], each for a change of the DAG under the generated name of
    that change, and never under the name of a bookmark of the list: it
    moves no existing bookmark. *)
Theorem EnsureBookmarks_sets_fresh `{go.Unicode} {W : Type} (runner : jj.Runner W)
    (dag : jj.ChangeDAG) (bookmarks : list jj.BookmarkInfo) (pushRemote : string)
    (shouldUseExisting : option (string -> string -> bool)) (createNew : bool)
    (st : go.state W jj.call) :
  exists calls,
    go.trace (jj.EnsureBookmarks runner dag bookmarks pushRemote shouldUseExisting
                createNew st).1 = go.trace st ++ calls /\
    Forall (fun call => exists change,
              change ∈ jj.Changes dag /\
              call = jj.CallBookmarkSet (generatedName change) (jj.ChangeID change) /\
              generatedName change ∉ map jj.bi_Name bookmarks) calls.
Proof.
  unfold jj.EnsureBookmarks.
  apply (ensureLoop_sets_fresh runner bookmarks _ _ pushRemote shouldUseExisting createNew
           (bookmarkByName_spec bookmarks)).
Qed.

(** ** BookmarkModel: the grouping of the listing *)

Section Listing.

Lemma match_git {A : Type} (r : option string) (x y : A) :
  r <> Some "git" ->
  match r with
  | Some "git" => x
  | _ => y
  end = y.
Proof.
  intros Hr. destruct r as [s|]; [|reflexivity].
  destruct s as [|[[] [] [] [] [] [] [] []] s]; try reflexivity.
  destruct s as [|[[] [] [] [] [] [] [] []] s]; try reflexivity.
  destruct s as [|[[] [] [] [] [] [] [] []] s]; try reflexivity.
  destruct s; [contradiction|reflexivity].
Qed.

Lemma groupEntry_git (acc : gmap string (jj.BookmarkInfo * nat) * nat)
    (e : jj.rawBookmarkEntry) :
  jj.raw_Remote e = Some "git" -> jj.groupEntry acc e = acc.
Proof. intros He. unfold jj.groupEntry. destruct acc. rewrite He. reflexivity. Qed.

Lemma groupEntry_inv (acc : gmap string (jj.BookmarkInfo * nat) * nat) (ns : list string)
    (e : jj.rawBookmarkEntry) :
  listed e -> groupInv acc ns ->
  groupInv (jj.groupEntry acc e)
           (if decide (jj.raw_Name e ∈ ns) then ns else ns ++ [jj.raw_Name e]).
Proof.
  intros He (J1 & J2 & J3 & J4 & J5). destruct acc as [byName counter]. simpl in *.
  unfold jj.groupEntry. rewrite match_git by exact He.
  destruct (byName !! jj.raw_Name e) as [[info order]|] eqn:Hn.
  - destruct (J1 _ _ _ Hn) as (Hk & Hname & Hgit).
    destruct (decide (jj.raw_Name e ∈ ns)) as [_|Hout];
      [|exfalso; apply Hout; eapply list_elem_of_lookup_2, Hk].
    set (info' := match jj.raw_Remote e with None => _ | Some r => _ end).
    assert (Hinfo : jj.bi_Name info' = jj.raw_Name e /\ jj.bi_Remotes info' !! "git" = None).
    { subst info'. destruct (jj.raw_Remote e) as [r|] eqn:Hr; [|auto].
      assert (r <> "git") by (intros ->; apply He; exact Hr).
      destruct (negb _ && _); simpl; (split; [exact Hname|]);
        rewrite lookup_insert_ne by congruence; exact Hgit. }
    clearbody info'. unfold groupInv. simpl. split; [|split; [|split; [|split]]]; auto.
    + intros name i k Hl. destruct (decide (name = jj.raw_Name e)) as [->|Hne].
      * rewrite lookup_insert_eq in Hl. injection Hl as <- <-. tauto.
      * rewrite lookup_insert_ne in Hl by congruence. eauto.
    + intros k name Hl. destruct (decide (name = jj.raw_Name e)) as [->|Hne].
      * rewrite lookup_insert_eq. eauto.
      * rewrite lookup_insert_ne by congruence. eauto.
    + rewrite map_size_insert_Some by eauto. exact J5.
  - destruct (decide (jj.raw_Name e ∈ ns)) as [Hin|Hout].
    { exfalso. apply list_elem_of_lookup in Hin as [k Hk].
      destruct (J2 _ _ Hk) as [? ?]. congruence. }
    set (info' := match jj.raw_Remote e with None => _ | Some r => _ end).
    assert (Hinfo : jj.bi_Name info' = jj.raw_Name e /\ jj.bi_Remotes info' !! "git" = None).
    { subst info'. destruct (jj.raw_Remote e) as [r|] eqn:Hr; [|auto].
      assert (r <> "git") by (intros ->; apply He; exact Hr).
      simpl. split; [reflexivity|].
      rewrite lookup_insert_ne by congruence. apply lookup_empty. }
    clearbody info'. unfold groupInv. simpl. split; [|split; [|split; [|split]]].
    + intros name i k Hl. destruct (decide (name = jj.raw_Name e)) as [->|Hne].
      * rewrite lookup_insert_eq in Hl. injection Hl as <- <-.
        split; [|tauto]. rewrite J4, lookup_app_r, Nat.sub_diag by lia. reflexivity.
      * rewrite lookup_insert_ne in Hl by congruence.
        destruct (J1 _ _ _ Hl) as (H1 & H2). split; [|exact H2].
        apply lookup_app_l_Some, H1.
    + intros k name Hl. destruct (decide (name = jj.raw_Name e)) as [->|Hne].
      * rewrite lookup_insert_eq. eauto.
      * rewrite lookup_insert_ne by congruence.
        apply lookup_app_Some in Hl as [Hl|[_ Hl]]; [eauto|].
        destruct (k - length ns)%nat; simpl in Hl; [congruence|discriminate].
    + apply NoDup_app. split; [exact J3|]. split; [|apply NoDup_singleton].
      intros x Hx Hx'. apply list_elem_of_singleton in Hx' as ->. contradiction.
    + rewrite length_app. simpl. lia.
    + rewrite map_size_insert_None by exact Hn. rewrite length_app. simpl. lia.
Qed.

Lemma groupEntries_inv (entries : list jj.rawBookmarkEntry) :
  forall acc ns,
    groupInv acc ns ->
    groupInv (foldl jj.groupEntry acc entries)
             (foldl (fun acc x => if decide (x ∈ acc) then acc else acc ++ [x]) ns
                    (map jj.raw_Name (filter listed entries))).
Proof.
  induction entries as [|e entries IH]; intros acc ns Hinv; [exact Hinv|].
  simpl. rewrite filter_cons. destruct (decide (listed e)) as [He|He].
  - simpl. apply IH, groupEntry_inv; assumption.
  - rewrite groupEntry_git; [apply IH, Hinv|].
    unfold listed in He. destruct (decide (jj.raw_Remote e = Some "git")); [assumption|].
    contradiction.
Qed.

(** The slice filled by order holds the group of the [k]-th name at [k]. *)
Lemma fill_by_order (byName : gmap string (jj.BookmarkInfo * nat)) (ns : list string) :
  groupInv (byName, length ns) ns ->
  forall k name, ns !! k = Some name ->
    exists info,
      byName !! name = Some (info, k) /\
      foldr (fun '(_, (info, order)) result => <[order := info]> result)
            (replicate (size byName) (jj.newBookmarkInfo ""))
            (map_to_list byName) !! k = Some info.
Proof.
  intros (J1 & J2 & J3 & J4 & J5) k name Hk. simpl in *.
  destruct (J2 k name Hk) as [[info k'] Hl].
  destruct (J1 _ _ _ Hl) as (Hk' & _).
  assert (k' = k) as -> by (eapply NoDup_lookup; eassumption).
  exists info. split; [exact Hl|].
  assert (Hin : (name, (info, k)) ∈ map_to_list byName) by (apply elem_of_map_to_list, Hl).
  assert (Hsub : forall x, x ∈ map_to_list byName -> byName !! x.1 = Some x.2).
  { intros [n v] Hx. apply elem_of_map_to_list, Hx. }
  pose proof (NoDup_fst_map_to_list byName) as Hnd.
  assert (Hlen : forall L : list (string * (jj.BookmarkInfo * nat)),
            length (foldr (fun '(_, (info, order)) result => <[order := info]> result)
                          (replicate (size byName) (jj.newBookmarkInfo "")) L)
            = size byName).
  { induction L as [|[n [i o]] L IHL]; simpl; [apply length_replicate|].
    rewrite length_insert. exact IHL. }
  assert (G : forall L : list (string * (jj.BookmarkInfo * nat)),
            (name, (info, k)) ∈ L -> (forall x, x ∈ L -> byName !! x.1 = Some x.2) ->
            NoDup L.*1 ->
            foldr (fun '(_, (info, order)) result => <[order := info]> result)
                  (replicate (size byName) (jj.newBookmarkInfo "")) L !! k = Some info).
  { clear Hin Hsub Hnd. induction L as [|[n [i o]] L IHL]; intros Hin Hsub Hnd.
    - apply elem_of_nil in Hin. contradiction.
    - simpl. simpl in Hnd. apply NoDup_cons in Hnd as [Hfresh Hnd].
      apply elem_of_cons in Hin as [[= <- <- <-]|Hin].
      + apply list_lookup_insert_eq. rewrite Hlen, J5. eapply lookup_lt_Some, Hk.
      + assert (Ho : o <> k).
        { intros ->. pose proof (Hsub (n, (i, k)) ltac:(left)) as Hn. simpl in Hn.
          destruct (J1 _ _ _ Hn) as (Hkn & _).
          assert (n = name) as -> by congruence.
          apply Hfresh. apply list_elem_of_fmap. exists (name, (info, k)). auto. }
        rewrite list_lookup_insert_ne by exact Ho.
        apply IHL; [exact Hin| |exact Hnd].
        intros x Hx. apply Hsub. right. exact Hx. }
  apply G; assumption.
Qed.

End Listing.

(** X11.  [ParseBookmarkList] returns one group per bookmark name among the
    rows that are not of the internal [git] remote, in the order in which
    the names first occur; no group keeps an entry for the [git] remote. *)
Theorem ParseBookmarkList_groups `{jj.Decoders} (data : string)
    (entries : list jj.rawBookmarkEntry) :
  jj.decodeBookmarkEntries data = inr entries ->
  exists result,
    jj.ParseBookmarkList data = go.Ret result /\
    map jj.bi_Name result = firstOccurrences (map jj.raw_Name (filter listed entries)) /\
    NoDup (map jj.bi_Name result) /\
    Forall (fun b => jj.bi_Remotes b !! "git" = None) result.
Proof.
  intros Hdec. unfold jj.ParseBookmarkList. rewrite Hdec.
  pose proof (groupEntries_inv entries (∅, 0%nat) []) as Hinv.
  fold (firstOccurrences (map jj.raw_Name (filter listed entries))) in Hinv.
  set (ns := firstOccurrences _) in *.
  destruct (foldl jj.groupEntry (∅, 0%nat) entries) as [byName counter].
  assert (Hinv' : groupInv (byName, counter) ns).
  { apply Hinv. unfold groupInv. simpl. split; [|split; [|split; [|split]]].
    - intros name info k Hl. rewrite lookup_empty in Hl. discriminate.
    - intros k name Hl. discriminate.
    - constructor.
    - reflexivity.
    - apply map_size_empty. }
  clear Hinv. pose proof Hinv' as (J1 & J2 & J3 & J4 & J5). simpl in *. subst counter.
  eexists. split; [reflexivity|].
  set (result := foldr _ _ _).
  assert (Hlen : length result = length ns).
  { subst result. rewrite <- J5. generalize (map_to_list byName). intros L.
    induction L as [|[n [i o]] L IHL]; simpl; [apply length_replicate|].
    rewrite length_insert. exact IHL. }
  assert (Hat : forall k name, ns !! k = Some name ->
            exists info, result !! k = Some info /\ jj.bi_Name info = name /\
                         jj.bi_Remotes info !! "git" = None).
  { intros k name Hk. destruct (fill_by_order byName ns Hinv' k name Hk) as (info & Hl & Hr).
    exists info. split; [exact Hr|]. apply (J1 _ _ _ Hl). }
  assert (Hnames : map jj.bi_Name result = ns).
  { apply list_eq. intros k. rewrite list_lookup_fmap.
    destruct (ns !! k) as [name|] eqn:Hk.
    - destruct (Hat k name Hk) as (info & -> & <- & _). reflexivity.
    - rewrite (proj2 (lookup_ge_None result k)); [reflexivity|].
      apply lookup_ge_None in Hk. lia. }
  split; [exact Hnames|]. split; [rewrite Hnames; exact J3|].
  apply Forall_forall. intros b Hb. apply list_elem_of_lookup in Hb as [k Hk].
  destruct (ns !! k) as [name|] eqn:Hn.
  - destruct (Hat k name Hn) as (info & Hi & _ & Hgit). congruence.
  - apply lookup_ge_None in Hn. apply lookup_lt_Some in Hk. lia.
Qed.

Lemma ParseBookmarkList_groups_witness :
  exists result,
    jj.ParseBookmarkList (H := listingDecoders) "" = go.Ret result /\
    map jj.bi_Name result = ["main"; "feat"] /\
    NoDup (map jj.bi_Name result) /\
    Forall (fun b => jj.bi_Remotes b !! "git" = None) result.
Proof.
  apply (ParseBookmarkList_groups (H := listingDecoders) "" listingRows). reflexivity.
Defined.

(** ** SendPipeline: the order of the calls *)

Section Reads.
Context {W E : Type}.
Variable eff : E -> W -> W.
Variable P : E -> Prop.

Lemma reads_silent {A} (m : go.M W E A) :
  (forall st, go.trace (m st).1 = go.trace st /\ go.world (m st).1 = go.world st) ->
  reads eff P m.
Proof.
  intros Hm st. destruct (Hm st) as [Ht Hw]. exists [].
  rewrite app_nil_r. split; [exact Ht|]. split; [constructor|exact Hw].
Qed.

Lemma reads_ret {A} (a : A) : reads eff P (go.ret a).
Proof. apply reads_silent. intros st. split; reflexivity. Qed.

Lemma reads_raise {A} (e : go.error) : reads eff P (go.raise e : go.M W E A).
Proof. apply reads_silent. intros st. split; reflexivity. Qed.

Lemma reads_of_outcome {A} (o : go.outcome A) : reads eff P (go.of_outcome o).
Proof. apply reads_silent. intros st. split; reflexivity. Qed.

Lemma reads_print (wr : go.write) : reads eff P (go.print wr).
Proof. apply reads_silent. intros st. split; reflexivity. Qed.

Lemma reads_perform {A} (ev : E) (op : W -> W * A) :
  P ev -> (forall w, (op w).1 = eff ev w) -> reads eff P (go.perform ev op).
Proof.
  intros Hev Hop st. exists [ev]. unfold go.perform. specialize (Hop (go.world st)).
  destruct (op (go.world st)) as [w' a]. simpl in *.
  split; [reflexivity|]. split; [repeat constructor; exact Hev|exact Hop].
Qed.

Lemma reads_bind {A B} (m : go.M W E A) (k : A -> go.M W E B) :
  reads eff P m -> (forall a, reads eff P (k a)) -> reads eff P (go.bind m k).
Proof.
  intros Hm Hk st. unfold go.bind. destruct (Hm st) as (evs & Ht & Hf & Hw).
  destruct (m st) as [st' [a|e| |]]; simpl in Ht, Hw;
    try (exists evs; split; [exact Ht|split; [exact Hf|exact Hw]]).
  destruct (Hk a st') as (evs' & Ht' & Hf' & Hw').
  exists (evs ++ evs'). rewrite Ht', Ht, Hw', Hw, foldl_app, <- app_assoc.
  split; [reflexivity|]. split; [apply Forall_app; auto|reflexivity].
Qed.

Lemma reads_catch {A} (m : go.M W E A) : reads eff P m -> reads eff P (go.catch m).
Proof.
  intros Hm st. unfold go.catch. destruct (Hm st) as (evs & Ht & Hf & Hw).
  exists evs. destruct (m st) as [st' [a|e| |]]; simpl in *; auto.
Qed.

Lemma reads_forM {A B} (body : B -> A -> go.M W E B) (l : list A) :
  (forall b a, reads eff P (body b a)) -> forall b, reads eff P (go.forM body l b).
Proof.
  intros Hb. induction l as [|x l IH]; intros b; simpl.
  - apply reads_ret.
  - apply reads_bind; [apply Hb|exact IH].
Qed.

Lemma reads_lift {E1 A} (eff1 : E1 -> W -> W) (Q : E1 -> Prop) (inj : E1 -> E)
    (m : go.M W E1 A) :
  reads eff1 Q m -> (forall c, Q c -> P (inj c)) ->
  (forall c w, eff (inj c) w = eff1 c w) -> reads eff P (go.lift inj m).
Proof.
  intros Hm Hq He st. unfold go.lift.
  destruct (Hm (go.mkState (go.world st) [] (go.output st))) as (evs & Ht & Hf & Hw).
  destruct (m _) as [st' r]. simpl in *. exists (map inj evs). rewrite Ht, Hw. simpl.
  split; [reflexivity|]. split; [apply Forall_map; eapply Forall_impl; eauto|].
  clear -He. generalize (go.world st). induction evs as [|c evs IH]; intros w; simpl; [reflexivity|].
  rewrite He. apply IH.
Qed.

End Reads.

(** Goals [reads eff P m] by the structure of [m]; a call leaves its side
    condition [P ev], its effect holding by computation. *)
Ltac reads_step :=
  lazymatch goal with
  | |- reads _ _ (go.ret _) => apply reads_ret
  | |- reads _ _ (go.raise _) => apply reads_raise
  | |- reads _ _ (go.of_outcome _) => apply reads_of_outcome
  | |- reads _ _ (go.print _) => apply reads_print
  | |- reads _ _ (go.perform _ _) => apply reads_perform; [|intros; reflexivity]
  | |- reads _ _ (go.bind _ _) => apply reads_bind; [|intros]
  | |- reads _ _ (go.catch _) => apply reads_catch
  | |- reads _ _ (go.forM _ _ _) => apply reads_forM; intros
  | |- reads _ _ (match ?x with _ => _ end) => destruct x
  | |- reads _ _ (let (_, _) := ?x in _) => destruct x
  end.

Section Phases.
Context `{go.Unicode} `{jj.Decoders} {W : Type}.
Variable runner : jj.Runner W.
Variable client : github.Service W.
Variable opts : cmd.sendOpts.

Lemma ensureLoop_reads matched bookmarkByName pushRemote sue createNew
    (changes : list jj.Change) :
  forall result,
    reads (jjEffect runner) isBookmarkSet
      (jj.ensureLoop runner matched bookmarkByName pushRemote sue createNew changes result).
Proof.
  induction changes as [|change rest IH]; intros result; simpl; [apply reads_ret|].
  destruct (List.find _ _); [apply IH|].
  destruct (bookmarkByName !! _); [apply IH|].
  destruct (negb createNew); [apply IH|].
  reads_step; [reads_step; exact I|]. reads_step; [reads_step|apply IH].
Qed.

Lemma ResolveStacks_reads (revsets : list string) (base : string) :
  reads (jjEffect runner) (fun c => exists revset, c = jj.CallLog revset)
    (jj.ResolveStacks runner revsets base).
Proof.
  unfold jj.ResolveStacks. repeat (cbv zeta; reads_step). eexists; reflexivity.
Qed.

Lemma emits_impl {E A} (P Q : E -> Prop) (m : go.M W E A) :
  (forall ev, P ev -> Q ev) -> emits P m -> emits Q m.
Proof.
  intros Hpq Hm st. destruct (Hm st) as (evs & Ht & Hf).
  exists evs. split; [exact Ht|]. eapply Forall_impl; eassumption.
Qed.

Lemma phased_reads {A} (m : go.M W cmd.event A) :
  reads (effect runner client) dryRunCall m -> phased runner client (cmd.remote opts) m.
Proof.
  intros Hm st. destruct (Hm st) as (evs & Ht & Hf & _). exists evs. split; [exact Ht|].
  exists evs, []. rewrite app_nil_r. auto.
Qed.

Lemma phased_bind_l {A B} (m : go.M W cmd.event A) (k : A -> go.M W cmd.event B) :
  reads (effect runner client) dryRunCall m ->
  (forall a, phased runner client (cmd.remote opts) (k a)) ->
  phased runner client (cmd.remote opts) (go.bind m k).
Proof.
  intros Hm Hk st. unfold go.bind. destruct (Hm st) as (evs & Ht & Hf & Hw).
  destruct (m st) as [st' [a|e| |]]; simpl in Ht, Hw;
    try (exists evs; split; [exact Ht|]; exists evs, []; rewrite app_nil_r; auto).
  destruct (Hk a st') as (evs' & Ht' & pre & post & -> & Hpre & Hpost).
  exists (evs ++ pre ++ post). rewrite Ht', Ht, <- app_assoc. split; [reflexivity|].
  exists (evs ++ pre), post. rewrite <- app_assoc. split; [reflexivity|].
  split; [apply Forall_app; auto|].
  destruct Hpost as [->|(bs & rest & -> & Hrest & Hfail)]; [left; reflexivity|right].
  exists bs, rest. split; [reflexivity|]. split; [exact Hrest|].
  intros e He. apply Hfail. unfold worldAfter in *. rewrite foldl_app, <- Hw in He. exact He.
Qed.

Lemma phased_bind_r {A B} (m : go.M W cmd.event A) (k : A -> go.M W cmd.event B) :
  phased runner client (cmd.remote opts) m -> (forall a, emits noCall (k a)) ->
  phased runner client (cmd.remote opts) (go.bind m k).
Proof.
  intros Hm Hk st. unfold go.bind.
  destruct (Hm st) as (evs & Ht & pre & post & -> & Hpre & Hpost).
  destruct (m st) as [st' [a|e| |]] eqn:Hrun; simpl in Ht, Hpost.
  2-4: (eexists; split; [exact Ht|]; exists pre, post; split; [reflexivity|];
        split; [exact Hpre|];
        destruct Hpost as [->|(bs & rest & -> & Hrest & Hfail)]; [left; reflexivity|right];
        exists bs, rest; split; [reflexivity|]; split; [exact Hrest|];
        intros e' He'; destruct (Hfail e' He') as [-> Hr]; split; [reflexivity|];
        first [injection Hr as ->; reflexivity|discriminate Hr]).
  destruct (Hk a st') as (evs' & Ht' & Hf).
  destruct evs' as [|ev evs']; [|apply Forall_cons in Hf as [[] _]].
  exists (pre ++ post). rewrite Ht', Ht, app_nil_r. split; [reflexivity|].
  exists pre, post. split; [reflexivity|]. split; [exact Hpre|].
  destruct Hpost as [->|(bs & rest & -> & Hrest & Hfail)]; [left; reflexivity|right].
  exists bs, rest. split; [reflexivity|]. split; [exact Hrest|].
  intros e' He'. destruct (Hfail e' He') as [_ Hr]. discriminate Hr.
Qed.

(** Goals [reads _ dryRunCall m] for the parts of the pipeline before the
    push. *)
Ltac reads_pipeline :=
  repeat first
    [ reads_step
    | eapply reads_lift;
      [ first [apply ensureLoop_reads | apply ResolveStacks_reads]
      | let c := fresh "c" in let Hc := fresh "Hc" in
        intros c Hc; destruct c; simpl in *;
        first [exact I | tauto | destruct Hc; discriminate]
      | intros; reflexivity ]
    | progress unfold cmd.fetchRemote, cmd.reduceToTips, cmd.processDAG, cmd.reportDryRun,
        cmd.printSkippedChanges, jj.EnsureBookmarks
    | progress cbv zeta ];
  try exact I.

(** Goals [emits P m] for the parts of the pipeline after the push. *)
Ltac emits_reads :=
  repeat first
    [ emits_step
    | progress unfold cmd.printSkippedChanges, cmd.printSummary, cmd.updateBody,
        cmd.updateExisting, cmd.createPR
    | progress cbv zeta ];
  try exact I.

Lemma printSkippedChanges_silent (skipped : list cmd.changeState)
    (reasons : gmap string cmd.skipReason) :
  emits noCall (cmd.printSkippedChanges (W := W) skipped reasons).
Proof. emits_reads. Qed.

Lemma print_perform {A B} (wr : go.write) (ev : cmd.event) (op : W -> W * A)
    (k : A -> go.M W cmd.event B) (st : go.state W cmd.event) :
  (let* _ := go.print wr in let* a := go.perform ev op in k a) st
  = k (op (go.world st)).2
      (go.mkState (op (go.world st)).1 (go.trace st ++ [ev]) (go.output st ++ [wr])).
Proof.
  unfold go.bind, go.print, go.perform. simpl. destruct (op (go.world st)). reflexivity.
Qed.

(** [sendActive]: the push, then calls on pull requests only; when the
    push fails, nothing more and its error. *)
Lemma sendActive_phased (repoFullName : string)
    (bookmarkByName : gmap string jj.BookmarkInfo) (activeStates : list cmd.changeState) :
  phased runner client (cmd.remote opts)
    (cmd.sendActive runner client opts repoFullName bookmarkByName activeStates).
Proof.
  intros st. unfold cmd.sendActive. cbv zeta. rewrite print_perform.
  destruct (jj.GitPush runner _ true (cmd.remote opts) (go.world st)) as [w' [e|]] eqn:Hpush.
  - simpl. eexists. split; [reflexivity|]. eexists [], _. split; [reflexivity|].
    split; [constructor|]. right. eexists _, []. split; [reflexivity|].
    split; [constructor|]. intros e' He'. simpl in He'. rewrite Hpush in He'.
    injection He' as <-. split; reflexivity.
  - cbn [fst snd].
    match goal with |- context [go.trace (?m ?s).1] =>
      assert (Hrest : emits afterPush m) by emits_reads;
      destruct (Hrest s) as (evs & Ht & Hf) end.
    cbn [go.trace] in Ht. eexists (_ :: evs). split.
    + rewrite Ht, <- app_assoc. reflexivity.
    + exists [], (cmd.JJ (jj.CallGitPush (map (fun s => jj.cb_Bookmark (cmd.bookmark s))
                                              activeStates) true (cmd.remote opts)) :: evs).
      split; [reflexivity|]. split; [constructor|]. right.
      eexists _, _. split; [reflexivity|]. split; [exact Hf|].
      intros e' He'. simpl in He'. rewrite Hpush in He'. discriminate He'.
Qed.

Ltac phased_step :=
  lazymatch goal with
  | |- phased _ _ _ (cmd.sendActive _ _ _ _ _ _) => apply sendActive_phased
  | |- phased _ _ _ (go.bind _ _) =>
      first [ apply phased_bind_l; [solve [reads_pipeline]|intros]
            | apply phased_bind_r; [|intros; solve [emits_reads]] ]
  | |- phased _ _ _ (match ?x with _ => _ end) => destruct x
  | |- phased _ _ _ (let (_, _) := ?x in _) => destruct x
  | |- phased _ _ _ _ => apply phased_reads; solve [reads_pipeline]
  end.

Lemma executeSend_phased :
  phased runner client (cmd.remote opts) (cmd.executeSend runner client opts).
Proof.
  unfold cmd.executeSend. repeat (cbv zeta; phased_step).
Qed.

End Phases.

(** X12.  Whatever its outcome, [executeSend] makes its calls in this
    order: first reads, fetches and the creation of local bookmarks; then at
    most one push, to the push remote and allowing new branches; and only
    after the push the creation and update of pull requests, their comments,
    reviewers and interdiffs.  When the push fails, in the world the
    earlier calls have left, no call follows it and [executeSend] returns
    its error, wrapped. *)
Theorem executeSend_push_order `{go.Unicode} `{jj.Decoders} {W : Type}
    (runner : jj.Runner W) (client : github.Service W) (opts : cmd.sendOpts)
    (st : go.state W cmd.event) :
  exists evs,
    go.trace (cmd.executeSend runner client opts st).1 = go.trace st ++ evs /\
    pushPhases runner client (cmd.remote opts) (go.world st) evs
               (cmd.executeSend runner client opts st).2.
Proof. apply executeSend_phased. Qed.

(** X13.  In dry-run mode [executeSend] neither pushes nor creates,
    updates or comments on a pull request nor requests reviewers: its calls
    are fetches, reads of the repository and of the hosting service, and the
    creation of local bookmarks. *)
Theorem executeSend_dry_run_read_only `{go.Unicode} `{jj.Decoders} {W : Type}
    (runner : jj.Runner W) (client : github.Service W) (opts : cmd.sendOpts)
    (st : go.state W cmd.event) :
  cmd.dryRun opts = true ->
  exists evs,
    go.trace (cmd.executeSend runner client opts st).1 = go.trace st ++ evs /\
    Forall dryRunCall evs.
Proof. intros Hdry. apply (executeSend_dry_run_calls runner client opts Hdry). Qed.

Lemma executeSend_dry_run_read_only_witness :
  exists evs,
    go.trace (cmd.executeSend (H := asciiOnly) (H0 := freshDecoders)
                freshRunner emptyService dryRunOpts (go.mkState [] [] [])).1 = [] ++ evs /\
    Forall dryRunCall evs.
Proof.
  apply (executeSend_dry_run_read_only (H := asciiOnly) (H0 := freshDecoders)
           freshRunner emptyService dryRunOpts (go.mkState [] [] [])).
  reflexivity.
Defined.

(** X14.  When the fetch of the push remote fails, [executeSend] returns
    the error, wrapped, after the one progress line, and makes no other
    call. *)
Theorem executeSend_fetch_failure `{go.Unicode} `{jj.Decoders} {W : Type}
    (runner : jj.Runner W) (client : github.Service W) (opts : cmd.sendOpts)
    (st : go.state W cmd.event) (w' : W) (e : go.error) :
  jj.GitFetch runner (cmd.remote opts) (go.world st) = (w', Some e) ->
  cmd.executeSend runner client opts st
  = (go.mkState w' (go.trace st ++ [cmd.JJ (jj.CallGitFetch (cmd.remote opts))])
       (go.output st ++ [go.Fprintf "Fetching %s...\n" [go.FStr (cmd.remote opts)]]),
     go.Raise (go.Errorf "fetching %s: %w" [go.FStr (cmd.remote opts); go.FErr e])).
Proof.
  intros Hfetch. unfold cmd.executeSend.
  unfold go.bind at 1. unfold cmd.fetchRemote at 1.
  unfold go.bind at 1 2, go.print at 1, go.perform at 1. simpl.
  rewrite Hfetch. reflexivity.
Qed.

Lemma executeSend_fetch_failure_witness :
  cmd.executeSend (H := asciiOnly) (H0 := freshDecoders)
    offlineRunner emptyService dryRunOpts (go.mkState [] [] [])
  = (go.mkState [] [cmd.JJ (jj.CallGitFetch "origin")]
       [go.Fprintf "Fetching %s...\n" [go.FStr "origin"]],
     go.Raise (go.Errorf "fetching %s: %w" [go.FStr "origin"; go.FErr (go.External "offline")])).
Proof.
  apply (executeSend_fetch_failure (H := asciiOnly) (H0 := freshDecoders)
           offlineRunner emptyService dryRunOpts (go.mkState [] [] [])).
  reflexivity.
Defined.

(** ** SendPipeline: updating only *)

Section Existing.
Context `{go.Unicode} `{jj.Decoders} {W : Type}.
Variable runner : jj.Runner W.
Variable client : github.Service W.

Lemma emits_forM_elem {E A B} (P : E -> Prop) (body : B -> A -> go.M W E B) (l : list A) :
  (forall b a, a ∈ l -> emits P (body b a)) -> forall b, emits P (go.forM body l b).
Proof.
  induction l as [|x l IH]; intros Hb b; simpl.
  - apply emits_ret.
  - apply emits_bind; [apply Hb; left|].
    apply IH. intros b' a Ha. apply Hb. right. exact Ha.
Qed.

(** Without [createNew], [EnsureBookmarks] makes no call. *)
Lemma EnsureBookmarks_silent (dag : jj.ChangeDAG) (bookmarks : list jj.BookmarkInfo)
    (pushRemote : string) (sue : option (string -> string -> bool)) :
  emits noCall (jj.EnsureBookmarks runner dag bookmarks pushRemote sue false).
Proof.
  intros st. unfold jj.EnsureBookmarks.
  match goal with |- context [jj.ensureLoop _ ?m ?bn _ _ _ _ _ _] =>
    destruct (ensureLoop_frame runner m bn pushRemote sue false
                (jj.Changes dag) [] st) as (calls & Ht & _ & _ & _ & Hc & _) end.
  exists []. rewrite Ht, (Hc eq_refl). split; [reflexivity|constructor].
Qed.

Ltac emits_updates :=
  repeat first
    [ emits_step
    | eapply emits_lift;
      [ first [apply EnsureBookmarks_silent | apply ResolveStacks_emits]
      | let c := fresh "c" in let Hc := fresh "Hc" in
        intros c Hc; destruct c; simpl in *;
        first [exact I | tauto | destruct Hc; discriminate | destruct Hc] ]
    | progress unfold cmd.fetchRemote, cmd.reduceToTips, cmd.processDAG, cmd.reportDryRun,
        cmd.printSkippedChanges, cmd.printSummary, cmd.updateBody, cmd.updateExisting
    | progress cbn [cmd.existing cmd.dryRun cmd.noStack cmd.remote cmd.base cmd.revsets
                    cmd.upstreamRemote negb andb]
    | progress cbv zeta ];
  try exact I.

(** [sendActive] on states that all have a pull request: nothing is
    created. *)
Lemma sendActive_updates (opts : cmd.sendOpts) (repoFullName : string)
    (bookmarkByName : gmap string jj.BookmarkInfo) (activeStates : list cmd.changeState) :
  (forall s, s ∈ activeStates -> is_Some (cmd.pr s)) ->
  emits updateCall
    (cmd.sendActive runner client opts repoFullName bookmarkByName activeStates).
Proof.
  intros Hpr. unfold cmd.sendActive. cbv zeta.
  apply emits_bind; [emits_updates|intros _].
  apply emits_bind; [emits_updates|intros err]. destruct err; [emits_updates|].
  apply emits_bind.
  - apply emits_forM_elem. intros acc s Hs. destruct (Hpr s Hs) as [p ->]. emits_updates.
  - intros sent. emits_updates.
Qed.

End Existing.

(** X15.  With [--existing], [executeSend] only updates: it sets no
    bookmark, creates no pull request and requests no reviewers. *)
Theorem executeSend_existing_only_updates `{go.Unicode} `{jj.Decoders} {W : Type}
    (runner : jj.Runner W) (client : github.Service W) (opts : cmd.sendOpts)
    (st : go.state W cmd.event) :
  cmd.existing opts = true ->
  exists evs,
    go.trace (cmd.executeSend runner client opts st).1 = go.trace st ++ evs /\
    Forall updateCall evs.
Proof.
  intros Hex. revert st. change (emits updateCall (cmd.executeSend runner client opts)).
  destruct opts as [base remote upstream upstreamRemote pushOwner dryRun draft existing
                    noStack reviewers revsets].
  simpl in Hex. subst existing. unfold cmd.executeSend.
  repeat first
    [ apply sendActive_updates;
      let x := fresh "x" in let Hx := fresh "Hx" in
      intros x Hx; apply list_elem_of_filter in Hx as [_ Hx];
      apply list_elem_of_filter in Hx as [Hx _]; exact Hx
    | emits_step
    | eapply emits_lift;
      [ first [apply EnsureBookmarks_silent | apply ResolveStacks_emits]
      | let c := fresh "c" in let Hc := fresh "Hc" in
        intros c Hc; destruct c; simpl in *;
        first [exact I | tauto | destruct Hc; discriminate | destruct Hc] ]
    | progress unfold cmd.fetchRemote, cmd.reduceToTips, cmd.processDAG, cmd.reportDryRun,
        cmd.printSkippedChanges
    | progress cbn [cmd.existing cmd.dryRun cmd.noStack cmd.remote cmd.base cmd.revsets
                    cmd.upstreamRemote negb andb]
    | progress cbv zeta ];
  try exact I.
Qed.

Lemma executeSend_existing_only_updates_witness :
  exists evs,
    go.trace (cmd.executeSend (H := asciiOnly) (H0 := freshDecoders)
                freshRunner emptyService existingOpts (go.mkState [] [] [])).1 = [] ++ evs /\
    Forall updateCall evs.
Proof.
  apply (executeSend_existing_only_updates (H := asciiOnly) (H0 := freshDecoders)
           freshRunner emptyService existingOpts (go.mkState [] [] [])).
  reflexivity.
Defined.

(** ** SendPipeline: causes of skips and symmetry of stacks *)

(** X16.  No change is skipped without a cause: a skipped change is
    skipped for the state of its own bookmark (displaced, in conflict or
    behind), or it descends, within the list, from a change that is.  (For
    a list of distinct changes in topological order.) *)
Theorem classifySkips_root_cause (states : list cmd.changeState) (c : string) :
  NoDup (map stateID states) -> topoOrdered (map cmd.change states) ->
  is_Some (cmd.classifySkips states !! c) ->
  exists s, s ∈ states /\
            (stateID s = c \/ tc (edge (map cmd.change states)) (stateID s) c) /\
            is_Some (ownReason s) /\
            cmd.classifySkips states !! stateID s = ownReason s.
Proof.
  intros Hnd Hto. destruct (classifySkips_rule states Hnd Hto) as [Hdom Hrule].
  assert (G : forall n i s, (i < n)%nat -> states !! i = Some s ->
              is_Some (cmd.classifySkips states !! stateID s) ->
              exists r, r ∈ states /\
                (stateID r = stateID s \/ tc (edge (map cmd.change states)) (stateID r) (stateID s)) /\
                is_Some (ownReason r) /\
                cmd.classifySkips states !! stateID r = ownReason r).
  { induction n as [|n IH]; intros i s Hi Hs Hskip; [lia|].
    pose proof (list_elem_of_lookup_2 _ _ _ Hs) as Hin.
    pose proof (Hrule s Hin) as Hr. unfold skipRule in Hr.
    destruct (List.find _ _) as [pid|] eqn:Hfind.
    - apply find_some in Hfind as [Hpid Hp]. apply bool_decide_eq_true in Hp.
      apply list_elem_of_In in Hpid.
      pose proof (Hdom pid Hp) as Hpin.
      apply list_elem_of_fmap in Hpin as (sp & -> & Hsp).
      apply list_elem_of_lookup in Hsp as [j Hj].
      assert (Hlt : (j < i)%nat).
      { eapply (Hto j i (cmd.change sp) (cmd.change s)); [| |exact Hpid];
          rewrite list_lookup_fmap; [rewrite Hj|rewrite Hs]; reflexivity. }
      destruct (IH j sp ltac:(lia) Hj Hp) as (r & Hrin & Hrel & Hown & Heq).
      exists r. split; [exact Hrin|]. split; [|auto]. right.
      assert (He : edge (map cmd.change states) (stateID sp) (stateID s)).
      { exists (cmd.change sp), (cmd.change s).
        split; [apply list_elem_of_fmap; eauto using list_elem_of_lookup_2|].
        split; [apply list_elem_of_fmap; eauto|]. auto. }
      destruct Hrel as [->|Htc]; [apply tc_once, He|].
      eapply tc_r; eassumption.
    - exists s. split; [exact Hin|]. split; [left; reflexivity|].
      rewrite <- Hr. auto. }
  intros Hc. pose proof (Hdom c Hc) as Hin.
  apply list_elem_of_fmap in Hin as (s & -> & Hs).
  apply list_elem_of_lookup in Hs as [i Hi].
  apply (G (S i) i s); [lia|exact Hi|exact Hc].
Qed.

Lemma classifySkips_root_cause_witness :
  exists s, s ∈ behindStack /\
            (stateID s = "C" \/ tc (edge (map cmd.change behindStack)) (stateID s) "C") /\
            is_Some (ownReason s) /\
            cmd.classifySkips behindStack !! stateID s = ownReason s.
Proof.
  apply (classifySkips_root_cause behindStack "C").
  - simpl. repeat (constructor; [intros Hin;
      repeat (apply elem_of_cons in Hin as [Hin|Hin]; [discriminate Hin|]);
      apply elem_of_nil in Hin; contradiction|]). constructor.
  - exact behindStack_ordered.
  - vm_compute. eauto.
Defined.

(** X17.  The stacks of [computeStackPRs] are consistent: the stack of a
    change lists its own pull request, and it lists the pull request of
    another change exactly when the stack of that change lists its own.
    (For distinct changes in topological order with distinct pull
    requests.) *)
Theorem computeStackPRs_symmetric (states : list cmd.changeState) :
  NoDup (map stateID states) -> topoOrdered (map cmd.change states) ->
  Forall (fun s => is_Some (cmd.pr s)) states ->
  NoDup (map prNumber states) ->
  exists stacks,
    cmd.computeStackPRs states = go.Ret stacks /\
    length stacks = length states /\
    forall i j si sj ti tj,
      states !! i = Some si -> states !! j = Some sj ->
      stacks !! i = Some ti -> stacks !! j = Some tj ->
      prNumber si ∈ ti /\ (prNumber sj ∈ ti <-> prNumber si ∈ tj).
Proof.
  intros Hnd Hto Hpr Hnum.
  destruct (computeStackPRs_stacks states Hnd Hto Hpr) as (stacks & Hrun & Hall).
  exists stacks. split; [exact Hrun|]. split; [symmetry; eapply Forall2_length, Hall|].
  assert (Hmem : forall (rel : gset string) s, s ∈ states ->
            prNumber s ∈ map prNumber (filter (fun t => stateID t ∈ rel) states)
            <-> stateID s ∈ rel).
  { intros rel s Hs. rewrite list_elem_of_fmap. split.
    - intros (t & Hn & Ht). apply list_elem_of_filter in Ht as [Hrel Ht].
      assert (t = s) as ->; [|exact Hrel].
      apply list_elem_of_lookup in Ht as [a Ha]. apply list_elem_of_lookup in Hs as [b Hb].
      assert (a = b) as ->; [|congruence].
      eapply (NoDup_lookup _ a b (prNumber s) Hnum); rewrite list_lookup_fmap.
      + rewrite Ha. simpl. congruence.
      + rewrite Hb. reflexivity.
    - intros Hrel. exists s. split; [reflexivity|]. apply list_elem_of_filter. auto. }
  intros i j si sj ti tj Hi Hj Hti Htj.
  pose proof (Forall2_lookup_lr _ _ _ _ _ _ Hall Hi Hti) as (reli & Hreli & ->).
  pose proof (Forall2_lookup_lr _ _ _ _ _ _ Hall Hj Htj) as (relj & Hrelj & ->).
  pose proof (list_elem_of_lookup_2 _ _ _ Hi) as Hsi.
  pose proof (list_elem_of_lookup_2 _ _ _ Hj) as Hsj.
  rewrite !Hmem by assumption. rewrite !Hreli, Hrelj. split; [left; reflexivity|].
  split; intros [E|[E|E]]; auto.
Qed.

Lemma computeStackPRs_symmetric_witness :
  exists stacks,
    cmd.computeStackPRs diamond = go.Ret stacks /\
    length stacks = length diamond /\
    forall i j si sj ti tj,
      diamond !! i = Some si -> diamond !! j = Some sj ->
      stacks !! i = Some ti -> stacks !! j = Some tj ->
      prNumber si ∈ ti /\ (prNumber sj ∈ ti <-> prNumber si ∈ tj).
Proof.
  apply (computeStackPRs_symmetric diamond).
  - simpl. repeat (constructor; [intros Hin;
      repeat (apply elem_of_cons in Hin as [Hin|Hin]; [discriminate Hin|]);
      apply elem_of_nil in Hin; contradiction|]). constructor.
  - exact diamond_ordered.
  - repeat constructor; simpl; eauto.
  - simpl. repeat (constructor; [intros Hin;
      repeat (apply elem_of_cons in Hin as [Hin|Hin]; [discriminate Hin|]);
      apply elem_of_nil in Hin; contradiction|]). constructor.
Defined.

(** ** SendPipeline: no panic *)

Section Returns.
Context {W E : Type}.

Lemma returns_conseq {A} (Q Q' : A -> Prop) (m : go.M W E A) :
  (forall a, Q a -> Q' a) -> returns m Q -> returns m Q'.
Proof.
  intros Hq Hm st. specialize (Hm st). destruct (m st).2; auto.
Qed.

Lemma returns_ret {A} (Q : A -> Prop) (a : A) : Q a -> returns (go.ret a : go.M W E A) Q.
Proof. intros Ha st. exact Ha. Qed.

Lemma returns_raise {A} (Q : A -> Prop) (e : go.error) :
  returns (go.raise e : go.M W E A) Q.
Proof. intros st. exact I. Qed.

Lemma returns_print (Q : unit -> Prop) (wr : go.write) :
  Q tt -> returns (go.print wr : go.M W E unit) Q.
Proof. intros Hq st. exact Hq. Qed.

Lemma returns_perform {A} (Q : A -> Prop) (ev : E) (op : W -> W * A) :
  (forall a, Q a) -> returns (go.perform ev op) Q.
Proof. intros Hq st. unfold go.perform. destruct (op _). simpl. apply Hq. Qed.

Lemma returns_bind {A B} (Q : A -> Prop) (R : B -> Prop) (m : go.M W E A)
    (k : A -> go.M W E B) :
  returns m Q -> (forall a, Q a -> returns (k a) R) -> returns (go.bind m k) R.
Proof.
  intros Hm Hk st. unfold go.bind. specialize (Hm st).
  destruct (m st) as [st' [a|e| |]]; simpl in *; try tauto. apply (Hk a Hm).
Qed.

Lemma returns_catch {A} (Q : A -> Prop) (m : go.M W E A) :
  returns m Q ->
  returns (go.catch m) (fun r => match r with inl _ => True | inr a => Q a end).
Proof.
  intros Hm st. unfold go.catch. specialize (Hm st).
  destruct (m st) as [st' [a|e| |]]; simpl in *; tauto.
Qed.

Lemma returns_lift {E1 A} (Q : A -> Prop) (inj : E1 -> E) (m : go.M W E1 A) :
  returns m Q -> returns (go.lift inj m) Q.
Proof.
  intros Hm st. unfold go.lift.
  specialize (Hm (go.mkState (go.world st) [] (go.output st))).
  destruct (m _) as [st' r]. exact Hm.
Qed.

Lemma returns_of_outcome {A} (Q : A -> Prop) (o : go.outcome A) :
  match o with go.Ret a => Q a | go.Raise _ => True | _ => False end ->
  returns (go.of_outcome o : go.M W E A) Q.
Proof. intros Ho st. exact Ho. Qed.

Lemma returns_forM {A B} (I : B -> Prop) (body : B -> A -> go.M W E B) (l : list A) :
  (forall b a, a ∈ l -> I b -> returns (body b a) I) ->
  forall b, I b -> returns (go.forM body l b) I.
Proof.
  induction l as [|x l IH]; intros Hb b Hi; simpl.
  - apply returns_ret, Hi.
  - eapply returns_bind; [apply Hb; [left|exact Hi]|].
    intros b' Hi'. apply IH; [|exact Hi']. intros b'' a Ha. apply Hb. right. exact Ha.
Qed.

(** A computation that does not panic returns what its returning runs
    return. *)
Lemma returns_partial {A} (Q : A -> Prop) (m : go.M W E A) :
  returns m (fun _ => True) ->
  (forall st st' a, m st = (st', go.Ret a) -> Q a) -> returns m Q.
Proof.
  intros Hm Hq st. specialize (Hm st). specialize (Hq st).
  destruct (m st) as [st' [a|e| |]]; simpl in *; try tauto. eapply Hq. reflexivity.
Qed.

End Returns.

(** Goals [returns m (fun _ => True)] by the structure of [m]. *)
Ltac safe_step :=
  lazymatch goal with
  | |- returns (go.ret _) _ => apply returns_ret; exact I
  | |- returns (go.raise _) _ => apply returns_raise
  | |- returns (go.print _) _ => apply returns_print; exact I
  | |- returns (go.perform _ _) _ => apply returns_perform; intros; exact I
  | |- returns (go.bind _ _) _ =>
      apply (returns_bind (fun _ => True)); [|intros ? _]
  | |- returns (go.catch _) _ =>
      eapply returns_conseq; [|apply (returns_catch (fun _ => True))]; [intros; exact I|]
  | |- returns (go.lift _ _) _ => apply returns_lift
  | |- returns (go.forM _ _ _) _ =>
      apply (returns_forM (fun _ => True)); [intros ? ? _ _|exact I]
  | |- returns (match ?x with _ => _ end) _ => destruct x
  | |- returns (let (_, _) := ?x in _) _ => destruct x
  end.

Section NoPanic.
Context `{go.Unicode} `{jj.Decoders} {W : Type}.
Variable runner : jj.Runner W.
Variable client : github.Service W.
Variable opts : cmd.sendOpts.

Lemma ensureLoop_safe matched bookmarkByName pushRemote sue createNew
    (changes : list jj.Change) :
  forall result,
    returns (jj.ensureLoop runner matched bookmarkByName pushRemote sue createNew
               changes result) (fun _ => True).
Proof.
  induction changes as [|change rest IH]; intros result; simpl; [safe_step|].
  destruct (List.find _ _); [apply IH|].
  destruct (bookmarkByName !! _); [apply IH|].
  destruct (negb createNew); [apply IH|].
  safe_step; [safe_step|]. safe_step; [safe_step|apply IH].
Qed.

Lemma ResolveStacks_returns (revsets : list string) (base : string) :
  returns (jj.ResolveStacks runner revsets base)
          (fun dags => exists changes, jj.BuildDAGs changes = go.Ret dags).
Proof.
  unfold jj.ResolveStacks. destruct revsets; [apply returns_raise|].
  destruct (String.eqb base ""); [apply returns_raise|]. cbv zeta.
  apply (returns_bind (fun _ => True)); [safe_step|intros out _].
  destruct out as [err|out]; [apply returns_raise|].
  apply (returns_bind (fun _ => True)).
  { apply returns_of_outcome. unfold jj.ParseChanges. destruct (jj.decodeChanges out); exact I. }
  intros changes _. apply returns_of_outcome.
  destruct (BuildDAGs_total changes) as [[dags Hd]|[e Hd]]; rewrite Hd; [eauto|exact I].
Qed.

Lemma sendActive_returns (repoFullName : string)
    (bookmarkByName : gmap string jj.BookmarkInfo) (activeStates : list cmd.changeState) :
  NoDup (map stateID activeStates) -> topoOrdered (map cmd.change activeStates) ->
  returns (cmd.sendActive runner client opts repoFullName bookmarkByName activeStates)
          (fun _ => True).
Proof.
  intros Hnd Hto. unfold cmd.sendActive. cbv zeta.
  safe_step; [safe_step|]. safe_step; [safe_step|]. safe_step; [safe_step|].
  apply (returns_bind (fun sent => map cmd.change sent = map cmd.change activeStates /\
                                  Forall (fun s => is_Some (cmd.pr s)) sent)).
  { apply returns_partial.
    - repeat (safe_step || unfold cmd.updateExisting, cmd.createPR || cbv zeta).
    - intros st st' sent Hrun.
      apply (sendEach_states runner client opts) in Hrun as (sent' & -> & Hmap & Hall).
      auto. }
  intros sent [Hmap Hall].
  assert (Hsummary : forall final, Forall (fun s => is_Some (cmd.pr s)) final ->
            returns (cmd.printSummary (W := W) final) (fun _ => True)).
  { intros final Hfinal. unfold cmd.printSummary. safe_step; [safe_step|].
    apply (returns_forM (fun _ => True)); [|exact I]. intros [] s Hs _.
    pose proof (proj1 (Forall_forall _ _) Hfinal s Hs) as [p ->].
    repeat safe_step. }
  apply (returns_bind (fun final => Forall (fun s => is_Some (cmd.pr s)) final));
    [|intros final Hfinal; apply Hsummary, Hfinal].
  destruct (negb (cmd.noStack opts)); [|apply returns_ret, Hall].
  destruct (computeStackPRs_stacks sent) as (stacks & Hstacks & _).
  { change (map stateID sent) with (map (fun s => jj.ChangeID (cmd.change s)) sent).
    rewrite <- (map_map cmd.change jj.ChangeID), Hmap, map_map. exact Hnd. }
  { rewrite Hmap. exact Hto. }
  { exact Hall. }
  apply (returns_bind (fun st' => st' = stacks)).
  { apply returns_of_outcome. rewrite Hstacks. reflexivity. }
  intros ? ->.
  apply returns_forM; [|constructor].
  intros acc [s stack] Hs Hacc. unfold cmd.updateBody.
  assert (Hin : s ∈ sent).
  { apply list_elem_of_lookup in Hs as [i Hi]. apply lookup_zip_with_Some in Hi
      as (x & y & [= <- <-] & Hx & _). eapply list_elem_of_lookup_2, Hx. }
  pose proof (proj1 (Forall_forall _ _) Hall s Hin) as [p Hp]. rewrite Hp.
  destruct (negb _).
  - eapply returns_bind; [apply (returns_perform (fun _ => True)); auto|].
    intros [e|] _; [apply returns_raise|]. apply returns_ret.
    apply Forall_app. split; [exact Hacc|]. constructor; [|constructor].
    simpl. eauto.
  - apply returns_ret. apply Forall_app. split; [exact Hacc|].
    constructor; [|constructor]. rewrite Hp. eauto.
Qed.

Lemma reduceToTips_returns (dags : list jj.ChangeDAG) :
  returns (cmd.reduceToTips (W := W) dags)
          (fun dags' => concat (map jj.Changes dags') `sublist_of` concat (map jj.Changes dags)).
Proof.
  apply returns_partial.
  - unfold cmd.reduceToTips. repeat safe_step.
  - intros st st' dags' Hrun. eapply reduceToTips_sublist, Hrun.
Qed.

Lemma processDAG_returns (bookmarks : list jj.BookmarkInfo)
    (prMap : gmap string github.PRInfo) (dags : list jj.ChangeDAG) :
  returns (go.forM (cmd.processDAG runner opts bookmarks prMap) dags [])
          (fun allStates => map cmd.change allStates = concat (map jj.Changes dags)).
Proof.
  apply returns_partial.
  - safe_step. unfold cmd.processDAG. cbv zeta. safe_step.
    + safe_step. safe_step. apply ensureLoop_safe.
    + repeat safe_step.
  - intros st st' allStates Hrun. apply processDAG_states in Hrun. exact Hrun.
Qed.

Lemma printSkippedChanges_safe (skipped : list cmd.changeState)
    (reasons : gmap string cmd.skipReason) :
  returns (cmd.printSkippedChanges (W := W) skipped reasons) (fun _ => True).
Proof. unfold cmd.printSkippedChanges. cbv zeta. repeat safe_step. Qed.

Lemma executeSend_returns :
  returns (cmd.executeSend runner client opts) (fun _ => True).
Proof.
  unfold cmd.executeSend. cbv zeta.
  assert (Hfetch : forall name, returns (cmd.fetchRemote runner name) (fun _ => True)).
  { intros name. unfold cmd.fetchRemote. repeat safe_step. }
  safe_step; [apply Hfetch|]. safe_step; [safe_step; [apply Hfetch|safe_step]|].
  safe_step; [safe_step|]. safe_step; [safe_step|].
  eapply returns_bind; [apply returns_catch, returns_lift, ResolveStacks_returns|].
  intros [err|dags] Hdags; [apply returns_raise|].
  destruct Hdags as [changes Hbuild].
  destruct dags as [|dag0 dags0]; [safe_step|].
  set (dags := dag0 :: dags0) in *. clearbody dags.
  apply (returns_bind (fun dags' =>
           concat (map jj.Changes dags') `sublist_of` concat (map jj.Changes dags))).
  { destruct (cmd.noStack opts); [apply reduceToTips_returns|]. apply returns_ret. reflexivity. }
  intros dags' Hsub.
  safe_step; [safe_step|]. safe_step; [safe_step|].
  apply (returns_bind (fun _ => True)).
  { safe_step. apply returns_of_outcome. unfold jj.ParseBookmarkList.
    destruct (jj.decodeBookmarkEntries _); [exact I|].
    destruct (foldl _ _ _); exact I. }
  intros [err|bookmarks] _; [safe_step|].
  safe_step; [repeat safe_step|].
  eapply returns_bind; [apply processDAG_returns|].
  intros allStates Hall.
  safe_step; [repeat safe_step|].
  destruct (_ && _); [safe_step|].
  match goal with |- context [cmd.reportDryRun ?a ?s ?ids] =>
    set (active := a); set (skipped := s); set (reasons := ids) end.
  assert (Hactive : NoDup (map stateID active) /\ topoOrdered (map cmd.change active)).
  { destruct (BuildDAGs_concat changes dags Hbuild) as (Hnd & Hto & _).
    assert (Hs : map cmd.change active `sublist_of` concat (map jj.Changes dags)).
    { etransitivity; [|exact Hsub]. rewrite <- Hall. apply fmap_sublist.
      subst active. etransitivity; [apply sublist_filter|].
      destruct (cmd.existing opts); [apply sublist_filter|reflexivity]. }
    split.
    - change (map stateID active) with (map (fun s => jj.ChangeID (cmd.change s)) active).
      rewrite <- (map_map cmd.change jj.ChangeID).
      eapply sublist_NoDup; [exact Hnd|]. apply fmap_sublist, Hs.
    - eapply topoOrdered_sublist; [exact Hs|exact Hto]. }
  destruct (cmd.dryRun opts).
  - unfold cmd.reportDryRun. cbv zeta.
    safe_step; [safe_step|]. safe_step; [repeat safe_step|].
    safe_step; [safe_step; [apply printSkippedChanges_safe|safe_step]|].
    repeat safe_step.
  - safe_step.
    + safe_step; [|safe_step]. apply sendActive_returns; apply Hactive.
    + safe_step; [|safe_step]. safe_step; [apply printSkippedChanges_safe|safe_step].
Qed.

End NoPanic.

(** X18.  Whatever jj and GitHub answer and whatever the options are,
    [executeSend] ends normally or with an error: none of its lookups,
    slice accesses or uses of a PR panics. *)
Theorem executeSend_never_panics `{go.Unicode} `{jj.Decoders} {W : Type}
    (runner : jj.Runner W) (client : github.Service W) (opts : cmd.sendOpts)
    (st : go.state W cmd.event) :
  (cmd.executeSend runner client opts st).2 = go.Ret tt \/
  exists e, (cmd.executeSend runner client opts st).2 = go.Raise e.
Proof.
  pose proof (executeSend_returns runner client opts st) as Hr.
  destruct (cmd.executeSend runner client opts st).2 as [[]|e| |];
    [left; reflexivity|right; eauto|contradiction|contradiction].
Qed.

(** ** BookmarkAssigner: generated names do not collide *)

Section Names.

Lemma slug_prefix_inj (a b x y : string) :
  go.allBytes slugByte a = true -> go.allBytes slugByte b = true ->
  a +:+ "/" +:+ x = b +:+ "/" +:+ y -> a = b /\ x = y.
Proof.
  revert b. induction a as [|c a IH]; intros [|d b] Ha Hb Heq.
  - change (String "/" x = String "/" y) in Heq. injection Heq as Heq. auto.
  - change (String "/" x = String d (b +:+ "/" +:+ y)) in Heq. injection Heq as Hd _.
    subst d. discriminate.
  - change (String c (a +:+ "/" +:+ x) = String "/" y) in Heq. injection Heq as Hc _.
    subst c. discriminate.
  - change (String c (a +:+ "/" +:+ x) = String d (b +:+ "/" +:+ y)) in Heq.
    injection Heq as Hc Heq. subst d. simpl in Ha, Hb.
    apply andb_true_iff in Ha as [_ Ha]. apply andb_true_iff in Hb as [_ Hb].
    destruct (IH b Ha Hb Heq) as [Hab Hxy]. subst. auto.
Qed.

Context `{go.Unicode}.

Lemma slugOrDefault_bytes (description : string) :
  go.allBytes slugByte (if String.eqb (jj.slugify description) "" then "change"
                        else jj.slugify description) = true.
Proof.
  destruct (String.eqb (jj.slugify description) ""); [reflexivity|].
  destruct (slugify_shape description) as (_ & [Ha _] & _). exact Ha.
Qed.

End Names.

(** X19.  Generated bookmark names do not collide: whatever the
    descriptions are, two different short change ids never give the same
    name (a slug holds no [/], so the id is what follows the second [/]). *)
Theorem GenerateBookmarkName_distinct `{go.Unicode} (d1 d2 id1 id2 : string) :
  id1 <> id2 -> jj.GenerateBookmarkName d1 id1 <> jj.GenerateBookmarkName d2 id2.
Proof.
  intros Hne Heq. unfold jj.GenerateBookmarkName in Heq. cbv zeta in Heq.
  injection Heq as Heq.
  apply slug_prefix_inj in Heq as [_ Heq]; [exact (Hne Heq)| |]; apply slugOrDefault_bytes.
Qed.

Lemma GenerateBookmarkName_distinct_witness :
  "kxyzkxyz" <> "mnopmnop" /\
  jj.GenerateBookmarkName (H := asciiOnly) "fix: typo" "kxyzkxyz"
  <> jj.GenerateBookmarkName (H := asciiOnly) "fix: typo" "mnopmnop".
Proof.
  split; [discriminate|].
  apply (GenerateBookmarkName_distinct (H := asciiOnly) "fix: typo" "fix: typo"
           "kxyzkxyz" "mnopmnop").
  discriminate.
Defined.

(** ** BodyComposer: the sections of an interdiff *)

Section Sections.

Lemma TrimRightByte_last (c : ascii) (s : string) :
  lastByte (go.TrimRightByte c s) <> Some c.
Proof.
  induction s as [|a s IH]; simpl; [discriminate|].
  destruct (go.TrimRightByte c s) as [|b t] eqn:E; simpl.
  - destruct (Ascii.eqb_spec a c) as [->|Hne]; [discriminate|].
    unfold lastByte. simpl. congruence.
  - rewrite lastByte_cons. exact IH.
Qed.

Lemma flushCurrent_headers (files : list github.fileDiff) (current : option github.fileDiff) :
  map github.header (github.flushCurrent files current)
  = map github.header files ++ match current with Some cur => [github.header cur] | None => [] end.
Proof.
  destruct current as [cur|]; simpl; [|rewrite app_nil_r; reflexivity].
  rewrite map_app. reflexivity.
Qed.

Lemma flushCurrent_trimmed (files : list github.fileDiff) (current : option github.fileDiff) :
  Forall (fun f => lastByte (github.body f) <> Some (ascii_of_nat 10)) files ->
  Forall (fun f => lastByte (github.body f) <> Some (ascii_of_nat 10))
         (github.flushCurrent files current).
Proof.
  intros Hf. destruct current as [cur|]; simpl; [|exact Hf].
  apply Forall_app. split; [exact Hf|]. constructor; [|constructor].
  simpl. apply TrimRightByte_last.
Qed.

Lemma parseLine_sections (lines : list string) :
  forall (files : list github.fileDiff) (current : option github.fileDiff),
    Forall (fun f => lastByte (github.body f) <> Some (ascii_of_nat 10)) files ->
    let '(files', current') := foldl github.parseLine (files, current) lines in
    map github.header (github.flushCurrent files' current')
    = map github.header (github.flushCurrent files current)
      ++ map headerPath (List.filter isFileHeader lines) /\
    Forall (fun f => lastByte (github.body f) <> Some (ascii_of_nat 10)) files'.
Proof.
  induction lines as [|line lines IH]; intros files current Hf.
  - simpl. rewrite app_nil_r. split; [reflexivity|exact Hf].
  - cbn [foldl List.filter].
    assert (Hstep : github.parseLine (files, current) line
                    = if isFileHeader line
                      then (github.flushCurrent files current,
                            Some (github.mkFileDiff (headerPath line) ""))
                      else match current with
                           | Some cur => (files, Some (github.mkFileDiff (github.header cur)
                                                   (github.body cur +:+ line +:+ github.nl)))
                           | None => (files, current)
                           end).
    { unfold github.parseLine, isFileHeader, headerPath.
      destruct (go.HasPrefix line "diff --git "); [reflexivity|].
      destruct current; reflexivity. }
    rewrite Hstep. clear Hstep.
    destruct (isFileHeader line).
    + specialize (IH (github.flushCurrent files current)
                     (Some (github.mkFileDiff (headerPath line) ""))
                     (flushCurrent_trimmed files current Hf)).
      destruct (foldl _ _ lines) as [files' current']. destruct IH as [IH1 IH2].
      split; [|exact IH2]. rewrite IH1. cbn [github.flushCurrent github.header].
      rewrite map_app, <- app_assoc. reflexivity.
    + destruct current as [cur|].
      * specialize (IH files (Some (github.mkFileDiff (github.header cur)
                                      (github.body cur +:+ line +:+ github.nl))) Hf).
        destruct (foldl _ _ lines) as [files' current']. destruct IH as [IH1 IH2].
        split; [|exact IH2]. rewrite IH1, !flushCurrent_headers. reflexivity.
      * specialize (IH files None Hf).
        destruct (foldl _ _ lines) as [files' current']. exact IH.
Qed.

End Sections.

(** X20.  [parseGitDiff] yields one section per line that starts with
    [diff --git ], in the order of the diff; the header of a section is the
    text after the first [" b/"] of its line (the whole line when there is
    none), and no body ends with a newline.  So a text without such a line
    has no section. *)
Theorem parseGitDiff_sections (diff : string) :
  let lines := go.SplitByte (ascii_of_nat 10) diff in
  map github.header (github.parseGitDiff diff)
  = map headerPath (List.filter isFileHeader lines) /\
  Forall (fun f => lastByte (github.body f) <> Some (ascii_of_nat 10))
         (github.parseGitDiff diff).
Proof.
  intros lines. unfold github.parseGitDiff. fold lines.
  pose proof (parseLine_sections lines [] None (Forall_nil_2 _)) as G.
  destruct (foldl github.parseLine ([], None) lines) as [files current].
  destruct G as [G1 G2]. split; [exact G1|]. apply flushCurrent_trimmed, G2.
Qed.
